(** * angel-lsp: scope tables, hoisting, parser cursor, analysis scheduler

    A shallow embedding of the parts of the AngelScript language server that
    its specification makes claims about, followed by the theorems that
    settle those claims.

    Conventions of the embedding.
    - A JavaScript [Map] is an association list in insertion order
      ([JsMap]): [set] on a present key replaces the value in place, on an
      absent key it appends.
    - Objects that the code mutates and shares (scopes, symbols) live in a
      heap, a [list] indexed by reference; allocation appends.
    - Module-level mutable variables (the diagnostic sink, the anonymous
      identifier counter) are fields of an explicit world record.
    - Loops whose termination depends on the data carry a fuel argument and
      return [None] when it runs out; totality is proved separately. *)

From Stdlib Require Import ZArith Lia.
From stdpp Require Import base option list strings pretty gmap.

Open Scope string_scope.
Open Scope list_scope.
Open Scope nat_scope.

Set Warnings "-register-all".

(** ** JavaScript [Map] with string keys *)

Module JsMap.

Definition t (V : Type) : Type := list (string * V).

Fixpoint get {V} (m : t V) (k : string) : option V :=
  match m with
  | [] => None
  | (k', v) :: m' => if String.eqb k' k then Some v else get m' k
  end.

Fixpoint set {V} (m : t V) (k : string) (v : V) : t V :=
  match m with
  | [] => [(k, v)]
  | (k', v') :: m' =>
      if String.eqb k' k then (k, v) :: m' else (k', v') :: set m' k v
  end.

Definition keys {V} (m : t V) : list string := map fst m.
Definition values {V} (m : t V) : list V := map snd m.

End JsMap.

(** ** src/server/src/compile/symbolScopes.ts *)

Module SymbolScopes.

Inductive NodeName :=
| NodeNamespace | NodeEnum | NodeClass | NodeInterface | NodeFunc | NodeOther.

Inductive SymbolKind := KindType | KindVariable | KindFunction.

Record Location := mkLocation {
  path : string;
  startLine : nat; startChar : nat;
  endLine : nat; endChar : nat }.

Record ParsedToken := mkToken { text : string; location : Location }.

(** An AST node that owns a scope.  Nodes are objects; [nodeRef] is the
    object identity that [===] and [!==] compare. *)
Record SymbolOwnerNode := mkNode {
  nodeRef : nat;
  nodeName : NodeName;
  identifier : ParsedToken }.

Record SymbolObject := mkSymbol {
  symbolKind : SymbolKind;
  declaredPlace : ParsedToken }.

Abbreviation Ref := nat (only parsing).

Record SymbolScope := mkScope {
  ownerNode : option SymbolOwnerNode;
  parentScope : option Ref;
  key : string;
  childScopes : JsMap.t Ref;
  symbolMap : JsMap.t SymbolObject }.

Record Diagnostic := mkDiag { diagLocation : Location; diagMessage : string }.

(** The mutable world of the module: the scope objects, the diagnostic sink
    [diagnostic] and the counter [s_uniqueIdentifier]. *)
Record World := mkWorld {
  heap : list SymbolScope;
  diagnostics : list Diagnostic;
  s_uniqueIdentifier : Z }.

Definition setHeap (h : list SymbolScope) (w : World) : World :=
  mkWorld h (diagnostics w) (s_uniqueIdentifier w).

(** [ownerNode !== found.ownerNode]: reference comparison of two possibly
    undefined nodes. *)
Definition sameNode (a b : option SymbolOwnerNode) : bool :=
  match a, b with
  | None, None => true
  | Some x, Some y => Nat.eqb (nodeRef x) (nodeRef y)
  | _, _ => false
  end.

Definition isDefined {A} (o : option A) : bool :=
  match o with Some _ => true | None => false end.

(** State-and-failure monad over the world.  [None] is a dangling reference
    or exhausted fuel; neither happens on a well-formed heap. *)
Definition M (A : Type) : Type := World -> option (A * World).

Definition ret {A} (a : A) : M A := fun w => Some (a, w).
Definition bind {A B} (m : M A) (k : A -> M B) : M B :=
  fun w => match m w with Some (a, w') => k a w' | None => None end.
Definition fail {A} : M A := fun _ => None.

Declare Scope scope_monad.
Delimit Scope scope_monad with sm.
Notation "'let*' x ':=' m 'in' k" := (bind m (fun x => k))
  (at level 10, x pattern, m at level 100, k at level 200, only parsing) : scope_monad.
Notation "m ';;' k" := (bind m (fun _ => k))
  (at level 100, k at level 200, right associativity) : scope_monad.
Open Scope scope_monad.

Definition readScope (r : Ref) : M SymbolScope :=
  fun w => match heap w !! r with Some s => Some (s, w) | None => None end.

Definition writeScope (r : Ref) (s : SymbolScope) : M unit :=
  fun w => if decide (r < length (heap w))
           then Some (tt, setHeap (<[r := s]> (heap w)) w) else None.

Definition alloc (s : SymbolScope) : M Ref :=
  fun w => Some (length (heap w), setHeap (heap w ++ [s]) w).

Definition addError (loc : Location) (msg : string) : M unit :=
  fun w => Some (tt, mkWorld (heap w) (diagnostics w ++ [mkDiag loc msg])
                             (s_uniqueIdentifier w)).

Fixpoint forEach {A} (l : list A) (body : A -> M unit) : M unit :=
  match l with
  | [] => ret tt
  | x :: l' => body x;; forEach l' body
  end.

(** [findScopeShallowly] *)
Definition findScopeShallowly (scope : Ref) (identifier : string) : M (option Ref) :=
  let* s := readScope scope in
  ret (JsMap.get (childScopes s) identifier).

(** [createSymbolScope]: a fresh object with empty maps. *)
Definition createSymbolScope
    (ownerNode : option SymbolOwnerNode) (parentScope : option Ref) (key : string) : M Ref :=
  alloc (mkScope ownerNode parentScope key [] []).

(** [createSymbolScopeAndInsert]; the parent is always supplied at the call
    sites below, the optional chaining [parentScope?.] is the [None] case. *)
Definition createSymbolScopeAndInsert
    (ownerNode : option SymbolOwnerNode) (parentScope : option Ref) (identifier : string) : M Ref :=
  let* scope := createSymbolScope ownerNode parentScope identifier in
  match parentScope with
  | Some p =>
      let* ps := readScope p in
      writeScope p (mkScope (SymbolScopes.ownerNode ps) (SymbolScopes.parentScope ps)
                            (key ps) (JsMap.set (childScopes ps) identifier scope)
                            (symbolMap ps));;
      ret scope
  | None => ret scope
  end.

(** [findScopeShallowlyThenInsertByIdentifier] *)
Definition findScopeShallowlyThenInsertByIdentifier
    (ownerNode : option SymbolOwnerNode) (scope : Ref) (identifier : string) : M Ref :=
  let* s := readScope scope in
  match JsMap.get (childScopes s) identifier with
  | None => createSymbolScopeAndInsert ownerNode (Some scope) identifier
  | Some found =>
      match ownerNode with
      | None => ret found
      | Some _ =>
          let* f := readScope found in
          match SymbolScopes.ownerNode f with
          | None =>
              writeScope found (mkScope ownerNode (parentScope f) (key f)
                                        (childScopes f) (symbolMap f));;
              ret found
          | Some _ => ret found
          end
      end
  end.

(** [findScopeShallowlyOrInsert] *)
Definition findScopeShallowlyOrInsert
    (ownerNode : option SymbolOwnerNode) (scope : Ref) (identifierToken : ParsedToken) : M Ref :=
  let* found := findScopeShallowlyThenInsertByIdentifier ownerNode scope (text identifierToken) in
  let* f := readScope found in
  (if isDefined ownerNode && negb (sameNode ownerNode (SymbolScopes.ownerNode f))
   then addError (location identifierToken)
                 ("Symbol " +:+ text identifierToken +:+ "' is already defined.")
   else ret tt);;
  ret found.

Record CopySymbolOptions := mkCopyOptions {
  targetSrcPath : option string;
  excludeSrcPath : option string }.

(** [s === o] for a string [s] and a possibly undefined string [o]. *)
Definition optEqb (o : option string) (s : string) : bool :=
  match o with Some t => String.eqb s t | None => false end.

(** The symbol filter of the first loop of [copySymbolsInScope]. *)
Definition canCopy (opts : CopySymbolOptions) (symbol : SymbolObject) : bool :=
  let p := path (location (declaredPlace symbol)) in
  let canCopy := true in
  let canCopy :=
    if isDefined (targetSrcPath opts) && negb (optEqb (targetSrcPath opts) p)
    then false else canCopy in
  let canCopy :=
    if isDefined (excludeSrcPath opts) && optEqb (excludeSrcPath opts) p
    then false else canCopy in
  canCopy.

(** The two [continue] conditions of the second loop. *)
Definition skipChild (opts : CopySymbolOptions) (scopePath : option string) : bool :=
  match scopePath with
  | None => false
  | Some sp =>
      if isDefined (targetSrcPath opts) && negb (optEqb (targetSrcPath opts) sp) then true
      else if isDefined (excludeSrcPath opts) && optEqb (excludeSrcPath opts) sp then true
      else false
  end.

Definition setSymbol (dest : Ref) (k : string) (symbol : SymbolObject) : M unit :=
  let* d := readScope dest in
  writeScope dest (mkScope (ownerNode d) (parentScope d) (key d) (childScopes d)
                           (JsMap.set (symbolMap d) k symbol)).

Section Copy.

(** [getPathOfScope] lives in symbolUtils, outside the sources at hand: any
    function of the heap and the scope reference. *)
Variable getPathOfScope : list SymbolScope -> Ref -> option string.

(** [copySymbolsInScope].  The source maps are read when each loop starts;
    the recursion descends the child scopes and is bounded by [fuel]. *)
Fixpoint copySymbolsInScope (fuel : nat)
    (srcScope destScope : Ref) (opts : CopySymbolOptions) : M unit :=
  match fuel with
  | 0 => fail
  | S fuel' =>
      let* src := readScope srcScope in
      forEach (symbolMap src) (fun '(k, symbol) =>
        if canCopy opts symbol then setSymbol destScope k symbol else ret tt);;
      let* src := readScope srcScope in
      forEach (childScopes src) (fun '(k, child) =>
        let* scopePath := (fun w => Some (getPathOfScope (heap w) child, w)) in
        if skipChild opts scopePath then ret tt
        else
          let* c := readScope child in
          let* destChild := findScopeShallowlyThenInsertByIdentifier (ownerNode c) destScope k in
          copySymbolsInScope fuel' child destChild opts)
  end.

(** [class AnalyzedScope]; the object is passed and returned by value, its
    field [pureBuffer] holds a reference into the heap. *)
Record AnalyzedScope := mkAnalyzed {
  analyzedPath : string;
  fullScope : Ref;
  pureBuffer : option Ref }.

(** [new AnalyzedScope(path, full)] leaves [pureBuffer] undefined. *)
Definition newAnalyzedScope (path : string) (full : Ref) : AnalyzedScope :=
  mkAnalyzed path full None.

(** [get pureScope()] *)
Definition pureScope (fuel : nat) (this : AnalyzedScope) : M (Ref * AnalyzedScope) :=
  match pureBuffer this with
  | Some r => ret (r, this)
  | None =>
      let* full := readScope (fullScope this) in
      let* buf := createSymbolScope (ownerNode full) (parentScope full) (key full) in
      copySymbolsInScope fuel (fullScope this) buf
        (mkCopyOptions (Some (analyzedPath this)) None);;
      ret (buf, mkAnalyzed (analyzedPath this) (fullScope this) (Some buf))
  end.

End Copy.

(** Increment of a JavaScript number holding an integer: exact below [2^53],
    and [2^53 + 1] rounds back to [2^53]. *)
Definition jsIncrement (n : Z) : Z := if (n <? 2 ^ 53)%Z then (n + 1)%Z else n.

(** [createAnonymousIdentifier] *)
Definition createAnonymousIdentifier : M string :=
  fun w =>
    let n := jsIncrement (s_uniqueIdentifier w) in
    Some ("~" +:+ pretty n, mkWorld (heap w) (diagnostics w) n).

(** [isAnonymousIdentifier] *)
Definition isAnonymousIdentifier (identifier : string) : bool :=
  String.prefix "~" identifier.

(** [isSymbolConstructorInScope] on a symbol and the scope object holding it. *)
Definition isSymbolConstructorInScope (symbol : option SymbolObject) (scope : SymbolScope) : bool :=
  match symbol, ownerNode scope with
  | Some sym, Some node =>
      match symbolKind sym, nodeName node with
      | KindFunction, NodeClass =>
          String.eqb (text (identifier node)) (text (declaredPlace sym))
      | _, _ => false
      end
  | _, _ => false
  end.

(** [collectParentScopes]: the loop, with the [result] pushed so far and the
    scope [current]. *)
Fixpoint collectParentScopes_loop (fuel : nat) (result : list Ref) (current : Ref)
    : M (list Ref) :=
  match fuel with
  | 0 => fail
  | S fuel' =>
      let* c := readScope current in
      match parentScope c with
      | None => ret result
      | Some p => collectParentScopes_loop fuel' (result ++ [p]) p
      end
  end.

Definition collectParentScopes (fuel : nat) (scope : Ref) : M (list Ref) :=
  collectParentScopes_loop fuel [] scope.

(** [findScopeWithParent] *)
Fixpoint findScopeWithParent (fuel : nat) (scope : Ref) (identifier : string)
    : M (option Ref) :=
  match fuel with
  | 0 => fail
  | S fuel' =>
      let* s := readScope scope in
      match JsMap.get (childScopes s) identifier with
      | Some child => ret (Some child)
      | None =>
          match parentScope s with
          | None => ret None
          | Some p => findScopeWithParent fuel' p identifier
          end
      end
  end.

(** [nodeCandidates.includes(nodeName)] *)
Definition NodeName_eqb (a b : NodeName) : bool :=
  match a, b with
  | NodeNamespace, NodeNamespace | NodeEnum, NodeEnum | NodeClass, NodeClass
  | NodeInterface, NodeInterface | NodeFunc, NodeFunc | NodeOther, NodeOther => true
  | _, _ => false
  end.

Definition includesNode (nodeCandidates : list NodeName) (n : NodeName) : bool :=
  existsb (NodeName_eqb n) nodeCandidates.

(** [findScopeWithParentByNodes] *)
Fixpoint findScopeWithParentByNodes (fuel : nat) (scope : Ref) (nodeCandidates : list NodeName)
    : M (option Ref) :=
  match fuel with
  | 0 => fail
  | S fuel' =>
      let* s := readScope scope in
      if match ownerNode s with
         | Some node => includesNode nodeCandidates (nodeName node)
         | None => false
         end
      then ret (Some scope)
      else
        match parentScope s with
        | None => ret None
        | Some p => findScopeWithParentByNodes fuel' p nodeCandidates
        end
  end.

(** [findGlobalScope] *)
Fixpoint findGlobalScope (fuel : nat) (scope : Ref) : M Ref :=
  match fuel with
  | 0 => fail
  | S fuel' =>
      let* s := readScope scope in
      match parentScope s with
      | None => ret scope
      | Some p => findGlobalScope fuel' p
      end
  end.

(** [isScopeChildOrGrandchild]; [parentScope === childScope] compares the
    two references. *)
Fixpoint isScopeChildOrGrandchild (fuel : nat) (childScope parentScope : Ref) : M bool :=
  match fuel with
  | 0 => fail
  | S fuel' =>
      if Nat.eqb parentScope childScope then ret true
      else
        let* c := readScope childScope in
        match SymbolScopes.parentScope c with
        | None => ret false
        | Some p => isScopeChildOrGrandchild fuel' p parentScope
        end
  end.

End SymbolScopes.

(** ** src/unnamed/part_000: the recursive-descent parser *)

Module Parser.

Inductive HighlightToken :=
| HlVariable | HlOperator | HlKeyword | HlType | HlBuiltin | HlOther (n : nat).

Definition HighlightModifier := nat.

Record Highlight := mkHighlight {
  hlToken : HighlightToken;
  hlModifier : HighlightModifier }.

Record Location := mkLocation { line : nat; column : nat }.

Record TokenObject := mkToken {
  kind : string;
  text : string;
  location : Location;
  highlight : Highlight }.

(** [class ReadingState] *)
Record ReadingState := mkReading {
  tokens : list TokenObject;
  pos : nat }.

(** JavaScript array read [a[i]]: [undefined] outside [0 .. length - 1]. *)
Definition arrayGet {A} (a : list A) (i : Z) : option A :=
  if (i <? 0)%Z then None else a !! Z.to_nat i.

(** [isEnd] *)
Definition isEnd (this : ReadingState) : bool :=
  (length (tokens this) <=? pos this)%nat.

(** The index that [next] reads. *)
Definition nextIndex (this : ReadingState) : Z :=
  if (length (tokens this) <=? pos this)%nat
  then (Z.of_nat (length (tokens this)) - 1)%Z
  else Z.of_nat (pos this).

(** [next]: the token read, [None] for [undefined]. *)
Definition next (this : ReadingState) : option TokenObject :=
  arrayGet (tokens this) (nextIndex this).

(** [step] *)
Definition step (this : ReadingState) : ReadingState :=
  mkReading (tokens this) (pos this + 1).

(** The parser's world: the one [ReadingState] object that every parse
    function receives, and the diagnostic sink. *)
Record PState := mkPState {
  reading : ReadingState;
  diagnostics : list (Location * string) }.

(** Outcome of a parse function: a value and the new world, a read of an
    [undefined] token, or exhausted fuel. *)
Inductive Outcome (A : Type) :=
| Done (a : A) (s : PState)
| OutOfRange
| OutOfFuel.
Arguments Done {A} a s.
Arguments OutOfRange {A}.
Arguments OutOfFuel {A}.

Definition P (A : Type) : Type := PState -> Outcome A.

Definition ret {A} (a : A) : P A := fun s => Done a s.
Definition bind {A B} (m : P A) (k : A -> P B) : P B :=
  fun s => match m s with
           | Done a s' => k a s'
           | OutOfRange => OutOfRange
           | OutOfFuel => OutOfFuel
           end.
Definition outOfFuel {A} : P A := fun _ => OutOfFuel.

Declare Scope parser_monad.
Notation "'let*' x ':=' m 'in' k" := (bind m (fun x => k))
  (at level 10, x pattern, m at level 100, k at level 200, only parsing) : parser_monad.
Notation "m ';;' k" := (bind m (fun _ => k))
  (at level 100, k at level 200, right associativity) : parser_monad.
Open Scope parser_monad.

(** [reading.next()] used as a token. *)
Definition rNext : P TokenObject :=
  fun s => match next (reading s) with
           | Some t => Done t s
           | None => OutOfRange
           end.

(** A node holds the token objects of the token array themselves, and
    [confirm] assigns to the highlight of these objects: in the model a node
    holds the index that the object has in the array. *)
Definition TokenRef := nat.

(** [reading.next()] used as an object to keep. *)
Definition rNextRef : P TokenRef :=
  fun s => match next (reading s) with
           | Some _ => Done (Z.to_nat (nextIndex (reading s))) s
           | None => OutOfRange
           end.

Definition rIsEnd : P bool := fun s => Done (isEnd (reading s)) s.

Definition rStep : P unit :=
  fun s => Done tt (mkPState (step (reading s)) (diagnostics s)).

Definition addError (loc : Location) (msg : string) : P unit :=
  fun s => Done tt (mkPState (reading s) (diagnostics s ++ [(loc, msg)])).

(** Assignment to the [highlight] fields of the token object that [next]
    returned; the object stays where it is in the token array. *)
Definition setHighlight (analyzeToken : HighlightToken)
    (analyzedModifier : option HighlightModifier) : P unit :=
  fun s =>
    let r := reading s in
    match next r with
    | None => OutOfRange
    | Some t =>
        let m := match analyzedModifier with
                 | Some m => m
                 | None => hlModifier (highlight t) end in
        let t' := mkToken (kind t) (text t) (location t) (mkHighlight analyzeToken m) in
        Done tt (mkPState (mkReading (<[Z.to_nat (nextIndex r) := t']> (tokens r)) (pos r))
                          (diagnostics s))
    end.

(** [confirm] *)
Definition confirm (analyzeToken : HighlightToken)
    (analyzedModifier : option HighlightModifier) : P unit :=
  setHighlight analyzeToken analyzedModifier;;
  rStep.

(** [expect] *)
Definition expect (word : string) (analyzeToken : HighlightToken) : P bool :=
  let* e := rIsEnd in
  if e then
    let* t := rNext in
    addError (location t) "Unexpected end of file";;
    ret false
  else
    let* t := rNext in
    if negb (String.eqb (kind t) "reserved") then
      let* t := rNext in
      addError (location t) "Expected reserved word";;
      ret false
    else
      let* t := rNext in
      if negb (String.eqb (text t) word) then
        let* t := rNext in
        addError (location t) ("Expected reserved word " +:+ word);;
        ret false
      else
        confirm analyzeToken None;;
        ret true.

(** [TriedParse<T>] *)
Inductive TriedParse (T : Type) := Mismatch | Pending | Parsed (t : T).
Arguments Mismatch {T}.
Arguments Pending {T}.
Arguments Parsed {T} t.

(** AST nodes, with the constructor arguments in the order of the calls. *)
Inductive NodeDATATYPE := mkDATATYPE (identifier : TokenRef).

Record NodeTYPE := mkTYPE {
  typeIsConst : bool;
  typeScope : option unit;
  typeDatatype : NodeDATATYPE;
  typeGenerics : list unit;
  typeIsArray : bool;
  typeIsRef : bool }.

Inductive NodeEXPRTERM2 :=
  mkEXPRTERM2 (pre : option TokenRef) (value : TokenRef) (stop : option TokenRef).

Inductive NodeEXPR :=
  mkEXPR (head : NodeEXPRTERM2) (op : option TokenRef) (tail : option NodeEXPR).

Inductive NodeCONDITION :=
  mkCONDITION (expr : NodeEXPR) (ta : option unit) (fa : option unit).

Inductive NodeASSIGN :=
  mkASSIGN (condition : NodeCONDITION) (op : option TokenRef) (assign : option NodeASSIGN).

Inductive NodeVAR := mkVAR (type : NodeTYPE) (identifier : TokenRef) (expr : NodeEXPR).

Inductive NodeSTATEMENT :=
| NodeIF (condition : NodeASSIGN) (ts : NodeSTATEMENT) (fs : option NodeSTATEMENT)
| NodeFOR (initial : NodeASSIGN + NodeVAR) (condition : NodeASSIGN)
          (increment : list NodeASSIGN) (statement : NodeSTATEMENT)
| NodeWHILE (assign : NodeASSIGN) (statement : NodeSTATEMENT)
| NodeRETURN (assign : NodeASSIGN)
| NodeSTATBLOCK (statements : list (NodeSTATEMENT + NodeVAR))
| NodeBREAK
| NodeCONTINUE
| NodeDOWHILE (statement : NodeSTATEMENT) (assign : NodeASSIGN)
| NodeSWITCH (assign : NodeASSIGN) (cases : list NodeCASE)
with NodeCASE :=
| mkCASE (expr : option NodeEXPR) (statements : list NodeSTATEMENT).

Definition StatBlock := list (NodeSTATEMENT + NodeVAR).
Definition NodePARAMLIST := list (NodeTYPE * option TokenRef).

Record NodeFunc := mkFunc {
  funcEntity : list unit;
  funcAccessor : option unit;
  funcRet : NodeTYPE;
  funcRef : option unit;
  funcIdentifier : TokenRef;
  funcParamlist : NodePARAMLIST;
  funcIsConst : bool;
  funcAttr : option unit;
  funcStatblock : StatBlock }.

Inductive NodeScript := mkScript (funcs : list NodeFunc).

Definition includes (l : list string) (s : string) : bool :=
  existsb (String.eqb s) l.

(** [parseDATATYPE] *)
Definition parseDATATYPE : P (option NodeDATATYPE) :=
  let* next := rNextRef in
  let* t := rNext in
  (if String.eqb (kind t) "identifier" then confirm HlType None
   else confirm HlBuiltin None);;
  ret (Some (mkDATATYPE next)).

(** [parseTYPE] *)
Definition parseTYPE : P (option NodeTYPE) :=
  let* datatype := parseDATATYPE in
  match datatype with
  | None => ret None
  | Some datatype => ret (Some (mkTYPE false None datatype [] false false))
  end.

(** [parseEXPRVALUE] *)
Definition parseEXPRVALUE : P (option TokenRef) :=
  let* next := rNextRef in
  let* t := rNext in
  if String.eqb (kind t) "reserved" then ret None
  else rStep;; ret (Some next).

(** [parseEXPRTERM2] *)
Definition parseEXPRTERM2 : P (option NodeEXPRTERM2) :=
  let preops := ["-"; "+"; "!"; "++"; "--"; "~"; "@"] in
  let* t := rNext in
  let* pre :=
    (if includes preops (text t) then
       let* p := rNextRef in confirm HlOperator None;; ret (Some p)
     else ret None) in
  let* exprvalue := parseEXPRVALUE in
  match exprvalue with
  | None => ret None
  | Some exprvalue =>
      let opstops := ["."; "["; "("; "++"; "--"] in
      let* t := rNext in
      let* stop :=
        (if includes opstops (text t) then
           let* p := rNextRef in confirm HlOperator None;; ret (Some p)
         else ret None) in
      ret (Some (mkEXPRTERM2 pre exprvalue stop))
  end.

(** [parseEXPRTERM] *)
Definition parseEXPRTERM : P (option NodeEXPRTERM2) :=
  let* exprterm2 := parseEXPRTERM2 in
  match exprterm2 with
  | Some e => ret (Some e)
  | None => ret None
  end.

(** [parseEXPROP] *)
Definition parseEXPROP : P (option TokenRef) :=
  let candidates :=
    ["+"; "-"; "*"; "/"; "%"; "**";
     "=="; "!="; "<"; "<="; ">"; ">="; "is";
     "&&"; "||"; "^^"; "and"; "or"; "xor";
     "&"; "|"; "^"; "<<"; ">>"; ">>>"] in
  let* t := rNext in
  if negb (includes candidates (text t)) then ret None
  else
    let* next := rNextRef in
    confirm HlOperator None;;
    ret (Some next).

(** [parseASSIGNOP] *)
Definition parseASSIGNOP : P (option TokenRef) :=
  let candidates :=
    ["="; "+="; "-="; "*="; "/="; "|="; "&="; "^="; "%="; "**="; "<<="; ">>="; ">>>="] in
  let* t := rNext in
  if negb (includes candidates (text t)) then ret None
  else
    let* next := rNextRef in
    confirm HlOperator None;;
    ret (Some next).

(** [parseEXPR] *)
Fixpoint parseEXPR (fuel : nat) : P (option NodeEXPR) :=
  match fuel with
  | 0 => outOfFuel
  | S fuel' =>
      let* exprterm := parseEXPRTERM in
      match exprterm with
      | None => ret None
      | Some exprterm =>
          let* exprop := parseEXPROP in
          match exprop with
          | None => ret (Some (mkEXPR exprterm None None))
          | Some exprop =>
              let* tail := parseEXPR fuel' in
              ret (Some (mkEXPR exprterm (Some exprop) tail))
          end
      end
  end.

(** [parseCONDITION] *)
Definition parseCONDITION (fuel : nat) : P (option NodeCONDITION) :=
  let* expr := parseEXPR fuel in
  match expr with
  | None => ret None
  | Some expr => ret (Some (mkCONDITION expr None None))
  end.

(** [parseASSIGN] *)
Fixpoint parseASSIGN (fuel : nat) : P (option NodeASSIGN) :=
  match fuel with
  | 0 => outOfFuel
  | S fuel' =>
      let* condition := parseCONDITION fuel' in
      match condition with
      | None => ret None
      | Some condition =>
          let* op := parseASSIGNOP in
          match op with
          | None => ret (Some (mkASSIGN condition None None))
          | Some op =>
              let* assign := parseASSIGN fuel' in
              ret (Some (mkASSIGN condition (Some op) assign))
          end
      end
  end.

(** [parseEXPRSTAT] *)
Definition parseEXPRSTAT (fuel : nat) : P (option NodeASSIGN) :=
  let* t := rNext in
  if String.eqb (text t) ";" then rStep;; ret None
  else
    let* assign := parseASSIGN fuel in
    match assign with
    | None => ret None
    | Some assign => expect ";" HlOperator;; ret (Some assign)
    end.

(** [parseRETURN] *)
Definition parseRETURN (fuel : nat) : P (TriedParse NodeSTATEMENT) :=
  let* t := rNext in
  if negb (String.eqb (text t) "return") then ret Mismatch
  else
    rStep;;
    let* assign := parseASSIGN fuel in
    match assign with
    | None =>
        let* t := rNext in
        addError (location t) "Expected expression";;
        ret Pending
    | Some assign => expect ";" HlOperator;; ret (Parsed (NodeRETURN assign))
    end.

(** [parseVAR] *)
Definition parseVAR (fuel : nat) : P (option NodeVAR) :=
  let* type := parseTYPE in
  match type with
  | None => ret None
  | Some type =>
      let* identifier := rNextRef in
      confirm HlVariable None;;
      expect "=" HlOperator;;
      let* expr := parseEXPR fuel in
      match expr with
      | None =>
          let* t := rNext in
          addError (location t) "Expected expression";;
          ret None
      | Some expr => expect ";" HlOperator;; ret (Some (mkVAR type identifier expr))
      end
  end.

(** [parseBREAK] *)
Definition parseBREAK : P (option unit) :=
  let* t := rNext in
  if negb (String.eqb (text t) "break") then ret None
  else rStep;; expect ";" HlOperator;; ret (Some tt).

(** [parseCONTINUE] *)
Definition parseCONTINUE : P (option unit) :=
  let* t := rNext in
  if negb (String.eqb (text t) "continue") then ret None
  else rStep;; expect ";" HlOperator;; ret (Some tt).

(** The [for (;;)] loop of [parsePARAMLIST]. *)
Fixpoint parsePARAMLIST_loop (fuel : nat) (params : NodePARAMLIST) : P NodePARAMLIST :=
  match fuel with
  | 0 => outOfFuel
  | S fuel' =>
      let* e := rIsEnd in
      let* stop := (if e then ret true
                    else let* t := rNext in ret (String.eqb (text t) ")")) in
      if stop then ret params
      else
        let* comma := (if (0 <? length params)%nat then expect "," HlOperator else ret true) in
        if negb comma then ret params
        else
          let* type := parseTYPE in
          match type with
          | None => ret params
          | Some type =>
              let* t := rNext in
              if String.eqb (kind t) "identifier" then
                let* id := rNextRef in
                rStep;;
                parsePARAMLIST_loop fuel' (params ++ [(type, Some id)])
              else parsePARAMLIST_loop fuel' (params ++ [(type, None)])
          end
  end.

(** [parsePARAMLIST] *)
Definition parsePARAMLIST (fuel : nat) : P NodePARAMLIST :=
  expect "(" HlOperator;;
  let* params := parsePARAMLIST_loop fuel [] in
  expect ")" HlOperator;;
  ret params.

(** The increment loop of [parseFOR]. *)
Fixpoint parseFOR_increment (fuel : nat) (increment : list NodeASSIGN) : P (list NodeASSIGN) :=
  match fuel with
  | 0 => outOfFuel
  | S fuel' =>
      let* go :=
        (if (0 <? length increment)%nat then
           let* t := rNext in
           if negb (String.eqb (text t) ",") then ret false
           else rStep;; ret true
         else ret true) in
      if negb go then ret increment
      else
        let* assign := parseASSIGN fuel' in
        match assign with
        | None => ret increment
        | Some assign => parseFOR_increment fuel' (increment ++ [assign])
        end
  end.

Definition isMismatchOrPending {T} (r : TriedParse T) : bool :=
  match r with Parsed _ => false | _ => true end.

(** [parseSTATEMENT] and the functions it is mutually recursive with.  Each
    call and each loop iteration takes one unit of fuel. *)
Fixpoint parseSTATEMENT (fuel : nat) : P (TriedParse NodeSTATEMENT) :=
  match fuel with
  | 0 => outOfFuel
  | S fuel' =>
      let* if_ := parseIF fuel' in
      match if_ with
      | Pending => ret Pending
      | Parsed n => ret (Parsed n)
      | Mismatch =>
      let* for_ := parseFOR fuel' in
      match for_ with
      | Pending => ret Pending
      | Parsed n => ret (Parsed n)
      | Mismatch =>
      let* while_ := parseWHILE fuel' in
      match while_ with
      | Pending => ret Pending
      | Parsed n => ret (Parsed n)
      | Mismatch =>
      let* return_ := parseRETURN fuel' in
      match return_ with
      | Pending => ret Pending
      | Parsed n => ret (Parsed n)
      | Mismatch =>
      let* statblock := parseSTATBLOCK fuel' in
      match statblock with
      | Some b => ret (Parsed (NodeSTATBLOCK b))
      | None =>
      let* break_ := parseBREAK in
      match break_ with
      | Some _ => ret (Parsed NodeBREAK)
      | None =>
      let* continue_ := parseCONTINUE in
      match continue_ with
      | Some _ => ret (Parsed NodeCONTINUE)
      | None =>
      let* dowhile := parseDOWHILE fuel' in
      match dowhile with
      | Pending => ret Pending
      | Parsed n => ret (Parsed n)
      | Mismatch =>
      let* switch_ := parseSWITCH fuel' in
      match switch_ with
      | Pending => ret Pending
      | Parsed n => ret (Parsed n)
      | Mismatch => ret Mismatch
      end end end end end end end end end
  end

(** [parseSWITCH] *)
with parseSWITCH (fuel : nat) : P (TriedParse NodeSTATEMENT) :=
  match fuel with
  | 0 => outOfFuel
  | S fuel' =>
      let* t := rNext in
      if negb (String.eqb (text t) "switch") then ret Mismatch
      else
        rStep;;
        expect "(" HlOperator;;
        let* assign := parseASSIGN fuel' in
        match assign with
        | None =>
            let* t := rNext in
            addError (location t) "Expected expression";;
            ret Pending
        | Some assign =>
            expect ")" HlOperator;;
            expect "{" HlOperator;;
            let* cases := parseSWITCH_loop fuel' [] in
            expect "}" HlOperator;;
            ret (Parsed (NodeSWITCH assign cases))
        end
  end

with parseSWITCH_loop (fuel : nat) (cases : list NodeCASE) : P (list NodeCASE) :=
  match fuel with
  | 0 => outOfFuel
  | S fuel' =>
      let* e := rIsEnd in
      let* stop := (if e then ret true
                    else let* t := rNext in ret (String.eqb (text t) "}")) in
      if stop then ret cases
      else
        let* case_ := parseCASE fuel' in
        match case_ with
        | Mismatch => ret cases
        | Pending => parseSWITCH_loop fuel' cases
        | Parsed c => parseSWITCH_loop fuel' (cases ++ [c])
        end
  end

(** [parseFOR] *)
with parseFOR (fuel : nat) : P (TriedParse NodeSTATEMENT) :=
  match fuel with
  | 0 => outOfFuel
  | S fuel' =>
      let* t := rNext in
      if negb (String.eqb (text t) "for") then ret Mismatch
      else
        rStep;;
        expect "(" HlOperator;;
        let* exprstat := parseEXPRSTAT fuel' in
        let* initial :=
          (match exprstat with
           | Some a => ret (Some (inl a))
           | None =>
               let* v := parseVAR fuel' in
               ret (match v with Some v => Some (inr v) | None => None end)
           end) in
        match initial with
        | None =>
            let* t := rNext in
            addError (location t) "Expected initial expression or variable declaration";;
            ret Pending
        | Some initial =>
            let* condition := parseEXPRSTAT fuel' in
            match condition with
            | None =>
                let* t := rNext in
                addError (location t) "Expected condition expression";;
                ret Pending
            | Some condition =>
                let* increment := parseFOR_increment fuel' [] in
                expect ")" HlOperator;;
                let* statement := parseSTATEMENT fuel' in
                match statement with
                | Parsed statement =>
                    ret (Parsed (NodeFOR initial condition increment statement))
                | _ => ret Pending
                end
            end
        end
  end

(** [parseWHILE] *)
with parseWHILE (fuel : nat) : P (TriedParse NodeSTATEMENT) :=
  match fuel with
  | 0 => outOfFuel
  | S fuel' =>
      let* t := rNext in
      if negb (String.eqb (text t) "while") then ret Mismatch
      else
        rStep;;
        expect "(" HlOperator;;
        let* assign := parseASSIGN fuel' in
        match assign with
        | None =>
            let* t := rNext in
            addError (location t) "Expected condition expression";;
            ret Pending
        | Some assign =>
            expect ")" HlOperator;;
            let* statement := parseSTATEMENT fuel' in
            match statement with
            | Parsed statement => ret (Parsed (NodeWHILE assign statement))
            | _ =>
                let* t := rNext in
                addError (location t) "Expected statement";;
                ret Pending
            end
        end
  end

(** [parseDOWHILE] *)
with parseDOWHILE (fuel : nat) : P (TriedParse NodeSTATEMENT) :=
  match fuel with
  | 0 => outOfFuel
  | S fuel' =>
      let* t := rNext in
      if negb (String.eqb (text t) "do") then ret Mismatch
      else
        rStep;;
        let* statement := parseSTATEMENT fuel' in
        match statement with
        | Parsed statement =>
            expect "while" HlKeyword;;
            expect "(" HlOperator;;
            let* assign := parseASSIGN fuel' in
            match assign with
            | None =>
                let* t := rNext in
                addError (location t) "Expected condition expression";;
                ret Pending
            | Some assign =>
                expect ")" HlOperator;;
                expect ";" HlOperator;;
                ret (Parsed (NodeDOWHILE statement assign))
            end
        | _ =>
            let* t := rNext in
            addError (location t) "Expected statement";;
            ret Pending
        end
  end

(** [parseIF] *)
with parseIF (fuel : nat) : P (TriedParse NodeSTATEMENT) :=
  match fuel with
  | 0 => outOfFuel
  | S fuel' =>
      let* t := rNext in
      if negb (String.eqb (text t) "if") then ret Mismatch
      else
        rStep;;
        expect "(" HlOperator;;
        let* assign := parseASSIGN fuel' in
        match assign with
        | None =>
            let* t := rNext in
            addError (location t) "Expected condition expression";;
            ret Pending
        | Some assign =>
            expect ")" HlOperator;;
            let* ts := parseSTATEMENT fuel' in
            match ts with
            | Parsed ts =>
                let* t := rNext in
                if String.eqb (text t) "else" then
                  let* fs := parseSTATEMENT fuel' in
                  match fs with
                  | Parsed fs => ret (Parsed (NodeIF assign ts (Some fs)))
                  | _ =>
                      let* t := rNext in
                      addError (location t) "Expected statement";;
                      ret (Parsed (NodeIF assign ts None))
                  end
                else ret (Parsed (NodeIF assign ts None))
            | _ => ret Pending
            end
        end
  end

(** [parseCASE] *)
with parseCASE (fuel : nat) : P (TriedParse NodeCASE) :=
  match fuel with
  | 0 => outOfFuel
  | S fuel' =>
      let* t := rNext in
      let* head :=
        (if String.eqb (text t) "case" then
           rStep;;
           let* expr := parseEXPR fuel' in
           match expr with
           | None =>
               let* t := rNext in
               addError (location t) "Expected expression";;
               ret Pending
           | Some expr => ret (Parsed (Some expr))
           end
         else
           let* t := rNext in
           if String.eqb (text t) "default" then rStep;; ret (Parsed None)
           else ret Mismatch) in
      match head with
      | Mismatch => ret Mismatch
      | Pending => ret Pending
      | Parsed expr =>
          expect ":" HlOperator;;
          let* statements := parseCASE_loop fuel' [] in
          ret (Parsed (mkCASE expr statements))
      end
  end

with parseCASE_loop (fuel : nat) (statements : list NodeSTATEMENT) : P (list NodeSTATEMENT) :=
  match fuel with
  | 0 => outOfFuel
  | S fuel' =>
      let* statement := parseSTATEMENT fuel' in
      match statement with
      | Mismatch => ret statements
      | Pending => parseCASE_loop fuel' statements
      | Parsed st => parseCASE_loop fuel' (statements ++ [st])
      end
  end

(** [parseSTATBLOCK] *)
with parseSTATBLOCK (fuel : nat) : P (option StatBlock) :=
  match fuel with
  | 0 => outOfFuel
  | S fuel' =>
      let* t := rNext in
      if negb (String.eqb (text t) "{") then ret None
      else
        rStep;;
        let* statements := parseSTATBLOCK_loop fuel' [] in
        expect "}" HlKeyword;;
        ret (Some statements)
  end

with parseSTATBLOCK_loop (fuel : nat) (statements : StatBlock) : P StatBlock :=
  match fuel with
  | 0 => outOfFuel
  | S fuel' =>
      let* e := rIsEnd in
      if e then ret statements
      else
        let* t := rNext in
        if String.eqb (text t) "}" then ret statements
        else
          let* statement := parseSTATEMENT fuel' in
          match statement with
          | Pending => rStep;; parseSTATBLOCK_loop fuel' statements
          | Parsed st => parseSTATBLOCK_loop fuel' (statements ++ [inl st])
          | Mismatch =>
              let* var_ := parseVAR fuel' in
              match var_ with
              | Some v => parseSTATBLOCK_loop fuel' (statements ++ [inr v])
              | None => rStep;; parseSTATBLOCK_loop fuel' statements
              end
          end
  end.

(** [parseFUNC] *)
Definition parseFUNC (fuel : nat) : P (option NodeFunc) :=
  let* ret_ := parseTYPE in
  match ret_ with
  | None => ret None
  | Some ret_ =>
      let* identifier := rNextRef in
      rStep;;
      let* paramlist := parsePARAMLIST fuel in
      let* statblock := parseSTATBLOCK fuel in
      let statblock := match statblock with Some b => b | None => [] end in
      ret (Some (mkFunc [] None ret_ None identifier paramlist false None statblock))
  end.

(** The [while] loop of [parseSCRIPT]. *)
Fixpoint parseSCRIPT_loop (fuel : nat) (funcs : list NodeFunc) : P (list NodeFunc) :=
  match fuel with
  | 0 => outOfFuel
  | S fuel' =>
      let* e := rIsEnd in
      if e then ret funcs
      else
        let* func := parseFUNC fuel' in
        match func with
        | None => parseSCRIPT_loop fuel' funcs
        | Some func => parseSCRIPT_loop fuel' (funcs ++ [func])
        end
  end.

(** [parseSCRIPT] *)
Definition parseSCRIPT (fuel : nat) : P NodeScript :=
  let* funcs := parseSCRIPT_loop fuel [] in
  ret (mkScript funcs).

(** [parseFromTokens]: a new [ReadingState] at position [0]; the diagnostic
    sink is the module-level one, passed in. *)
Definition parseFromTokens (fuel : nat) (tokens : list TokenObject)
    (diags : list (Location * string)) : Outcome NodeScript :=
  parseSCRIPT fuel (mkPState (mkReading tokens 0) diags).

End Parser.

(** ** The analysis resolver (third document of multipleNamespaces.spec.ts) *)

Module Resolver.

(** The fields of [PartialInspectRecord] that scheduling reads. *)
Record PartialInspectRecord := mkRecord {
  uri : string;
  isOpen : bool }.

(** An element of the analysis queue; [pushIndirect] and [pushLazyIndirect]
    leave [shouldReanalyze] undefined. *)
Record QueueElement := mkElement {
  record : PartialInspectRecord;
  shouldReanalyze : option bool }.

(** Modelled from the spec: [AnalysisQueue] (analysisQueue.ts is not among the
    sources) is the three priority tiers of section 4.6, each a FIFO;
    [frontPop] serves direct before indirect before lazy-indirect. *)
Record AnalysisQueue := mkQueue {
  directQueue : list QueueElement;
  indirectQueue : list QueueElement;
  lazyIndirectQueue : list QueueElement }.

Definition hasDirect (q : AnalysisQueue) : bool := 0 <? length (directQueue q).
Definition hasIndirect (q : AnalysisQueue) : bool := 0 <? length (indirectQueue q).
Definition hasLazyIndirect (q : AnalysisQueue) : bool := 0 <? length (lazyIndirectQueue q).

Definition pushDirect (e : QueueElement) (q : AnalysisQueue) : AnalysisQueue :=
  mkQueue (directQueue q ++ [e]) (indirectQueue q) (lazyIndirectQueue q).
Definition pushIndirect (e : QueueElement) (q : AnalysisQueue) : AnalysisQueue :=
  mkQueue (directQueue q) (indirectQueue q ++ [e]) (lazyIndirectQueue q).
Definition pushLazyIndirect (e : QueueElement) (q : AnalysisQueue) : AnalysisQueue :=
  mkQueue (directQueue q) (indirectQueue q) (lazyIndirectQueue q ++ [e]).

Definition frontPop (q : AnalysisQueue) : option QueueElement * AnalysisQueue :=
  match directQueue q with
  | e :: d => (Some e, mkQueue d (indirectQueue q) (lazyIndirectQueue q))
  | [] =>
      match indirectQueue q with
      | e :: i => (Some e, mkQueue [] i (lazyIndirectQueue q))
      | [] =>
          match lazyIndirectQueue q with
          | e :: l => (Some e, mkQueue [] [] l)
          | [] => (None, q)
          end
      end
  end.

(** The callback handed to the delayed task; the resolver only ever passes
    the closure that calls [handleAnalyze]. *)
Inductive Callback := CallHandleAnalyze.

(** Modelled from the spec: [DelayedTask] (utils/delayedTask.ts is not among
    the sources) is the "single delayed task": at most one pending callback
    with its wait time in milliseconds; [reschedule] replaces it. *)
Record DelayedTask := mkTask { pending : option (Callback * nat) }.

Definition reschedule (cb : Callback) (waitTime : nat) (t : DelayedTask) : DelayedTask :=
  mkTask (Some (cb, waitTime)).

Definition mediumWaitTime : nat := 500.
Definition shortWaitTime : nat := 100.
Definition veryShortWaitTime : nat := 10.

(** [class AnalysisResolver]: the fields that scheduling touches. *)
Record AnalysisResolver := mkResolver {
  _analyzerTask : DelayedTask;
  _analysisQueue : AnalysisQueue;
  recordList : list (string * PartialInspectRecord) }.

(** [rescheduleAnalyze] *)
Definition rescheduleAnalyze (this : AnalysisResolver) : AnalysisResolver :=
  let waitTime :=
    if hasDirect (_analysisQueue this) then Some veryShortWaitTime
    else if hasIndirect (_analysisQueue this) then Some shortWaitTime
    else if hasLazyIndirect (_analysisQueue this) then Some mediumWaitTime
    else None in
  match waitTime with
  | None => this
  | Some waitTime =>
      mkResolver (reschedule CallHandleAnalyze waitTime (_analyzerTask this))
                 (_analysisQueue this) (recordList this)
  end.

(** [request] *)
Definition request (rec : PartialInspectRecord) (this : AnalysisResolver) : AnalysisResolver :=
  rescheduleAnalyze
    (mkResolver (_analyzerTask this)
                (pushDirect (mkElement rec (Some true)) (_analysisQueue this))
                (recordList this)).

Section Analysis.

(** The scheduling of [popAndAnalyze] and [reanalyzeFilesWithDependency]
    when no file is inspected on the way: [analyzeFile] then assigns only to
    fields of the record that are not in this model, and whether a record
    depends on a URI ([resolveIncludePaths], [findPredefinedUri],
    [resolveUri]) is a parameter.  [Workspace] has both methods in full, with
    [analyzeFile], [findPredefinedUri] and [collectIncludeScope]. *)
Variable dependsOn : list (string * PartialInspectRecord) -> PartialInspectRecord -> string -> bool.

(** [reanalyzeFilesWithDependency] *)
Definition reanalyzeFilesWithDependency (targetUri : string) (this : AnalysisResolver)
    : AnalysisResolver :=
  let dependedFiles :=
    filter (fun r => dependsOn (recordList this) r targetUri = true)
           (map snd (recordList this)) in
  fold_left
    (fun this dependedFile =>
       mkResolver (_analyzerTask this)
         (if isOpen dependedFile
          then pushIndirect (mkElement dependedFile None) (_analysisQueue this)
          else pushLazyIndirect (mkElement dependedFile None) (_analysisQueue this))
         (recordList this))
    dependedFiles this.

(** [popAndAnalyze] *)
Definition popAndAnalyze (this : AnalysisResolver) : AnalysisResolver :=
  match frontPop (_analysisQueue this) with
  | (None, _) => this
  | (Some element, q) =>
      let this := mkResolver (_analyzerTask this) q (recordList this) in
      match shouldReanalyze element with
      | Some true => reanalyzeFilesWithDependency (uri (record element)) this
      | _ => this
      end
  end.

(** [handleAnalyze] *)
Definition handleAnalyze (this : AnalysisResolver) : AnalysisResolver :=
  rescheduleAnalyze (popAndAnalyze this).

(** The timer expires: the pending callback is taken off the task and run. *)
Definition fire (this : AnalysisResolver) : AnalysisResolver :=
  match pending (_analyzerTask this) with
  | None => this
  | Some (CallHandleAnalyze, _) =>
      handleAnalyze (mkResolver (mkTask None) (_analysisQueue this) (recordList this))
  end.

End Analysis.

End Resolver.

(** ** [AnalysisResolver] with the files that it reads (the resolver part of
    multipleNamespaces.spec.ts)

    [analyzeFile] and the test of [reanalyzeFilesWithDependency] go through
    [findPredefinedUri] and [collectIncludeScope], which read the file system
    and hand files to [inspectFile]; this module has them, and the whole of
    [popAndAnalyze], [flush] and [handleAnalyze]. *)

Module Workspace.

(** The fields of [PartialInspectRecord] that the resolver reads:
    [includePaths] is the string content of the tokens of
    [preprocessedOutput.includePathTokens].  [analyzeFile] assigns to
    [analyzerScope] and [diagnosticsInAnalyzer], which are not among them. *)
Record PartialInspectRecord := mkRecord {
  uri : string;
  isOpen : bool;
  includePaths : list string }.

Record QueueElement := mkElement {
  record : PartialInspectRecord;
  shouldReanalyze : option bool }.

(** Modelled from the spec, as in [Resolver]: the three tiers of section 4.6,
    each a FIFO, served direct before indirect before lazy-indirect. *)
Record AnalysisQueue := mkQueue {
  directQueue : list QueueElement;
  indirectQueue : list QueueElement;
  lazyIndirectQueue : list QueueElement }.

Definition hasDirect (q : AnalysisQueue) : bool := 0 <? length (directQueue q).
Definition hasIndirect (q : AnalysisQueue) : bool := 0 <? length (indirectQueue q).
Definition hasLazyIndirect (q : AnalysisQueue) : bool := 0 <? length (lazyIndirectQueue q).

Definition pushDirect (e : QueueElement) (q : AnalysisQueue) : AnalysisQueue :=
  mkQueue (directQueue q ++ [e]) (indirectQueue q) (lazyIndirectQueue q).
Definition pushIndirect (e : QueueElement) (q : AnalysisQueue) : AnalysisQueue :=
  mkQueue (directQueue q) (indirectQueue q ++ [e]) (lazyIndirectQueue q).
Definition pushLazyIndirect (e : QueueElement) (q : AnalysisQueue) : AnalysisQueue :=
  mkQueue (directQueue q) (indirectQueue q) (lazyIndirectQueue q ++ [e]).

Definition frontPop (q : AnalysisQueue) : option QueueElement * AnalysisQueue :=
  match directQueue q with
  | e :: d => (Some e, mkQueue d (indirectQueue q) (lazyIndirectQueue q))
  | [] =>
      match indirectQueue q with
      | e :: i => (Some e, mkQueue [] i (lazyIndirectQueue q))
      | [] =>
          match lazyIndirectQueue q with
          | e :: l => (Some e, mkQueue [] [] l)
          | [] => (None, q)
          end
      end
  end.

(** The fields of [class AnalysisResolver], and what its methods write
    outside of it: [notFound] has the include paths of the errors
    [File not found] that went to [diagnostic], and [published] the URIs that
    went to [diagnosticsCallback], each with the URIs of the included files
    whose scopes the analysis was given. *)
Record AnalysisResolver := mkResolver {
  _analyzerTask : Resolver.DelayedTask;
  _analysisQueue : AnalysisQueue;
  _resolvedPredefinedFilepaths : list string;
  recordList : JsMap.t PartialInspectRecord;
  notFound : list string;
  published : list (string * list string) }.

Definition setTask (t : Resolver.DelayedTask) (this : AnalysisResolver) : AnalysisResolver :=
  mkResolver t (_analysisQueue this) (_resolvedPredefinedFilepaths this) (recordList this)
             (notFound this) (published this).
Definition setQueue (q : AnalysisQueue) (this : AnalysisResolver) : AnalysisResolver :=
  mkResolver (_analyzerTask this) q (_resolvedPredefinedFilepaths this) (recordList this)
             (notFound this) (published this).
Definition setResolved (l : list string) (this : AnalysisResolver) : AnalysisResolver :=
  mkResolver (_analyzerTask this) (_analysisQueue this) l (recordList this)
             (notFound this) (published this).
Definition setNotFound (l : list string) (this : AnalysisResolver) : AnalysisResolver :=
  mkResolver (_analyzerTask this) (_analysisQueue this) (_resolvedPredefinedFilepaths this)
             (recordList this) l (published this).
Definition setPublished (l : list (string * list string)) (this : AnalysisResolver)
    : AnalysisResolver :=
  mkResolver (_analyzerTask this) (_analysisQueue this) (_resolvedPredefinedFilepaths this)
             (recordList this) (notFound this) l.

Definition predefinedFileName : string := "as.predefined".

(** [s.endsWith(suffix)] *)
Definition endsWith (s suffix : string) : bool :=
  (String.length suffix <=? String.length s) &&
  String.eqb (String.substring (String.length s - String.length suffix)
                               (String.length suffix) s) suffix.

(** [rescheduleAnalyze] *)
Definition rescheduleAnalyze (this : AnalysisResolver) : AnalysisResolver :=
  let waitTime :=
    if hasDirect (_analysisQueue this) then Some Resolver.veryShortWaitTime
    else if hasIndirect (_analysisQueue this) then Some Resolver.shortWaitTime
    else if hasLazyIndirect (_analysisQueue this) then Some Resolver.mediumWaitTime
    else None in
  match waitTime with
  | None => this
  | Some waitTime =>
      setTask (Resolver.reschedule Resolver.CallHandleAnalyze waitTime (_analyzerTask this))
              this
  end.

(** [request] *)
Definition request (rec : PartialInspectRecord) (this : AnalysisResolver) : AnalysisResolver :=
  rescheduleAnalyze
    (setQueue (pushDirect (mkElement rec (Some true)) (_analysisQueue this)) this).

(** An entry of a directory, as [readdirSync] gives it with its file type; a
    directory comes with the entries that [readdirSync] gives for it in its
    turn. *)
Inductive Dirent :=
| DirentFile (name : string)
| DirentDirectory (name : string) (entries : list Dirent)
| DirentOther (name : string).

Definition direntName (entry : Dirent) : string :=
  match entry with
  | DirentFile name | DirentDirectory name _ | DirentOther name => name
  end.

Section Files.

(** fileUtils.ts, the file system, the settings and inspector.ts are not
    among the sources: parameters.  [inspectFile] is given the resolver, to
    which it may hand a record and a request. *)
Variable readFileContent : string -> option string.
Variable getParentDirectoryList : string -> list string.
Variable resolveUri : string -> string -> string.
Variable readdirSync : string -> list Dirent.
Variable implicitMutualInclusion : bool.
Variable inspectFile : string -> string -> AnalysisResolver -> AnalysisResolver.

(** The body of the loop of [inspectUnderDirectory], for one entry. *)
Fixpoint inspectEntry (dirUri : string) (entry : Dirent) (this : AnalysisResolver)
    : AnalysisResolver :=
  let fileUri := resolveUri dirUri (direntName entry) in
  match entry with
  | DirentDirectory _ entries =>
      fold_left (fun this entry => inspectEntry (fileUri +:+ "/") entry this) entries this
  | DirentFile _ =>
      if endsWith fileUri ".as" then
        match readFileContent fileUri with
        | Some content => inspectFile fileUri content this
        | None => this
        end
      else this
  | DirentOther _ => this
  end.

(** [inspectUnderDirectory] *)
Definition inspectUnderDirectory (dirUri : string) (this : AnalysisResolver)
    : AnalysisResolver :=
  fold_left (fun this entry => inspectEntry dirUri entry this) (readdirSync dirUri) this.

(** The loop of [findPredefinedUri] over the parent directories. *)
Fixpoint findPredefinedIn (dirs : list string) (targetUri : string) (this : AnalysisResolver)
    : option string * AnalysisResolver :=
  match dirs with
  | [] => (None, this)
  | dir :: dirs =>
      let predefinedUri := dir +:+ "/" +:+ predefinedFileName in
      if match JsMap.get (recordList this) predefinedUri with Some _ => true | None => false end
         && existsb (String.eqb predefinedUri) (_resolvedPredefinedFilepaths this)
      then (Some predefinedUri, this)
      else
        let found :=
          if negb (String.eqb targetUri predefinedUri) then
            match readFileContent predefinedUri with
            | None => None
            | Some content => Some (inspectFile predefinedUri content this)
            end
          else Some this in
        match found with
        | None => findPredefinedIn dirs targetUri this
        | Some this =>
            let this := inspectUnderDirectory (resolveUri predefinedUri ".") this in
            let this :=
              setResolved
                (if existsb (String.eqb predefinedUri) (_resolvedPredefinedFilepaths this)
                 then _resolvedPredefinedFilepaths this
                 else _resolvedPredefinedFilepaths this ++ [predefinedUri]) this in
            (Some predefinedUri, this)
        end
  end.

(** [findPredefinedUri] *)
Definition findPredefinedUri (targetUri : string) (this : AnalysisResolver)
    : option string * AnalysisResolver :=
  findPredefinedIn (getParentDirectoryList targetUri) targetUri this.

(** [resolveIncludePaths] *)
Definition resolveIncludePaths (record : PartialInspectRecord) (predefinedUri : option string)
    (this : AnalysisResolver) : list string :=
  let includePaths := includePaths record in
  let includePaths :=
    if implicitMutualInclusion then
      match predefinedUri with
      | Some predefined =>
          if negb (endsWith (uri record) predefinedFileName) then
            let predefinedDirectory := resolveUri predefined "." in
            filter (fun uri' => endsWith uri' ".as" && negb (String.eqb uri' (uri record)) = true)
                   (filter (fun uri' => String.prefix predefinedDirectory uri' = true)
                           (JsMap.keys (recordList this)))
          else includePaths
      | None => includePaths
      end
    else includePaths in
  match predefinedUri with
  | Some predefined =>
      if negb (String.eqb (uri record) predefined) then includePaths ++ [predefined]
      else includePaths
  | None => includePaths
  end.

(** The loop of [collectIncludeScope]: with the URIs of the included files
    that have a record, whose scopes it collects.  [None]: a path that is not
    found and is not the content of an include token of the record, so that
    the location of [undefined] is read. *)
Fixpoint collectIncludes (record : PartialInspectRecord) (paths : list string)
    (includedScopes : list string) (this : AnalysisResolver)
    : option (list string * AnalysisResolver) :=
  match paths with
  | [] => Some (includedScopes, this)
  | relativeOrAbsolute :: rest =>
      let uri := resolveUri (uri record) relativeOrAbsolute in
      match JsMap.get (recordList this) uri with
      | Some includedRecord => collectIncludes record rest (includedScopes ++ [uri]) this
      | None =>
          match readFileContent uri with
          | Some content =>
              collectIncludes record rest includedScopes (inspectFile uri content this)
          | None =>
              if existsb (String.eqb relativeOrAbsolute) (includePaths record)
              then collectIncludes record rest includedScopes
                     (setNotFound (notFound this ++ [relativeOrAbsolute]) this)
              else None
          end
      end
  end.

(** [collectIncludeScope] *)
Definition collectIncludeScope (record : PartialInspectRecord) (predefinedUri : option string)
    (this : AnalysisResolver) : option (list string * AnalysisResolver) :=
  collectIncludes record (resolveIncludePaths record predefinedUri this) [] this.

(** [analyzeFile]: the hoist and the analysis of the file, which are the
    subject of [Hoist], assign to fields of the record that are not in the
    model; the diagnostics go to the callback.  [None]: an error is
    thrown. *)
Definition analyzeFile (record : PartialInspectRecord) (this : AnalysisResolver)
    : option AnalysisResolver :=
  let (predefinedUri, this) := findPredefinedUri (uri record) this in
  match collectIncludeScope record predefinedUri this with
  | Some (includeScopes, this) =>
      Some (setPublished (published this ++ [(uri record, includeScopes)]) this)
  | None => None
  end.

(** The filter of [reanalyzeFilesWithDependency], over the records that the
    map had when it was called. *)
Fixpoint dependedFilesOf (targetUri : string) (records : list PartialInspectRecord)
    (this : AnalysisResolver) : list PartialInspectRecord * AnalysisResolver :=
  match records with
  | [] => ([], this)
  | r :: records =>
      let (predefinedUri, this) := findPredefinedUri (uri r) this in
      let depends :=
        existsb (fun relativePath => String.eqb (resolveUri (uri r) relativePath) targetUri)
                (resolveIncludePaths r predefinedUri this) in
      let (dependedFiles, this) := dependedFilesOf targetUri records this in
      (if depends then r :: dependedFiles else dependedFiles, this)
  end.

(** [reanalyzeFilesWithDependency] *)
Definition reanalyzeFilesWithDependency (targetUri : string) (this : AnalysisResolver)
    : AnalysisResolver :=
  let (dependedFiles, this) :=
    dependedFilesOf targetUri (JsMap.values (recordList this)) this in
  fold_left
    (fun this dependedFile =>
       setQueue
         (if isOpen dependedFile
          then pushIndirect (mkElement dependedFile None) (_analysisQueue this)
          else pushLazyIndirect (mkElement dependedFile None) (_analysisQueue this))
         this)
    dependedFiles this.

(** [popAndAnalyze] *)
Definition popAndAnalyze (this : AnalysisResolver) : option AnalysisResolver :=
  match frontPop (_analysisQueue this) with
  | (None, _) => Some this
  | (Some element, q) =>
      match analyzeFile (record element) (setQueue q this) with
      | Some this =>
          match shouldReanalyze element with
          | Some true => Some (reanalyzeFilesWithDependency (uri (record element)) this)
          | _ => Some this
          end
      | None => None
      end
  end.

(** [handleAnalyze] *)
Definition handleAnalyze (this : AnalysisResolver) : option AnalysisResolver :=
  match popAndAnalyze this with
  | Some this => Some (rescheduleAnalyze this)
  | None => None
  end.

(** The timer expires: the pending callback is taken off the task and run. *)
Definition fire (this : AnalysisResolver) : option AnalysisResolver :=
  match Resolver.pending (_analyzerTask this) with
  | None => Some this
  | Some (Resolver.CallHandleAnalyze, _) => handleAnalyze (setTask (Resolver.mkTask None) this)
  end.

(** [isInQueue] and [frontPushDirect] of the analysis queue, which is outside
    the sources at hand: parameters. *)
Variable isInQueue : string -> AnalysisQueue -> bool.
Variable frontPushDirect : QueueElement -> AnalysisQueue -> AnalysisQueue.

(** The first loop of [flush]: [while (hasDirect()) popAndAnalyze()];
    [None] is exhausted fuel or a thrown error. *)
Fixpoint flushDirect (fuel : nat) (this : AnalysisResolver) : option AnalysisResolver :=
  match fuel with
  | 0 => None
  | S fuel' =>
      if hasDirect (_analysisQueue this)
      then match popAndAnalyze this with
           | Some this => flushDirect fuel' this
           | None => None
           end
      else Some this
  end.

(** The second loop of [flush]:
    [while (hasIndirect() && hasLazyIndirect()) popAndAnalyze()]. *)
Fixpoint flushReanalysis (fuel : nat) (this : AnalysisResolver) : option AnalysisResolver :=
  match fuel with
  | 0 => None
  | S fuel' =>
      if hasIndirect (_analysisQueue this) && hasLazyIndirect (_analysisQueue this)
      then match popAndAnalyze this with
           | Some this => flushReanalysis fuel' this
           | None => None
           end
      else Some this
  end.

(** [flush]; [None] is exhausted fuel or a thrown error. *)
Definition flush (fuel : nat) (uri : option string) (this : AnalysisResolver)
    : option AnalysisResolver :=
  match flushDirect fuel this with
  | None => None
  | Some this =>
      match uri with
      | None => flushReanalysis fuel this
      | Some uri =>
          if isInQueue uri (_analysisQueue this) then
            match JsMap.get (recordList this) uri with
            | None => Some this
            | Some frontRecord =>
                popAndAnalyze
                  (setQueue (frontPushDirect (mkElement frontRecord (Some false))
                                             (_analysisQueue this)) this)
            end
          else Some this
      end
  end.

End Files.

End Workspace.

(** ** src/server/src/services/signatureHelp.ts *)

Module SignatureHelp.

(** [Position] of the protocol and [TextPosition] of the tokenizer. *)
Record TextPosition := mkPos { line : nat; character : nat }.

(** Modelled from the spec: textLocation.ts is not among the sources;
    [isLessThan] is the strict order of the "canonical source position"
    of section 2, by line and then by character. *)
Definition isLessThan (this other : TextPosition) : bool :=
  (line this <? line other) ||
  ((line this =? line other) && (character this <? character other)).

Record TextLocation := mkLoc { locStart : TextPosition; locEnd : TextPosition }.

(** A token with its link to the following token of the file. *)
Inductive TokenObject :=
  mkToken (text : string) (location : TextLocation) (next : option TokenObject).

Definition text (t : TokenObject) : string := let (x, _, _) := t in x.
Definition location (t : TokenObject) : TextLocation := let (_, x, _) := t in x.
Definition next (t : TokenObject) : option TokenObject := let (_, _, x) := t in x.

Record TokenRange := mkRange { rangeStart : TokenObject; rangeEnd : TokenObject }.

Section Help.

(** Resolved types, template translators and documentation are produced and
    printed by modules outside the sources at hand. *)
Variables ResolvedType TemplateTranslator Documentation : Type.
Variable stringifyResolvedType : option ResolvedType -> string.
Variable applyTemplateTranslator :
  option ResolvedType -> option TemplateTranslator -> option ResolvedType.

Record NodeParam := mkParam { identifier : option TokenObject }.

Record NodeFunc := mkNodeFunc {
  funcIdentifier : TokenObject;
  paramList : list NodeParam }.

Record SymbolFunction := mkSymbolFunction {
  identifierToken : TokenObject;
  scopePath : list string;
  linkedNode : NodeFunc;
  parameterTypes : list (option ResolvedType) }.

Variable getDocumentCommentOfSymbol : SymbolFunction -> Documentation.

(** What a scope lookup yields: a function holder with its overloads, or a
    single variable or type symbol. *)
Inductive SymbolHolder :=
| FunctionHolder (overloadList : list SymbolFunction)
| OtherSymbol (name : string).

Record NodeArg := mkArg { assignRange : TokenRange }.

Record NodeArgList := mkArgList {
  nodeRange : TokenRange;
  argList : list NodeArg }.

Record ComplementFunctionCall := mkCall {
  callerIdentifier : TokenObject;
  callerArgumentsNode : NodeArgList;
  calleeFuncHolderFirst : SymbolFunction;
  calleeTemplateTranslator : option TemplateTranslator }.

Inductive ComplementHint :=
| FunctionCall (hint : ComplementFunctionCall)
| OtherHint.

(** [TokenRange.extendForward] followed by
    [getBoundingLocation().positionInRange] (tokenRange.ts and
    textLocation.ts are not among the sources): parameters. *)
Variable extendForward : TokenRange -> nat -> TokenRange.
Variable positionInRange : TokenRange -> TextPosition -> bool.

(** [globalScope.resolveScope(callee.scopePath)?.lookupSymbolWithParent(name)]
    for the global scope at hand. *)
Variable lookupCallee : SymbolFunction -> option SymbolHolder.

Record ParameterInformation := mkParameter { paramLabel : string }.

Record SignatureInformation := mkSignature {
  label : string;
  parameters : list ParameterInformation;
  activeParameter : nat;
  documentation : Documentation }.

(** One iteration of the [for] loop of [getFunctionSignature], at index [i]. *)
Definition signatureStep (hint : ComplementFunctionCall) (expectedCallee : SymbolFunction)
    (caret : TextPosition) (i : nat) (paramIdentifier : NodeParam)
    (acc : nat * string * list ParameterInformation)
    : nat * string * list ParameterInformation :=
  let '(activeIndex, signatureLabel, parameters) := acc in
  let paramType := mjoin (parameterTypes expectedCallee !! i) in
  let label :=
    stringifyResolvedType (applyTemplateTranslator paramType (calleeTemplateTranslator hint)) in
  let label := match identifier paramIdentifier with
               | Some id => label +:+ " " +:+ text id
               | None => label end in
  let parameter := mkParameter label in
  let signatureLabel := if 0 <? i then signatureLabel +:+ ", " else signatureLabel in
  let signatureLabel := signatureLabel +:+ label in
  let passingRanges := map assignRange (argList (callerArgumentsNode hint)) in
  let activeIndex :=
    match passingRanges !! i with
    | Some range =>
        if negb (isLessThan caret (locStart (location (rangeStart range)))) then
          let activeIndex := i in
          match next (rangeEnd range) with
          | Some n => if String.eqb (text n) "," then activeIndex + 1 else activeIndex
          | None => activeIndex
          end
        else activeIndex
    | None => activeIndex
    end in
  (activeIndex, signatureLabel, parameters ++ [parameter]).

Fixpoint signatureLoop (hint : ComplementFunctionCall) (expectedCallee : SymbolFunction)
    (caret : TextPosition) (i : nat) (rest : list NodeParam)
    (acc : nat * string * list ParameterInformation)
    : nat * string * list ParameterInformation :=
  match rest with
  | [] => acc
  | p :: rest' =>
      signatureLoop hint expectedCallee caret (S i) rest'
        (signatureStep hint expectedCallee caret i p acc)
  end.

(** [getFunctionSignature] *)
Definition getFunctionSignature (hint : ComplementFunctionCall)
    (expectedCallee : SymbolFunction) (caret : TextPosition) : SignatureInformation :=
  let signatureLabel := text (funcIdentifier (linkedNode expectedCallee)) +:+ "(" in
  let '(activeIndex, signatureLabel, parameters) :=
    signatureLoop hint expectedCallee caret 0 (paramList (linkedNode expectedCallee))
                  (0, signatureLabel, []) in
  let signatureLabel := signatureLabel +:+ ")" in
  mkSignature signatureLabel parameters activeIndex
              (getDocumentCommentOfSymbol expectedCallee).

(** The [for] loop of [provideSignatureHelp] over the hints still to visit.
    [None] is the TypeError raised when the callee lookup is [undefined]. *)
Fixpoint provideLoop (hints : list ComplementHint) (caret : TextPosition)
    : option (list SignatureInformation) :=
  match hints with
  | [] => Some []
  | OtherHint :: hints' => provideLoop hints' caret
  | FunctionCall hint :: hints' =>
      let range := nodeRange (callerArgumentsNode hint) in
      let shouldExtend := character caret <? character (locEnd (location (rangeEnd range))) in
      let location := extendForward range (if shouldExtend then 1 else 0) in
      if positionInRange location caret then
        let callee := calleeFuncHolderFirst hint in
        match lookupCallee callee with
        | Some (OtherSymbol _) => provideLoop hints' caret
        | Some (FunctionHolder overloadList) =>
            Some (map (fun callee => getFunctionSignature hint callee caret) overloadList)
        | None => None
        end
      else provideLoop hints' caret
  end.

(** [provideSignatureHelp]: the [signatures] field of the result. *)
Definition provideSignatureHelp (completionHints : list ComplementHint) (caret : TextPosition)
    : option (list SignatureInformation) :=
  provideLoop completionHints caret.

(** The comma count of the specification: the arguments of the call whose
    following token is a comma lying wholly before the caret. *)
Definition commasBeforeCaret (hint : ComplementFunctionCall) (caret : TextPosition) : nat :=
  length (filter
    (fun arg =>
       match next (rangeEnd (assignRange arg)) with
       | Some n => String.eqb (text n) "," && negb (isLessThan caret (locEnd (location n)))
       | None => false
       end = true)
    (argList (callerArgumentsNode hint))).

End Help.

End SignatureHelp.

(** ** The hoist phase (second document of multipleNamespaces.spec.ts) *)

Module Hoist.

(** *** Tokens and AST nodes, as the hoist functions read them *)

Abbreviation ScopePath := (list string) (only parsing).

Inductive AccessModifier := Private | Protected.

Record TokenLocation := mkLocation {
  locPath : string;
  locStart : nat * nat;
  locEnd : nat * nat }.

Record TokenObject := mkToken {
  text : string;
  location : TokenLocation;
  isVirtual : bool }.

Record TokenRange := mkRange { rangeStart : TokenObject; rangeEnd : TokenObject }.

(** [TokenIdentifier.createVirtual(text, range)]: a token that is not in the
    file and lies where the range lies. *)
Definition createVirtual (text : string) (range : TokenRange) : TokenObject :=
  mkToken text
    (mkLocation (locPath (location (rangeStart range)))
                (locStart (location (rangeStart range)))
                (locEnd (location (rangeEnd range))))
    true.

Definition builtinThisToken : TokenObject :=
  mkToken "this" (mkLocation "" (0, 0) (0, 0)) true.
Definition builtinSetterValueToken : TokenObject :=
  mkToken "value" (mkLocation "" (0, 0) (0, 0)) true.

Inductive NodeName :=
| NameEnum | NameTypeDef | NameClass | NameMixin | NameInterface | NameFuncDef
| NameVirtualProp | NameVar | NameFunc | NameNamespace | NameIntfMethod | NameBuiltin.

(** A node as a scope or a symbol links to it: its kind and the identity of
    the node object. *)
Record LinkedNode := mkLinked { linkedName : NodeName; linkedId : nat }.

Definition linkedEqb (a b : LinkedNode) : bool := linkedId a =? linkedId b.

(** [NodeType]; [getIdentifierInNodeType] reads [typeIdentifier]. *)
Record NodeType := mkNodeType { typeNodeId : nat; typeIdentifier : TokenObject }.

Definition getIdentifierInNodeType (type : NodeType) : TokenObject := typeIdentifier type.

Record NodeParam := mkParam {
  paramType : NodeType;
  paramIdentifier : option TokenObject }.

Definition NodeParamList := list NodeParam.

Inductive FuncHead :=
| funcHeadDestructor
| funcHeadConstructor
| FuncHeadReturnValue (returnType : NodeType).

Definition isFuncHeadReturnValue (head : FuncHead) : bool :=
  match head with FuncHeadReturnValue _ => true | _ => false end.

Record FuncAttr := mkFuncAttr { isProperty : bool }.

(** Statement blocks and initializers are only handed on to the analyzer. *)
Record NodeStatBlock := mkStatBlock { statBlockId : nat }.
Record NodeInitializer := mkInitializer { initializerId : nat }.

Record NodeFunc := mkNodeFunc {
  funcNodeId : nat;
  funcHead : FuncHead;
  funcIdentifier : TokenObject;
  funcParamList : NodeParamList;
  funcAttr : option FuncAttr;
  funcAccessor : option AccessModifier;
  funcTypeTemplates : option (list NodeType);
  funcStatBlock : NodeStatBlock }.

Record DeclaredVar := mkDeclaredVar {
  declIdentifier : TokenObject;
  declInitializer : option NodeInitializer }.

Record NodeVar := mkNodeVar {
  varNodeId : nat;
  varType : NodeType;
  varVariables : list DeclaredVar;
  varAccessor : option AccessModifier }.

Record PropAccessor := mkPropAccessor { accessorStatBlock : option NodeStatBlock }.

Record NodeVirtualProp := mkNodeVirtualProp {
  propNodeId : nat;
  propType : NodeType;
  propIdentifier : TokenObject;
  propAccessor : option AccessModifier;
  propGetter : option PropAccessor;
  propSetter : option PropAccessor }.

Record NodeFuncDef := mkNodeFuncDef {
  funcDefNodeId : nat;
  funcDefIdentifier : TokenObject;
  funcDefReturnType : NodeType;
  funcDefParamList : NodeParamList }.

Record NodeIntfMethod := mkNodeIntfMethod {
  intfMethodNodeId : nat;
  intfMethodIdentifier : TokenObject;
  intfMethodReturnType : NodeType;
  intfMethodParamList : NodeParamList }.

Record NodeEnum := mkNodeEnum {
  enumNodeId : nat;
  enumIdentifier : TokenObject;
  enumMemberList : list TokenObject }.

Record NodeTypeDef := mkNodeTypeDef {
  typeDefNodeId : nat;
  typeDefType : TokenObject;
  typeDefIdentifier : TokenObject }.

Inductive ClassMember :=
| MemberVirtualProp (n : NodeVirtualProp)
| MemberFunc (n : NodeFunc)
| MemberVar (n : NodeVar)
| MemberFuncDef (n : NodeFuncDef).

Record NodeClass := mkNodeClass {
  classNodeId : nat;
  classIdentifier : TokenObject;
  classTypeTemplates : option (list NodeType);
  classBaseList : list TokenObject;
  classMemberList : list ClassMember;
  classNodeRange : TokenRange }.

Inductive InterfaceMember :=
| IntfVirtualProp (n : NodeVirtualProp)
| IntfMethod (n : NodeIntfMethod).

Record NodeInterface := mkNodeInterface {
  interfaceNodeId : nat;
  interfaceIdentifier : TokenObject;
  interfaceBaseList : list TokenObject;
  interfaceMemberList : list InterfaceMember;
  interfaceNodeRange : TokenRange }.

(** The elements of a [NodeScript], by [nodeName]; imports and the other
    nodes that [hoistScript] passes over are [StOther]. *)
Inductive Statement :=
| StEnum (n : NodeEnum)
| StTypeDef (n : NodeTypeDef)
| StClass (n : NodeClass)
| StMixin (mixinClass : NodeClass)
| StInterface (n : NodeInterface)
| StFuncDef (n : NodeFuncDef)
| StVirtualProp (n : NodeVirtualProp)
| StVar (n : NodeVar)
| StFunc (n : NodeFunc)
| StNamespace (namespaceNodeId : nat) (namespaceList : list TokenObject)
              (script : list Statement) (nodeRange : TokenRange)
| StOther.

Definition NodeScript := list Statement.

(** *** Symbols and scopes

    Modelled from the spec: symbolObject.ts, symbolScope.ts and
    resolvedType.ts are not among the sources; the records follow the data
    model of section 3 and the operations section 4.1.  Symbol objects are
    shared and assigned to after their creation, so they live in a heap and
    tables hold references; a scope is identified by its path. *)

Abbreviation SymRef := nat (only parsing).

Record ResolvedType := mkResolved {
  typeOrFunc : SymRef;
  templateTranslator : option (list (string * SymRef)) }.

Definition newResolvedType (symbol : SymRef) : ResolvedType := mkResolved symbol None.

Record SymbolType := mkSymbolType {
  typeIdentifierToken : TokenObject;
  typeScopePath : ScopePath;
  typeLinkedNode : option LinkedNode;
  membersScopePath : option ScopePath;
  isTypeParameter : bool;
  typeTemplateTypes : option (list TokenObject);
  baseList : option (list (option ResolvedType)) }.

Record SymbolVariable := mkSymbolVariable {
  varIdentifierToken : TokenObject;
  varScopePath : ScopePath;
  variableType : option ResolvedType;
  varIsInstanceMember : bool;
  varAccessRestriction : option AccessModifier }.

Record SymbolFunction := mkSymbolFunction {
  funcIdentifierToken : TokenObject;
  funcScopePath : ScopePath;
  returnType : option ResolvedType;
  parameterTypes : list (option ResolvedType);
  funcLinkedNode : LinkedNode;
  functionScopePath : option ScopePath;
  funcIsInstanceMember : bool;
  funcAccessRestriction : option AccessModifier;
  funcTemplateTypes : option (list TokenObject) }.

Inductive SymbolObject :=
| SymType (s : SymbolType)
| SymVariable (s : SymbolVariable)
| SymFunction (s : SymbolFunction).

Definition identifierToken (s : SymbolObject) : TokenObject :=
  match s with
  | SymType t => typeIdentifierToken t
  | SymVariable v => varIdentifierToken v
  | SymFunction f => funcIdentifierToken f
  end.

Definition isFunction (s : SymbolObject) : bool :=
  match s with SymFunction _ => true | _ => false end.
Definition isVariable (s : SymbolObject) : bool :=
  match s with SymVariable _ => true | _ => false end.
Definition isType (s : SymbolObject) : bool :=
  match s with SymType _ => true | _ => false end.

(** [symbol.accessRestriction] of a function or variable symbol. *)
Definition accessRestriction (s : SymbolObject) : option AccessModifier :=
  match s with
  | SymType _ => None
  | SymVariable v => varAccessRestriction v
  | SymFunction f => funcAccessRestriction f
  end.

(** A symbol holder: a single type or variable symbol, or a function holder
    with its non-empty list of overloads. *)
Inductive SymbolHolder :=
| HolderSingle (symbol : SymRef)
| HolderFunctions (first : SymRef) (rest : list SymRef).

Definition toList (h : SymbolHolder) : list SymRef :=
  match h with
  | HolderSingle r => [r]
  | HolderFunctions f rest => f :: rest
  end.

Definition isFunctionHolder (h : SymbolHolder) : bool :=
  match h with HolderFunctions _ _ => true | HolderSingle _ => false end.

Record Diagnostic := mkDiag { diagLocation : TokenLocation; diagMessage : string }.

Record ReferenceEntry := mkReference { toSymbol : SymRef; fromToken : TokenObject }.

Record ScopeData := mkScopeData {
  linkedNode : option LinkedNode;
  symbolTable : JsMap.t SymbolHolder;
  namespaceNodes : list (nat * TokenObject) }.

Definition emptyScope : ScopeData := mkScopeData None [] [].

(** Everything the hoist functions and the analyzer share apart from the two
    queues: the scope tree of the active global scope, the symbol heap, the
    sink [analyzerDiagnostic], the reference list and scope regions of the
    global scope, the anonymous-identifier counter and the one setting that
    hoisting reads. *)
Record Store := mkStore {
  scopes : gmap ScopePath ScopeData;
  symbols : list SymbolObject;
  diagnostics : list Diagnostic;
  references : list ReferenceEntry;
  scopeRegions : list (ScopePath * TokenRange);
  s_uniqueIdentifier : Z;
  explicitPropertyAccessor : bool }.

Definition setScopes (m : gmap ScopePath ScopeData) (s : Store) : Store :=
  mkStore m (symbols s) (diagnostics s) (references s) (scopeRegions s)
          (s_uniqueIdentifier s) (explicitPropertyAccessor s).
Definition setSymbols (l : list SymbolObject) (s : Store) : Store :=
  mkStore (scopes s) l (diagnostics s) (references s) (scopeRegions s)
          (s_uniqueIdentifier s) (explicitPropertyAccessor s).
Definition setDiagnostics (l : list Diagnostic) (s : Store) : Store :=
  mkStore (scopes s) (symbols s) l (references s) (scopeRegions s)
          (s_uniqueIdentifier s) (explicitPropertyAccessor s).
Definition setReferences (l : list ReferenceEntry) (s : Store) : Store :=
  mkStore (scopes s) (symbols s) (diagnostics s) l (scopeRegions s)
          (s_uniqueIdentifier s) (explicitPropertyAccessor s).
Definition setScopeRegions (l : list (ScopePath * TokenRange)) (s : Store) : Store :=
  mkStore (scopes s) (symbols s) (diagnostics s) (references s) l
          (s_uniqueIdentifier s) (explicitPropertyAccessor s).
Definition setUniqueIdentifier (n : Z) (s : Store) : Store :=
  mkStore (scopes s) (symbols s) (diagnostics s) (references s) (scopeRegions s)
          n (explicitPropertyAccessor s).

(** State monad, used over the store and over the store with the queues. *)
Definition State (St A : Type) : Type := St -> A * St.

Definition ret {St A} (a : A) : State St A := fun s => (a, s).
Definition bind {St A B} (m : State St A) (k : A -> State St B) : State St B :=
  fun s => let (a, s') := m s in k a s'.
Definition get {St} : State St St := fun s => (s, s).
Definition modify {St} (f : St -> St) : State St unit := fun s => (tt, f s).

Declare Scope hoist_monad.
Notation "'let*' x ':=' m 'in' k" := (bind m (fun x => k))
  (at level 10, x pattern, m at level 100, k at level 200, only parsing) : hoist_monad.
Notation "m ';;' k" := (bind m (fun _ => k))
  (at level 100, k at level 200, right associativity) : hoist_monad.
Open Scope hoist_monad.

Definition forEach {St A} (l : list A) (body : A -> State St unit) : State St unit :=
  (fix loop (l : list A) : State St unit :=
     match l with
     | [] => ret tt
     | x :: l' => body x;; loop l'
     end) l.

(** The scope object at a path.  The code only holds scopes that exist; an
    absent path reads as a scope with empty tables. *)
Definition scopeAt (p : ScopePath) (s : Store) : ScopeData :=
  default emptyScope (scopes s !! p).

Definition updateScope (p : ScopePath) (f : ScopeData -> ScopeData) : State Store unit :=
  modify (fun s => setScopes (<[p := f (scopeAt p s)]> (scopes s)) s).

Definition symbolTableOf (p : ScopePath) (s : Store) : JsMap.t SymbolHolder :=
  symbolTable (scopeAt p s).

(** [tryResolveActiveScope]: the scope at a path of the active global scope,
    [undefined] for an undefined path or where no scope lies. *)
Definition tryResolveActiveScope (p : option ScopePath) (s : Store) : option ScopePath :=
  match p with
  | None => None
  | Some p => if decide (is_Some (scopes s !! p)) then Some p else None
  end.

Definition error (loc : TokenLocation) (msg : string) : State Store unit :=
  modify (fun s => setDiagnostics (diagnostics s ++ [mkDiag loc msg]) s).

(** Creation of a symbol object: [SymbolType.create], [SymbolVariable.create],
    [SymbolFunction.create] and [clone]. *)
Definition create (o : SymbolObject) : State Store SymRef :=
  fun s => (length (symbols s), setSymbols (symbols s ++ [o]) s).

(** Assignment to fields of the symbol object behind a reference. *)
Definition assign (r : SymRef) (f : SymbolObject -> SymbolObject) : State Store unit :=
  modify (fun s => setSymbols (alter f r (symbols s)) s).

Definition symbolAt (r : SymRef) (s : Store) : option SymbolObject := symbols s !! r.

(** [insert-scope(identifier, linked-node?)]: the existing child if present,
    taking over the linked node if it had none, else a new child. *)
Definition insertScope (this : ScopePath) (identifier : string)
    (linkedNode : option LinkedNode) : State Store ScopePath :=
  let child := this ++ [identifier] in
  fun s =>
    match scopes s !! child with
    | Some found =>
        match linkedNode, Hoist.linkedNode found with
        | Some _, None =>
            (child, setScopes
               (<[child := mkScopeData linkedNode (symbolTable found) (namespaceNodes found)]>
                  (scopes s)) s)
        | _, _ => (child, s)
        end
    | None => (child, setScopes (<[child := mkScopeData linkedNode [] []]> (scopes s)) s)
    end.

(** [insert-scope-and-check(identifier-token, linked-node?)]: as
    [insertScope], with a duplicate-symbol diagnostic at the token when the
    scope found already has a different linked node. *)
Definition insertScopeAndCheck (this : ScopePath) (identifierToken : TokenObject)
    (linkedNode : option LinkedNode) : State Store ScopePath :=
  let* found := insertScope this (text identifierToken) linkedNode in
  let* s := get in
  (match linkedNode, Hoist.linkedNode (scopeAt found s) with
   | Some n, Some m =>
       if linkedEqb n m then ret tt
       else error (location identifierToken)
                  ("Symbol '" +:+ text identifierToken +:+ "' is already defined")
   | _, _ => ret tt
   end);;
  ret found.

(** [pushNamespaceNode] *)
Definition pushNamespaceNode (this : ScopePath) (nodeId : nat) (token : TokenObject)
    : State Store unit :=
  updateScope this (fun sc =>
    mkScopeData (linkedNode sc) (symbolTable sc) (namespaceNodes sc ++ [(nodeId, token)])).

(** [insert-symbol(symbol)]: no holder at the identifier: install and return
    none; a function holder and a function symbol: append the overload and
    return none; otherwise return the existing holder. *)
Definition insertSymbol (this : ScopePath) (symbol : SymRef)
    : State Store (option SymbolHolder) :=
  fun s =>
    match symbolAt symbol s with
    | None => (None, s)
    | Some o =>
        let identifier := text (identifierToken o) in
        let table := symbolTableOf this s in
        let install h :=
          updateScope this (fun sc =>
            mkScopeData (linkedNode sc) (JsMap.set (symbolTable sc) identifier h)
                        (namespaceNodes sc)) s in
        match JsMap.get table identifier with
        | None =>
            (None, snd (install (if isFunction o then HolderFunctions symbol []
                                 else HolderSingle symbol)))
        | Some (HolderFunctions f rest) =>
            if isFunction o
            then (None, snd (install (HolderFunctions f (rest ++ [symbol]))))
            else (Some (HolderFunctions f rest), s)
        | Some (HolderSingle r) => (Some (HolderSingle r), s)
        end
    end.

(** The duplicate-symbol diagnostic of [insert-symbol-and-check].
    symbolScope.ts is not among the sources, and section 4.1 of the spec says
    only that a diagnostic is emitted: the wording and the location here
    stand for those of the code, and no statement is made about them. *)
Definition duplicateSymbolMessage (identifier : string) : string :=
  "Symbol '" +:+ identifier +:+ "' is already declared".

(** [insert-symbol-and-check(symbol)]: as [insertSymbol], with a
    duplicate-symbol diagnostic on collision; returns whether it inserted. *)
Definition insertSymbolAndCheck (this : ScopePath) (symbol : SymRef) : State Store bool :=
  let* alreadyExists := insertSymbol this symbol in
  match alreadyExists with
  | None => ret true
  | Some _ =>
      let* s := get in
      (match symbolAt symbol s with
       | Some o =>
           error (location (identifierToken o))
                 (duplicateSymbolMessage (text (identifierToken o)))
       | None => ret tt
       end);;
      ret false
  end.

(** [lookup-symbol-with-parent]: the holder at the identifier in the scope
    or, failing that, in the nearest enclosing scope that has one. *)
Fixpoint findSymbolFrom (n : nat) (scope : ScopePath) (identifier : string) (s : Store)
    : option (SymbolHolder * ScopePath) :=
  match JsMap.get (symbolTableOf scope s) identifier with
  | Some h => Some (h, scope)
  | None =>
      match n, scope with
      | S n', _ :: _ => findSymbolFrom n' (removelast scope) identifier s
      | _, _ => None
      end
  end.

Definition findSymbolWithParent (scope : ScopePath) (identifier : string) (s : Store)
    : option (SymbolHolder * ScopePath) :=
  findSymbolFrom (length scope) scope identifier s.

(** Increment of a JavaScript number holding an integer. *)
Definition jsIncrement (n : Z) : Z := if (n <? 2 ^ 53)%Z then (n + 1)%Z else n.

(** [createAnonymousIdentifier] of symbolScope.ts, as in symbolScopes.ts. *)
Definition createAnonymousIdentifier : State Store string :=
  fun s =>
    let n := jsIncrement (s_uniqueIdentifier s) in
    ("~" +:+ pretty n, setUniqueIdentifier n s).

(** [pushScopeRegionInfo] *)
Definition pushScopeRegionInfo (scope : ScopePath) (nodeRange : TokenRange)
    : State Store unit :=
  modify (fun s => setScopeRegions (scopeRegions s ++ [(scope, nodeRange)]) s).

Definition pushReference (r : ReferenceEntry) : State Store unit :=
  modify (fun s => setReferences (references s ++ [r]) s).

(** *** The two queues and their closures *)

(** The two arrays that [hoistAfterParsed] creates.  The hoist functions
    receive them as arguments named [analyzeQueue] and [hoistQueue]; which
    array an argument denotes is a [QueueId]. *)
Inductive QueueId := TheAnalyzeQueue | TheHoistQueue.

(** The closures pushed on the queues, each with the variables it captures. *)
Inductive Task :=
| ClassMembersTask (scope : ScopePath) (nodeClass : NodeClass) (symbol : SymRef)
                   (analyzeQueue hoistQueue : QueueId)
| ClassBaseTask (scope : ScopePath) (symbol : SymRef)
| InterfaceMembersTask (scope : ScopePath) (nodeInterface : NodeInterface)
                       (baseList : option (list (option ResolvedType)))
                       (analyzeQueue hoistQueue : QueueId)
| ParamListTask (symbol : SymRef) (functionScope : ScopePath) (paramList : NodeParamList)
| FuncDefReturnTask (symbol : SymRef) (parentScope : ScopePath) (funcDef : NodeFuncDef)
| FuncDefParamsTask (symbol : SymRef) (parentScope : ScopePath) (funcDef : NodeFuncDef)
| AnalyzeFuncTask (functionScope : ScopePath) (nodeFunc : NodeFunc)
| AnalyzeVarTask (scope : ScopePath) (varType : option ResolvedType) (nodeVar : NodeVar)
| AnalyzeStatBlockTask (scope : ScopePath) (statBlock : NodeStatBlock).

(** The store, the two queues, and the record of which closure was taken
    from which queue and run, in order. *)
Record World := mkWorld {
  store : Store;
  analyzeQueue : list Task;
  hoistQueue : list Task;
  executed : list (QueueId * Task) }.

Definition queueOf (q : QueueId) (w : World) : list Task :=
  match q with TheAnalyzeQueue => analyzeQueue w | TheHoistQueue => hoistQueue w end.

Definition setQueue (q : QueueId) (l : list Task) (w : World) : World :=
  match q with
  | TheAnalyzeQueue => mkWorld (store w) l (hoistQueue w) (executed w)
  | TheHoistQueue => mkWorld (store w) (analyzeQueue w) l (executed w)
  end.

Definition H (A : Type) : Type := State World A.

Definition liftS {A} (m : State Store A) : H A :=
  fun w => let (a, s') := m (store w) in
           (a, mkWorld s' (analyzeQueue w) (hoistQueue w) (executed w)).

(** [queue.push(closure)] *)
Definition push (q : QueueId) (t : Task) : H unit :=
  modify (fun w => setQueue q (queueOf q w ++ [t]) w).

Section Hoisting.

(** The analyzer (analyzer.ts) and the builtin types (builtinType.ts) are not
    among the sources.  [analyzeType] reads the store and yields the resolved
    type with the diagnostics and reference entries it records (section 4.3);
    the three body analyses transform the store and do not see the queues. *)
Variable analyzeType :
  Store -> ScopePath -> NodeType ->
  option ResolvedType * list Diagnostic * list ReferenceEntry.
Variable tryGetBuiltinType : TokenObject -> option (option LinkedNode).
Variable analyzeFunc : ScopePath -> NodeFunc -> Store -> Store.
Variable analyzeVarInitializer :
  ScopePath -> option ResolvedType -> TokenObject -> NodeInitializer -> Store -> Store.
Variable analyzeStatBlock : ScopePath -> NodeStatBlock -> Store -> Store.

Definition callAnalyzeType (scope : ScopePath) (type : NodeType)
    : State Store (option ResolvedType) :=
  fun s =>
    let '(resolved, ds, rs) := analyzeType s scope type in
    (resolved, setReferences (references s ++ rs) (setDiagnostics (diagnostics s ++ ds) s)).

Definition assignMembersScopePath (symbol : SymRef) (p : ScopePath) : State Store unit :=
  assign symbol (fun o =>
    match o with
    | SymType t =>
        SymType (mkSymbolType (typeIdentifierToken t) (typeScopePath t) (typeLinkedNode t)
                              (Some p) (isTypeParameter t) (typeTemplateTypes t) (baseList t))
    | _ => o
    end).

(** [hoistEnumMembers] *)
Definition hoistEnumMembers (parentScope : ScopePath) (memberList : list TokenObject)
    (type : ResolvedType) : State Store unit :=
  forEach memberList (fun member =>
    let* symbol := create (SymVariable
      (mkSymbolVariable member parentScope (Some type) false None)) in
    let* _ := insertSymbolAndCheck parentScope symbol in
    ret tt).

(** [hoistEnum] *)
Definition hoistEnum (parentScope : ScopePath) (nodeEnum : NodeEnum) : State Store unit :=
  let node := mkLinked NameEnum (enumNodeId nodeEnum) in
  let* symbol := create (SymType
    (mkSymbolType (enumIdentifier nodeEnum) parentScope (Some node) None false None None)) in
  let* inserted := insertSymbolAndCheck parentScope symbol in
  if negb inserted then ret tt
  else
    let* scope := insertScopeAndCheck parentScope (enumIdentifier nodeEnum) (Some node) in
    assignMembersScopePath symbol scope;;
    hoistEnumMembers scope (enumMemberList nodeEnum) (newResolvedType symbol).

Definition assignTemplateTypes (symbol : SymRef) (types : list TokenObject)
    : State Store unit :=
  assign symbol (fun o =>
    match o with
    | SymType t =>
        SymType (mkSymbolType (typeIdentifierToken t) (typeScopePath t) (typeLinkedNode t)
                              (membersScopePath t) (isTypeParameter t) (Some types)
                              (baseList t))
    | SymFunction f =>
        SymFunction (mkSymbolFunction (funcIdentifierToken f) (funcScopePath f) (returnType f)
                                      (parameterTypes f) (funcLinkedNode f)
                                      (functionScopePath f) (funcIsInstanceMember f)
                                      (funcAccessRestriction f) (Some types))
    | _ => o
    end).

Definition assignBaseList (symbol : SymRef) (bases : option (list (option ResolvedType)))
    : State Store unit :=
  assign symbol (fun o =>
    match o with
    | SymType t =>
        SymType (mkSymbolType (typeIdentifierToken t) (typeScopePath t) (typeLinkedNode t)
                              (membersScopePath t) (isTypeParameter t) (typeTemplateTypes t)
                              bases)
    | _ => o
    end).

Definition assignReturnType (symbol : SymRef) (type : option ResolvedType)
    : State Store unit :=
  assign symbol (fun o =>
    match o with
    | SymFunction f =>
        SymFunction (mkSymbolFunction (funcIdentifierToken f) (funcScopePath f) type
                                      (parameterTypes f) (funcLinkedNode f)
                                      (functionScopePath f) (funcIsInstanceMember f)
                                      (funcAccessRestriction f) (funcTemplateTypes f))
    | _ => o
    end).

Definition assignParameterTypes (symbol : SymRef) (types : list (option ResolvedType))
    : State Store unit :=
  assign symbol (fun o =>
    match o with
    | SymFunction f =>
        SymFunction (mkSymbolFunction (funcIdentifierToken f) (funcScopePath f) (returnType f)
                                      types (funcLinkedNode f)
                                      (functionScopePath f) (funcIsInstanceMember f)
                                      (funcAccessRestriction f) (funcTemplateTypes f))
    | _ => o
    end).

(** [hoistClassTemplateTypes] *)
Definition hoistClassTemplateTypes (scope : ScopePath) (types : option (list NodeType))
    : State Store (list TokenObject) :=
  forEach (default [] types) (fun type =>
    let* symbol := create (SymType
      (mkSymbolType (getIdentifierInNodeType type) scope None None true None None)) in
    let* _ := insertSymbolAndCheck scope symbol in
    ret tt);;
  ret (map getIdentifierInNodeType (default [] types)).

(** One iteration of the loop of [hoistBaseList]. *)
Definition hoistBase (scope : ScopePath) (baseIdentifier : TokenObject)
    : State Store (option ResolvedType) :=
  let* s := get in
  match findSymbolWithParent scope (text baseIdentifier) s with
  | None =>
      error (location baseIdentifier)
            ("'" +:+ text baseIdentifier +:+ "' is not defined type");;
      ret None
  | Some (holder, _) =>
      match holder with
      | HolderSingle r =>
          match symbolAt r s with
          | Some (SymType _) =>
              pushReference (mkReference r baseIdentifier);;
              ret (Some (newResolvedType r))
          | _ =>
              error (location baseIdentifier)
                    ("'" +:+ text baseIdentifier +:+ "' is not class or interface");;
              ret None
          end
      | HolderFunctions _ _ =>
          error (location baseIdentifier)
                ("'" +:+ text baseIdentifier +:+ "' is not class or interface");;
          ret None
      end
  end.

Fixpoint mapM {St A B} (f : A -> State St B) (l : list A) : State St (list B) :=
  match l with
  | [] => ret []
  | x :: l' => let* y := f x in let* ys := mapM f l' in ret (y :: ys)
  end.

(** [hoistBaseList] *)
Definition hoistBaseList (scope : ScopePath) (bases : list TokenObject)
    : State Store (option (list (option ResolvedType))) :=
  if length bases =? 0 then ret None
  else let* l := mapM (hoistBase scope) bases in ret (Some l).

Definition firstOf (h : SymbolHolder) : SymRef :=
  match h with HolderSingle r => r | HolderFunctions f _ => f end.

(** Whether [copyBaseMembers] passes over a symbol of the base: a function
    or a variable whose access restriction is [Private]. *)
Definition isPrivateMember (o : SymbolObject) : bool :=
  (isFunction o || isVariable o) &&
  match accessRestriction o with Some Private => true | _ => false end.

(** The body of the innermost loop of [copyBaseMembers]. *)
Definition copyBaseMember (scope : ScopePath) (key : string) (symbol : SymRef)
    : State Store unit :=
  let* s := get in
  if match symbolAt symbol s with Some o => isPrivateMember o | None => false end
  then ret tt
  else
    let* alreadyExists := insertSymbol scope symbol in
    match alreadyExists with
    | None => ret tt
    | Some existing =>
        let* s := get in
        match symbolAt (firstOf existing) s with
        | Some o =>
            error (location (identifierToken o)) ("Duplicated symbol '" +:+ key +:+ "'")
        | None => ret tt
        end
    end.

(** [copyBaseMembers].  The table of a base scope is read when its loop
    starts; this is the code's iteration unless the base scope is [scope]
    itself. *)
Definition copyBaseMembers (scope : ScopePath) (bases : list (option ResolvedType))
    : State Store unit :=
  forEach bases (fun baseType =>
    match baseType with
    | None => ret tt
    | Some baseType =>
        let* s := get in
        match symbolAt (typeOrFunc baseType) s with
        | Some (SymType t) =>
            match tryResolveActiveScope (membersScopePath t) s with
            | None => ret tt
            | Some baseScope =>
                forEach (symbolTableOf baseScope s) (fun '(key, symbolHolder) =>
                  if String.eqb key "this" then ret tt
                  else forEach (toList symbolHolder) (copyBaseMember scope key))
            end
        | _ => ret tt
        end
    end).

(** Modelled from the spec: constrcutorCall.ts is not among the sources.
    "The first base's constructors (if any)": the holder that the members
    scope of the type has under the type's own identifier. *)
Definition findConstructorOfType (resolvedType : option ResolvedType) (s : Store)
    : option SymbolHolder :=
  match resolvedType with
  | None => None
  | Some rt =>
      match symbolAt (typeOrFunc rt) s with
      | Some (SymType t) =>
          match tryResolveActiveScope (membersScopePath t) s with
          | Some members => JsMap.get (symbolTableOf members s) (text (typeIdentifierToken t))
          | None => None
          end
      | _ => None
      end
  end.

(** [baseConstructor.clone({identifierToken: 'super' ..., accessRestriction: Private})] *)
Definition cloneAsSuper (baseConstructor : SymbolFunction) : SymbolFunction :=
  mkSymbolFunction
    (createVirtual "super"
       (mkRange (funcIdentifierToken baseConstructor) (funcIdentifierToken baseConstructor)))
    (funcScopePath baseConstructor) (returnType baseConstructor)
    (parameterTypes baseConstructor) (funcLinkedNode baseConstructor)
    (functionScopePath baseConstructor) (funcIsInstanceMember baseConstructor)
    (Some Private) (funcTemplateTypes baseConstructor).

(** The inner closure that [hoistClass] pushes: copy the members of the
    bases, then insert the [super] constructors. *)
Definition hoistClassBase (scope : ScopePath) (symbol : SymRef) : State Store unit :=
  let* s := get in
  match symbolAt symbol s with
  | Some (SymType t) =>
      match baseList t with
      | None => ret tt
      | Some bases =>
          copyBaseMembers scope bases;;
          let primeBase := if 1 <=? length bases then mjoin (bases !! 0) else None in
          let* s := get in
          match findConstructorOfType primeBase s with
          | Some (HolderFunctions f rest) =>
              forEach (f :: rest) (fun baseConstructor =>
                let* s := get in
                match symbolAt baseConstructor s with
                | Some (SymFunction c) =>
                    let* superConstructor := create (SymFunction (cloneAsSuper c)) in
                    let* _ := insertSymbol scope superConstructor in
                    ret tt
                | _ => ret tt
                end)
          | _ => ret tt
          end
      end
  | _ => ret tt
  end.

(** [hoistTypeDef] *)
Definition hoistTypeDef (parentScope : ScopePath) (typeDef : NodeTypeDef)
    : State Store unit :=
  match tryGetBuiltinType (typeDefType typeDef) with
  | None => ret tt
  | Some builtInLinkedNode =>
      let* symbol := create (SymType
        (mkSymbolType (typeDefIdentifier typeDef) parentScope builtInLinkedNode
                      None false None None)) in
      let* _ := insertSymbolAndCheck parentScope symbol in
      ret tt
  end.

(** [hoistParamList] *)
Definition hoistParamList (scope : ScopePath) (paramList : NodeParamList)
    : State Store (list (option ResolvedType)) :=
  mapM (fun param =>
    let* type := callAnalyzeType scope (paramType param) in
    match paramIdentifier param with
    | None => ret type
    | Some identifier =>
        let* symbol := create (SymVariable
          (mkSymbolVariable identifier scope type false None)) in
        let* _ := insertSymbolAndCheck scope symbol in
        ret type
    end) paramList.

(** The double-quote character, and the message
    [Property accessor must start with (dq)get_(dq) or (dq)set_(dq)]. *)
Definition dq : string := String (Ascii.ascii_of_nat 34) EmptyString.
Definition propertyAccessorMessage : string :=
  "Property accessor must start with " +:+ dq +:+ "get_" +:+ dq +:+ " or "
  +:+ dq +:+ "set_" +:+ dq.

(** [hoistFunc] *)
Definition hoistFunc (parentScope : ScopePath) (nodeFunc : NodeFunc)
    (analyzeQueue hoistQueue : QueueId) (isInstanceMember : bool) : H unit :=
  match funcHead nodeFunc with
  | funcHeadDestructor => ret tt
  | _ =>
      let node := mkLinked NameFunc (funcNodeId nodeFunc) in
      let* funcionHolderScope :=
        liftS (insertScope parentScope (text (funcIdentifier nodeFunc)) None) in
      let* anonymous := liftS createAnonymousIdentifier in
      let* functionScope := liftS (insertScope funcionHolderScope anonymous (Some node)) in
      let* symbol := liftS (create (SymFunction
        (mkSymbolFunction (funcIdentifier nodeFunc) parentScope None [] node
                          (Some functionScope) isInstanceMember (funcAccessor nodeFunc)
                          None))) in
      let* templateTypes :=
        liftS (hoistClassTemplateTypes functionScope (funcTypeTemplates nodeFunc)) in
      (if 0 <? length templateTypes then liftS (assignTemplateTypes symbol templateTypes)
       else ret tt);;
      let* returnType :=
        (match funcHead nodeFunc with
         | FuncHeadReturnValue returnType => liftS (callAnalyzeType functionScope returnType)
         | _ => ret None
         end) in
      liftS (assignReturnType symbol returnType);;
      let* inserted := liftS (insertSymbolAndCheck parentScope symbol) in
      if negb inserted then ret tt
      else
        (if String.prefix "get_" (text (funcIdentifier nodeFunc))
            || String.prefix "set_" (text (funcIdentifier nodeFunc))
         then
           let* s := liftS get in
           if match funcAttr nodeFunc with Some a => isProperty a | None => false end
              || negb (explicitPropertyAccessor s)
           then
             let identifier :=
               createVirtual
                 (String.substring 4 (String.length (text (funcIdentifier nodeFunc)) - 4)
                                   (text (funcIdentifier nodeFunc)))
                 (mkRange (funcIdentifier nodeFunc) (funcIdentifier nodeFunc)) in
             let* symbol := liftS (create (SymVariable
               (mkSymbolVariable identifier parentScope returnType isInstanceMember
                                 (funcAccessor nodeFunc)))) in
             let* _ := liftS (insertSymbol parentScope symbol) in
             ret tt
           else ret tt
         else if match funcAttr nodeFunc with Some a => isProperty a | None => false end
         then liftS (error (location (funcIdentifier nodeFunc)) propertyAccessorMessage)
         else ret tt);;
        push hoistQueue (ParamListTask symbol functionScope (funcParamList nodeFunc));;
        push analyzeQueue (AnalyzeFuncTask functionScope nodeFunc)
  end.

(** Modelled from the spec: [insertVariables] of analyzer.ts is not among the
    sources; a variable declaration inserts one variable symbol of the
    declared type into the current scope for each declared name. *)
Definition insertVariables (scope : ScopePath) (varType : option ResolvedType)
    (nodeVar : NodeVar) (isInstanceMember : bool) : State Store unit :=
  forEach (varVariables nodeVar) (fun declaredVar =>
    let* symbol := create (SymVariable
      (mkSymbolVariable (declIdentifier declaredVar) scope varType isInstanceMember
                        (varAccessor nodeVar))) in
    let* _ := insertSymbolAndCheck scope symbol in
    ret tt).

(** [hoistVar] *)
Definition hoistVar (scope : ScopePath) (nodeVar : NodeVar) (analyzeQueue : QueueId)
    (isInstanceMember : bool) : H unit :=
  let* varType := liftS (callAnalyzeType scope (Hoist.varType nodeVar)) in
  push analyzeQueue (AnalyzeVarTask scope varType nodeVar);;
  liftS (insertVariables scope varType nodeVar isInstanceMember).

(** [hoistFuncDef] *)
Definition hoistFuncDef (parentScope : ScopePath) (funcDef : NodeFuncDef)
    (analyzeQueue hoistQueue : QueueId) : H unit :=
  let* symbol := liftS (create (SymFunction
    (mkSymbolFunction (funcDefIdentifier funcDef) parentScope None []
                      (mkLinked NameFuncDef (funcDefNodeId funcDef)) None false None None))) in
  let* inserted := liftS (insertSymbolAndCheck parentScope symbol) in
  if negb inserted then ret tt
  else
    push hoistQueue (FuncDefReturnTask symbol parentScope funcDef);;
    push hoistQueue (FuncDefParamsTask symbol parentScope funcDef).

(** [hoistVirtualProp] *)
Definition hoistVirtualProp (parentScope : ScopePath) (virtualProp : NodeVirtualProp)
    (analyzeQueue hoistQueue : QueueId) (isInstanceMember : bool) : H unit :=
  let node := mkLinked NameVirtualProp (propNodeId virtualProp) in
  let* type := liftS (callAnalyzeType parentScope (propType virtualProp)) in
  let identifier := propIdentifier virtualProp in
  let* symbol := liftS (create (SymVariable
    (mkSymbolVariable identifier parentScope type isInstanceMember
                      (propAccessor virtualProp)))) in
  let* _ := liftS (insertSymbolAndCheck parentScope symbol) in
  (match propGetter virtualProp with
   | Some (mkPropAccessor (Some statBlock)) =>
       let* getterScope :=
         liftS (insertScope parentScope ("get_" +:+ text identifier) (Some node)) in
       push analyzeQueue (AnalyzeStatBlockTask getterScope statBlock)
   | _ => ret tt
   end);;
  match propSetter virtualProp with
  | Some (mkPropAccessor (Some statBlock)) =>
      let* setterScope :=
        liftS (insertScope parentScope ("set_" +:+ text identifier) (Some node)) in
      (match type with
       | Some type =>
           let* valueVariable := liftS (create (SymVariable
             (mkSymbolVariable builtinSetterValueToken parentScope
                               (Some (newResolvedType (typeOrFunc type))) false
                               (propAccessor virtualProp)))) in
           let* _ := liftS (insertSymbolAndCheck setterScope valueVariable) in
           ret tt
       | None => ret tt
       end);;
      push analyzeQueue (AnalyzeStatBlockTask setterScope statBlock)
  | _ => ret tt
  end.

(** [hoistIntfMethod] *)
Definition hoistIntfMethod (parentScope : ScopePath) (intfMethod : NodeIntfMethod)
    : State Store unit :=
  let* returnType := callAnalyzeType parentScope (intfMethodReturnType intfMethod) in
  let* symbol := create (SymFunction
    (mkSymbolFunction (intfMethodIdentifier intfMethod) parentScope returnType []
                      (mkLinked NameIntfMethod (intfMethodNodeId intfMethod)) None true
                      None None)) in
  let* _ := insertSymbolAndCheck parentScope symbol in
  ret tt.

(** [hoistClassMembers] *)
Definition hoistClassMembers (scope : ScopePath) (nodeClass : NodeClass)
    (analyzeQueue hoistQueue : QueueId) : H unit :=
  forEach (classMemberList nodeClass) (fun member =>
    match member with
    | MemberVirtualProp n => hoistVirtualProp scope n analyzeQueue hoistQueue true
    | MemberFunc n => hoistFunc scope n analyzeQueue hoistQueue true
    | MemberVar n => hoistVar scope n analyzeQueue true
    | MemberFuncDef n => hoistFuncDef scope n analyzeQueue hoistQueue
    end).

(** [hoistInterfaceMembers] *)
Definition hoistInterfaceMembers (scope : ScopePath) (nodeInterface : NodeInterface)
    (analyzeQueue hoistQueue : QueueId) : H unit :=
  forEach (interfaceMemberList nodeInterface) (fun member =>
    match member with
    | IntfVirtualProp n => hoistVirtualProp scope n analyzeQueue hoistQueue true
    | IntfMethod n => liftS (hoistIntfMethod scope n)
    end).

(** [hoistClass] *)
Definition hoistClass (parentScope : ScopePath) (nodeClass : NodeClass)
    (analyzeQueue hoistQueue : QueueId) : H unit :=
  let node := mkLinked NameClass (classNodeId nodeClass) in
  let* symbol := liftS (create (SymType
    (mkSymbolType (classIdentifier nodeClass) parentScope (Some node) None false None
                  None))) in
  let* inserted := liftS (insertSymbolAndCheck parentScope symbol) in
  if negb inserted then ret tt
  else
    let* scope :=
      liftS (insertScopeAndCheck parentScope (classIdentifier nodeClass) (Some node)) in
    liftS (assignMembersScopePath symbol scope);;
    let* thisVariable := liftS (create (SymVariable
      (mkSymbolVariable builtinThisToken parentScope (Some (newResolvedType symbol)) false
                        (Some Private)))) in
    let* _ := liftS (insertSymbolAndCheck scope thisVariable) in
    let* templateTypes :=
      liftS (hoistClassTemplateTypes scope (classTypeTemplates nodeClass)) in
    (if 0 <? length templateTypes then liftS (assignTemplateTypes symbol templateTypes)
     else ret tt);;
    let* bases := liftS (hoistBaseList scope (classBaseList nodeClass)) in
    liftS (assignBaseList symbol bases);;
    push hoistQueue (ClassMembersTask scope nodeClass symbol analyzeQueue hoistQueue);;
    liftS (pushScopeRegionInfo scope (classNodeRange nodeClass)).

(** [hoistMixin] *)
Definition hoistMixin (parentScope : ScopePath) (mixinClass : NodeClass)
    (analyzeQueue hoistQueue : QueueId) : H unit :=
  hoistClass parentScope mixinClass analyzeQueue hoistQueue.

(** [hoistInterface] *)
Definition hoistInterface (parentScope : ScopePath) (nodeInterface : NodeInterface)
    (analyzeQueue hoistQueue : QueueId) : H unit :=
  let node := mkLinked NameInterface (interfaceNodeId nodeInterface) in
  let* symbol := liftS (create (SymType
    (mkSymbolType (interfaceIdentifier nodeInterface) parentScope (Some node) None false
                  None None))) in
  let* inserted := liftS (insertSymbolAndCheck parentScope symbol) in
  if negb inserted then ret tt
  else
    let* scope :=
      liftS (insertScopeAndCheck parentScope (interfaceIdentifier nodeInterface)
                                 (Some node)) in
    liftS (assignMembersScopePath symbol scope);;
    let* bases := liftS (hoistBaseList scope (interfaceBaseList nodeInterface)) in
    (match bases with
     | Some _ => liftS (assignBaseList symbol bases)
     | None => ret tt
     end);;
    push hoistQueue (InterfaceMembersTask scope nodeInterface bases analyzeQueue hoistQueue);;
    liftS (pushScopeRegionInfo scope (interfaceNodeRange nodeInterface)).

(** The loop over [namespaceList] in [hoistNamespace]. *)
Fixpoint namespaceScopes (scopeIterator : ScopePath) (namespaceNodeId : nat)
    (namespaceList : list TokenObject) : State Store ScopePath :=
  match namespaceList with
  | [] => ret scopeIterator
  | namespaceToken :: rest =>
      let* scopeIterator := insertScopeAndCheck scopeIterator namespaceToken None in
      pushNamespaceNode scopeIterator namespaceNodeId namespaceToken;;
      namespaceScopes scopeIterator namespaceNodeId rest
  end.

(** One iteration of the loop of [hoistScript]; the [StNamespace] case is
    [hoistNamespace], which receives the analyze queue alone and hands it to
    [hoistScript] as both queues. *)
Fixpoint hoistStatement (parentScope : ScopePath) (statement : Statement)
    (analyzeQueue hoistQueue : QueueId) {struct statement} : H unit :=
  match statement with
  | StEnum n => liftS (hoistEnum parentScope n)
  | StTypeDef n => liftS (hoistTypeDef parentScope n)
  | StClass n => hoistClass parentScope n analyzeQueue hoistQueue
  | StMixin n => hoistMixin parentScope n analyzeQueue hoistQueue
  | StInterface n => hoistInterface parentScope n analyzeQueue hoistQueue
  | StFuncDef n => hoistFuncDef parentScope n analyzeQueue hoistQueue
  | StVirtualProp n => hoistVirtualProp parentScope n analyzeQueue hoistQueue false
  | StVar n => hoistVar parentScope n analyzeQueue false
  | StFunc n => hoistFunc parentScope n analyzeQueue hoistQueue false
  | StNamespace namespaceNodeId namespaceList script nodeRange =>
      let queue := analyzeQueue in
      if length namespaceList =? 0 then ret tt
      else
        let* scopeIterator :=
          liftS (namespaceScopes parentScope namespaceNodeId namespaceList) in
        forEach script (fun statement => hoistStatement scopeIterator statement queue queue);;
        liftS (pushScopeRegionInfo scopeIterator nodeRange)
  | StOther => ret tt
  end.

(** [hoistScript] *)
Definition hoistScript (parentScope : ScopePath) (ast : NodeScript)
    (analyzeQueue hoistQueue : QueueId) : H unit :=
  forEach ast (fun statement => hoistStatement parentScope statement analyzeQueue hoistQueue).

(** What a closure does when it is called. *)
Definition runTask (t : Task) : H unit :=
  match t with
  | ClassMembersTask scope nodeClass symbol analyzeQueue hoistQueue =>
      hoistClassMembers scope nodeClass analyzeQueue hoistQueue;;
      push hoistQueue (ClassBaseTask scope symbol)
  | ClassBaseTask scope symbol => liftS (hoistClassBase scope symbol)
  | InterfaceMembersTask scope nodeInterface bases analyzeQueue hoistQueue =>
      hoistInterfaceMembers scope nodeInterface analyzeQueue hoistQueue;;
      match bases with
      | Some bases => liftS (copyBaseMembers scope bases)
      | None => ret tt
      end
  | ParamListTask symbol functionScope paramList =>
      let* types := liftS (hoistParamList functionScope paramList) in
      liftS (assignParameterTypes symbol types)
  | FuncDefReturnTask symbol parentScope funcDef =>
      let* type := liftS (callAnalyzeType parentScope (funcDefReturnType funcDef)) in
      liftS (assignReturnType symbol type)
  | FuncDefParamsTask symbol parentScope funcDef =>
      let* types :=
        liftS (mapM (fun param => callAnalyzeType parentScope (paramType param))
                    (funcDefParamList funcDef)) in
      liftS (assignParameterTypes symbol types)
  | AnalyzeFuncTask functionScope nodeFunc =>
      liftS (modify (analyzeFunc functionScope nodeFunc))
  | AnalyzeVarTask scope varType nodeVar =>
      liftS (forEach (varVariables nodeVar) (fun declaredVar =>
        match declInitializer declaredVar with
        | None => ret tt
        | Some initializer =>
            modify (analyzeVarInitializer scope varType (declIdentifier declaredVar)
                                          initializer)
        end))
  | AnalyzeStatBlockTask scope statBlock =>
      liftS (modify (analyzeStatBlock scope statBlock))
  end.

(** [while (queue.length > 0) { const next = queue.shift(); next(); }] *)
Fixpoint drain (fuel : nat) (q : QueueId) (w : World) : option World :=
  match queueOf q w with
  | [] => Some w
  | next :: rest =>
      match fuel with
      | 0 => None
      | S fuel' =>
          let w := setQueue q rest w in
          let w := mkWorld (store w) (analyzeQueue w) (hoistQueue w)
                           (executed w ++ [(q, next)]) in
          drain fuel' q (snd (runTask next w))
      end
  end.

(** [hoistAfterParsed]: fresh queues, the walk, then the drain of the hoist
    queue.  The result holds the global scope and the analyze queue. *)
Definition hoistAfterParsed (fuel : nat) (ast : NodeScript) (globalScope : ScopePath)
    (s : Store) : option World :=
  let w := mkWorld s [] [] [] in
  let w := snd (hoistScript globalScope ast TheAnalyzeQueue TheHoistQueue w) in
  drain fuel TheHoistQueue w.

(** Modelled from the spec: [analyzeAfterHoisted] of analyzer.ts is not among
    the sources; the analyze phase "drains the analyze queue built during
    hoist" (section 4.5). *)
Definition analyzeAfterHoisted (fuel : nat) (hoistResult : World) : option World :=
  drain fuel TheAnalyzeQueue hoistResult.

(** The part of [AnalysisResolver.analyzeFile] between the reset and the
    flush of the analyzer diagnostics: hoist, then analyze. *)
Definition analyzeFile (fuel : nat) (ast : NodeScript) (globalScope : ScopePath)
    (s : Store) : option World :=
  let s := setDiagnostics [] s in
  match hoistAfterParsed fuel ast globalScope s with
  | Some hoistResult => analyzeAfterHoisted fuel hoistResult
  | None => None
  end.

(** The size of a closure for the termination of the drains: more than what
    it pushes when run. *)
Definition taskWeight (t : Task) : nat :=
  match t with
  | ClassMembersTask _ nodeClass _ _ _ => 2 + 2 * length (classMemberList nodeClass)
  | InterfaceMembersTask _ nodeInterface _ _ _ =>
      1 + 2 * length (interfaceMemberList nodeInterface)
  | _ => 1
  end.

Definition queueWeight (l : list Task) : nat := list_sum (map taskWeight l).

Definition pendingWeight (w : World) : nat :=
  queueWeight (hoistQueue w) + queueWeight (analyzeQueue w).

End Hoisting.

End Hoist.

(** * Part II: the claims

    Facts about the insertion-ordered maps. *)

Module JsMapFacts.

Lemma JsMap_In_set {V} (m : JsMap.t V) k v k' v' :
  In (k', v') (JsMap.set m k v) -> In (k', v') m \/ (k', v') = (k, v).
Proof.
  induction m as [|[k0 v0] m IH]; simpl.
  - intros [H|[]]; auto.
  - destruct (String.eqb k0 k); simpl.
    + intros [H|H]; auto.
    + intros [H|H]; auto. destruct (IH H); auto.
Qed.

Lemma JsMap_get_In {V} (m : JsMap.t V) k v : JsMap.get m k = Some v -> In (k, v) m.
Proof.
  induction m as [|[k0 v0] m IH]; simpl; [discriminate|].
  destruct (String.eqb_spec k0 k) as [->|_].
  - intros [= ->]. auto.
  - auto.
Qed.

Lemma JsMap_get_set {V} (m : JsMap.t V) k v k' :
  JsMap.get (JsMap.set m k v) k' = if String.eqb k k' then Some v else JsMap.get m k'.
Proof.
  induction m as [|[k0 v0] m IH]; simpl.
  - reflexivity.
  - destruct (String.eqb_spec k0 k) as [->|Hne]; simpl.
    + destruct (String.eqb k k'); reflexivity.
    + rewrite IH.
      destruct (String.eqb_spec k0 k') as [->|Hne']; [|reflexivity].
      destruct (String.eqb_spec k k') as [->|_]; [congruence | reflexivity].
Qed.

End JsMapFacts.

(** ** symbolScopes.ts *)

Module SymbolScopesSpec.
Import SymbolScopes JsMapFacts.

Lemma sameNode_refl o : sameNode o o = true.
Proof. destruct o as [n|]; simpl; [apply Nat.eqb_refl | reflexivity]. Qed.

(** What [findScopeShallowlyThenInsertByIdentifier] leaves as the linked node
    of a child that it found. *)
Definition adoptedNode (ownerNode found : option SymbolOwnerNode) : option SymbolOwnerNode :=
  match ownerNode, found with
  | Some n, None => Some n
  | _, _ => found
  end.

(** A linked node is supplied and the child found has a different one. *)
Definition conflicting (ownerNode found : option SymbolOwnerNode) : bool :=
  match ownerNode, found with
  | Some n, Some m => negb (nodeRef n =? nodeRef m)
  | _, _ => false
  end.

Definition withOwner (o : option SymbolOwnerNode) (f : SymbolScope) : SymbolScope :=
  mkScope o (parentScope f) (key f) (childScopes f) (symbolMap f).

Definition withChild (k : string) (c : Ref) (s : SymbolScope) : SymbolScope :=
  mkScope (ownerNode s) (parentScope s) (key s) (JsMap.set (childScopes s) k c) (symbolMap s).

Lemma lookup_lt_length {A} (l : list A) i x : l !! i = Some x -> i < length l.
Proof. intros H. apply lookup_lt_is_Some. eauto. Qed.

(** C5 (symbolScopes.ts, [findScopeShallowlyOrInsert]): with no child scope
    under the identifier a new scope is created, inserted and returned, and
    no diagnostic is added; with a child, that child is returned, it takes
    over a supplied linked node if it had none, and the diagnostic
    [Symbol ...' is already defined.] is added at the location of the
    identifier token exactly when a linked node is supplied and the child
    already has a different one. *)
Theorem C5_findScopeShallowlyOrInsert
    (ownerNode : option SymbolOwnerNode) (scope : Ref) (identifierToken : ParsedToken)
    (w : World) (s : SymbolScope) :
  heap w !! scope = Some s ->
  match JsMap.get (childScopes s) (text identifierToken) with
  | None =>
      findScopeShallowlyOrInsert ownerNode scope identifierToken w =
      Some (length (heap w),
            mkWorld (<[scope := withChild (text identifierToken) (length (heap w)) s]>
                       (heap w ++ [mkScope ownerNode (Some scope) (text identifierToken) [] []]))
                    (diagnostics w) (s_uniqueIdentifier w))
  | Some found =>
      forall f, heap w !! found = Some f ->
      findScopeShallowlyOrInsert ownerNode scope identifierToken w =
      Some (found,
            mkWorld (<[found := withOwner (adoptedNode ownerNode (SymbolScopes.ownerNode f)) f]>
                       (heap w))
                    (diagnostics w ++
                       (if conflicting ownerNode (SymbolScopes.ownerNode f)
                        then [mkDiag (location identifierToken)
                                     ("Symbol " +:+ text identifierToken
                                      +:+ "' is already defined.")]
                        else []))
                    (s_uniqueIdentifier w))
  end.
Proof.
  intros Hs.
  pose proof (lookup_lt_length _ _ _ Hs) as Hlt.
  destruct (JsMap.get (childScopes s) (text identifierToken)) as [found|] eqn:Hget.
  - intros f Hf.
    pose proof (lookup_lt_length _ _ _ Hf) as Hflt.
    unfold findScopeShallowlyOrInsert, findScopeShallowlyThenInsertByIdentifier, bind, readScope.
    rewrite Hs, Hget.
    destruct ownerNode as [n|]; simpl.
    + unfold bind, readScope. rewrite Hf.
      destruct (SymbolScopes.ownerNode f) as [m|] eqn:Hown; simpl.
      * unfold ret. rewrite Hf, Hown. simpl.
        assert (Hid : <[found := withOwner (Some m) f]> (heap w) = heap w).
        { assert (Hwf : withOwner (Some m) f = f) by (destruct f; simpl in *; subst; reflexivity).
          rewrite Hwf. apply list_insert_id, Hf. }
        rewrite Hid.
        destruct (nodeRef n =? nodeRef m); simpl; unfold addError, ret; simpl.
        -- rewrite app_nil_r. destruct w; reflexivity.
        -- reflexivity.
      * unfold writeScope, bind, ret, setHeap. simpl.
        destruct (decide (found < length (heap w))) as [_|Hc]; [|lia]. simpl.
        rewrite list_lookup_insert_eq by lia. simpl.
        rewrite Nat.eqb_refl. simpl. rewrite app_nil_r. reflexivity.
    + unfold ret. rewrite Hf. simpl.
      assert (Hid : <[found := withOwner (SymbolScopes.ownerNode f) f]> (heap w) = heap w).
      { assert (Hwf : withOwner (SymbolScopes.ownerNode f) f = f) by (destruct f; reflexivity).
        rewrite Hwf. apply list_insert_id, Hf. }
      rewrite Hid, app_nil_r. destruct w; reflexivity.
  - unfold findScopeShallowlyOrInsert, findScopeShallowlyThenInsertByIdentifier, bind, readScope.
    rewrite Hs, Hget.
    unfold createSymbolScopeAndInsert, createSymbolScope, alloc, bind, readScope, setHeap. simpl.
    rewrite lookup_app_l by lia.
    rewrite Hs.
    unfold writeScope. simpl.
    destruct (decide (scope < length (heap w ++ [mkScope ownerNode (Some scope) (text identifierToken) [] []]))) as [_|Hc];
      [|rewrite length_app in Hc; simpl in Hc; lia].
    simpl. unfold ret, setHeap. simpl.
    rewrite list_lookup_insert_ne by lia.
    rewrite lookup_app_r by lia. rewrite Nat.sub_diag. simpl.
    rewrite sameNode_refl. rewrite andb_false_r. reflexivity.
Qed.


(** *** Anonymous identifiers *)

(** [k] successive calls of [createAnonymousIdentifier]. *)
Fixpoint anonymousIdentifiers (k : nat) : M (list string) :=
  match k with
  | 0 => ret []
  | S k' =>
      let* id := createAnonymousIdentifier in
      let* ids := anonymousIdentifiers k' in
      ret (id :: ids)
  end.

(** A function-body scope inserted under a function-holder scope for each
    of the given nodes, each under a new anonymous identifier. *)
Fixpoint insertAnonymousScopes (nodes : list (option SymbolOwnerNode)) (holder : Ref)
    : M (list Ref) :=
  match nodes with
  | [] => ret []
  | node :: rest =>
      let* id := createAnonymousIdentifier in
      let* r := findScopeShallowlyThenInsertByIdentifier node holder id in
      let* rs := insertAnonymousScopes rest holder in
      ret (r :: rs)
  end.

Definition anonymousName (n : Z) : string := "~" +:+ pretty n.

Lemma anonymousName_inj n m : anonymousName n = anonymousName m -> n = m.
Proof.
  unfold anonymousName. intros H.
  unfold String.append in H. injection H as H. by apply (inj pretty) in H.
Qed.

Lemma anonymousName_anonymous n : isAnonymousIdentifier (anonymousName n) = true.
Proof.
  unfold isAnonymousIdentifier, anonymousName, String.append. cbn.
  destruct (pretty n); reflexivity.
Qed.

Lemma jsIncrement_exact n : (n < 2 ^ 53)%Z -> jsIncrement n = (n + 1)%Z.
Proof. unfold jsIncrement. intros H. destruct (Z.ltb_spec n (2 ^ 53)); [reflexivity | lia]. Qed.

Lemma anonymousIdentifiers_spec k : forall w,
  (s_uniqueIdentifier w + Z.of_nat k <= 2 ^ 53)%Z ->
  anonymousIdentifiers k w =
  Some (map (fun i => anonymousName (s_uniqueIdentifier w + 1 + Z.of_nat i)) (seq 0 k),
        mkWorld (heap w) (diagnostics w) (s_uniqueIdentifier w + Z.of_nat k)).
Proof.
  induction k as [|k IH]; intros w Hk.
  - simpl. unfold ret. rewrite Z.add_0_r. destruct w; reflexivity.
  - cbn [anonymousIdentifiers]. unfold bind at 1. unfold createAnonymousIdentifier at 1.
    rewrite jsIncrement_exact by lia.
    unfold bind. rewrite IH by (simpl; lia). simpl. unfold ret. f_equal. f_equal.
    + f_equal.
      * unfold anonymousName. do 2 f_equal. lia.
      * rewrite <- seq_shift, map_map. apply map_ext. intros i. f_equal. lia.
    + f_equal. lia.
Qed.

Lemma insert_new_child node holder id w h :
  heap w !! holder = Some h ->
  JsMap.get (childScopes h) id = None ->
  findScopeShallowlyThenInsertByIdentifier node holder id w =
  Some (length (heap w),
        mkWorld (<[holder := withChild id (length (heap w)) h]>
                   (heap w ++ [mkScope node (Some holder) id [] []]))
                (diagnostics w) (s_uniqueIdentifier w)).
Proof.
  intros Hs Hget.
  pose proof (lookup_lt_length _ _ _ Hs) as Hlt.
  unfold findScopeShallowlyThenInsertByIdentifier, bind, readScope.
  rewrite Hs, Hget.
  unfold createSymbolScopeAndInsert, createSymbolScope, alloc, bind, readScope, setHeap. simpl.
  rewrite lookup_app_l by lia. rewrite Hs.
  unfold writeScope. simpl.
  destruct (decide (holder < length (heap w ++ [mkScope node (Some holder) id [] []])))
    as [_|Hc]; [|rewrite length_app in Hc; simpl in Hc; lia].
  reflexivity.
Qed.

Lemma insertAnonymousScopes_spec nodes holder : forall w h,
  heap w !! holder = Some h ->
  (forall m, (s_uniqueIdentifier w < m)%Z ->
             JsMap.get (childScopes h) (anonymousName m) = None) ->
  (s_uniqueIdentifier w + Z.of_nat (length nodes) <= 2 ^ 53)%Z ->
  exists w',
    insertAnonymousScopes nodes holder w = Some (seq (length (heap w)) (length nodes), w').
Proof.
  induction nodes as [|node rest IH]; intros w h Hs Hfresh Hk.
  - eexists. reflexivity.
  - pose proof (lookup_lt_length _ _ _ Hs) as Hlt.
    cbn [insertAnonymousScopes length] in *.
    unfold bind at 1. unfold createAnonymousIdentifier at 1.
    rewrite jsIncrement_exact by lia.
    unfold bind at 1.
    set (w1 := mkWorld (heap w) (diagnostics w) (s_uniqueIdentifier w + 1)).
    rewrite (insert_new_child node holder _ w1 h Hs) by (apply (Hfresh (s_uniqueIdentifier w + 1)%Z); lia).
    simpl.
    set (w2 := mkWorld _ _ _).
    destruct (IH w2 (withChild (anonymousName (s_uniqueIdentifier w + 1)) (length (heap w)) h))
      as [w' Hw'].
    + subst w2. simpl. apply list_lookup_insert_eq. rewrite length_app. simpl. lia.
    + subst w2. simpl. intros m Hm. rewrite JsMap_get_set.
      destruct (String.eqb _ _) eqn:E.
      * apply String.eqb_eq, anonymousName_inj in E. lia.
      * apply Hfresh. lia.
    + subst w2. simpl. lia.
    + exists w'. unfold bind. fold (anonymousName (s_uniqueIdentifier w + 1)).
      rewrite Hw'. subst w2. simpl. unfold ret.
      rewrite length_insert, length_app. simpl.
      replace (length (heap w) + 1) with (S (length (heap w))) by lia. reflexivity.
Qed.

(** C9 (symbolScopes.ts, [createAnonymousIdentifier]): every identifier
    produced starts with [~], so [isAnonymousIdentifier] accepts it; the
    identifiers of successive calls are pairwise distinct while the counter
    stays within the integers that a JavaScript number counts exactly; and
    function-body scopes inserted one after the other under one holder
    scope, each under a new anonymous identifier, are as many new, pairwise
    distinct scope objects. *)
Theorem C9_anonymous_identifiers_distinct
    (k : nat) (nodes : list (option SymbolOwnerNode)) (holder : Ref)
    (w : World) (h : SymbolScope) :
  (s_uniqueIdentifier w + Z.of_nat k <= 2 ^ 53)%Z ->
  (s_uniqueIdentifier w + Z.of_nat (length nodes) <= 2 ^ 53)%Z ->
  heap w !! holder = Some h ->
  (forall m, (s_uniqueIdentifier w < m)%Z ->
             JsMap.get (childScopes h) (anonymousName m) = None) ->
  (exists id w1,
      createAnonymousIdentifier w = Some (id, w1) /\
      isAnonymousIdentifier id = true) /\
  (exists ids w2,
      anonymousIdentifiers k w = Some (ids, w2) /\
      length ids = k /\ NoDup ids /\
      Forall (fun id => isAnonymousIdentifier id = true) ids) /\
  (exists refs w3,
      insertAnonymousScopes nodes holder w = Some (refs, w3) /\
      length refs = length nodes /\ NoDup refs /\
      Forall (fun r => length (heap w) <= r) refs).
Proof.
  intros Hk Hn Hs Hfresh. split; [|split].
  - eexists _, _. split; [reflexivity|]. apply anonymousName_anonymous.
  - eexists _, _. split; [apply anonymousIdentifiers_spec, Hk|].
    split; [by rewrite length_map, length_seq|]. split.
    + apply NoDup_fmap_2; [|apply NoDup_seq].
      intros i j Hij. apply anonymousName_inj in Hij. lia.
    + apply Forall_forall. intros id Hid. apply list_elem_of_In, in_map_iff in Hid.
      destruct Hid as [i [<- _]]. apply anonymousName_anonymous.
  - destruct (insertAnonymousScopes_spec nodes holder w h Hs Hfresh Hn) as [w' Hw'].
    eexists _, _. split; [exact Hw'|].
    split; [apply length_seq|]. split; [apply NoDup_seq|].
    apply Forall_forall. intros r Hr. apply list_elem_of_In, in_seq in Hr. lia.
Qed.

(** *** A scope tree at hand *)

Definition locatedAt (file : string) (name : string) : ParsedToken :=
  mkToken name (mkLocation file 0 0 0 0).

Definition classF : SymbolOwnerNode := mkNode 7 NodeClass (locatedAt "a.as" "f").
Definition funcF : SymbolOwnerNode := mkNode 8 NodeFunc (locatedAt "a.as" "f").

(** A root scope whose child [f] is the scope of the class [f]. *)
Definition rootWithF : SymbolScope := mkScope None None "" [("f", 1)] [].
Definition scopeOfF : SymbolScope := mkScope (Some classF) (Some 0) "f" [] [].
Definition classWorld : World := mkWorld [rootWithF; scopeOfF] [] (-1).

(** The witness of C5: the scope of a function [f] is asked for where the
    scope of the class [f] exists. *)
Lemma C5_findScopeShallowlyOrInsert_conflict :
  heap classWorld !! 0 = Some rootWithF /\
  findScopeShallowlyOrInsert (Some funcF) 0 (locatedAt "a.as" "f") classWorld =
  Some (1, mkWorld [rootWithF; scopeOfF]
                   [mkDiag (mkLocation "a.as" 0 0 0 0) "Symbol f' is already defined."]
                   (-1)).
Proof.
  split; [reflexivity|].
  exact (C5_findScopeShallowlyOrInsert (Some funcF) 0 (locatedAt "a.as" "f") classWorld rootWithF
           eq_refl scopeOfF eq_refl).
Defined.

(** A function-holder scope without children, the counter at its start. *)
Definition holderScope : SymbolScope := mkScope None None "g" [] [].
Definition holderWorld : World := mkWorld [holderScope] [] (-1).

(** The witness of C9: three identifiers, and two body scopes under one
    holder. *)
Lemma C9_anonymous_identifiers_distinct_three :
  (exists ids w2,
      anonymousIdentifiers 3 holderWorld = Some (ids, w2) /\ NoDup ids) /\
  (exists refs w3,
      insertAnonymousScopes [Some funcF; Some classF] 0 holderWorld = Some (refs, w3) /\
      NoDup refs).
Proof.
  destruct (C9_anonymous_identifiers_distinct 3 [Some funcF; Some classF] 0 holderWorld
              holderScope) as (_ & (ids & w2 & Hids & _ & Hnd & _) & (refs & w3 & Hrefs & _ & Hndr & _)).
  - vm_compute. discriminate.
  - vm_compute. discriminate.
  - reflexivity.
  - intros m _. reflexivity.
  - split; [exists ids, w2 | exists refs, w3]; split; assumption.
Defined.

(** *** The pure scope of an analyzed file *)

(** [r] leads to [x] through child scopes. *)
Inductive reaches (h : list SymbolScope) : Ref -> Ref -> Prop :=
| reaches_here r : reaches h r r
| reaches_child r sc k c x :
    h !! r = Some sc -> In (k, c) (childScopes sc) -> reaches h c x -> reaches h r x.

(** The scopes below [r] form a tree of depth at most [d] that lies within
    the first [n0] objects of the heap. *)
Fixpoint scope_tree (h : list SymbolScope) (n0 d : nat) (r : Ref) : Prop :=
  match d with
  | 0 => False
  | S d' =>
      r < n0 /\
      exists sc, h !! r = Some sc /\
                 Forall (fun kc => scope_tree h n0 d' (snd kc)) (childScopes sc)
  end.

Section PureScope.

Variable target : string.
Variable n0 : nat.

(** The tables of a scope of the copy: symbols declared at [target], child
    scopes that are again objects of the copy. *)
Definition entries_ok (len : nat) (sc : SymbolScope) : Prop :=
  (forall k sym, In (k, sym) (symbolMap sc) ->
                 path (location (declaredPlace sym)) = target) /\
  (forall k c, In (k, c) (childScopes sc) -> n0 <= c < len).

Definition pure_inv (h : list SymbolScope) : Prop :=
  forall r sc, n0 <= r -> h !! r = Some sc -> entries_ok (length h) sc.

(** What a step of the copy leaves alone. *)
Definition frame (w w' : World) : Prop :=
  length (heap w) <= length (heap w') /\
  (forall r, r < n0 -> heap w' !! r = heap w !! r) /\
  diagnostics w' = diagnostics w /\
  s_uniqueIdentifier w' = s_uniqueIdentifier w.

Lemma frame_refl w : frame w w.
Proof. repeat split; auto. Qed.

Lemma frame_trans w1 w2 w3 : frame w1 w2 -> frame w2 w3 -> frame w1 w3.
Proof.
  intros (L1 & F1 & D1 & U1) (L2 & F2 & D2 & U2). repeat split.
  - lia.
  - intros r Hr. rewrite F2, F1; auto.
  - congruence.
  - congruence.
Qed.

Lemma entries_ok_mono len len' sc : len <= len' -> entries_ok len sc -> entries_ok len' sc.
Proof.
  intros Hle [Hs Hc]. split; [exact Hs|]. intros k c Hin. specialize (Hc k c Hin). lia.
Qed.

Lemma pure_inv_insert h dest sc :
  pure_inv h -> entries_ok (length h) sc -> pure_inv (<[dest := sc]> h).
Proof.
  intros Hinv Hsc r sc' Hr Hlook. rewrite length_insert.
  destruct (decide (dest = r)) as [->|Hne].
  - destruct (decide (r < length h)) as [Hlt|Hge].
    + rewrite list_lookup_insert_eq in Hlook by lia. by injection Hlook as <-.
    + rewrite list_insert_ge in Hlook by lia. eauto.
  - rewrite list_lookup_insert_ne in Hlook by done. eauto.
Qed.

Lemma pure_inv_alloc h sc :
  pure_inv h -> entries_ok (S (length h)) sc -> pure_inv (h ++ [sc]).
Proof.
  intros Hinv Hsc r sc' Hr Hlook. rewrite length_app. simpl.
  replace (length h + 1) with (S (length h)) by lia.
  destruct (decide (r < length h)) as [Hlt|Hge].
  - rewrite lookup_app_l in Hlook by lia.
    eapply entries_ok_mono; [|eapply Hinv; eauto]. lia.
  - rewrite lookup_app_r in Hlook by lia.
    destruct (r - length h) as [|i] eqn:E; simpl in Hlook; [|by destruct i].
    by injection Hlook as <-.
Qed.

Lemma setSymbol_ok dest k sym w :
  pure_inv (heap w) -> n0 <= dest < length (heap w) ->
  path (location (declaredPlace sym)) = target ->
  exists w', setSymbol dest k sym w = Some (tt, w') /\
             pure_inv (heap w') /\ frame w w' /\ dest < length (heap w').
Proof.
  intros Hinv [Hge Hlt] Hpath.
  destruct (lookup_lt_is_Some_2 _ _ Hlt) as [d Hd].
  unfold setSymbol, bind, readScope, writeScope. rewrite Hd.
  destruct (decide (dest < length (heap w))) as [_|]; [|lia].
  eexists. split; [reflexivity|]. simpl.
  destruct (Hinv dest d Hge Hd) as [Hs Hc].
  split; [|split].
  - apply pure_inv_insert; [exact Hinv|]. split; simpl; [|exact Hc].
    intros k' sym' Hin. apply JsMap_In_set in Hin as [Hin|[= -> ->]]; eauto.
  - repeat split; simpl; auto.
    + rewrite length_insert. lia.
    + intros r Hr. apply list_lookup_insert_ne. lia.
  - rewrite length_insert. lia.
Qed.

Lemma find_insert_ok node dest k w :
  pure_inv (heap w) -> n0 <= dest < length (heap w) ->
  exists c w', findScopeShallowlyThenInsertByIdentifier node dest k w = Some (c, w') /\
               pure_inv (heap w') /\ frame w w' /\ n0 <= c < length (heap w').
Proof.
  intros Hinv [Hge Hlt].
  destruct (lookup_lt_is_Some_2 _ _ Hlt) as [d Hd].
  destruct (Hinv dest d Hge Hd) as [Hs Hc].
  unfold findScopeShallowlyThenInsertByIdentifier, bind, readScope. rewrite Hd.
  destruct (JsMap.get (childScopes d) k) as [found|] eqn:Hget.
  - apply JsMap_get_In in Hget. specialize (Hc _ _ Hget).
    destruct (lookup_lt_is_Some_2 (heap w) found) as [f Hf]; [lia|].
    destruct (Hinv found f ltac:(lia) Hf) as [Hfs Hfc].
    destruct node as [n|].
    + unfold bind, readScope. rewrite Hf.
      destruct (ownerNode f) eqn:Hown.
      * eexists _, _. split; [reflexivity|]. split; [exact Hinv|]. split; [apply frame_refl | lia].
      * unfold writeScope, bind, ret.
        destruct (decide (found < length (heap w))) as [_|]; [|lia].
        eexists _, _. split; [reflexivity|]. simpl. split; [|split].
        -- apply pure_inv_insert; [exact Hinv|]. split; simpl; auto.
        -- repeat split; simpl; auto.
           ++ rewrite length_insert. lia.
           ++ intros r Hr. apply list_lookup_insert_ne. lia.
        -- rewrite length_insert. lia.
    + eexists _, _. split; [reflexivity|]. split; [exact Hinv|]. split; [apply frame_refl | lia].
  - unfold createSymbolScopeAndInsert, createSymbolScope, alloc, bind, readScope, setHeap.
    simpl. rewrite lookup_app_l by lia. rewrite Hd.
    unfold writeScope. simpl.
    destruct (decide (dest < length (heap w ++ [mkScope node (Some dest) k [] []])))
      as [_|Hn]; [|rewrite length_app in Hn; simpl in Hn; lia].
    eexists _, _. split; [reflexivity|]. simpl. split; [|split].
    + apply pure_inv_insert.
      * apply pure_inv_alloc; [exact Hinv|]. split; simpl; intros ? ? [].
      * rewrite length_app. simpl. split; simpl; [exact Hs|].
        intros k' c Hin. apply JsMap_In_set in Hin as [Hin|[= -> ->]].
        -- specialize (Hc _ _ Hin). lia.
        -- lia.
    + repeat split; simpl; auto.
      * rewrite length_insert, length_app. lia.
      * intros r Hr. rewrite list_lookup_insert_ne by lia. apply lookup_app_l. lia.
    + rewrite length_insert, length_app. simpl. lia.
Qed.

Lemma scope_tree_frame h h' d : forall r,
  (forall r, r < n0 -> h' !! r = h !! r) ->
  scope_tree h n0 d r -> scope_tree h' n0 d r.
Proof.
  induction d as [|d IH]; intros r Hfr; simpl; [tauto|].
  intros (Hlt & sc & Hsc & Hall). split; [exact Hlt|].
  exists sc. split; [rewrite Hfr; auto|].
  eapply Forall_impl; [exact Hall|]. intros [k c] Hc. simpl in *. eauto.
Qed.

(** A loop whose body keeps an invariant keeps it. *)
Lemma forEach_inv {A} (P : World -> Prop) (l : list A) (body : A -> M unit) :
  (forall x w, In x l -> P w -> exists w', body x w = Some (tt, w') /\ P w') ->
  forall w, P w -> exists w', forEach l body w = Some (tt, w') /\ P w'.
Proof.
  induction l as [|x l IH]; intros Hbody w HP; simpl.
  - exists w. split; [reflexivity | exact HP].
  - destruct (Hbody x w (or_introl eq_refl) HP) as (w1 & E1 & P1).
    destruct (IH (fun y w Hy => Hbody y w (or_intror Hy)) w1 P1) as (w2 & E2 & P2).
    exists w2. unfold bind. rewrite E1. split; [exact E2 | exact P2].
Qed.

Definition copyOptions : CopySymbolOptions := mkCopyOptions (Some target) None.

Lemma canCopy_target sym :
  canCopy copyOptions sym = true -> path (location (declaredPlace sym)) = target.
Proof.
  unfold canCopy, copyOptions, optEqb. simpl.
  destruct (String.eqb_spec (path (location (declaredPlace sym))) target); simpl; [auto|discriminate].
Qed.

Variable getPathOfScope : list SymbolScope -> Ref -> option string.

Lemma copy_ok fuel : forall src dest w,
  pure_inv (heap w) -> n0 <= dest < length (heap w) ->
  scope_tree (heap w) n0 fuel src ->
  exists w', copySymbolsInScope getPathOfScope fuel src dest copyOptions w = Some (tt, w') /\
             pure_inv (heap w') /\ frame w w'.
Proof.
  induction fuel as [|fuel IH]; intros src dest w Hinv Hdest Htree; simpl in Htree; [tauto|].
  destruct Htree as (Hsrc & sc & Hsc & Hchildren).
  cbn [copySymbolsInScope]. unfold bind at 1. unfold readScope at 1. rewrite Hsc.
  (* first loop *)
  pose (P := fun w' => pure_inv (heap w') /\ frame w w' /\ dest < length (heap w')).
  destruct (forEach_inv P (symbolMap sc)
              (fun '(k, symbol) =>
                 if canCopy copyOptions symbol then setSymbol dest k symbol else ret tt))
    with (w := w) as (w1 & E1 & Hinv1 & Hfr1 & Hd1).
  { intros [k sym] w' _ (Hi & Hf & Hd).
    destruct (canCopy copyOptions sym) eqn:Hcan.
    - destruct (setSymbol_ok dest k sym w' Hi ltac:(lia) (canCopy_target _ Hcan))
        as (w'' & E & Hi' & Hf' & Hd').
      exists w''. split; [exact E|]. split; [exact Hi'|].
      split; [eapply frame_trans; eauto | exact Hd'].
    - exists w'. split; [reflexivity|]. split; [exact Hi|]. split; [exact Hf | exact Hd]. }
  { split; [exact Hinv|]. split; [apply frame_refl | lia]. }
  unfold bind at 1. rewrite E1.
  unfold bind at 1. unfold readScope at 1.
  destruct Hfr1 as (HL1 & HF1 & HD1 & HU1).
  rewrite (HF1 src Hsrc), Hsc.
  (* second loop *)
  destruct (forEach_inv P (childScopes sc)
              (fun '(k, child) =>
                 let* scopePath := (fun w => Some (getPathOfScope (heap w) child, w)) in
                 if skipChild copyOptions scopePath then ret tt
                 else
                   let* c := readScope child in
                   let* destChild :=
                     findScopeShallowlyThenInsertByIdentifier (ownerNode c) dest k in
                   copySymbolsInScope getPathOfScope fuel child destChild copyOptions))
    with (w := w1) as (w2 & E2 & Hinv2 & Hfr2 & Hd2).
  { intros [k child] w' Hin (Hi & Hf & Hd).
    unfold bind at 1.
    destruct (skipChild copyOptions (getPathOfScope (heap w') child)).
    - exists w'. split; [reflexivity|]. split; [exact Hi|]. split; [exact Hf | exact Hd].
    - rewrite Forall_forall in Hchildren.
      assert (Hct : scope_tree (heap w) n0 fuel child).
      { apply (Hchildren (k, child)). by apply list_elem_of_In. }
      assert (Hct' : scope_tree (heap w') n0 fuel child).
      { eapply scope_tree_frame; [|exact Hct]. apply Hf. }
      assert (Hchild : exists c, heap w' !! child = Some c).
      { destruct fuel; simpl in Hct'; [tauto|]. destruct Hct' as (_ & c & Hc & _). eauto. }
      destruct Hchild as [c Hc].
      unfold bind at 1. unfold readScope at 1. rewrite Hc.
      destruct (find_insert_ok (ownerNode c) dest k w' Hi ltac:(lia))
        as (dc & w'' & E & Hi' & Hf' & Hdc).
      unfold bind at 1. rewrite E.
      destruct (IH child dc w'' Hi' Hdc) as (w3 & E3 & Hi3 & Hf3).
      { eapply scope_tree_frame; [|exact Hct']. apply Hf'. }
      exists w3. split; [exact E3|]. split; [exact Hi3|]. split.
      + eapply frame_trans; [exact Hf|]. eapply frame_trans; eauto.
      + destruct Hf' as (L' & _), Hf3 as (L3 & _). lia. }
  { split; [exact Hinv1|]. split; [|exact Hd1]. repeat split; auto. }
  exists w2. split; [exact E2|]. split; [exact Hinv2 | exact Hfr2].
Qed.

End PureScope.

Lemma reaches_pure target n0 h buf x :
  pure_inv target n0 h -> n0 <= buf -> reaches h buf x -> n0 <= x.
Proof.
  intros Hinv Hbuf Hr. induction Hr as [r|r sc k c x Hsc Hin Hr IH]; [exact Hbuf|].
  apply IH. destruct (Hinv r sc Hbuf Hsc) as [_ Hc]. specialize (Hc _ _ Hin). lia.
Qed.

(** C10 (symbolScopes.ts, [AnalyzedScope.pureScope]): the getter is memoized:
    the first read of a new [AnalyzedScope] creates the buffer and copies
    into it, every later read returns the same scope object and changes
    nothing; and every symbol in the tables of the scopes reached from the
    pure scope is declared at the path of the [AnalyzedScope]. *)
Theorem C10_pureScope_memoized_and_pure
    (getPathOfScope : list SymbolScope -> Ref -> option string)
    (fuel : nat) (filePath : string) (full : Ref) (w : World) :
  scope_tree (heap w) (length (heap w)) fuel full ->
  exists buf a w',
    pureScope getPathOfScope fuel (newAnalyzedScope filePath full) w = Some ((buf, a), w') /\
    a = mkAnalyzed filePath full (Some buf) /\
    (forall fuel', pureScope getPathOfScope fuel' a w' = Some ((buf, a), w')) /\
    (forall r sc k sym,
        reaches (heap w') buf r -> heap w' !! r = Some sc -> In (k, sym) (symbolMap sc) ->
        path (location (declaredPlace sym)) = filePath).
Proof.
  intros Htree.
  assert (Hfull : exists sc, heap w !! full = Some sc).
  { destruct fuel; simpl in Htree; [tauto|]. destruct Htree as (_ & sc & Hsc & _). eauto. }
  destruct Hfull as [sc Hsc].
  set (n0 := length (heap w)).
  set (w1 := mkWorld (heap w ++ [mkScope (ownerNode sc) (parentScope sc) (key sc) [] []])
                     (diagnostics w) (s_uniqueIdentifier w)).
  assert (Hinv1 : pure_inv filePath n0 (heap w1)).
  { intros r s Hr Hlook. subst w1. simpl in *.
    rewrite lookup_app_r in Hlook by (fold n0; lia).
    destruct (r - length (heap w)) as [|i] eqn:E; simpl in Hlook; [|by destruct i].
    injection Hlook as <-. split; simpl; intros ? ? []. }
  destruct (copy_ok filePath n0 getPathOfScope fuel full n0 w1 Hinv1) as (w2 & E2 & Hinv2 & Hfr2).
  { subst w1 n0. simpl. rewrite length_app. simpl. lia. }
  { refine (scope_tree_frame _ (heap w) _ _ _ _ Htree). intros r Hr. subst w1. simpl.
    apply lookup_app_l. exact Hr. }
  exists n0, (mkAnalyzed filePath full (Some n0)), w2.
  split; [|split; [reflexivity|split]].
  - unfold pureScope, newAnalyzedScope. simpl.
    unfold bind at 1. unfold readScope at 1. rewrite Hsc.
    unfold bind at 1. unfold createSymbolScope, alloc, setHeap. simpl.
    fold w1. fold n0. unfold bind at 1.
    unfold copyOptions in E2. rewrite E2. reflexivity.
  - intros fuel'. reflexivity.
  - intros r s k sym Hreach Hlook Hin.
    pose proof (reaches_pure _ _ _ _ _ Hinv2 (Nat.le_refl n0) Hreach) as Hr.
    destruct (Hinv2 r s Hr Hlook) as [Hs _]. eauto.
Qed.

(** *** A file scope with a symbol of another file *)

Definition declaredIn (file name : string) : SymbolObject :=
  mkSymbol KindVariable (mkToken name (mkLocation file 0 0 0 0)).

(** The full scope of [a.as]: [x] and the namespace [ns] with [z] are of
    the file, [y] comes from [b.as]. *)
Definition fullScopeOfA : SymbolScope :=
  mkScope None None "" [("ns", 1)]
          [("x", declaredIn "a.as" "x"); ("y", declaredIn "b.as" "y")].
Definition namespaceOfA : SymbolScope :=
  mkScope None (Some 0) "ns" [] [("z", declaredIn "a.as" "z")].
Definition worldOfA : World := mkWorld [fullScopeOfA; namespaceOfA] [] (-1).

(** The witness of C10: the pure scope of [a.as] is read twice. *)
Lemma C10_pureScope_of_a_file :
  scope_tree (heap worldOfA) (length (heap worldOfA)) 2 0 /\
  exists buf a w',
    pureScope (fun _ _ => None) 2 (newAnalyzedScope "a.as" 0) worldOfA = Some ((buf, a), w') /\
    pureScope (fun _ _ => None) 2 a w' = Some ((buf, a), w').
Proof.
  assert (Htree : scope_tree (heap worldOfA) (length (heap worldOfA)) 2 0).
  { simpl. split; [lia|]. eexists. split; [reflexivity|].
    repeat constructor. simpl. eexists. split; [reflexivity | constructor]. }
  split; [exact Htree|].
  destruct (C10_pureScope_memoized_and_pure (fun _ _ => None) 2 "a.as" 0 worldOfA Htree)
    as (buf & a & w' & Hfirst & _ & Hagain & _).
  exists buf, a, w'. split; [exact Hfirst | apply Hagain].
Defined.

End SymbolScopesSpec.

(** ** The parser (part_000) *)

Module ParserSpec.
Import Parser.

(** *** The reading cursor *)

Lemma next_in_range (this : ReadingState) :
  tokens this <> [] ->
  exists t, next this = Some t /\
            (pos this < length (tokens this) -> tokens this !! pos this = Some t) /\
            (length (tokens this) <= pos this -> last (tokens this) = Some t).
Proof.
  intros Hne.
  assert (Hlen : 0 < length (tokens this)) by (destruct (tokens this); [done | simpl; lia]).
  unfold next, nextIndex, arrayGet.
  destruct (Nat.leb_spec (length (tokens this)) (pos this)) as [Hend|Hin].
  - destruct (Z.ltb_spec (Z.of_nat (length (tokens this)) - 1) 0) as [Hneg|_]; [lia|].
    replace (Z.to_nat (Z.of_nat (length (tokens this)) - 1)) with (length (tokens this) - 1) by lia.
    destruct (lookup_lt_is_Some_2 (tokens this) (length (tokens this) - 1)) as [t Ht]; [lia|].
    exists t. split; [exact Ht|]. split; [lia|]. intros _.
    rewrite last_lookup. rewrite <- Ht. f_equal. lia.
  - destruct (Z.ltb_spec (Z.of_nat (pos this)) 0) as [Hneg|_]; [lia|].
    rewrite Nat2Z.id.
    destruct (lookup_lt_is_Some_2 (tokens this) (pos this)) as [t Ht]; [lia|].
    exists t. split; [exact Ht|]. split; [auto | lia].
Qed.

(** *** Parse functions never read an undefined token *)

(** The token array of the world is not empty. *)
Definition streamed (s : PState) : Prop := tokens (reading s) <> [].

(** A computation that, from a non-empty token array, reads no undefined
    token and leaves the array non-empty. *)
Definition safe {A} (m : P A) : Prop :=
  forall s, streamed s ->
    match m s with
    | Done _ s' => streamed s'
    | OutOfRange => False
    | OutOfFuel => True
    end.

Lemma safe_ret {A} (a : A) : safe (ret a).
Proof. intros s Hs. exact Hs. Qed.

Lemma safe_outOfFuel {A} : safe (@outOfFuel A).
Proof. intros s Hs. exact I. Qed.

Lemma safe_bind {A B} (m : P A) (k : A -> P B) :
  safe m -> (forall a, safe (k a)) -> safe (bind m k).
Proof.
  intros Hm Hk s Hs. unfold bind. specialize (Hm s Hs).
  destruct (m s) as [a s'| |]; [apply Hk, Hm | exact Hm | exact I].
Qed.

Lemma safe_rNext : safe rNext.
Proof.
  intros s Hs. unfold rNext.
  destruct (next_in_range (reading s) Hs) as (t & -> & _). exact Hs.
Qed.

Lemma safe_rNextRef : safe rNextRef.
Proof.
  intros s Hs. unfold rNextRef.
  destruct (next_in_range (reading s) Hs) as (t & -> & _). exact Hs.
Qed.

Lemma safe_rIsEnd : safe rIsEnd.
Proof. intros s Hs. exact Hs. Qed.

Lemma safe_rStep : safe rStep.
Proof. intros s Hs. exact Hs. Qed.

Lemma safe_addError loc msg : safe (addError loc msg).
Proof. intros s Hs. exact Hs. Qed.

Lemma safe_setHighlight tok modifier : safe (setHighlight tok modifier).
Proof.
  intros s Hs. unfold setHighlight.
  destruct (next_in_range (reading s) Hs) as (t & -> & _).
  unfold streamed in *. simpl. intros Hnil. apply Hs.
  apply (f_equal length) in Hnil. rewrite length_insert in Hnil.
  by destruct (tokens (reading s)).
Qed.

Create HintDb parser_safe.
#[local] Hint Resolve safe_ret safe_outOfFuel safe_rNext safe_rNextRef safe_rIsEnd safe_rStep
  safe_addError safe_setHighlight : parser_safe.

(** One step of a safety proof: a primitive, a sequencing, or a case
    distinction on what the code branches on. *)
Ltac safe_step :=
  match goal with
  | |- safe (bind _ _) => apply safe_bind; [|intros ?]
  | |- safe (if ?b then _ else _) => destruct b
  | |- safe (match ?x with _ => _ end) => destruct x
  | |- safe (let '(_, _) := ?x in _) => destruct x
  | |- forall _, _ => intros ?
  | |- safe _ => solve [auto with parser_safe]
  end.

Ltac safe_auto := cbv zeta; repeat safe_step.

Lemma safe_confirm tok modifier : safe (confirm tok modifier).
Proof. unfold confirm. safe_auto. Qed.
#[local] Hint Resolve safe_confirm : parser_safe.

Lemma safe_expect word tok : safe (expect word tok).
Proof. unfold expect. safe_auto. Qed.
#[local] Hint Resolve safe_expect : parser_safe.

Lemma safe_parseDATATYPE : safe parseDATATYPE.
Proof. unfold parseDATATYPE. safe_auto. Qed.
#[local] Hint Resolve safe_parseDATATYPE : parser_safe.

Lemma safe_parseTYPE : safe parseTYPE.
Proof. unfold parseTYPE. safe_auto. Qed.
#[local] Hint Resolve safe_parseTYPE : parser_safe.

Lemma safe_parseEXPRVALUE : safe parseEXPRVALUE.
Proof. unfold parseEXPRVALUE. safe_auto. Qed.
#[local] Hint Resolve safe_parseEXPRVALUE : parser_safe.

Lemma safe_parseEXPRTERM2 : safe parseEXPRTERM2.
Proof. unfold parseEXPRTERM2. safe_auto. Qed.
#[local] Hint Resolve safe_parseEXPRTERM2 : parser_safe.

Lemma safe_parseEXPRTERM : safe parseEXPRTERM.
Proof. unfold parseEXPRTERM. safe_auto. Qed.
#[local] Hint Resolve safe_parseEXPRTERM : parser_safe.

Lemma safe_parseEXPROP : safe parseEXPROP.
Proof. unfold parseEXPROP. safe_auto. Qed.
#[local] Hint Resolve safe_parseEXPROP : parser_safe.

Lemma safe_parseASSIGNOP : safe parseASSIGNOP.
Proof. unfold parseASSIGNOP. safe_auto. Qed.
#[local] Hint Resolve safe_parseASSIGNOP : parser_safe.

Lemma safe_parseEXPR fuel : safe (parseEXPR fuel).
Proof. induction fuel as [|fuel IH]; cbn [parseEXPR]; safe_auto. Qed.
#[local] Hint Resolve safe_parseEXPR : parser_safe.

Lemma safe_parseCONDITION fuel : safe (parseCONDITION fuel).
Proof. unfold parseCONDITION. safe_auto. Qed.
#[local] Hint Resolve safe_parseCONDITION : parser_safe.

Lemma safe_parseASSIGN fuel : safe (parseASSIGN fuel).
Proof. induction fuel as [|fuel IH]; cbn [parseASSIGN]; safe_auto. Qed.
#[local] Hint Resolve safe_parseASSIGN : parser_safe.

Lemma safe_parseEXPRSTAT fuel : safe (parseEXPRSTAT fuel).
Proof. unfold parseEXPRSTAT. safe_auto. Qed.
#[local] Hint Resolve safe_parseEXPRSTAT : parser_safe.

Lemma safe_parseRETURN fuel : safe (parseRETURN fuel).
Proof. unfold parseRETURN. safe_auto. Qed.
#[local] Hint Resolve safe_parseRETURN : parser_safe.

Lemma safe_parseVAR fuel : safe (parseVAR fuel).
Proof. unfold parseVAR. safe_auto. Qed.
#[local] Hint Resolve safe_parseVAR : parser_safe.

Lemma safe_parseBREAK : safe parseBREAK.
Proof. unfold parseBREAK. safe_auto. Qed.
#[local] Hint Resolve safe_parseBREAK : parser_safe.

Lemma safe_parseCONTINUE : safe parseCONTINUE.
Proof. unfold parseCONTINUE. safe_auto. Qed.
#[local] Hint Resolve safe_parseCONTINUE : parser_safe.

Lemma safe_parsePARAMLIST_loop fuel : forall params, safe (parsePARAMLIST_loop fuel params).
Proof. induction fuel as [|fuel IH]; intros params; cbn [parsePARAMLIST_loop]; safe_auto. Qed.
#[local] Hint Resolve safe_parsePARAMLIST_loop : parser_safe.

Lemma safe_parsePARAMLIST fuel : safe (parsePARAMLIST fuel).
Proof. unfold parsePARAMLIST. safe_auto. Qed.
#[local] Hint Resolve safe_parsePARAMLIST : parser_safe.

Lemma safe_parseFOR_increment fuel : forall increment, safe (parseFOR_increment fuel increment).
Proof. induction fuel as [|fuel IH]; intros increment; cbn [parseFOR_increment]; safe_auto. Qed.
#[local] Hint Resolve safe_parseFOR_increment : parser_safe.

(** The statement parsers, all at once by induction on the fuel. *)
Lemma safe_statements fuel :
  safe (parseSTATEMENT fuel) /\
  safe (parseSWITCH fuel) /\
  (forall cases, safe (parseSWITCH_loop fuel cases)) /\
  safe (parseFOR fuel) /\
  safe (parseWHILE fuel) /\
  safe (parseDOWHILE fuel) /\
  safe (parseIF fuel) /\
  safe (parseCASE fuel) /\
  (forall statements, safe (parseCASE_loop fuel statements)) /\
  safe (parseSTATBLOCK fuel) /\
  (forall statements, safe (parseSTATBLOCK_loop fuel statements)).
Proof.
  induction fuel as [|fuel IH].
  - repeat split; intros; apply safe_outOfFuel.
  - destruct IH as (Hst & Hsw & Hswl & Hfor & Hwh & Hdo & Hif & Hcase & Hcl & Hsb & Hsbl).
    repeat split; intros.
    + cbn [parseSTATEMENT]. safe_auto.
    + cbn [parseSWITCH]. safe_auto.
    + cbn [parseSWITCH_loop]. safe_auto.
    + cbn [parseFOR]. safe_auto.
    + cbn [parseWHILE]. safe_auto.
    + cbn [parseDOWHILE]. safe_auto.
    + cbn [parseIF]. safe_auto.
    + cbn [parseCASE]. safe_auto.
    + cbn [parseCASE_loop]. safe_auto.
    + cbn [parseSTATBLOCK]. safe_auto.
    + cbn [parseSTATBLOCK_loop]. safe_auto.
Qed.

Lemma safe_parseSTATBLOCK fuel : safe (parseSTATBLOCK fuel).
Proof. apply safe_statements. Qed.
#[local] Hint Resolve safe_parseSTATBLOCK : parser_safe.

Lemma safe_parseFUNC fuel : safe (parseFUNC fuel).
Proof. unfold parseFUNC. safe_auto. Qed.
#[local] Hint Resolve safe_parseFUNC : parser_safe.

Lemma safe_parseSCRIPT_loop fuel : forall funcs, safe (parseSCRIPT_loop fuel funcs).
Proof. induction fuel as [|fuel IH]; intros funcs; cbn [parseSCRIPT_loop]; safe_auto. Qed.
#[local] Hint Resolve safe_parseSCRIPT_loop : parser_safe.

Lemma safe_parseSCRIPT fuel : safe (parseSCRIPT fuel).
Proof. unfold parseSCRIPT. safe_auto. Qed.

(** C8 (part_000, [ReadingState.next] and [parseFromTokens]): on a non-empty
    token list [next] always yields a token, the one at the read position
    or, once the position is at or past the end, the final one; so the parse
    functions, started on a non-empty stream, read no undefined token and
    leave the stream non-empty; and [parseFromTokens], however far it is
    run, never reads an undefined token. *)
Theorem C8_next_total_and_parse_in_range :
  (forall this : ReadingState,
      tokens this <> [] ->
      exists t, next this = Some t /\
                (pos this < length (tokens this) -> tokens this !! pos this = Some t) /\
                (length (tokens this) <= pos this -> last (tokens this) = Some t)) /\
  (forall fuel : nat,
      safe parseDATATYPE /\ safe parseTYPE /\ safe parseEXPRTERM /\
      safe (parseEXPR fuel) /\ safe (parseCONDITION fuel) /\ safe (parseASSIGN fuel) /\
      safe (parseVAR fuel) /\ safe (parsePARAMLIST fuel) /\
      safe (parseSTATEMENT fuel) /\ safe (parseSTATBLOCK fuel) /\
      safe (parseFUNC fuel) /\ safe (parseSCRIPT fuel)) /\
  (forall (fuel : nat) (tokens : list TokenObject) (diags : list (Location * string)),
      tokens <> [] ->
      parseFromTokens fuel tokens diags <> OutOfRange).
Proof.
  split; [exact next_in_range|]. split.
  - intros fuel. pose proof (safe_statements fuel) as (Hstatement & _).
    repeat split; try exact Hstatement; try apply safe_parseSCRIPT; auto with parser_safe.
  - intros fuel toks diags Hne Hout. unfold parseFromTokens in Hout.
    pose proof (safe_parseSCRIPT fuel (mkPState (mkReading toks 0) diags) Hne) as Hsafe.
    rewrite Hout in Hsafe. exact Hsafe.
Qed.

(** *** A stream of one token *)

Definition semicolon : TokenObject :=
  mkToken "reserved" ";" (mkLocation 0 0) (mkHighlight HlOperator 0).

(** The witness of C8: past the end of the stream [;] the token read is the
    [;], and the parse of the stream reads no undefined token. *)
Lemma C8_next_total_and_parse_in_range_semicolon :
  [semicolon] <> [] /\
  next (mkReading [semicolon] 5) = Some semicolon /\
  parseFromTokens 10 [semicolon] [] <> OutOfRange.
Proof.
  assert (Hne : [semicolon] <> []) by discriminate.
  destruct C8_next_total_and_parse_in_range as (Hnext & _ & Hparse).
  split; [exact Hne|]. split.
  - destruct (Hnext (mkReading [semicolon] 5) Hne) as (t & Ht & _ & Hlast).
    rewrite Ht. symmetry. apply Hlast. simpl. lia.
  - exact (Hparse 10 [semicolon] [] Hne).
Defined.

End ParserSpec.

(** ** The analysis resolver *)

Module ResolverSpec.
Import Resolver.

(** The wait time that goes with the highest non-empty tier, if any. *)
Definition tierWaitTime (q : AnalysisQueue) : option nat :=
  match directQueue q, indirectQueue q, lazyIndirectQueue q with
  | _ :: _, _, _ => Some 10
  | [], _ :: _, _ => Some 100
  | [], [], _ :: _ => Some 500
  | [], [], [] => None
  end.

Lemma rescheduleAnalyze_pending (this : AnalysisResolver) :
  pending (_analyzerTask (rescheduleAnalyze this)) =
  match tierWaitTime (_analysisQueue this) with
  | Some waitTime => Some (CallHandleAnalyze, waitTime)
  | None => pending (_analyzerTask this)
  end.
Proof.
  unfold rescheduleAnalyze, tierWaitTime, hasDirect, hasIndirect, hasLazyIndirect.
  destruct (directQueue (_analysisQueue this)); [|reflexivity].
  destruct (indirectQueue (_analysisQueue this)); [|reflexivity].
  destruct (lazyIndirectQueue (_analysisQueue this)); reflexivity.
Qed.

Lemma rescheduleAnalyze_queue (this : AnalysisResolver) :
  _analysisQueue (rescheduleAnalyze this) = _analysisQueue this.
Proof.
  unfold rescheduleAnalyze.
  destruct (hasDirect _); [reflexivity|].
  destruct (hasIndirect _); [reflexivity|].
  destruct (hasLazyIndirect _); reflexivity.
Qed.

Section Analysis.

Variable dependsOn : list (string * PartialInspectRecord) -> PartialInspectRecord -> string -> bool.

Lemma reanalyze_task targetUri this :
  _analyzerTask (reanalyzeFilesWithDependency dependsOn targetUri this) = _analyzerTask this.
Proof.
  unfold reanalyzeFilesWithDependency.
  generalize (filter (fun r => dependsOn (recordList this) r targetUri = true)
                     (map snd (recordList this))).
  intros l. revert this. induction l as [|r l IH]; intros this; simpl; [reflexivity|].
  rewrite IH. reflexivity.
Qed.

Lemma popAndAnalyze_task this :
  _analyzerTask (popAndAnalyze dependsOn this) = _analyzerTask this.
Proof.
  unfold popAndAnalyze.
  destruct (frontPop (_analysisQueue this)) as [[element|] q]; [|reflexivity].
  destruct (shouldReanalyze element) as [[|]|]; try reflexivity.
  rewrite reanalyze_task. reflexivity.
Qed.

(** C6 ([AnalysisResolver.rescheduleAnalyze]): the delayed task is
    rescheduled with 10 ms when the direct tier is non-empty, else with 100 ms
    when the indirect tier is, else with 500 ms when the lazy-indirect tier is,
    and is not touched when all three are empty; so a request always leaves
    the task pending at 10 ms, and after the task has fired and popped an
    element it is pending again by the tiers that remain, or not at all. *)
Theorem C6_reschedule_by_tier (this : AnalysisResolver) (rec : PartialInspectRecord) :
  pending (_analyzerTask (rescheduleAnalyze this)) =
    match directQueue (_analysisQueue this),
          indirectQueue (_analysisQueue this),
          lazyIndirectQueue (_analysisQueue this) with
    | _ :: _, _, _ => Some (CallHandleAnalyze, 10)
    | [], _ :: _, _ => Some (CallHandleAnalyze, 100)
    | [], [], _ :: _ => Some (CallHandleAnalyze, 500)
    | [], [], [] => pending (_analyzerTask this)
    end /\
  pending (_analyzerTask (request rec this)) = Some (CallHandleAnalyze, 10) /\
  (pending (_analyzerTask this) <> None ->
   pending (_analyzerTask (fire dependsOn this)) =
     match tierWaitTime (_analysisQueue (fire dependsOn this)) with
     | Some waitTime => Some (CallHandleAnalyze, waitTime)
     | None => None
     end).
Proof.
  split; [|split].
  - rewrite rescheduleAnalyze_pending. unfold tierWaitTime.
    destruct (directQueue _); [|reflexivity].
    destruct (indirectQueue _); [|reflexivity].
    destruct (lazyIndirectQueue _); reflexivity.
  - unfold request. rewrite rescheduleAnalyze_pending. unfold tierWaitTime. simpl.
    destruct (directQueue (_analysisQueue this)); reflexivity.
  - intros Hpending. unfold fire.
    destruct (pending (_analyzerTask this)) as [[[] t]|]; [|congruence].
    unfold handleAnalyze.
    rewrite rescheduleAnalyze_pending, rescheduleAnalyze_queue, popAndAnalyze_task.
    reflexivity.
Qed.

End Analysis.

(** *** A resolver with one request *)

Definition fileA : PartialInspectRecord := mkRecord "file:///a.as" true.
Definition fileB : PartialInspectRecord := mkRecord "file:///b.as" false.

(** [b.as] includes [a.as]. *)
Definition includesA (_ : list (string * PartialInspectRecord)) (r : PartialInspectRecord)
    (target : string) : bool :=
  String.eqb (uri r) "file:///b.as" && String.eqb target "file:///a.as".

Definition idle : AnalysisResolver :=
  mkResolver (mkTask None) (mkQueue [] [] [])
             [("file:///a.as", fileA); ("file:///b.as", fileB)].

(** The witness of C6: after a request for [a.as] the task is pending at
    10 ms; when it fires, [a.as] is analyzed, the closed file [b.as] that
    includes it goes to the lazy tier, and the task is pending at 500 ms. *)
Lemma C6_reschedule_by_tier_request :
  pending (_analyzerTask (request fileA idle)) <> None /\
  pending (_analyzerTask (fire includesA (request fileA idle))) =
    Some (CallHandleAnalyze, 500).
Proof.
  assert (Hpending : pending (_analyzerTask (request fileA idle)) <> None) by discriminate.
  split; [exact Hpending|].
  destruct (C6_reschedule_by_tier includesA (request fileA idle) fileA) as (_ & _ & Hfire).
  rewrite (Hfire Hpending). reflexivity.
Defined.

End ResolverSpec.

(** ** signatureHelp.ts *)

Module SignatureHelpSpec.
Import SignatureHelp.

(** *** The call [f(a, b)] with the caret right after [a]

    One line, the characters [f ( a , _ b )] at columns 0 to 6. *)

Definition at_ (c : nat) : TextPosition := mkPos 0 c.
Definition span (c : nat) : TextLocation := mkLoc (at_ c) (at_ (c + 1)).

Definition tokRParen : TokenObject := mkToken ")" (span 6) None.
Definition tokB : TokenObject := mkToken "b" (span 5) (Some tokRParen).
Definition tokComma : TokenObject := mkToken "," (span 3) (Some tokB).
Definition tokA : TokenObject := mkToken "a" (span 2) (Some tokComma).
Definition tokLParen : TokenObject := mkToken "(" (span 1) (Some tokA).
Definition tokF : TokenObject := mkToken "f" (span 0) (Some tokLParen).

(** The declaration tokens of the two overloads [f(int x, int y)] and
    [f(int x)], on lines 10 and 11. *)
Definition declToken (s : string) (l c : nat) : TokenObject :=
  mkToken s (mkLoc (mkPos l c) (mkPos l (c + String.length s))) None.

Definition overload2 : SymbolFunction string :=
  mkSymbolFunction string (declToken "f" 10 5) []
    (mkNodeFunc (declToken "f" 10 5)
       [mkParam (Some (declToken "x" 10 11)); mkParam (Some (declToken "y" 10 18))])
    [Some "int"; Some "int"].

Definition overload1 : SymbolFunction string :=
  mkSymbolFunction string (declToken "f" 11 5) []
    (mkNodeFunc (declToken "f" 11 5) [mkParam (Some (declToken "x" 11 11))])
    [Some "int"].

Definition callHint : ComplementFunctionCall string unit :=
  mkCall string unit tokF
    (mkArgList (mkRange tokLParen tokRParen)
               [mkArg (mkRange tokA tokA); mkArg (mkRange tokB tokB)])
    overload2 None.

(** The helpers that are parameters of the embedding, for this input: types
    print as their names, there is no template translation, the range check
    is the bounding box of the argument list extended by the following
    tokens. *)
Definition printType (t : option string) : string := default "?" t.
Definition noTranslation (t : option string) (_ : option unit) : option string := t.
Definition noDocumentation (_ : SymbolFunction string) : unit := tt.

Fixpoint forward (t : TokenObject) (n : nat) : TokenObject :=
  match n with
  | 0 => t
  | S n' => match next t with Some t' => forward t' n' | None => t end
  end.
Definition extendBy (r : TokenRange) (n : nat) : TokenRange :=
  mkRange (rangeStart r) (forward (rangeEnd r) n).
Definition inBounds (r : TokenRange) (p : TextPosition) : bool :=
  negb (isLessThan p (locStart (location (rangeStart r)))) &&
  negb (isLessThan (locEnd (location (rangeEnd r))) p).
Definition lookupF (_ : SymbolFunction string) : option (SymbolHolder string) :=
  Some (FunctionHolder string [overload2; overload1]).

Definition help (caret : TextPosition) :=
  provideSignatureHelp string unit unit printType noTranslation noDocumentation
    extendBy inBounds lookupF [FunctionCall string unit callHint] caret.

(** C7 ([provideSignatureHelp], [getFunctionSignature]) at the call
    [f(a, b)] with the caret right after [a]: one signature per overload is
    returned, but no comma lies before the caret and both signatures have
    [activeParameter] 1, which for the overload [f(int x)] is past its last
    parameter, whose index is 0. *)
Theorem C7_activeParameter_at_first_argument :
  exists sig2 sig1,
    help (at_ 3) = Some [sig2; sig1] /\
    label unit sig2 = "f(int x, int y)" /\
    label unit sig1 = "f(int x)" /\
    commasBeforeCaret string unit callHint (at_ 3) = 0 /\
    activeParameter unit sig2 = 1 /\
    activeParameter unit sig1 = 1 /\
    length (paramList (linkedNode string overload1)) - 1 = 0.
Proof.
  eexists _, _. split; [reflexivity|]. repeat split.
Qed.

End SignatureHelpSpec.

(** ** The hoist phase *)

Module HoistSpec.
Import Hoist JsMapFacts.

(** *** The store operations *)

(** A table holds a symbol: some holder of the table lists it. *)
Definition holds (table : JsMap.t SymbolHolder) (r : SymRef) : Prop :=
  exists k h, In (k, h) table /\ In r (toList h).

Lemma symbolTableOf_setScopes_eq (p : list string) (sc : ScopeData)
    (m : gmap (list string) ScopeData) (s : Store) :
  symbolTableOf p (setScopes (<[p := sc]> m) s) = symbolTable sc.
Proof. unfold symbolTableOf, scopeAt. simpl. by rewrite lookup_insert_eq. Qed.

Lemma symbolTableOf_setScopes_ne p q sc s :
  p <> q -> symbolTableOf q (setScopes (<[p := sc]> (scopes s)) s) = symbolTableOf q s.
Proof. intros Hne. unfold symbolTableOf, scopeAt. simpl. by rewrite lookup_insert_ne. Qed.

(** What [insertSymbol] does, by cases on what the table has at the
    identifier of the symbol. *)
Definition installed (existing : option SymbolHolder) (o : SymbolObject) (symbol : SymRef)
    : option SymbolHolder :=
  match existing with
  | None => Some (if isFunction o then HolderFunctions symbol [] else HolderSingle symbol)
  | Some (HolderFunctions f rest) =>
      if isFunction o then Some (HolderFunctions f (rest ++ [symbol])) else None
  | Some (HolderSingle _) => None
  end.

Lemma insertSymbol_spec (this : ScopePath) (symbol : SymRef) (s : Store) (o : SymbolObject) :
  symbolAt symbol s = Some o ->
  let identifier := text (identifierToken o) in
  let existing := JsMap.get (symbolTableOf this s) identifier in
  match installed existing o symbol with
  | Some h =>
      insertSymbol this symbol s =
      (None, setScopes (<[this := mkScopeData (linkedNode (scopeAt this s))
                                   (JsMap.set (symbolTableOf this s) identifier h)
                                   (namespaceNodes (scopeAt this s))]> (scopes s)) s)
  | None => insertSymbol this symbol s = (existing, s)
  end.
Proof.
  intros Ho. unfold insertSymbol. rewrite Ho. cbv zeta.
  destruct (JsMap.get (symbolTableOf this s) (text (identifierToken o))) as [[r|f rest]|];
    simpl; [reflexivity| |reflexivity].
  destruct (isFunction o); reflexivity.
Qed.

Lemma insertSymbol_dangling this symbol s :
  symbolAt symbol s = None -> insertSymbol this symbol s = (None, s).
Proof. intros Ho. unfold insertSymbol. by rewrite Ho. Qed.

(** [s'] differs from [s] only in the scope at [this] and in diagnostics. *)
Definition sameBut (this : ScopePath) (s s' : Store) : Prop :=
  symbols s' = symbols s /\
  (forall q, q <> this -> scopes s' !! q = scopes s !! q) /\
  (forall q, is_Some (scopes s !! q) -> is_Some (scopes s' !! q)) /\
  explicitPropertyAccessor s' = explicitPropertyAccessor s.

Lemma sameBut_refl this s : sameBut this s s.
Proof. repeat split; auto. Qed.

Lemma sameBut_trans this s1 s2 s3 : sameBut this s1 s2 -> sameBut this s2 s3 -> sameBut this s1 s3.
Proof.
  intros (A1 & B1 & C1 & D1) (A2 & B2 & C2 & D2). repeat split.
  - congruence.
  - intros q Hq. rewrite B2, B1; auto.
  - auto.
  - congruence.
Qed.

Lemma insertSymbol_effect this symbol s :
  let s' := snd (insertSymbol this symbol s) in
  sameBut this s s' /\
  diagnostics s' = diagnostics s /\
  (forall r, holds (symbolTableOf this s') r -> holds (symbolTableOf this s) r \/ r = symbol).
Proof.
  destruct (symbolAt symbol s) as [o|] eqn:Ho.
  - pose proof (insertSymbol_spec this symbol s o Ho) as Hspec. cbv zeta in Hspec.
    destruct (installed _ o symbol) as [h|] eqn:Hinst.
    + rewrite Hspec. simpl. split; [|split; [reflexivity|]].
      * repeat split; simpl; auto.
        -- intros q Hq. by rewrite lookup_insert_ne.
        -- intros q Hq. destruct (decide (this = q)) as [->|Hne].
           ++ rewrite lookup_insert_eq. eauto.
           ++ by rewrite lookup_insert_ne.
      * intros r. rewrite symbolTableOf_setScopes_eq. simpl.
        intros (k & h' & Hin & Hr).
        apply JsMap_In_set in Hin as [Hin|[= -> ->]]; [left; by exists k, h'|].
        unfold installed in Hinst.
        destruct (JsMap.get _ _) as [[x|f rest]|] eqn:Hget.
        -- discriminate.
        -- destruct (isFunction o); [|discriminate]. injection Hinst as <-.
           simpl in Hr. destruct Hr as [<-|Hr].
           ++ left. exists (text (identifierToken o)), (HolderFunctions f rest).
              split; [by apply JsMap_get_In | simpl; auto].
           ++ apply in_app_or in Hr as [Hr|[<-|[]]]; [|by right].
              left. exists (text (identifierToken o)), (HolderFunctions f rest).
              split; [by apply JsMap_get_In | simpl; auto].
        -- injection Hinst as <-. right.
           destruct (isFunction o); simpl in Hr; destruct Hr as [<-|[]]; reflexivity.
    + rewrite Hspec. simpl. split; [apply sameBut_refl | split; [reflexivity | auto]].
  - rewrite insertSymbol_dangling by exact Ho. simpl.
    split; [apply sameBut_refl | split; [reflexivity | auto]].
Qed.

(** A loop whose body keeps an invariant keeps it. *)
Lemma forEach_keeps {St A} (P : St -> Prop) (l : list A) (body : A -> State St unit) :
  (forall x s, In x l -> P s -> P (snd (body x s))) ->
  forall s, P s -> P (snd (forEach l body s)).
Proof.
  unfold forEach.
  induction l as [|x l IH]; intros Hbody s HP; simpl; [exact HP|].
  unfold bind. destruct (body x s) as [u s1] eqn:E.
  apply IH.
  - intros y s' Hy. apply Hbody. by right.
  - specialize (Hbody x s (or_introl eq_refl) HP). by rewrite E in Hbody.
Qed.

(** *** Base members *)

(** The non-private symbols that the table of a resolved base scope holds
    under a key other than [this]. *)
Definition candidate (s : Store) (bases : list (option ResolvedType)) (r : SymRef) : Prop :=
  exists base t p key holder,
    In (Some base) bases /\
    symbolAt (typeOrFunc base) s = Some (SymType t) /\
    tryResolveActiveScope (membersScopePath t) s = Some p /\
    In (key, holder) (symbolTableOf p s) /\
    key <> "this" /\
    In r (toList holder) /\
    (forall o, symbolAt r s = Some o -> isPrivateMember o = false).

Section Copy.

Variables (scope : ScopePath) (bases : list (option ResolvedType)) (s0 : Store).

(** The invariant of the three loops of [copyBaseMembers]. *)
Definition copied (s : Store) : Prop :=
  sameBut scope s0 s /\
  (forall r, holds (symbolTableOf scope s) r ->
             holds (symbolTableOf scope s0) r \/ candidate s0 bases r).

Lemma copyBaseMember_copied key symbol s :
  copied s ->
  (forall o, symbolAt symbol s = Some o -> isPrivateMember o = false ->
             holds (symbolTableOf scope s0) symbol \/ candidate s0 bases symbol) ->
  copied (snd (copyBaseMember scope key symbol s)).
Proof.
  intros [Hsame Hheld] Hjust. unfold copyBaseMember, bind, get.
  destruct (symbolAt symbol s) as [o|] eqn:Ho.
  - destruct (isPrivateMember o) eqn:Hpriv; [split; assumption|].
    pose proof (insertSymbol_effect scope symbol s) as (Hs1 & Hd1 & Hh1).
    destruct (insertSymbol scope symbol s) as [res s1] eqn:E. simpl in *.
    assert (Hc1 : copied s1).
    { split; [eapply sameBut_trans; eauto|].
      intros r Hr. destruct (Hh1 r Hr) as [H | ->]; [auto | eapply Hjust; eauto]. }
    destruct res as [existing|]; [|exact Hc1].
    destruct (symbolAt (firstOf existing) s1); [|exact Hc1].
    destruct Hc1 as [(A & B & C & E') D]. split; [repeat split; auto|exact D].
  - simpl. rewrite insertSymbol_dangling by exact Ho. simpl. split; assumption.
Qed.

Lemma copyBaseMembers_copied : copied (snd (copyBaseMembers scope bases s0)).
Proof.
  unfold copyBaseMembers.
  apply forEach_keeps; [|split; [apply sameBut_refl | auto]].
  intros [base|] s Hbase Hc; [|exact Hc].
  unfold bind, get.
  destruct (symbolAt (typeOrFunc base) s) as [[t| |]|] eqn:Ht; try exact Hc.
  destruct (tryResolveActiveScope (membersScopePath t) s) as [p|] eqn:Hp; [|exact Hc].
  apply forEach_keeps; [|exact Hc].
  intros [key holder] s1 Hentry Hc1.
  destruct (String.eqb_spec key "this") as [->|Hkey]; [exact Hc1|].
  apply forEach_keeps; [|exact Hc1].
  intros symbol s2 Hsym Hc2.
  apply copyBaseMember_copied; [exact Hc2|].
  intros o Ho Hpriv.
  destruct Hc as [(Hsy & Hsc & Hex & _) Hheld].
  destruct Hc2 as [(Hsy2 & _) _].
  destruct (decide (p = scope)) as [->|Hne].
  - apply Hheld. by exists key, holder.
  - right. exists base, t, p, key, holder.
    assert (Hps : scopes s !! p = scopes s0 !! p) by (apply Hsc; exact Hne).
    split; [exact Hbase|]. split; [unfold symbolAt in *; by rewrite <- Hsy|].
    split.
    { unfold tryResolveActiveScope in *. destruct (membersScopePath t) as [p'|]; [|done].
      destruct (decide (is_Some (scopes s !! p'))) as [Hy|]; [|done].
      injection Hp as ->. rewrite Hps in Hy. by rewrite decide_True. }
    split; [unfold symbolTableOf, scopeAt in *; by rewrite <- Hps|].
    split; [exact Hkey|]. split; [exact Hsym|].
    intros o' Ho'. unfold symbolAt in *. rewrite <- Hsy2 in Ho'.
    rewrite Ho in Ho'. by injection Ho' as <-.
Qed.

End Copy.

(** *** The diagnostics of the copy *)

(** A table keeps what it has: under a name for which it had a holder it has
    a holder of the same kind, with the same first symbol, whose list begins
    with the symbols that were listed. *)
Definition keeps (table table' : JsMap.t SymbolHolder) : Prop :=
  forall name h,
    JsMap.get table name = Some h ->
    exists h',
      JsMap.get table' name = Some h' /\
      firstOf h' = firstOf h /\
      isFunctionHolder h' = isFunctionHolder h /\
      toList h `prefix_of` toList h'.

Lemma keeps_refl table : keeps table table.
Proof. intros name h Hget. exists h. auto. Qed.

Lemma keeps_trans t1 t2 t3 : keeps t1 t2 -> keeps t2 t3 -> keeps t1 t3.
Proof.
  intros H12 H23 name h Hget.
  destruct (H12 name h Hget) as (h2 & Hget2 & F2 & K2 & L2).
  destruct (H23 name h2 Hget2) as (h3 & Hget3 & F3 & K3 & L3).
  exists h3. split; [exact Hget3|]. split; [congruence|]. split; [congruence | by etrans].
Qed.

Lemma insertSymbol_keeps this symbol s :
  keeps (symbolTableOf this s) (symbolTableOf this (snd (insertSymbol this symbol s))).
Proof.
  destruct (symbolAt symbol s) as [o|] eqn:Ho.
  - pose proof (insertSymbol_spec this symbol s o Ho) as Hspec. cbv zeta in Hspec.
    destruct (installed _ o symbol) as [h|] eqn:Hinst.
    + rewrite Hspec. cbn [snd]. rewrite symbolTableOf_setScopes_eq. cbn [symbolTable].
      intros name h0 Hget. rewrite JsMap_get_set.
      destruct (String.eqb_spec (text (identifierToken o)) name) as [E|Hne];
        [|exists h0; auto].
      rewrite E, Hget in Hinst. cbn [installed] in Hinst.
      destruct h0 as [x|f rest]; [discriminate|].
      destruct (isFunction o); [|discriminate]. injection Hinst as <-.
      exists (HolderFunctions f (rest ++ [symbol])). repeat split.
      by exists [symbol].
    + rewrite Hspec. apply keeps_refl.
  - rewrite insertSymbol_dangling by exact Ho. apply keeps_refl.
Qed.

(** The diagnostic for a symbol that is copied under [key] and meets a
    holder whose first symbol is [first]. *)
Definition duplicated (key : string) (first : SymbolObject) : Diagnostic :=
  mkDiag (location (identifierToken first)) ("Duplicated symbol '" +:+ key +:+ "'").

(** A holder is in the way of a symbol unless the symbol is a function and
    the holder holds functions. *)
Definition inTheWay (o : SymbolObject) (existing : SymbolHolder) : bool :=
  negb (isFunction o && isFunctionHolder existing).

(** What the body of the innermost loop does with a symbol that it does not
    pass over. *)
Lemma copyBaseMember_spec scope key symbol s o :
  symbolAt symbol s = Some o ->
  isPrivateMember o = false ->
  let name := text (identifierToken o) in
  match JsMap.get (symbolTableOf scope s) name with
  | None =>
      copyBaseMember scope key symbol s = (tt, snd (insertSymbol scope symbol s)) /\
      diagnostics (snd (insertSymbol scope symbol s)) = diagnostics s
  | Some existing =>
      if inTheWay o existing
      then copyBaseMember scope key symbol s =
           (tt, match symbolAt (firstOf existing) s with
                | Some first => setDiagnostics (diagnostics s ++ [duplicated key first]) s
                | None => s
                end)
      else copyBaseMember scope key symbol s = (tt, snd (insertSymbol scope symbol s)) /\
           diagnostics (snd (insertSymbol scope symbol s)) = diagnostics s
  end.
Proof.
  intros Ho Hpriv. cbv zeta.
  pose proof (insertSymbol_spec scope symbol s o Ho) as Hspec. cbv zeta in Hspec.
  unfold copyBaseMember, bind, get. rewrite Ho, Hpriv.
  destruct (JsMap.get (symbolTableOf scope s) (text (identifierToken o)))
    as [existing|] eqn:Hget.
  - unfold inTheWay. destruct existing as [x|f rest]; cbn [installed isFunctionHolder] in *.
    + rewrite andb_false_r. cbn [negb]. rewrite Hspec. cbn [firstOf].
      destruct (symbolAt x s); reflexivity.
    + rewrite andb_true_r. destruct (isFunction o); cbn [negb].
      * rewrite Hspec. cbn [snd]. split; reflexivity.
      * rewrite Hspec. cbn [firstOf]. destruct (symbolAt f s); reflexivity.
  - cbn [installed] in Hspec. rewrite Hspec. cbn [snd]. split; reflexivity.
Qed.

Section Reports.

Variables (scope : ScopePath) (bases : list (option ResolvedType)) (s0 : Store).

(** A diagnostic of the copy, with the table that the scope has by now: a
    symbol of the store that is not private was copied under a key other
    than [this], and the holder that the scope has under its name is in its
    way. *)
Definition justified (table : JsMap.t SymbolHolder) (d : Diagnostic) : Prop :=
  exists key r o existing first,
    key <> "this" /\
    symbolAt r s0 = Some o /\
    isPrivateMember o = false /\
    JsMap.get table (text (identifierToken o)) = Some existing /\
    inTheWay o existing = true /\
    symbolAt (firstOf existing) s0 = Some first /\
    d = duplicated key first.

Lemma justified_keeps table table' d : keeps table table' -> justified table d -> justified table' d.
Proof.
  intros Hkeeps (key & r & o & existing & first & Hkey & Ho & Hpriv & Hget & Hway & Hfirst & ->).
  destruct (Hkeeps _ _ Hget) as (h' & Hget' & F & K & _).
  exists key, r, o, h', first. repeat split; auto.
  - unfold inTheWay in *. by rewrite K.
  - by rewrite F.
Qed.

(** The invariant of the loops for the table of the scope and the
    diagnostics. *)
Definition reported (s : Store) : Prop :=
  symbols s = symbols s0 /\
  keeps (symbolTableOf scope s0) (symbolTableOf scope s) /\
  exists ds, diagnostics s = diagnostics s0 ++ ds /\
             Forall (justified (symbolTableOf scope s)) ds.

Lemma reported_start : reported s0.
Proof.
  split; [reflexivity|]. split; [apply keeps_refl|]. exists []. by rewrite app_nil_r.
Qed.

Lemma symbols_insertSymbol this symbol s : symbols (snd (insertSymbol this symbol s)) = symbols s.
Proof. by destruct (insertSymbol_effect this symbol s) as ((E & _) & _). Qed.

Lemma copyBaseMember_reported key symbol s :
  key <> "this" -> reported s -> reported (snd (copyBaseMember scope key symbol s)).
Proof.
  intros Hkey (Hsym & Hkeeps & ds & Hds & Hjust).
  assert (Hin : diagnostics (snd (insertSymbol scope symbol s)) = diagnostics s ->
                reported (snd (insertSymbol scope symbol s))).
  { intros Hd. split; [by rewrite symbols_insertSymbol|].
    split; [eapply keeps_trans; [exact Hkeeps | apply insertSymbol_keeps]|].
    exists ds. rewrite Hd. split; [exact Hds|].
    eapply Forall_impl; [exact Hjust|]. intros d. apply justified_keeps, insertSymbol_keeps. }
  destruct (symbolAt symbol s) as [o|] eqn:Ho.
  - destruct (isPrivateMember o) eqn:Hpriv.
    { unfold copyBaseMember, bind, get. rewrite Ho, Hpriv. cbn [snd ret].
      split; [exact Hsym|]. split; [exact Hkeeps|]. by exists ds. }
    pose proof (copyBaseMember_spec scope key symbol s o Ho Hpriv) as Hspec. cbv zeta in Hspec.
    destruct (JsMap.get (symbolTableOf scope s) (text (identifierToken o)))
      as [existing|] eqn:Hget.
    + destruct (inTheWay o existing) eqn:Hway.
      * rewrite Hspec. cbn [snd].
        destruct (symbolAt (firstOf existing) s) as [first|] eqn:Hfirst.
        -- split; [exact Hsym|]. split; [exact Hkeeps|].
           exists (ds ++ [duplicated key first]). cbn [diagnostics setDiagnostics].
           rewrite Hds, <- app_assoc. split; [reflexivity|].
           apply Forall_app. split; [exact Hjust|]. constructor; [|constructor].
           exists key, symbol, o, existing, first. unfold symbolAt in *.
           rewrite <- Hsym. repeat split; auto.
        -- split; [exact Hsym|]. split; [exact Hkeeps|]. by exists ds.
      * destruct Hspec as [-> Hd]. cbn [snd]. exact (Hin Hd).
    + destruct Hspec as [-> Hd]. cbn [snd]. exact (Hin Hd).
  - unfold copyBaseMember, bind, get. rewrite Ho.
    rewrite insertSymbol_dangling by exact Ho. cbn [snd ret].
    split; [exact Hsym|]. split; [exact Hkeeps|]. by exists ds.
Qed.

(** The bodies of the two outer loops of [copyBaseMembers]. *)
Definition copyEntry (entry : string * SymbolHolder) : State Store unit :=
  let '(key, symbolHolder) := entry in
  if String.eqb key "this" then ret tt
  else forEach (toList symbolHolder) (copyBaseMember scope key).

Definition copyBase (baseType : option ResolvedType) : State Store unit :=
  match baseType with
  | None => ret tt
  | Some baseType =>
      let* s := get in
      match symbolAt (typeOrFunc baseType) s with
      | Some (SymType t) =>
          match tryResolveActiveScope (membersScopePath t) s with
          | None => ret tt
          | Some baseScope => forEach (symbolTableOf baseScope s) copyEntry
          end
      | _ => ret tt
      end
  end.

Lemma copyBaseMembers_loops : copyBaseMembers scope bases = forEach bases copyBase.
Proof. reflexivity. Qed.

Lemma copyEntry_reported entry s : reported s -> reported (snd (copyEntry entry s)).
Proof.
  destruct entry as [key holder]. intros Hs. cbn [copyEntry].
  destruct (String.eqb_spec key "this") as [->|Hkey]; [exact Hs|].
  apply forEach_keeps; [|exact Hs]. intros symbol s1 _ Hs1.
  by apply copyBaseMember_reported.
Qed.

Lemma copyBase_reported base s : reported s -> reported (snd (copyBase base s)).
Proof.
  intros Hs. destruct base as [base|]; [|exact Hs]. cbn [copyBase]. unfold bind, get.
  destruct (symbolAt (typeOrFunc base) s) as [[t| |]|]; try exact Hs.
  destruct (tryResolveActiveScope (membersScopePath t) s) as [p|]; [|exact Hs].
  apply forEach_keeps; [|exact Hs]. intros entry s1 _ Hs1. by apply copyEntry_reported.
Qed.

Lemma copyBaseMembers_reported : reported (snd (copyBaseMembers scope bases s0)).
Proof.
  rewrite copyBaseMembers_loops. apply forEach_keeps; [|apply reported_start].
  intros base s _ Hs. by apply copyBase_reported.
Qed.

(** *** What a symbol of a base meets *)

(** From one store of the copy to a later one: the table of the scope keeps
    what it has and the diagnostics what they list. *)
Definition later (s s' : Store) : Prop :=
  keeps (symbolTableOf scope s) (symbolTableOf scope s') /\
  exists ds, diagnostics s' = diagnostics s ++ ds.

Lemma later_refl s : later s s.
Proof. split; [apply keeps_refl|]. exists []. by rewrite app_nil_r. Qed.

Lemma later_trans s1 s2 s3 : later s1 s2 -> later s2 s3 -> later s1 s3.
Proof.
  intros [K1 (d1 & D1)] [K2 (d2 & D2)]. split; [eapply keeps_trans; eauto|].
  exists (d1 ++ d2). by rewrite D2, D1, <- app_assoc.
Qed.

Lemma forEach_later {A} (l : list A) (body : A -> State Store unit) :
  (forall x s, later s (snd (body x s))) -> forall s, later s (snd (forEach l body s)).
Proof.
  intros Hbody. unfold forEach. induction l as [|x l IH]; intros s; [apply later_refl|].
  cbn. unfold bind. specialize (Hbody x s). destruct (body x s) as [u s1]. cbn [snd] in Hbody.
  eapply later_trans; [exact Hbody | apply IH].
Qed.

Lemma copyBaseMember_later key symbol s : later s (snd (copyBaseMember scope key symbol s)).
Proof.
  destruct (symbolAt symbol s) as [o|] eqn:Ho.
  - destruct (isPrivateMember o) eqn:Hpriv.
    { unfold copyBaseMember, bind, get. rewrite Ho, Hpriv. apply later_refl. }
    pose proof (copyBaseMember_spec scope key symbol s o Ho Hpriv) as Hspec. cbv zeta in Hspec.
    assert (Hin : diagnostics (snd (insertSymbol scope symbol s)) = diagnostics s ->
                  later s (snd (insertSymbol scope symbol s))).
    { intros Hd. split; [apply insertSymbol_keeps|]. exists []. by rewrite app_nil_r. }
    destruct (JsMap.get (symbolTableOf scope s) (text (identifierToken o))) as [existing|].
    + destruct (inTheWay o existing).
      * rewrite Hspec. cbn [snd]. destruct (symbolAt (firstOf existing) s) as [first|];
          [|apply later_refl].
        split; [apply keeps_refl|]. by eexists.
      * destruct Hspec as [-> Hd]. exact (Hin Hd).
    + destruct Hspec as [-> Hd]. exact (Hin Hd).
  - unfold copyBaseMember, bind, get. rewrite Ho.
    rewrite insertSymbol_dangling by exact Ho. apply later_refl.
Qed.

Lemma copyEntry_later entry s : later s (snd (copyEntry entry s)).
Proof.
  destruct entry as [key holder]. cbn [copyEntry].
  destruct (String.eqb key "this"); [apply later_refl|].
  apply forEach_later. intros symbol s1. apply copyBaseMember_later.
Qed.

Lemma copyBase_later base s : later s (snd (copyBase base s)).
Proof.
  destruct base as [base|]; [|apply later_refl]. cbn [copyBase]. unfold bind, get.
  destruct (symbolAt (typeOrFunc base) s) as [[t| |]|]; try apply later_refl.
  destruct (tryResolveActiveScope (membersScopePath t) s) as [p|]; [|apply later_refl].
  apply forEach_later. intros entry s1. apply copyEntry_later.
Qed.

(** What holds after the body for one element of a loop and is kept by the
    bodies holds after the loop. *)
Lemma forEach_reaches {St A} (P Q : St -> Prop) (l : list A) (body : A -> State St unit) x :
  In x l ->
  (forall y s, P s -> P (snd (body y s))) ->
  (forall y s, Q s -> Q (snd (body y s))) ->
  (forall s, P s -> Q (snd (body x s))) ->
  forall s, P s -> Q (snd (forEach l body s)).
Proof.
  intros Hx HP HQ Hreach. unfold forEach.
  induction l as [|y l IH]; intros s Hs; [destruct Hx|].
  cbn. unfold bind. destruct (body y s) as [u s1] eqn:E.
  destruct Hx as [->|Hx].
  - apply (forEach_keeps Q); [intros; by apply HQ|].
    specialize (Hreach s Hs). by rewrite E in Hreach.
  - apply IH; [exact Hx|]. specialize (HP y s Hs). by rewrite E in HP.
Qed.

(** The stores of the copy: the symbol heap and the scopes other than
    [scope] are those of the start, and the table and the diagnostics are
    later. *)
Definition copying (s : Store) : Prop :=
  sameBut scope s0 s /\ reported s.

Lemma copying_later s s' :
  copying s -> symbols s' = symbols s ->
  (forall q, q <> scope -> scopes s' !! q = scopes s !! q) ->
  (forall q, is_Some (scopes s !! q) -> is_Some (scopes s' !! q)) ->
  explicitPropertyAccessor s' = explicitPropertyAccessor s ->
  reported s' -> copying s'.
Proof.
  intros [(A & B & C & D) _] A' B' C' D' Hr. split; [|exact Hr].
  repeat split; [congruence | | auto | congruence].
  intros q Hq. rewrite B', B; auto.
Qed.

Lemma copyBaseMember_sameBut key symbol s :
  sameBut scope s (snd (copyBaseMember scope key symbol s)).
Proof.
  unfold copyBaseMember, bind, get.
  destruct (match symbolAt symbol s with Some o => isPrivateMember o | None => false end);
    [apply sameBut_refl|].
  pose proof (insertSymbol_effect scope symbol s) as (Hs1 & _ & _).
  destruct (insertSymbol scope symbol s) as [[existing|] s1]; cbn [snd] in *; [|exact Hs1].
  destruct (symbolAt (firstOf existing) s1); [|exact Hs1].
  destruct Hs1 as (A & B & C & D). repeat split; auto.
Qed.

Lemma forEach_sameBut {A} (l : list A) (body : A -> State Store unit) :
  (forall x s, sameBut scope s (snd (body x s))) ->
  forall s, sameBut scope s (snd (forEach l body s)).
Proof.
  intros Hbody. unfold forEach. induction l as [|x l IH]; intros s; [apply sameBut_refl|].
  cbn. unfold bind. specialize (Hbody x s). destruct (body x s) as [u s1]. cbn [snd] in Hbody.
  eapply sameBut_trans; [exact Hbody | apply IH].
Qed.

Lemma copyEntry_sameBut entry s : sameBut scope s (snd (copyEntry entry s)).
Proof.
  destruct entry as [key holder]. cbn [copyEntry].
  destruct (String.eqb key "this"); [apply sameBut_refl|].
  apply forEach_sameBut. intros symbol s1. apply copyBaseMember_sameBut.
Qed.

Lemma copyBase_sameBut base s : sameBut scope s (snd (copyBase base s)).
Proof.
  destruct base as [base|]; [|apply sameBut_refl]. cbn [copyBase]. unfold bind, get.
  destruct (symbolAt (typeOrFunc base) s) as [[t| |]|]; try apply sameBut_refl.
  destruct (tryResolveActiveScope (membersScopePath t) s) as [p|]; [|apply sameBut_refl].
  apply forEach_sameBut. intros entry s1. apply copyEntry_sameBut.
Qed.

Lemma copying_copyBaseMember key symbol s :
  key <> "this" -> copying s -> copying (snd (copyBaseMember scope key symbol s)).
Proof.
  intros Hkey [Hsame Hrep]. split.
  - eapply sameBut_trans; [exact Hsame | apply copyBaseMember_sameBut].
  - by apply copyBaseMember_reported.
Qed.

Lemma copying_copyEntry entry s : copying s -> copying (snd (copyEntry entry s)).
Proof.
  intros [Hsame Hrep]. split.
  - eapply sameBut_trans; [exact Hsame | apply copyEntry_sameBut].
  - by apply copyEntry_reported.
Qed.

Lemma copying_copyBase base s : copying s -> copying (snd (copyBase base s)).
Proof.
  intros [Hsame Hrep]. split.
  - eapply sameBut_trans; [exact Hsame | apply copyBase_sameBut].
  - by apply copyBase_reported.
Qed.

(** A symbol that a base other than the scope itself holds under a key
    other than [this] is handed to the body of the innermost loop: what the
    body brings about for it, and later stores keep, holds when the copy is
    done. *)
Lemma copy_reaches (Q : Store -> Prop) base t p key holder r :
  In (Some base) bases ->
  symbolAt (typeOrFunc base) s0 = Some (SymType t) ->
  tryResolveActiveScope (membersScopePath t) s0 = Some p ->
  p <> scope ->
  In (key, holder) (symbolTableOf p s0) ->
  key <> "this" ->
  In r (toList holder) ->
  (forall s s', later s s' -> Q s -> Q s') ->
  (forall s, copying s -> Q (snd (copyBaseMember scope key r s))) ->
  Q (snd (copyBaseMembers scope bases s0)).
Proof.
  intros Hbase Ht Hp Hne Hentry Hkey Hr Hstable Hmember.
  rewrite copyBaseMembers_loops.
  apply (forEach_reaches copying Q bases copyBase (Some base) Hbase).
  - intros y s. apply copying_copyBase.
  - intros y s. apply Hstable, copyBase_later.
  - intros s Hs. pose proof Hs as [(Hsy & Hsc & Hex & Hset) Hrep].
    cbn [copyBase]. unfold bind, get.
    assert (Ht' : symbolAt (typeOrFunc base) s = Some (SymType t))
      by (unfold symbolAt in *; by rewrite Hsy).
    rewrite Ht'.
    assert (Hp' : tryResolveActiveScope (membersScopePath t) s = Some p).
    { unfold tryResolveActiveScope in *. destruct (membersScopePath t) as [p'|]; [|done].
      destruct (decide (is_Some (scopes s0 !! p'))) as [Hy|]; [|done].
      injection Hp as ->. rewrite decide_True; [reflexivity | by apply Hex]. }
    rewrite Hp'.
    assert (Htable : symbolTableOf p s = symbolTableOf p s0).
    { unfold symbolTableOf, scopeAt. by rewrite Hsc. }
    rewrite Htable.
    apply (forEach_reaches copying Q _ copyEntry (key, holder) Hentry).
    + intros y s1. apply copying_copyEntry.
    + intros y s1. apply Hstable, copyEntry_later.
    + intros s1 Hs1. cbn [copyEntry].
      destruct (String.eqb_spec key "this") as [E|_]; [contradiction|].
      apply (forEach_reaches copying Q _ (copyBaseMember scope key) r Hr).
      * intros y s2. by apply copying_copyBaseMember.
      * intros y s2. apply Hstable, copyBaseMember_later.
      * exact Hmember.
      * exact Hs1.
    + exact Hs.
  - split; [apply sameBut_refl | apply reported_start].
Qed.

(** A symbol of a base that finds a holder in its way is reported. *)
Lemma copy_reports base t p key holder r o existing first :
  In (Some base) bases ->
  symbolAt (typeOrFunc base) s0 = Some (SymType t) ->
  tryResolveActiveScope (membersScopePath t) s0 = Some p ->
  p <> scope ->
  In (key, holder) (symbolTableOf p s0) ->
  key <> "this" ->
  In r (toList holder) ->
  symbolAt r s0 = Some o ->
  isPrivateMember o = false ->
  JsMap.get (symbolTableOf scope s0) (text (identifierToken o)) = Some existing ->
  inTheWay o existing = true ->
  symbolAt (firstOf existing) s0 = Some first ->
  exists ds,
    diagnostics (snd (copyBaseMembers scope bases s0)) = diagnostics s0 ++ ds /\
    In (duplicated key first) ds.
Proof.
  intros Hbase Ht Hp Hne Hentry Hkey Hr Ho Hpriv Hget Hway Hfirst.
  apply (copy_reaches
           (fun s => exists ds, diagnostics s = diagnostics s0 ++ ds /\
                                In (duplicated key first) ds)
           base t p key holder r Hbase Ht Hp Hne Hentry Hkey Hr).
  - intros s s' [_ (more & Hmore)] (ds & Hds & Hin).
    exists (ds ++ more). rewrite Hmore, Hds, <- app_assoc. split; [reflexivity|].
    apply in_or_app. by left.
  - intros s [(Hsy & _) (_ & Hkeeps & ds & Hds & _)].
    assert (Ho' : symbolAt r s = Some o) by (unfold symbolAt in *; by rewrite Hsy).
    pose proof (copyBaseMember_spec scope key r s o Ho' Hpriv) as Hspec. cbv zeta in Hspec.
    destruct (Hkeeps _ _ Hget) as (h' & Hget' & F & K & _).
    rewrite Hget' in Hspec.
    assert (Hway' : inTheWay o h' = true) by (unfold inTheWay in *; by rewrite K).
    rewrite Hway' in Hspec. rewrite Hspec. cbn [snd].
    assert (Hfirst' : symbolAt (firstOf h') s = Some first)
      by (unfold symbolAt in *; by rewrite Hsy, F).
    rewrite Hfirst'. cbn [diagnostics setDiagnostics].
    exists (ds ++ [duplicated key first]). rewrite Hds, <- app_assoc. split; [reflexivity|].
    apply in_or_app. right. by left.
Qed.

(** A function of a base that finds functions under its name joins them. *)
Lemma copy_overloads base t p key holder r o f rest :
  In (Some base) bases ->
  symbolAt (typeOrFunc base) s0 = Some (SymType t) ->
  tryResolveActiveScope (membersScopePath t) s0 = Some p ->
  p <> scope ->
  In (key, holder) (symbolTableOf p s0) ->
  key <> "this" ->
  In r (toList holder) ->
  symbolAt r s0 = Some o ->
  isPrivateMember o = false ->
  isFunction o = true ->
  JsMap.get (symbolTableOf scope s0) (text (identifierToken o)) = Some (HolderFunctions f rest) ->
  exists rest',
    JsMap.get (symbolTableOf scope (snd (copyBaseMembers scope bases s0)))
              (text (identifierToken o)) = Some (HolderFunctions f rest') /\
    In r rest'.
Proof.
  intros Hbase Ht Hp Hne Hentry Hkey Hr Ho Hpriv Hfun Hget.
  apply (copy_reaches
           (fun s => exists rest',
                       JsMap.get (symbolTableOf scope s) (text (identifierToken o))
                         = Some (HolderFunctions f rest') /\ In r rest')
           base t p key holder r Hbase Ht Hp Hne Hentry Hkey Hr).
  - intros s s' [Hkeeps _] (rest1 & Hget1 & Hin).
    destruct (Hkeeps _ _ Hget1) as ([x|f' rest2] & Hget2 & F & K & [more L]); [discriminate|].
    cbn [toList] in L. injection L as -> ->.
    exists (rest1 ++ more). split; [exact Hget2|]. apply in_or_app. by left.
  - intros s [(Hsy & _) (_ & Hkeeps & _)].
    assert (Ho' : symbolAt r s = Some o) by (unfold symbolAt in *; by rewrite Hsy).
    pose proof (copyBaseMember_spec scope key r s o Ho' Hpriv) as Hspec. cbv zeta in Hspec.
    destruct (Hkeeps _ _ Hget) as ([x|f' rest2] & Hget' & F & K & [more L]); [discriminate|].
    cbn [toList] in L. injection L as -> ->.
    rewrite Hget' in Hspec. unfold inTheWay in Hspec. rewrite Hfun in Hspec.
    cbn [isFunctionHolder andb negb] in Hspec. destruct Hspec as [-> _]. cbn [snd].
    pose proof (insertSymbol_spec scope r s o Ho') as Hins. cbv zeta in Hins.
    rewrite Hget' in Hins. cbn [installed] in Hins. rewrite Hfun in Hins. rewrite Hins.
    cbn [snd]. rewrite symbolTableOf_setScopes_eq. cbn [symbolTable].
    rewrite JsMap_get_set, String.eqb_refl.
    exists ((rest ++ more) ++ [r]). split; [reflexivity|]. apply in_or_app. right. by left.
Qed.


End Reports.



(** *** The [super] constructors *)

(** The overloads of the function holder that a table has at a name. *)
Definition overloadsAt (table : JsMap.t SymbolHolder) (name : string) : list SymRef :=
  match JsMap.get table name with
  | Some (HolderFunctions f rest) => f :: rest
  | _ => []
  end.

(** The function symbols behind a list of references. *)
Definition constructorsOf (refs : list SymRef) (s : Store) : list SymbolFunction :=
  omap (fun c => match symbolAt c s with Some (SymFunction f) => Some f | _ => None end) refs.

(** The loop of the inner closure of [hoistClass] over the constructors. *)
Definition insertSuperConstructors (scope : ScopePath) (refs : list SymRef)
    : State Store unit :=
  forEach refs (fun baseConstructor =>
    let* s := get in
    match symbolAt baseConstructor s with
    | Some (SymFunction c) =>
        let* superConstructor := create (SymFunction (cloneAsSuper c)) in
        let* _ := insertSymbol scope superConstructor in
        ret tt
    | _ => ret tt
    end).

Lemma symbolAt_app_l r s extra :
  r < length (symbols s) ->
  symbolAt r (setSymbols (symbols s ++ extra) s) = symbolAt r s.
Proof. intros Hr. unfold symbolAt. simpl. by apply lookup_app_l. Qed.

Lemma constructorsOf_app refs s extra :
  Forall (fun c => c < length (symbols s)) refs ->
  constructorsOf refs (setSymbols (symbols s ++ extra) s) = constructorsOf refs s.
Proof.
  induction 1 as [|c refs Hc _ IH]; [reflexivity|].
  unfold constructorsOf in *. cbn [omap list_omap]. rewrite IH.
  by rewrite symbolAt_app_l by exact Hc.
Qed.

Lemma insertSuperConstructors_cons scope c refs s :
  insertSuperConstructors scope (c :: refs) s =
  match symbolAt c s with
  | Some (SymFunction fc) =>
      insertSuperConstructors scope refs
        (snd (insertSymbol scope (length (symbols s))
                (setSymbols (symbols s ++ [SymFunction (cloneAsSuper fc)]) s)))
  | _ => insertSuperConstructors scope refs s
  end.
Proof.
  unfold insertSuperConstructors, forEach. simpl. unfold bind, get.
  destruct (symbolAt c s) as [[t|v|fc]|]; try reflexivity.
  unfold create. simpl.
  destruct (insertSymbol scope (length (symbols s)) _); reflexivity.
Qed.

Lemma insertSuperConstructors_spec scope refs : forall s,
  Forall (fun c => c < length (symbols s)) refs ->
  let s' := snd (insertSuperConstructors scope refs s) in
  let ctors := constructorsOf refs s in
  symbols s' = symbols s ++ map (fun c => SymFunction (cloneAsSuper c)) ctors /\
  (forall k, k <> "super" ->
             JsMap.get (symbolTableOf scope s') k = JsMap.get (symbolTableOf scope s) k) /\
  match JsMap.get (symbolTableOf scope s) "super" with
  | Some (HolderSingle x) => symbolTableOf scope s' = symbolTableOf scope s
  | _ =>
      overloadsAt (symbolTableOf scope s') "super" =
      overloadsAt (symbolTableOf scope s) "super" ++ seq (length (symbols s)) (length ctors)
  end.
Proof.
  induction refs as [|c refs IH]; intros s Hvalid; cbv zeta.
  - simpl. rewrite !app_nil_r. split; [reflexivity|]. split; [auto|].
    destruct (JsMap.get _ _) as [[x|f rest]|]; reflexivity.
  - apply Forall_cons in Hvalid as [Hc Hvalid].
    rewrite insertSuperConstructors_cons.
    unfold constructorsOf. cbn [omap list_omap]. fold (constructorsOf refs s).
    destruct (symbolAt c s) as [[t|v|fc]|] eqn:Hcs;
      try (apply IH; exact Hvalid).
    set (clone := SymFunction (cloneAsSuper fc)).
    set (sa := setSymbols (symbols s ++ [clone]) s).
    assert (Hclone : symbolAt (length (symbols s)) sa = Some clone).
    { unfold symbolAt, sa. simpl. rewrite lookup_app_r by lia. by rewrite Nat.sub_diag. }
    pose proof (insertSymbol_spec scope (length (symbols s)) sa clone Hclone) as Hspec.
    cbv zeta in Hspec.
    change (text (identifierToken clone)) with "super" in Hspec.
    change (symbolTableOf scope sa) with (symbolTableOf scope s) in Hspec.
    change (scopeAt scope sa) with (scopeAt scope s) in Hspec.
    assert (Hlen : length (symbols sa) = S (length (symbols s))).
    { unfold sa. simpl. rewrite length_app. simpl. lia. }
    assert (Hvalid' : forall sb, symbols sb = symbols sa ->
                      Forall (fun c => c < length (symbols sb)) refs).
    { intros sb Hsb. rewrite Hsb. eapply Forall_impl; [exact Hvalid|]. intros x Hx.
      cbv beta in *. rewrite Hlen. lia. }
    assert (Hctors : forall sb, symbols sb = symbols sa ->
                     constructorsOf refs sb = constructorsOf refs s).
    { intros sb Hsb. unfold constructorsOf, symbolAt. rewrite Hsb.
      apply (constructorsOf_app refs s [clone] Hvalid). }
    destruct (JsMap.get (symbolTableOf scope s) "super") as [[x|f rest]|] eqn:Hget;
      simpl in Hspec; rewrite Hspec; simpl.
    + (* a single symbol is in the way *)
      specialize (IH sa (Hvalid' sa eq_refl)). cbv zeta in IH.
      change (symbolTableOf scope sa) with (symbolTableOf scope s) in IH.
      rewrite Hget in IH. destruct IH as (IHs & IHk & IHt).
      rewrite (Hctors sa eq_refl) in IHs.
      split; [|split; [exact IHk | exact IHt]].
      rewrite IHs. unfold sa. simpl. by rewrite <- app_assoc.
    + (* an overload is appended *)
      set (sb := setScopes _ sa).
      specialize (IH sb (Hvalid' sb eq_refl)). cbv zeta in IH.
      assert (Htab : symbolTableOf scope sb =
                     JsMap.set (symbolTableOf scope s) "super"
                               (HolderFunctions f (rest ++ [length (symbols s)]))).
      { unfold sb. by rewrite symbolTableOf_setScopes_eq. }
      rewrite Htab, JsMap_get_set in IH. simpl in IH.
      destruct IH as (IHs & IHk & IHt).
      rewrite (Hctors sb eq_refl) in IHs, IHt.
      split; [|split].
      * rewrite IHs. unfold sb, sa. simpl. by rewrite <- app_assoc.
      * intros k Hk. rewrite IHk by exact Hk. rewrite JsMap_get_set.
        destruct (String.eqb_spec "super" k); [congruence | reflexivity].
      * rewrite IHt. unfold overloadsAt. rewrite JsMap_get_set, Hget.
        change (length (symbols s ++ [clone])) with (length (symbols sa)). rewrite Hlen.
        simpl. rewrite <- app_assoc. reflexivity.
    + (* the first super constructor *)
      set (sb := setScopes _ sa).
      specialize (IH sb (Hvalid' sb eq_refl)). cbv zeta in IH.
      assert (Htab : symbolTableOf scope sb =
                     JsMap.set (symbolTableOf scope s) "super"
                               (HolderFunctions (length (symbols s)) [])).
      { unfold sb. by rewrite symbolTableOf_setScopes_eq. }
      rewrite Htab, JsMap_get_set in IH. simpl in IH.
      destruct IH as (IHs & IHk & IHt).
      rewrite (Hctors sb eq_refl) in IHs, IHt.
      split; [|split].
      * rewrite IHs. unfold sb, sa. simpl. by rewrite <- app_assoc.
      * intros k Hk. rewrite IHk by exact Hk. rewrite JsMap_get_set.
        destruct (String.eqb_spec "super" k); [congruence | reflexivity].
      * rewrite IHt. unfold overloadsAt. rewrite JsMap_get_set, Hget.
        change (length (symbols s ++ [clone])) with (length (symbols sa)). rewrite Hlen.
        reflexivity.
Qed.

Lemma primeBase_lookup (bases : list (option ResolvedType)) :
  (if 1 <=? length bases then mjoin (bases !! 0) else None) = mjoin (bases !! 0).
Proof. by destruct bases. Qed.

Lemma hoistClassBase_eq scope symbol s t :
  symbolAt symbol s = Some (SymType t) ->
  hoistClassBase scope symbol s =
  match baseList t with
  | None => (tt, s)
  | Some bases =>
      let s1 := snd (copyBaseMembers scope bases s) in
      match findConstructorOfType (mjoin (bases !! 0)) s1 with
      | Some (HolderFunctions f rest) => insertSuperConstructors scope (f :: rest) s1
      | _ => (tt, s1)
      end
  end.
Proof.
  intros Hsym. unfold hoistClassBase. unfold bind at 1. unfold get at 1.
  rewrite Hsym. destruct (baseList t) as [bases|]; [|reflexivity].
  unfold bind at 1. destruct (copyBaseMembers scope bases s) as [[] s1]. cbv zeta. simpl snd.
  rewrite primeBase_lookup. unfold bind at 1. unfold get at 1.
  destruct (findConstructorOfType (mjoin (bases !! 0)) s1) as [[x|f rest]|]; reflexivity.
Qed.

(** The inner closure of [hoistClass], by cases on the base list, on the
    constructors of the first base and on what the member scope has under
    [super]. *)
Lemma hoistClassBase_spec
    (scope : ScopePath) (symbol : SymRef) (s : Store) (t : SymbolType) :
  symbolAt symbol s = Some (SymType t) ->
  let s' := snd (hoistClassBase scope symbol s) in
  match baseList t with
  | None => s' = s
  | Some bases =>
      let s1 := snd (copyBaseMembers scope bases s) in
      match findConstructorOfType (mjoin (bases !! 0)) s1 with
      | Some (HolderFunctions f rest) =>
          Forall (fun c => c < length (symbols s1)) (f :: rest) ->
          let ctors := constructorsOf (f :: rest) s1 in
          symbols s' = symbols s1 ++ map (fun c => SymFunction (cloneAsSuper c)) ctors /\
          (forall k, k <> "super" ->
                     JsMap.get (symbolTableOf scope s') k =
                     JsMap.get (symbolTableOf scope s1) k) /\
          match JsMap.get (symbolTableOf scope s1) "super" with
          | Some (HolderSingle x) => symbolTableOf scope s' = symbolTableOf scope s1
          | _ =>
              overloadsAt (symbolTableOf scope s') "super" =
              overloadsAt (symbolTableOf scope s1) "super" ++
              seq (length (symbols s1)) (length ctors)
          end
      | _ => s' = s1
      end
  end.
Proof.
  intros Hsym. cbv zeta. rewrite (hoistClassBase_eq scope symbol s t Hsym).
  destruct (baseList t) as [bases|]; [|reflexivity].
  cbv zeta.
  destruct (findConstructorOfType (mjoin (bases !! 0)) (copyBaseMembers scope bases s).2)
    as [[x|f rest]|]; try reflexivity.
  intros Hvalid.
  exact (insertSuperConstructors_spec scope (f :: rest) _ Hvalid).
Qed.

(** C4, as amended ([hoistClass], the inner closure): with no base list the
    step does nothing; otherwise it copies the base members and then, when
    the first base resolves to a type whose members scope has a function
    holder under the name of the type, creates one clone named [super] per
    overload of that holder and offers each to the member scope of the class:
    they become the last overloads of its [super] holder unless the scope
    has a single, non-function symbol under [super], in which case its table
    stays as the copy left it; when the first base is unresolved or has no
    such holder nothing is inserted. *)
Theorem C4_super_constructors
    (scope : ScopePath) (symbol : SymRef) (s : Store) (t : SymbolType) :
  symbolAt symbol s = Some (SymType t) ->
  let s' := snd (hoistClassBase scope symbol s) in
  (baseList t = None -> s' = s) /\
  (forall bases, baseList t = Some bases ->
     let s1 := snd (copyBaseMembers scope bases s) in
     (forall f rest,
        findConstructorOfType (mjoin (bases !! 0)) s1 = Some (HolderFunctions f rest) ->
        Forall (fun c => c < length (symbols s1)) (f :: rest) ->
        let ctors := constructorsOf (f :: rest) s1 in
        symbols s' = symbols s1 ++ map (fun c => SymFunction (cloneAsSuper c)) ctors /\
        (forall k, k <> "super" ->
                   JsMap.get (symbolTableOf scope s') k =
                   JsMap.get (symbolTableOf scope s1) k) /\
        ((forall x, JsMap.get (symbolTableOf scope s1) "super" <> Some (HolderSingle x)) ->
         overloadsAt (symbolTableOf scope s') "super" =
         overloadsAt (symbolTableOf scope s1) "super" ++
         seq (length (symbols s1)) (length ctors)) /\
        (forall x, JsMap.get (symbolTableOf scope s1) "super" = Some (HolderSingle x) ->
                   symbolTableOf scope s' = symbolTableOf scope s1)) /\
     ((forall f rest,
         findConstructorOfType (mjoin (bases !! 0)) s1 <> Some (HolderFunctions f rest)) ->
      s' = s1)).
Proof.
  intros Hsym. pose proof (hoistClassBase_spec scope symbol s t Hsym) as Hspec.
  cbv zeta in *. split.
  - intros Hnone. by rewrite Hnone in Hspec.
  - intros bases Hbases. rewrite Hbases in Hspec. split.
    + intros f rest Hctor Hvalid. rewrite Hctor in Hspec.
      destruct (Hspec Hvalid) as (Hsym' & Hother & Hsuper).
      split; [exact Hsym'|]. split; [exact Hother|]. split.
      * intros Hfree.
        destruct (JsMap.get (symbolTableOf scope (copyBaseMembers scope bases s).2) "super")
          as [[x|f0 rest0]|]; [by destruct (Hfree x) | exact Hsuper | exact Hsuper].
      * intros x Hx. by rewrite Hx in Hsuper.
    + intros Hnone.
      destruct (findConstructorOfType (mjoin (bases !! 0)) (copyBaseMembers scope bases s).2)
        as [[x|f rest]|]; [exact Hspec | by destruct (Hnone f rest) | exact Hspec].
Qed.


(** *** Property accessors *)

(** [s'] has the symbol table of [p] and the setting of [s], and its symbol
    heap extends that of [s]. *)
Definition evolves (p : ScopePath) (s s' : Store) : Prop :=
  symbolTableOf p s' = symbolTableOf p s /\
  (exists extra, symbols s' = symbols s ++ extra) /\
  explicitPropertyAccessor s' = explicitPropertyAccessor s.

Lemma evolves_refl p s : evolves p s s.
Proof. split; [reflexivity|]. split; [exists []; by rewrite app_nil_r | reflexivity]. Qed.

Lemma evolves_trans p s1 s2 s3 : evolves p s1 s2 -> evolves p s2 s3 -> evolves p s1 s3.
Proof.
  intros (T1 & [e1 S1] & E1) (T2 & [e2 S2] & E2). split; [congruence|].
  split; [|congruence]. exists (e1 ++ e2). by rewrite S2, S1, app_assoc.
Qed.

Lemma evolves_symbolAt p s s' r o :
  evolves p s s' -> symbolAt r s = Some o -> symbolAt r s' = Some o.
Proof.
  intros (_ & [e S] & _) Hr. unfold symbolAt in *. rewrite S.
  by apply lookup_app_l_Some.
Qed.

Lemma sameBut_evolves q p s s' : p <> q -> sameBut q s s' -> evolves p s s'.
Proof.
  intros Hne (Hsy & Hsc & _ & He). split; [|split].
  - unfold symbolTableOf, scopeAt. by rewrite Hsc.
  - exists []. by rewrite app_nil_r.
  - exact He.
Qed.

Lemma insertScope_spec this identifier ln s :
  fst (insertScope this identifier ln s) = this ++ [identifier] /\
  (forall q, evolves q s (snd (insertScope this identifier ln s))) /\
  diagnostics (snd (insertScope this identifier ln s)) = diagnostics s.
Proof.
  unfold insertScope.
  destruct (scopes s !! (this ++ [identifier])) as [found|] eqn:Hfound.
  - destruct ln as [n|], (linkedNode found) as [m|] eqn:Hm; simpl;
      try (split; [reflexivity|]; split; [intros q; apply evolves_refl | reflexivity]).
    split; [reflexivity|]. split; [|reflexivity]. intros q.
    split; [|split; [exists []; by rewrite app_nil_r | reflexivity]].
    destruct (decide (this ++ [identifier] = q)) as [<-|Hne].
    + rewrite symbolTableOf_setScopes_eq. unfold symbolTableOf, scopeAt. by rewrite Hfound.
    + by rewrite symbolTableOf_setScopes_ne.
  - simpl. split; [reflexivity|]. split; [|reflexivity]. intros q.
    split; [|split; [exists []; by rewrite app_nil_r | reflexivity]].
    destruct (decide (this ++ [identifier] = q)) as [<-|Hne].
    + rewrite symbolTableOf_setScopes_eq. unfold symbolTableOf, scopeAt. by rewrite Hfound.
    + by rewrite symbolTableOf_setScopes_ne.
Qed.

Lemma insertSymbolAndCheck_evolves q r p s :
  p <> q -> evolves p s (snd (insertSymbolAndCheck q r s)).
Proof.
  intros Hne. unfold insertSymbolAndCheck, bind, get.
  pose proof (insertSymbol_effect q r s) as (Hsame & _ & _).
  destruct (insertSymbol q r s) as [[existing|] s1]; simpl in *.
  - destruct (symbolAt r s1); simpl; eapply sameBut_evolves; eauto.
  - eapply sameBut_evolves; eauto.
Qed.

Lemma create_spec o s :
  create o s = (length (symbols s), setSymbols (symbols s ++ [o]) s).
Proof. reflexivity. Qed.

Lemma create_evolves o p s : evolves p s (snd (create o s)).
Proof. split; [reflexivity|]. split; [by exists [o] | reflexivity]. Qed.

Lemma forEach_evolves {A} p (l : list A) (body : A -> State Store unit) :
  (forall x s, evolves p s (snd (body x s))) ->
  forall s, evolves p s (snd (forEach l body s)).
Proof.
  intros Hbody s.
  apply (forEach_keeps (fun s' => evolves p s s')); [|apply evolves_refl].
  intros x s' _ Hs'. eapply evolves_trans; [exact Hs' | apply Hbody].
Qed.

Lemma hoistClassTemplateTypes_evolves q types p s :
  p <> q -> evolves p s (snd (hoistClassTemplateTypes q types s)).
Proof.
  intros Hne. unfold hoistClassTemplateTypes. unfold bind at 1.
  assert (Hloop : forall s, evolves p s (snd (forEach (default [] types)
    (fun type =>
       let* symbol := create (SymType
         (mkSymbolType (getIdentifierInNodeType type) q None None true None None)) in
       let* _ := insertSymbolAndCheck q symbol in
       ret tt) s))).
  { apply forEach_evolves. intros type s'. unfold bind at 1. rewrite create_spec.
    unfold bind at 1.
    pose proof (insertSymbolAndCheck_evolves q (length (symbols s'))
                  p (setSymbols (symbols s' ++ [SymType
         (mkSymbolType (getIdentifierInNodeType type) q None None true None None)]) s') Hne) as H.
    destruct (insertSymbolAndCheck q _ _) as [b s2]. simpl in *.
    eapply evolves_trans; [|exact H]. apply create_evolves. }
  specialize (Hloop s).
  match goal with |- context [forEach ?l ?b s] => destruct (forEach l b s) as [u s1] end.
  exact Hloop.
Qed.

Lemma callAnalyzeType_evolves analyzeType scope type p s :
  evolves p s (snd (callAnalyzeType analyzeType scope type s)).
Proof.
  unfold callAnalyzeType. destruct (analyzeType s scope type) as [[rt ds] rs]. simpl.
  split; [reflexivity|]. split; [exists []; by rewrite app_nil_r | reflexivity].
Qed.


(** Postconditions of store and world computations. *)
Definition swp {A} (m : State Store A) (Q : A -> Store -> Prop) (s : Store) : Prop :=
  Q (fst (m s)) (snd (m s)).

Definition hwp {A} (m : H A) (Q : A -> World -> Prop) (w : World) : Prop :=
  Q (fst (m w)) (snd (m w)).

Lemma swp_bind {A B} (m : State Store A) (k : A -> State Store B) Q s :
  swp m (fun a s' => swp (k a) Q s') s -> swp (bind m k) Q s.
Proof. unfold swp, bind. by destruct (m s). Qed.

Lemma hwp_bind {A B} (m : H A) (k : A -> H B) Q w :
  hwp m (fun a w' => hwp (k a) Q w') w -> hwp (bind m k) Q w.
Proof. unfold hwp, bind. by destruct (m w). Qed.

Lemma hwp_liftS {A} (m : State Store A) Q w :
  swp m (fun a s' => Q a (mkWorld s' (analyzeQueue w) (hoistQueue w) (executed w))) (store w) ->
  hwp (liftS m) Q w.
Proof. unfold hwp, swp, liftS. by destruct (m (store w)). Qed.

Lemma hwp_ret {A} (a : A) (Q : A -> World -> Prop) w : Q a w -> hwp (ret a) Q w.
Proof. done. Qed.

Lemma hwp_push q t (Q : unit -> World -> Prop) w :
  Q tt (setQueue q (queueOf q w ++ [t]) w) -> hwp (push q t) Q w.
Proof. done. Qed.

Lemma swp_insertScope this identifier ln (Q : list string -> Store -> Prop) s :
  (forall s', (forall q, evolves q s s') -> diagnostics s' = diagnostics s ->
              Q (this ++ [identifier]) s') ->
  swp (insertScope this identifier ln) Q s.
Proof.
  intros HQ. unfold swp.
  destruct (insertScope_spec this identifier ln s) as (-> & He & Hd). by apply HQ.
Qed.

Lemma swp_createAnonymousIdentifier (Q : string -> Store -> Prop) s :
  (forall a s', (forall q, evolves q s s') -> diagnostics s' = diagnostics s -> Q a s') ->
  swp createAnonymousIdentifier Q s.
Proof.
  intros HQ. unfold swp, createAnonymousIdentifier. simpl. apply HQ; [|reflexivity].
  intros q. split; [reflexivity|]. split; [exists []; by rewrite app_nil_r | reflexivity].
Qed.

Lemma swp_hoistClassTemplateTypes q types p (Q : list TokenObject -> Store -> Prop) s :
  p <> q ->
  (forall a s', evolves p s s' -> Q a s') ->
  swp (hoistClassTemplateTypes q types) Q s.
Proof. intros Hne HQ. unfold swp. apply HQ. by apply hoistClassTemplateTypes_evolves. Qed.

Lemma swp_callAnalyzeType analyzeType scope type (Q : option ResolvedType -> Store -> Prop) s :
  (forall a s', (forall q, evolves q s s') -> Q a s') ->
  swp (callAnalyzeType analyzeType scope type) Q s.
Proof. intros HQ. unfold swp. apply HQ. intros q. apply callAnalyzeType_evolves. Qed.

(** The name left when the accessor prefix is taken off is not the name. *)
Lemma substring_all s : String.substring 0 (String.length s) s = s.
Proof. induction s as [|a s IH]; simpl; [reflexivity | by rewrite IH]. Qed.

Lemma prefix4_length (p name : string) :
  String.length p = 4 -> String.prefix p name = true ->
  exists a b c d rest, name = String a (String b (String c (String d rest))).
Proof.
  intros Hlen Hp. apply String.prefix_correct in Hp. rewrite Hlen in Hp.
  destruct name as [|a [|b [|c [|d rest]]]]; simpl in Hp; subst p; simpl in Hlen;
    try discriminate.
  by repeat eexists.
Qed.

Lemma accessor_name_shorter (name : string) :
  String.prefix "get_" name || String.prefix "set_" name = true ->
  String.length (String.substring 4 (String.length name - 4) name) + 4 = String.length name.
Proof.
  intros Hp.
  assert (Hlen : exists a b c d rest, name = String a (String b (String c (String d rest)))).
  { apply orb_true_iff in Hp as [Hp|Hp];
      [apply (prefix4_length "get_") | apply (prefix4_length "set_")]; done. }
  destruct Hlen as (a & b & c & d & rest & ->). simpl.
  rewrite Nat.sub_0_r, substring_all. lia.
Qed.

Lemma accessor_name_differs (name : string) :
  String.prefix "get_" name || String.prefix "set_" name = true ->
  String.substring 4 (String.length name - 4) name <> name.
Proof.
  intros Hp Heq. pose proof (accessor_name_shorter name Hp) as Hl.
  rewrite Heq in Hl. lia.
Qed.


Lemma swp_insertSymbol this symbol o (Q : option SymbolHolder -> Store -> Prop) s :
  symbolAt symbol s = Some o ->
  match installed (JsMap.get (symbolTableOf this s) (text (identifierToken o))) o symbol with
  | Some h =>
      Q None (setScopes (<[this := mkScopeData (linkedNode (scopeAt this s))
                                     (JsMap.set (symbolTableOf this s)
                                                (text (identifierToken o)) h)
                                     (namespaceNodes (scopeAt this s))]> (scopes s)) s)
  | None => Q (JsMap.get (symbolTableOf this s) (text (identifierToken o))) s
  end ->
  swp (insertSymbol this symbol) Q s.
Proof.
  intros Ho HQ. unfold swp.
  pose proof (insertSymbol_spec this symbol s o Ho) as Hspec. cbv zeta in Hspec.
  destruct (installed _ o symbol); by rewrite Hspec.
Qed.

Lemma swp_insertSymbolAndCheck this symbol o h (Q : bool -> Store -> Prop) s :
  symbolAt symbol s = Some o ->
  installed (JsMap.get (symbolTableOf this s) (text (identifierToken o))) o symbol = Some h ->
  Q true (setScopes (<[this := mkScopeData (linkedNode (scopeAt this s))
                                  (JsMap.set (symbolTableOf this s)
                                             (text (identifierToken o)) h)
                                  (namespaceNodes (scopeAt this s))]> (scopes s)) s) ->
  swp (insertSymbolAndCheck this symbol) Q s.
Proof.
  intros Ho Hinst HQ. unfold insertSymbolAndCheck. apply swp_bind.
  apply (swp_insertSymbol this symbol o); [exact Ho|]. rewrite Hinst. exact HQ.
Qed.

Section Accessor.

Variable analyzeType :
  Store -> list string -> NodeType ->
  option ResolvedType * list Diagnostic * list ReferenceEntry.

Variables (parentScope : list string) (nodeFunc : NodeFunc) (isInstanceMember : bool).

Definition hasAccessorPrefix : bool :=
  String.prefix "get_" (text (funcIdentifier nodeFunc))
  || String.prefix "set_" (text (funcIdentifier nodeFunc)).

Definition markedProperty : bool :=
  match funcAttr nodeFunc with Some a => isProperty a | None => false end.

(** The identifier without its first four characters. *)
Definition accessorName : string :=
  String.substring 4 (String.length (text (funcIdentifier nodeFunc)) - 4)
                   (text (funcIdentifier nodeFunc)).

(** The synthetic variable of an accessor with the given return type. *)
Definition accessorVariable (returnType : option ResolvedType) : SymbolVariable :=
  mkSymbolVariable
    (createVirtual accessorName (mkRange (funcIdentifier nodeFunc) (funcIdentifier nodeFunc)))
    parentScope returnType isInstanceMember (funcAccessor nodeFunc).

(** [f] is a function symbol of this node, with the node's identifier,
    instance flag and access restriction. *)
Definition declares (f : SymbolFunction) : Prop :=
  funcIdentifierToken f = funcIdentifier nodeFunc /\
  funcLinkedNode f = mkLinked NameFunc (funcNodeId nodeFunc) /\
  funcIsInstanceMember f = isInstanceMember /\
  funcAccessRestriction f = funcAccessor nodeFunc.

(** The store holds such a symbol as an overload under the identifier in
    the parent scope. *)
Definition declared (s : Store) (f : SymbolFunction) : Prop :=
  declares f /\
  exists fref,
    In fref (overloadsAt (symbolTableOf parentScope s) (text (funcIdentifier nodeFunc))) /\
    symbolAt fref s = Some (SymFunction f).

(** What the steps between the creation of the function symbol [n] and its
    insertion keep. *)
Definition tracks (n : SymRef) (s s' : Store) : Prop :=
  symbolTableOf parentScope s' = symbolTableOf parentScope s /\
  explicitPropertyAccessor s' = explicitPropertyAccessor s /\
  (forall f, symbolAt n s = Some (SymFunction f) -> declares f ->
             exists f', symbolAt n s' = Some (SymFunction f') /\ declares f').

Lemma tracks_trans n s1 s2 s3 : tracks n s1 s2 -> tracks n s2 s3 -> tracks n s1 s3.
Proof.
  intros (T1 & E1 & F1) (T2 & E2 & F2). split; [congruence|]. split; [congruence|].
  intros f Hf Hd. destruct (F1 f Hf Hd) as (f' & Hf' & Hd'). eauto.
Qed.

Lemma evolves_tracks n s s' : evolves parentScope s s' -> tracks n s s'.
Proof.
  intros He. pose proof He as (T & _ & E). split; [exact T|]. split; [exact E|].
  intros f Hf Hd. exists f. split; [eapply evolves_symbolAt; eauto | exact Hd].
Qed.

Lemma assign_tracks n g s :
  (forall f, declares f -> exists f', g (SymFunction f) = SymFunction f' /\ declares f') ->
  tracks n s (snd (assign n g s)).
Proof.
  intros Hg. split; [reflexivity|]. split; [reflexivity|].
  intros f Hf Hd. destruct (Hg f Hd) as (f' & Hgf & Hd'). exists f'. split; [|exact Hd'].
  unfold assign, modify, symbolAt in *. simpl. rewrite list_lookup_alter_eq, Hf. simpl.
  by rewrite Hgf.
Qed.


End Accessor.

(** *** Concrete programs *)

Definition tok (t : string) : TokenObject :=
  mkToken t (mkLocation "a.as" (0, 0) (0, 0)) false.

(** An analyzer of types that resolves a type name to the type symbol that
    the scope or an enclosing scope holds under it. *)
Definition resolveByName (s : Store) (scope : list string) (type : NodeType)
    : option ResolvedType * list Diagnostic * list ReferenceEntry :=
  match findSymbolWithParent scope (text (typeIdentifier type)) s with
  | Some (HolderSingle r, _) =>
      match symbolAt r s with
      | Some (SymType _) => (Some (newResolvedType r), [], [])
      | _ => (None, [], [])
      end
  | _ => (None, [], [])
  end.

Definition primitiveType (name : string) : SymbolType :=
  mkSymbolType (tok name) [] None None false None None.

(** A global scope with the types [int] (symbol 0) and [void] (symbol 1),
    with [explicitPropertyAccessor] set to false. *)
Definition primitives : Store :=
  mkStore {[ [] := mkScopeData None [("int", HolderSingle 0); ("void", HolderSingle 1)] [] ]}
          [SymType (primitiveType "int"); SymType (primitiveType "void")] [] [] [] 0 false.

(** [hoistAfterParsed] on the global scope over [primitives], with bodies
    whose analysis changes nothing. *)
Definition hoistProgram (fuel : nat) (ast : NodeScript) : option World :=
  hoistAfterParsed resolveByName (fun _ => None) (fun _ _ s => s) (fun _ _ _ _ s => s)
                   (fun _ _ s => s) fuel ast [] primitives.

Definition braces : TokenRange := mkRange (tok "{") (tok "}").

(** [class P { int get_v() {} void set_v(int value) {} }] *)
Definition get_v : NodeFunc :=
  mkNodeFunc 10 (FuncHeadReturnValue (mkNodeType 11 (tok "int"))) (tok "get_v") []
             None None None (mkStatBlock 12).
Definition set_v : NodeFunc :=
  mkNodeFunc 20 (FuncHeadReturnValue (mkNodeType 21 (tok "void"))) (tok "set_v")
             [mkParam (mkNodeType 22 (tok "int")) (Some (tok "value"))]
             None None None (mkStatBlock 23).
Definition classP : NodeClass :=
  mkNodeClass 1 (tok "P") None [] [MemberFunc get_v; MemberFunc set_v] braces.

(** The store in which the members of [P] are hoisted: [P] is symbol 2 and
    its [this] symbol 3. *)
Definition insideP : World :=
  snd (hoistClass [] classP TheAnalyzeQueue TheHoistQueue
                  (mkWorld primitives [] [] [])).

(** [class B { B() {} }  class C : B { int super; }] *)
Definition constructorB : NodeFunc :=
  mkNodeFunc 31 funcHeadConstructor (tok "B") [] None None None (mkStatBlock 32).
Definition classB : NodeClass :=
  mkNodeClass 30 (tok "B") None [] [MemberFunc constructorB] braces.
Definition superVar : NodeVar :=
  mkNodeVar 41 (mkNodeType 42 (tok "int")) [mkDeclaredVar (tok "super") None] None.
Definition classC : NodeClass :=
  mkNodeClass 40 (tok "C") None [tok "B"] [MemberVar superVar] braces.

(** [class B { B() {} }  class D : B { }], hoisted. *)
Definition classD : NodeClass :=
  mkNodeClass 50 (tok "D") None [tok "B"] [] braces.
Definition hoistedD : Store :=
  default primitives (store <$> hoistProgram 10 [StClass classB; StClass classD]).




(** The type symbol of [D] after the hoist: symbol 4, with base [B],
    symbol 2. *)
Definition typeD : SymbolType :=
  mkSymbolType (tok "D") [] (Some (mkLinked NameClass 50)) (Some ["D"]) false None
               (Some [Some (newResolvedType 2)]).

(** The witness of C4: the step for [D], whose base [B] has one
    constructor, appends one clone to the [super] overloads of [D]. *)
Lemma C4_super_constructors_derived :
  symbolAt 4 hoistedD = Some (SymType typeD) /\
  overloadsAt (symbolTableOf ["D"] (snd (hoistClassBase ["D"] 4 hoistedD))) "super" =
  overloadsAt (symbolTableOf ["D"] hoistedD) "super" ++ [length (symbols hoistedD)].
Proof.
  assert (H : symbolAt 4 hoistedD = Some (SymType typeD)) by (vm_compute; reflexivity).
  split; [exact H|].
  destruct (C4_super_constructors ["D"] 4 hoistedD typeD H) as (_ & Hbases).
  destruct (Hbases [Some (newResolvedType 2)] eq_refl) as (Hctors & _).
  destruct (Hctors 6 []) as (_ & _ & Hsuper & _).
  { vm_compute. reflexivity. }
  { constructor; [vm_compute; lia | constructor]. }
  rewrite Hsuper.
  - vm_compute. reflexivity.
  - intros x. vm_compute. discriminate.
Defined.

(** C4, as stated, fails for [class B { B() {} } class C : B { int super; }]:
    the last hoist step is the second deferred step of [C], the first base
    [B] of [C] has one constructor, and the member scope of [C] holds the
    variable [super] and no function symbol under that name. *)
Lemma C4_super_taken :
  exists w t,
    hoistProgram 10 [StClass classB; StClass classC] = Some w /\
    last (executed w) = Some (TheHoistQueue, ClassBaseTask ["C"] 4) /\
    symbolAt 4 (store w) = Some (SymType t) /\
    baseList t = Some [Some (newResolvedType 2)] /\
    findConstructorOfType (Some (newResolvedType 2)) (store w)
      = Some (HolderFunctions 6 []) /\
    JsMap.get (symbolTableOf ["C"] (store w)) "super" = Some (HolderSingle 7) /\
    isVariable <$> symbolAt 7 (store w) = Some true /\
    overloadsAt (symbolTableOf ["C"] (store w)) "super" = [].
Proof.
  eexists _, _. split; [vm_compute; reflexivity|].
  repeat split; vm_compute; reflexivity.
Qed.

(** [class S { private int secret; int shown; }  class E : S { }], hoisted:
    [S] is symbol 2, [secret] symbol 6 and [shown] symbol 7. *)
Definition secretVar : NodeVar :=
  mkNodeVar 61 (mkNodeType 62 (tok "int")) [mkDeclaredVar (tok "secret") None] (Some Private).
Definition shownVar : NodeVar :=
  mkNodeVar 63 (mkNodeType 64 (tok "int")) [mkDeclaredVar (tok "shown") None] None.
Definition classS : NodeClass :=
  mkNodeClass 60 (tok "S") None [] [MemberVar secretVar; MemberVar shownVar] braces.
Definition classE : NodeClass :=
  mkNodeClass 70 (tok "E") None [tok "S"] [] braces.
Definition hoistedE : Store :=
  default primitives (store <$> hoistProgram 10 [StClass classS; StClass classE]).
Definition secret : SymbolObject :=
  SymVariable (mkSymbolVariable (tok "secret") ["S"] (Some (newResolvedType 0)) true
                                (Some Private)).

Definition shown : SymbolObject :=
  SymVariable (mkSymbolVariable (tok "shown") ["S"] (Some (newResolvedType 0)) true None).
Definition typeS : SymbolType :=
  mkSymbolType (tok "S") [] (Some (mkLinked NameClass 60)) (Some ["S"]) false None None.


(** [class G { void f() {} }  class H : G { void f() {} }] *)
Definition funcF (nodeId : nat) : NodeFunc :=
  mkNodeFunc nodeId (FuncHeadReturnValue (mkNodeType (nodeId + 1) (tok "void"))) (tok "f") []
             None None None (mkStatBlock (nodeId + 2)).
Definition classG : NodeClass :=
  mkNodeClass 80 (tok "G") None [] [MemberFunc (funcF 81)] braces.
Definition classH : NodeClass :=
  mkNodeClass 90 (tok "H") None [tok "G"] [MemberFunc (funcF 91)] braces.

Definition typeG : SymbolType :=
  mkSymbolType (tok "G") [] (Some (mkLinked NameClass 80)) (Some ["G"]) false None None.


End HoistSpec.

(** ** The order of hoist and analysis *)

Module HoistOrder.
Import Hoist.

(** *** What a hoist function does to the queues *)

(** [m] runs no closure and adds at most [n] to the weight of the two
    queues. *)
Definition pushes {A} (n : nat) (m : H A) : Prop :=
  forall w, executed (snd (m w)) = executed w /\
            pendingWeight (snd (m w)) <= pendingWeight w + n.

Lemma pushes_ret {A} (a : A) : pushes 0 (ret a).
Proof. intros w. simpl. split; [reflexivity | lia]. Qed.

Lemma pushes_liftS {A} (m : State Store A) : pushes 0 (liftS m).
Proof.
  intros w. unfold liftS. destruct (m (store w)) as [a s']. simpl.
  split; [reflexivity | unfold pendingWeight; simpl; lia].
Qed.

Lemma queueWeight_app l1 l2 : queueWeight (l1 ++ l2) = queueWeight l1 + queueWeight l2.
Proof. unfold queueWeight. by rewrite map_app, list_sum_app. Qed.

Lemma pushes_push q t : pushes (taskWeight t) (push q t).
Proof.
  intros w. unfold push, modify, pendingWeight. destruct q; simpl.
  - split; [reflexivity|]. rewrite queueWeight_app. unfold queueWeight at 3. simpl. lia.
  - split; [reflexivity|]. rewrite queueWeight_app. unfold queueWeight at 2. simpl. lia.
Qed.

Lemma pushes_bind {A B} n k (m : H A) (f : A -> H B) :
  pushes n m -> (forall a, pushes k (f a)) -> pushes (n + k) (bind m f).
Proof.
  intros Hm Hf w. unfold bind. specialize (Hm w). destruct (m w) as [a w1]. simpl in Hm.
  destruct Hm as (E1 & B1). destruct (Hf a w1) as (E2 & B2).
  split; [congruence | lia].
Qed.

Lemma pushes_mono {A} n n' (m : H A) : n <= n' -> pushes n m -> pushes n' m.
Proof. intros Hle Hm w. destruct (Hm w). split; [assumption | lia]. Qed.

Lemma pushes_forEach {A} k (l : list A) (body : A -> H unit) :
  (forall x, pushes k (body x)) -> pushes (k * length l) (forEach l body).
Proof.
  intros Hbody. induction l as [|x l IH].
  - apply (pushes_mono 0); [lia | apply pushes_ret].
  - apply (pushes_mono (k + k * length l)); [simpl; lia|].
    change (forEach (x :: l) body) with (bind (body x) (fun _ => forEach l body)).
    apply pushes_bind; [apply Hbody | intros _; exact IH].
Qed.

Lemma pushes_quiet_bind {A B} n (m : H A) (f : A -> H B) :
  pushes 0 m -> (forall a, pushes n (f a)) -> pushes n (bind m f).
Proof. intros Hm Hf. exact (pushes_bind 0 n m f Hm Hf). Qed.

(** Computations on the store alone push nothing. *)
Ltac quiet :=
  solve [repeat first
    [ apply pushes_liftS
    | apply pushes_ret
    | apply pushes_quiet_bind; [| intros ?]
    | match goal with
      | |- pushes 0 (if ?b then _ else _) => destruct b
      | |- pushes 0 (match ?x with _ => _ end) => destruct x
      end ]].

Section Walk.

Variable analyzeType :
  Store -> list string -> NodeType ->
  option ResolvedType * list Diagnostic * list ReferenceEntry.
Variable tryGetBuiltinType : TokenObject -> option (option LinkedNode).
Variable analyzeFunc : list string -> NodeFunc -> Store -> Store.
Variable analyzeVarInitializer :
  list string -> option ResolvedType -> TokenObject -> NodeInitializer -> Store -> Store.
Variable analyzeStatBlock : list string -> NodeStatBlock -> Store -> Store.

Lemma hoistFunc_pushes parentScope nodeFunc aq hq isInstanceMember :
  pushes 2 (hoistFunc analyzeType parentScope nodeFunc aq hq isInstanceMember).
Proof.
  unfold hoistFunc.
  destruct (funcHead nodeFunc) as [| |returnType];
    [apply (pushes_mono 0); [lia | apply pushes_ret] | |].
  all: cbv zeta; repeat (apply pushes_quiet_bind; [quiet | intros ?]).
  all: match goal with |- pushes _ (if ?b then _ else _) => destruct b end;
    [apply (pushes_mono 0); [lia | apply pushes_ret] |].
  all: apply pushes_quiet_bind; [quiet | intros ?].
  all: apply (pushes_bind 1 1); [apply pushes_push | intros ?; apply pushes_push].
Qed.

Lemma hoistVar_pushes scope nodeVar aq isInstanceMember :
  pushes 2 (hoistVar analyzeType scope nodeVar aq isInstanceMember).
Proof.
  unfold hoistVar. apply pushes_quiet_bind; [quiet | intros ?].
  apply (pushes_bind 1 1); [apply pushes_push | intros ?].
  apply (pushes_mono 0); [lia | quiet].
Qed.

Lemma hoistFuncDef_pushes parentScope funcDef aq hq :
  pushes 2 (hoistFuncDef parentScope funcDef aq hq).
Proof.
  unfold hoistFuncDef. apply pushes_quiet_bind; [quiet | intros ?].
  apply pushes_quiet_bind; [quiet | intros inserted].
  destruct (negb inserted); [apply (pushes_mono 0); [lia | quiet]|].
  apply (pushes_bind 1 1); [apply pushes_push | intros ?; apply pushes_push].
Qed.

Lemma hoistVirtualProp_pushes parentScope virtualProp aq hq isInstanceMember :
  pushes 2 (hoistVirtualProp analyzeType parentScope virtualProp aq hq isInstanceMember).
Proof.
  unfold hoistVirtualProp. cbv zeta.
  do 3 (apply pushes_quiet_bind; [quiet | intros ?]).
  apply (pushes_bind 1 1); [| intros ?].
  - destruct (propGetter virtualProp) as [[[statBlock|]]|];
      try (apply (pushes_mono 0); [lia | quiet]).
    apply pushes_quiet_bind; [quiet | intros ?; apply pushes_push].
  - destruct (propSetter virtualProp) as [[[statBlock|]]|];
      try (apply (pushes_mono 0); [lia | quiet]).
    do 2 (apply pushes_quiet_bind; [quiet | intros ?]). apply pushes_push.
Qed.

Lemma hoistClassMembers_pushes scope nodeClass aq hq :
  pushes (2 * length (classMemberList nodeClass))
         (hoistClassMembers analyzeType scope nodeClass aq hq).
Proof.
  apply pushes_forEach. intros [n|n|n|n].
  - apply hoistVirtualProp_pushes.
  - apply hoistFunc_pushes.
  - apply hoistVar_pushes.
  - apply hoistFuncDef_pushes.
Qed.

Lemma hoistInterfaceMembers_pushes scope nodeInterface aq hq :
  pushes (2 * length (interfaceMemberList nodeInterface))
         (hoistInterfaceMembers analyzeType scope nodeInterface aq hq).
Proof.
  apply pushes_forEach. intros [n|n].
  - apply hoistVirtualProp_pushes.
  - apply (pushes_mono 0); [lia | apply pushes_liftS].
Qed.

(** Running a closure adds less to the queues than the closure weighs. *)
Lemma runTask_pushes t :
  pushes (taskWeight t - 1)
         (runTask analyzeType analyzeFunc analyzeVarInitializer analyzeStatBlock t).
Proof.
  destruct t; simpl taskWeight; simpl runTask.
  - apply (pushes_mono (2 * length (classMemberList nodeClass) + 1)); [lia|].
    apply pushes_bind; [apply hoistClassMembers_pushes | intros ?; apply pushes_push].
  - quiet.
  - apply (pushes_mono (2 * length (interfaceMemberList nodeInterface) + 0)); [lia|].
    apply pushes_bind; [apply hoistInterfaceMembers_pushes | intros ?; quiet].
  - quiet.
  - quiet.
  - quiet.
  - quiet.
  - quiet.
  - quiet.
Qed.

Lemma taskWeight_pos t : 1 <= taskWeight t.
Proof. destruct t; simpl; lia. Qed.

(** *** The walk runs no closure *)

Definition silent {A} (m : H A) : Prop := forall w, executed (snd (m w)) = executed w.

Lemma pushes_silent {A} n (m : H A) : pushes n m -> silent m.
Proof. intros Hm w. apply Hm. Qed.

Lemma silent_bind {A B} (m : H A) (f : A -> H B) :
  silent m -> (forall a, silent (f a)) -> silent (bind m f).
Proof.
  intros Hm Hf w. unfold bind. specialize (Hm w). destruct (m w) as [a w1].
  simpl in Hm. rewrite <- Hm. apply Hf.
Qed.

Lemma silent_liftS {A} (m : State Store A) : silent (liftS m).
Proof. exact (pushes_silent 0 _ (pushes_liftS m)). Qed.

Lemma silent_ret {A} (a : A) : silent (ret a).
Proof. intros w. reflexivity. Qed.

Lemma silent_push q t : silent (push q t).
Proof. exact (pushes_silent _ _ (pushes_push q t)). Qed.

Lemma hoistClass_silent parentScope nodeClass aq hq :
  silent (hoistClass parentScope nodeClass aq hq).
Proof.
  unfold hoistClass. cbv zeta.
  do 2 (apply silent_bind; [apply silent_liftS | intros ?]).
  match goal with |- silent (if ?b then _ else _) => destruct b end; [apply silent_ret|].
  do 5 (apply silent_bind; [apply silent_liftS | intros ?]).
  apply silent_bind; [destruct (0 <? _); [apply silent_liftS | apply silent_ret] | intros ?].
  do 2 (apply silent_bind; [apply silent_liftS | intros ?]).
  apply silent_bind; [apply silent_push | intros ?; apply silent_liftS].
Qed.

Lemma hoistInterface_silent parentScope nodeInterface aq hq :
  silent (hoistInterface parentScope nodeInterface aq hq).
Proof.
  unfold hoistInterface. cbv zeta.
  do 2 (apply silent_bind; [apply silent_liftS | intros ?]).
  match goal with |- silent (if ?b then _ else _) => destruct b end; [apply silent_ret|].
  do 2 (apply silent_bind; [apply silent_liftS | intros ?]).
  apply silent_bind; [apply silent_liftS | intros bases].
  apply silent_bind; [destruct bases; [apply silent_liftS | apply silent_ret] | intros ?].
  apply silent_bind; [apply silent_push | intros ?; apply silent_liftS].
Qed.

Lemma hoistStatement_silent :
  forall statement parentScope aq hq,
    silent (hoistStatement analyzeType tryGetBuiltinType parentScope statement aq hq).
Proof.
  fix IH 1. intros [n|n|n|n|n|n|n|n|n|nodeId namespaceList script nodeRange|] parentScope aq hq;
    simpl hoistStatement.
  - apply silent_liftS.
  - apply silent_liftS.
  - apply hoistClass_silent.
  - apply hoistClass_silent.
  - apply hoistInterface_silent.
  - exact (pushes_silent _ _ (hoistFuncDef_pushes _ _ _ _)).
  - exact (pushes_silent _ _ (hoistVirtualProp_pushes _ _ _ _ _)).
  - exact (pushes_silent _ _ (hoistVar_pushes _ _ _ _)).
  - exact (pushes_silent _ _ (hoistFunc_pushes _ _ _ _ _)).
  - destruct (length namespaceList =? 0); [apply silent_ret|].
    apply silent_bind; [apply silent_liftS | intros scopeIterator].
    apply silent_bind; [| intros ?; apply silent_liftS].
    induction script as [|statement script IHscript]; [apply silent_ret|].
    apply silent_bind; [apply IH | intros _; exact IHscript].
  - apply silent_ret.
Qed.

Lemma hoistScript_silent parentScope ast aq hq :
  silent (hoistScript analyzeType tryGetBuiltinType parentScope ast aq hq).
Proof.
  unfold hoistScript. induction ast as [|statement ast IH]; [apply silent_ret|].
  apply silent_bind; [apply hoistStatement_silent | intros _; exact IH].
Qed.

(** *** The drains *)

Lemma pendingWeight_pop q next rest w :
  queueOf q w = next :: rest ->
  pendingWeight (setQueue q rest w) + taskWeight next = pendingWeight w.
Proof.
  unfold pendingWeight, queueWeight. destruct q; simpl; intros ->; simpl; lia.
Qed.

(** With fuel for the weight of the two queues a drain ends; it leaves its
    queue empty and has run closures of that queue only. *)
Lemma drain_ends q : forall fuel w,
  pendingWeight w <= fuel ->
  exists w' l,
    drain analyzeType analyzeFunc analyzeVarInitializer analyzeStatBlock fuel q w = Some w' /\
    queueOf q w' = [] /\
    executed w' = executed w ++ l /\
    Forall (fun e => fst e = q) l /\
    pendingWeight w' <= pendingWeight w.
Proof.
  induction fuel as [|fuel IH]; intros w Hfuel.
  - destruct (queueOf q w) as [|next rest] eqn:Hq.
    + exists w, []. simpl. rewrite Hq, app_nil_r. auto.
    + pose proof (pendingWeight_pop q next rest w Hq). pose proof (taskWeight_pos next). lia.
  - destruct (queueOf q w) as [|next rest] eqn:Hq.
    + exists w, []. simpl. rewrite Hq, app_nil_r. auto.
    + simpl. rewrite Hq.
      set (w1 := mkWorld _ _ _ _).
      assert (Hw1 : pendingWeight w1 + taskWeight next = pendingWeight w).
      { rewrite <- (pendingWeight_pop q next rest w Hq). reflexivity. }
      assert (He1 : executed w1 = executed w ++ [(q, next)]).
      { unfold w1. destruct q; reflexivity. }
      destruct (runTask_pushes next w1) as (He2 & Hb2).
      pose proof (taskWeight_pos next).
      destruct (IH (snd (runTask analyzeType analyzeFunc analyzeVarInitializer
                                 analyzeStatBlock next w1)))
        as (w' & l & Hd & Hempty & He & Hl & Hb); [lia|].
      exists w', ((q, next) :: l). split; [exact Hd|]. split; [exact Hempty|].
      split; [by rewrite He, He2, He1, <- app_assoc|].
      split; [by constructor | lia].
Qed.

(** The world after the walk of [hoistAfterParsed]. *)
Definition walked (ast : NodeScript) (globalScope : list string) (s : Store) : World :=
  snd (hoistScript analyzeType tryGetBuiltinType globalScope ast TheAnalyzeQueue TheHoistQueue
                   (mkWorld s [] [] [])).

End Walk.

(** *** A namespace *)

Definition token (t : string) : TokenObject :=
  mkToken t (mkLocation "n.as" (0, 0) (0, 0)) false.

Definition block : TokenRange := mkRange (token "{") (token "}").

Definition emptyGlobal : Store :=
  mkStore {[ [] := emptyScope ]} [] [] [] [] 0 true.

(** [void g() {}  namespace N { class A { } }] *)
Definition funcG : NodeFunc :=
  mkNodeFunc 1 (FuncHeadReturnValue (mkNodeType 2 (token "void"))) (token "g") []
             None None None (mkStatBlock 3).
Definition classA : NodeClass := mkNodeClass 5 (token "A") None [] [] block.
Definition namespaced : NodeScript :=
  [StFunc funcG; StNamespace 4 [token "N"] [StClass classA] block].

Definition unresolved (s : Store) (scope : list string) (type : NodeType)
    : option ResolvedType * list Diagnostic * list ReferenceEntry := (None, [], []).

(** *** What the hoist functions put on the queues *)

(** The closures that analyze a body; the others hoist. *)
Definition analyzes (t : Task) : bool :=
  match t with
  | AnalyzeFuncTask _ _ | AnalyzeVarTask _ _ _ | AnalyzeStatBlockTask _ _ => true
  | _ => false
  end.

(** The queues that a closure has captured, to hand them to the hoist
    functions it calls. *)
Definition capturedQueues (t : Task) : option (QueueId * QueueId) :=
  match t with
  | ClassMembersTask _ _ _ analyzeQueue hoistQueue
  | InterfaceMembersTask _ _ _ analyzeQueue hoistQueue => Some (analyzeQueue, hoistQueue)
  | _ => None
  end.

(** [m] only appends to the two queues, and what it appends to a queue [q]
    is [ok q]. *)
Definition queues (ok : QueueId -> Task -> Prop) {A} (m : H A) : Prop :=
  forall w q, exists l, queueOf q (snd (m w)) = queueOf q w ++ l /\ Forall (ok q) l.

(** The closures that hoist functions called with the queues [aq] and [hq]
    push are [ok] where they are pushed. *)
Definition fits (ok : QueueId -> Task -> Prop) (aq hq : QueueId) : Prop :=
  (forall t, analyzes t = true -> ok aq t) /\
  (forall t, analyzes t = false -> capturedQueues t = None -> ok hq t) /\
  (forall t, analyzes t = false -> capturedQueues t = Some (aq, hq) -> ok hq t).

Lemma queues_ret ok {A} (a : A) : queues ok (ret (St := World) a).
Proof. intros w q. exists []. by rewrite app_nil_r. Qed.

Lemma queues_bind ok {A B} (m : H A) (k : A -> H B) :
  queues ok m -> (forall a, queues ok (k a)) -> queues ok (bind m k).
Proof.
  intros Hm Hk w q. unfold bind. specialize (Hm w q). destruct (m w) as [a w1].
  cbn [snd] in Hm. destruct Hm as (l1 & Q1 & F1). destruct (Hk a w1 q) as (l2 & Q2 & F2).
  exists (l1 ++ l2). rewrite Q2, Q1, <- app_assoc. split; [reflexivity|].
  by apply Forall_app.
Qed.

Lemma queues_liftS ok {A} (m : State Store A) : queues ok (liftS m).
Proof.
  intros w q. unfold liftS. destruct (m (store w)) as [a s']. cbn [snd].
  exists []. rewrite app_nil_r. by destruct q.
Qed.

Lemma queues_forEach ok {A} (l : list A) (body : A -> H unit) :
  (forall x, queues ok (body x)) -> queues ok (forEach l body).
Proof.
  intros Hbody. induction l as [|x l IH]; [apply queues_ret|].
  change (forEach (x :: l) body) with (bind (body x) (fun _ => forEach l body)).
  apply queues_bind; [apply Hbody | intros _; exact IH].
Qed.

Lemma queues_push (ok : QueueId -> Task -> Prop) q t : ok q t -> queues ok (push q t).
Proof.
  intros Ht w q'. unfold push, modify. cbn [snd].
  destruct q, q'; cbn [setQueue queueOf analyzeQueue hoistQueue].
  - exists [t]. split; [reflexivity | by constructor].
  - exists []. by rewrite app_nil_r.
  - exists []. by rewrite app_nil_r.
  - exists [t]. split; [reflexivity | by constructor].
Qed.

Section Phases.

Variable analyzeType :
  Store -> list string -> NodeType ->
  option ResolvedType * list Diagnostic * list ReferenceEntry.
Variable tryGetBuiltinType : TokenObject -> option (option LinkedNode).
Variable analyzeFunc : list string -> NodeFunc -> Store -> Store.
Variable analyzeVarInitializer :
  list string -> option ResolvedType -> TokenObject -> NodeInitializer -> Store -> Store.
Variable analyzeStatBlock : list string -> NodeStatBlock -> Store -> Store.

Section Fits.

Variable ok : QueueId -> Task -> Prop.
Variables aq hq : QueueId.
Hypothesis Hfits : fits ok aq hq.

(** Goes through a hoist function, closing each push by [fits]. *)
Ltac queue_up :=
  repeat first
    [ apply queues_ret
    | apply queues_liftS
    | apply queues_bind; [|intros ?]
    | apply queues_push;
      first [ apply (proj1 Hfits); reflexivity
            | apply (proj1 (proj2 Hfits)); reflexivity
            | apply (proj2 (proj2 Hfits)); reflexivity ]
    | match goal with
      | |- queues _ (match ?x with _ => _ end) => destruct x
      | |- queues _ (if ?b then _ else _) => destruct b
      end ].

Lemma queues_hoistFunc parentScope nodeFunc isInstanceMember :
  queues ok (hoistFunc analyzeType parentScope nodeFunc aq hq isInstanceMember).
Proof. unfold hoistFunc. cbv zeta. queue_up. Qed.

Lemma queues_hoistVar scope nodeVar isInstanceMember :
  queues ok (hoistVar analyzeType scope nodeVar aq isInstanceMember).
Proof. unfold hoistVar. queue_up. Qed.

Lemma queues_hoistFuncDef parentScope funcDef :
  queues ok (hoistFuncDef parentScope funcDef aq hq).
Proof. unfold hoistFuncDef. queue_up. Qed.

Lemma queues_hoistVirtualProp parentScope virtualProp isInstanceMember :
  queues ok (hoistVirtualProp analyzeType parentScope virtualProp aq hq isInstanceMember).
Proof. unfold hoistVirtualProp. cbv zeta. queue_up. Qed.

Lemma queues_hoistClassMembers scope nodeClass :
  queues ok (hoistClassMembers analyzeType scope nodeClass aq hq).
Proof.
  unfold hoistClassMembers. apply queues_forEach. intros [n|n|n|n].
  - apply queues_hoistVirtualProp.
  - apply queues_hoistFunc.
  - apply queues_hoistVar.
  - apply queues_hoistFuncDef.
Qed.

Lemma queues_hoistInterfaceMembers scope nodeInterface :
  queues ok (hoistInterfaceMembers analyzeType scope nodeInterface aq hq).
Proof.
  unfold hoistInterfaceMembers. apply queues_forEach. intros [n|n].
  - apply queues_hoistVirtualProp.
  - apply queues_liftS.
Qed.

Lemma queues_hoistClass parentScope nodeClass :
  queues ok (hoistClass parentScope nodeClass aq hq).
Proof. unfold hoistClass. cbv zeta. queue_up. Qed.

Lemma queues_hoistInterface parentScope nodeInterface :
  queues ok (hoistInterface parentScope nodeInterface aq hq).
Proof. unfold hoistInterface. cbv zeta. queue_up. Qed.

End Fits.

(** A statement that opens a namespace: [hoistNamespace] hoists its script
    with the analyze queue as both queues. *)
Definition opensNamespace (statement : Statement) : bool :=
  match statement with
  | StNamespace _ namespaceList _ _ => negb (length namespaceList =? 0)
  | _ => false
  end.

Lemma queues_hoistStatement ok :
  forall statement parentScope aq hq,
    fits ok aq hq ->
    (opensNamespace statement = true -> fits ok aq aq) ->
    queues ok (hoistStatement analyzeType tryGetBuiltinType parentScope statement aq hq).
Proof.
  fix IH 1.
  intros [n|n|n|n|n|n|n|n|n|nodeId namespaceList script nodeRange|] parentScope aq hq
         Hfits Hinside; simpl hoistStatement.
  - apply queues_liftS.
  - apply queues_liftS.
  - by apply queues_hoistClass.
  - by apply queues_hoistClass.
  - by apply queues_hoistInterface.
  - by apply queues_hoistFuncDef.
  - by apply queues_hoistVirtualProp.
  - by apply (queues_hoistVar ok aq hq).
  - by apply queues_hoistFunc.
  - cbn [opensNamespace] in Hinside.
    destruct (length namespaceList =? 0); [apply queues_ret|].
    specialize (Hinside eq_refl).
    apply queues_bind; [apply queues_liftS | intros scopeIterator].
    apply queues_bind; [| intros ?; apply queues_liftS].
    induction script as [|statement script IHscript]; [apply queues_ret|].
    apply queues_bind; [by apply IH | intros _; exact IHscript].
  - apply queues_ret.
Qed.

Lemma queues_hoistScript ok parentScope ast aq hq :
  fits ok aq hq ->
  (Forall (fun statement => opensNamespace statement = false) ast \/ fits ok aq aq) ->
  queues ok (hoistScript analyzeType tryGetBuiltinType parentScope ast aq hq).
Proof.
  intros Hfits Hinside. unfold hoistScript.
  induction ast as [|statement ast IH]; [apply queues_ret|].
  change (forEach (statement :: ast) ?body)
    with (bind (body statement) (fun _ => forEach ast body)).
  apply queues_bind.
  - apply queues_hoistStatement; [exact Hfits|].
    destruct Hinside as [Hflat|Hsame]; [|by intros _].
    apply Forall_cons in Hflat as [Hst _]. congruence.
  - intros _. apply IH. destruct Hinside as [Hflat|Hsame]; [left|by right].
    by apply Forall_cons in Hflat as [_ Hast].
Qed.

Lemma queues_runTask ok t :
  (forall aq hq, capturedQueues t = Some (aq, hq) -> fits ok aq hq) ->
  queues ok (runTask analyzeType analyzeFunc analyzeVarInitializer analyzeStatBlock t).
Proof.
  intros Hfits.
  destruct t as [scope nodeClass symbol aq hq|scope symbol|scope nodeInterface bases aq hq
                |symbol functionScope paramList|symbol parentScope funcDef
                |symbol parentScope funcDef|functionScope nodeFunc|scope varType nodeVar
                |scope statBlock]; cbn [runTask];
    try apply queues_liftS;
    try (apply queues_bind; [apply queues_liftS | intros ?; apply queues_liftS]).
  - specialize (Hfits aq hq eq_refl).
    apply queues_bind; [by apply queues_hoistClassMembers | intros _].
    apply queues_push. by apply (proj1 (proj2 Hfits)).
  - specialize (Hfits aq hq eq_refl).
    apply queues_bind; [by apply queues_hoistInterfaceMembers | intros _].
    destruct bases; [apply queues_liftS | apply queues_ret].
Qed.

(** The first deferred step of a class ends by queueing the second. *)
Lemma runTask_ClassMembersTask scope nodeClass symbol aq hq w :
  exists l,
    queueOf hq (snd (runTask analyzeType analyzeFunc analyzeVarInitializer analyzeStatBlock
                             (ClassMembersTask scope nodeClass symbol aq hq) w)) =
    l ++ [ClassBaseTask scope symbol].
Proof.
  cbn [runTask]. unfold bind.
  destruct (hoistClassMembers analyzeType scope nodeClass aq hq w) as [u w1].
  unfold push, modify. cbn [snd]. exists (queueOf hq w1). by destruct hq.
Qed.

(** *** What a drain runs *)

(** In a list of closures, the first deferred step of a class that pushes on
    [q] is followed by its second step. *)
Definition stepsFollow (q : QueueId) (l : list Task) : Prop :=
  forall i scope nodeClass symbol aq,
    l !! i = Some (ClassMembersTask scope nodeClass symbol aq q) ->
    exists j, i < j /\ l !! j = Some (ClassBaseTask scope symbol).

(** Every closure of both queues is [ok] where it is queued. *)
Definition queued (ok : QueueId -> Task -> Prop) (w : World) : Prop :=
  forall q, Forall (ok q) (queueOf q w).

Lemma queued_run ok {A} (m : H A) w : queues ok m -> queued ok w -> queued ok (snd (m w)).
Proof.
  intros Hm Hw q. destruct (Hm w q) as (l & -> & Hl). apply Forall_app. split; [apply Hw | exact Hl].
Qed.

(** A drain that returns has run the closures that its queue held, in order,
    and after them the closures that were pushed on the queue meanwhile. *)
Lemma drain_runs ok q :
  (forall t, ok q t ->
             queues ok (runTask analyzeType analyzeFunc analyzeVarInitializer
                                analyzeStatBlock t)) ->
  forall fuel w w',
    queued ok w ->
    drain analyzeType analyzeFunc analyzeVarInitializer analyzeStatBlock fuel q w = Some w' ->
    exists l,
      executed w' = executed w ++ map (pair q) l /\
      queueOf q w `prefix_of` l /\
      Forall (ok q) l /\
      stepsFollow q l /\
      queued ok w'.
Proof.
  intros Hrun. induction fuel as [|fuel IH]; intros w w' Hw Hd.
  - cbn [drain] in Hd. destruct (queueOf q w) as [|next rest] eqn:Hq; [|discriminate].
    injection Hd as <-. exists []. cbn [map]. rewrite app_nil_r.
    split; [reflexivity|]. split; [reflexivity|]. split; [constructor|].
    split; [|exact Hw]. intros i ? ? ? ? Hi. by rewrite lookup_nil in Hi.
  - cbn [drain] in Hd. destruct (queueOf q w) as [|next rest] eqn:Hq.
    + injection Hd as <-. exists []. cbn [map]. rewrite app_nil_r.
      split; [reflexivity|]. split; [reflexivity|]. split; [constructor|].
      split; [|exact Hw]. intros i ? ? ? ? Hi. by rewrite lookup_nil in Hi.
    + cbv zeta in Hd.
      set (w1 := mkWorld (store (setQueue q rest w)) (analyzeQueue (setQueue q rest w))
                         (hoistQueue (setQueue q rest w))
                         (executed (setQueue q rest w) ++ [(q, next)])) in Hd.
      assert (Hq1 : queueOf q w1 = rest) by (unfold w1; by destruct q).
      assert (He1 : executed w1 = executed w ++ [(q, next)]) by (unfold w1; by destruct q).
      pose proof (Hw q) as Hnext. rewrite Hq in Hnext.
      apply Forall_cons in Hnext as [Hnext Hrest].
      assert (Hw1 : queued ok w1).
      { intros q'. specialize (Hw q'). unfold w1.
        destruct q, q'; cbn [setQueue queueOf analyzeQueue hoistQueue store executed] in *;
          congruence. }
      set (run := runTask analyzeType analyzeFunc analyzeVarInitializer analyzeStatBlock next)
        in *.
      destruct (runTask_pushes analyzeType analyzeFunc analyzeVarInitializer analyzeStatBlock
                               next w1) as [He2 _]. fold run in He2.
      destruct (Hrun next Hnext w1 q) as (pushed & Hq2 & _). fold run in Hq2.
      destruct (IH (snd (run w1)) w' (queued_run ok run w1 (Hrun next Hnext) Hw1) Hd)
        as (l & He & Hpre & Hok & Hfollow & Hw').
      exists (next :: l). split; [|split; [|split; [|split]]].
      * rewrite He, He2, He1, <- app_assoc. reflexivity.
      * rewrite Hq2, Hq1 in Hpre. destruct Hpre as [more ->].
        exists (pushed ++ more). by rewrite <- app_assoc.
      * by constructor.
      * intros [|i] scope nodeClass symbol aq Hi; cbn in Hi.
        -- injection Hi as ->.
           destruct (runTask_ClassMembersTask scope nodeClass symbol aq q w1) as [l0 Hlast].
           fold run in Hlast. rewrite Hlast in Hpre. destruct Hpre as [more ->].
           exists (S (length l0)). split; [lia|]. cbn.
           rewrite <- app_assoc. exact (list_lookup_middle l0 more _ _ eq_refl).
        -- destruct (Hfollow i scope nodeClass symbol aq Hi) as (j & Hj & Hlj).
           exists (S j). split; [lia | exact Hlj].
      * exact Hw'.
Qed.

(** *** Where the closures are queued *)

(** The hoist queue holds closures that hoist, and the two deferred steps
    that hand on queues have the queues that the function that pushed them
    had: the two queues outside a namespace, the analyze queue as both
    inside. *)
Definition placed (q : QueueId) (t : Task) : Prop :=
  match q with
  | TheHoistQueue =>
      analyzes t = false /\
      forall aq hq, capturedQueues t = Some (aq, hq) ->
                    aq = TheAnalyzeQueue /\ hq = TheHoistQueue
  | TheAnalyzeQueue =>
      forall aq hq, capturedQueues t = Some (aq, hq) ->
                    aq = TheAnalyzeQueue /\ hq = TheAnalyzeQueue
  end.

(** Nothing is pushed on the hoist queue. *)
Definition hoistQueueRests (q : QueueId) (t : Task) : Prop :=
  match q with
  | TheHoistQueue => False
  | TheAnalyzeQueue =>
      forall aq hq, capturedQueues t = Some (aq, hq) ->
                    aq = TheAnalyzeQueue /\ hq = TheAnalyzeQueue
  end.

(** Each queue holds the closures of its phase. *)
Definition ofItsPhase (q : QueueId) (t : Task) : Prop :=
  match q with
  | TheHoistQueue =>
      analyzes t = false /\
      forall aq hq, capturedQueues t = Some (aq, hq) ->
                    aq = TheAnalyzeQueue /\ hq = TheHoistQueue
  | TheAnalyzeQueue => analyzes t = true
  end.

Lemma fits_placed hq : fits placed TheAnalyzeQueue hq.
Proof.
  split; [|split].
  - intros t Ht aq' hq' E. destruct t; discriminate.
  - intros t Ht Hc. destruct hq; [|split; [exact Ht|]]; intros aq' hq' E; congruence.
  - intros t Ht Hc. destruct hq; [|split; [exact Ht|]]; intros aq' hq' E; rewrite Hc in E;
      by injection E as <- <-.
Qed.

Lemma fits_hoistQueueRests : fits hoistQueueRests TheAnalyzeQueue TheAnalyzeQueue.
Proof.
  split; [|split].
  - intros t Ht aq' hq' E. destruct t; discriminate.
  - intros t Ht Hc aq' hq' E. congruence.
  - intros t Ht Hc aq' hq' E. rewrite Hc in E. by injection E as <- <-.
Qed.

Lemma fits_ofItsPhase : fits ofItsPhase TheAnalyzeQueue TheHoistQueue.
Proof.
  split; [|split].
  - intros t Ht. exact Ht.
  - intros t Ht Hc. split; [exact Ht|]. intros aq' hq' E. congruence.
  - intros t Ht Hc. split; [exact Ht|]. intros aq' hq' E. rewrite Hc in E.
    by injection E as <- <-.
Qed.

Lemma runTask_placed q t :
  placed q t ->
  queues placed (runTask analyzeType analyzeFunc analyzeVarInitializer analyzeStatBlock t).
Proof.
  intros Ht. apply queues_runTask. intros aq hq E. destruct q; cbn [placed] in Ht.
  - destruct (Ht aq hq E) as [-> ->]. apply fits_placed.
  - destruct Ht as [_ Hcaptured]. destruct (Hcaptured aq hq E) as [-> ->]. apply fits_placed.
Qed.

Lemma runTask_hoistQueueRests t :
  hoistQueueRests TheAnalyzeQueue t ->
  queues hoistQueueRests
         (runTask analyzeType analyzeFunc analyzeVarInitializer analyzeStatBlock t).
Proof.
  intros Ht. apply queues_runTask. intros aq hq E.
  destruct (Ht aq hq E) as [-> ->]. apply fits_hoistQueueRests.
Qed.

Lemma runTask_ofItsPhase q t :
  ofItsPhase q t ->
  queues ofItsPhase
         (runTask analyzeType analyzeFunc analyzeVarInitializer analyzeStatBlock t).
Proof.
  intros Ht. apply queues_runTask. intros aq hq E. destruct q; cbn [ofItsPhase] in Ht.
  - destruct t; discriminate.
  - destruct Ht as [_ Hcaptured]. destruct (Hcaptured aq hq E) as [-> ->].
    apply fits_ofItsPhase.
Qed.

(** The closures that the walk has queued. *)
Lemma walked_queued ok ast globalScope s :
  fits ok TheAnalyzeQueue TheHoistQueue ->
  (Forall (fun statement => opensNamespace statement = false) ast
   \/ fits ok TheAnalyzeQueue TheAnalyzeQueue) ->
  queued ok (walked analyzeType tryGetBuiltinType ast globalScope s).
Proof.
  intros Hfits Hinside q. unfold walked.
  destruct (queues_hoistScript ok globalScope ast TheAnalyzeQueue TheHoistQueue Hfits Hinside
              (mkWorld s [] [] []) q) as (l & -> & Hl).
  by destruct q.
Qed.

Lemma map_pair_inj (q : QueueId) (l l' : list Task) : map (pair q) l = map (pair q) l' -> l = l'.
Proof.
  revert l'. induction l as [|t l IH]; intros [|t' l'] E; try done.
  injection E as -> E. f_equal. by apply IH.
Qed.


End Phases.

(** *** A class outside and inside a namespace *)

(** [void g() {}  class A { void m() {} }] and
    [void g() {}  namespace N { class A { void m() {} } }] *)
Definition funcM : NodeFunc :=
  mkNodeFunc 6 (FuncHeadReturnValue (mkNodeType 7 (token "void"))) (token "m") []
             None None None (mkStatBlock 8).
Definition classM : NodeClass := mkNodeClass 5 (token "A") None [] [MemberFunc funcM] block.
Definition flat : NodeScript := [StFunc funcG; StClass classM].
Definition inNamespace : NodeScript :=
  [StFunc funcG; StNamespace 4 [token "N"] [StClass classM] block].



End HoistOrder.

(** * Part III: further facts about the code *)

(** ** The parent chain of a scope (symbolScopes.ts) *)

Module ScopeChain.
Import SymbolScopes JsMapFacts.

(** Every parent is an object that was created before its child. *)
Definition older (h : list SymbolScope) : Prop :=
  forall r s p, h !! r = Some s -> parentScope s = Some p -> p < r.

(** Every entry of a child table leads to a scope object that has the holder
    of the table as parent and the key of the entry as key. *)
Definition linked (h : list SymbolScope) : Prop :=
  forall r s k c, h !! r = Some s -> In (k, c) (childScopes s) ->
    exists cs, h !! c = Some cs /\ parentScope cs = Some r /\ key cs = k.

(** The scopes above [r], nearest first. *)
Fixpoint ancestors (h : list SymbolScope) (fuel : nat) (r : Ref) : list Ref :=
  match fuel with
  | 0 => []
  | S fuel' =>
      match h !! r with
      | Some s =>
          match parentScope s with
          | Some p => p :: ancestors h fuel' p
          | None => []
          end
      | None => []
      end
  end.

Section Walks.

Variable w : World.
Hypothesis Holder : older (heap w).

Lemma older_parent r s p :
  heap w !! r = Some s -> parentScope s = Some p -> p < r /\ p < length (heap w).
Proof.
  intros Hs Hp. pose proof (Holder r s p Hs Hp). pose proof (lookup_lt_Some _ _ _ Hs). lia.
Qed.

Lemma collectParentScopes_loop_ancestors fuel : forall result current,
  current < length (heap w) -> current < fuel ->
  collectParentScopes_loop fuel result current w =
    Some (result ++ ancestors (heap w) fuel current, w).
Proof.
  induction fuel as [|fuel IH]; intros result current Hin Hfuel; [lia|].
  destruct (lookup_lt_is_Some_2 _ _ Hin) as [s Hs].
  cbn [collectParentScopes_loop ancestors]. unfold bind, readScope. rewrite Hs.
  destruct (parentScope s) as [p|] eqn:Hp.
  - destruct (older_parent _ _ _ Hs Hp) as [Hlt Hpin].
    rewrite IH by lia. by rewrite <- app_assoc.
  - unfold ret. by rewrite app_nil_r.
Qed.

Lemma collectParentScopes_ancestors fuel scope :
  scope < length (heap w) -> scope < fuel ->
  collectParentScopes fuel scope w = Some (ancestors (heap w) fuel scope, w).
Proof. intros. unfold collectParentScopes. by rewrite collectParentScopes_loop_ancestors. Qed.

Lemma ancestors_older fuel : forall scope,
  scope < length (heap w) ->
  Forall (fun p => p < scope) (ancestors (heap w) fuel scope).
Proof.
  induction fuel as [|fuel IH]; intros scope Hin; [constructor|].
  destruct (lookup_lt_is_Some_2 _ _ Hin) as [s Hs].
  cbn [ancestors]. rewrite Hs.
  destruct (parentScope s) as [p|] eqn:Hp; [|constructor].
  destruct (older_parent _ _ _ Hs Hp) as [Hlt Hpin].
  constructor; [exact Hlt|].
  eapply Forall_impl; [exact (IH p Hpin)|]. intros; simpl in *; lia.
Qed.

Lemma ancestors_NoDup fuel : forall scope,
  scope < length (heap w) ->
  NoDup (scope :: ancestors (heap w) fuel scope).
Proof.
  induction fuel as [|fuel IH]; intros scope Hin.
  - apply NoDup_singleton.
  - pose proof (ancestors_older (S fuel) scope Hin) as Hall.
    apply NoDup_cons. split.
    + intros Hel. rewrite Forall_forall in Hall. specialize (Hall _ Hel). lia.
    + destruct (lookup_lt_is_Some_2 _ _ Hin) as [s Hs].
      cbn [ancestors]. rewrite Hs.
      destruct (parentScope s) as [p|] eqn:Hp; [|constructor].
      destruct (older_parent _ _ _ Hs Hp) as [Hlt Hpin]. by apply IH.
Qed.

Lemma findGlobalScope_last fuel : forall scope,
  scope < length (heap w) -> scope < fuel ->
  exists g gs, findGlobalScope fuel scope w = Some (g, w) /\
               last (scope :: ancestors (heap w) fuel scope) = Some g /\
               heap w !! g = Some gs /\ parentScope gs = None.
Proof.
  induction fuel as [|fuel IH]; intros scope Hin Hfuel; [lia|].
  destruct (lookup_lt_is_Some_2 _ _ Hin) as [s Hs].
  cbn [findGlobalScope ancestors]. unfold bind, readScope. rewrite Hs.
  destruct (parentScope s) as [p|] eqn:Hp.
  - destruct (older_parent _ _ _ Hs Hp) as [Hlt Hpin].
    destruct (IH p Hpin ltac:(lia)) as (g & gs & E & Hlast & Hg & Hnone).
    exists g, gs. split; [exact E|]. split; [|auto].
    rewrite last_cons. by rewrite Hlast.
  - exists scope, s. auto.
Qed.

Lemma isScopeChildOrGrandchild_elem fuel parent : forall scope,
  scope < length (heap w) -> scope < fuel ->
  isScopeChildOrGrandchild fuel scope parent w =
    Some (bool_decide (parent ∈ scope :: ancestors (heap w) fuel scope), w).
Proof.
  induction fuel as [|fuel IH]; intros scope Hin Hfuel; [lia|].
  destruct (lookup_lt_is_Some_2 _ _ Hin) as [s Hs].
  cbn [isScopeChildOrGrandchild ancestors]. rewrite Hs.
  destruct (Nat.eqb_spec parent scope) as [->|Hne].
  - unfold ret. f_equal. f_equal. symmetry. apply bool_decide_eq_true. apply list_elem_of_here.
  - unfold bind, readScope. rewrite Hs.
    destruct (parentScope s) as [p|] eqn:Hp.
    + destruct (older_parent _ _ _ Hs Hp) as [Hlt Hpin].
      rewrite IH by lia. f_equal. f_equal. apply bool_decide_ext.
      rewrite (elem_of_cons (p :: _) parent scope). tauto.
    + unfold ret. f_equal. f_equal. symmetry. apply bool_decide_eq_false.
      rewrite list_elem_of_singleton. exact Hne.
Qed.

(** The child under [identifier] in the table of [a], as [findScopeShallowly]
    returns it. *)
Definition shallowly (identifier : string) (a : Ref) : option Ref :=
  match findScopeShallowly a identifier w with
  | Some (found, _) => found
  | None => None
  end.

Lemma findScopeWithParent_nearest fuel identifier : forall scope,
  scope < length (heap w) -> scope < fuel ->
  findScopeWithParent fuel scope identifier w =
    Some (head (omap (shallowly identifier) (scope :: ancestors (heap w) fuel scope)), w).
Proof.
  induction fuel as [|fuel IH]; intros scope Hin Hfuel; [lia|].
  destruct (lookup_lt_is_Some_2 _ _ Hin) as [s Hs].
  assert (Hsh : shallowly identifier scope = JsMap.get (childScopes s) identifier).
  { unfold shallowly, findScopeShallowly, bind, readScope. by rewrite Hs. }
  cbn [findScopeWithParent ancestors]. unfold bind, readScope. rewrite Hs.
  cbn [omap list_omap]. rewrite Hsh.
  destruct (JsMap.get (childScopes s) identifier) as [child|] eqn:Hget; [reflexivity|].
  destruct (parentScope s) as [p|] eqn:Hp; [|reflexivity].
  destruct (older_parent _ _ _ Hs Hp) as [Hlt Hpin].
  rewrite IH by lia. reflexivity.
Qed.

(** The scope [a] is owned by a node of one of the kinds [nodeCandidates]. *)
Definition ownedBy (nodeCandidates : list NodeName) (a : Ref) : bool :=
  match heap w !! a with
  | Some s =>
      match ownerNode s with
      | Some node => includesNode nodeCandidates (nodeName node)
      | None => false
      end
  | None => false
  end.

Lemma findScopeWithParentByNodes_nearest fuel nodeCandidates : forall scope,
  scope < length (heap w) -> scope < fuel ->
  findScopeWithParentByNodes fuel scope nodeCandidates w =
    Some (List.find (ownedBy nodeCandidates) (scope :: ancestors (heap w) fuel scope), w).
Proof.
  induction fuel as [|fuel IH]; intros scope Hin Hfuel; [lia|].
  destruct (lookup_lt_is_Some_2 _ _ Hin) as [s Hs].
  cbn [findScopeWithParentByNodes ancestors List.find]. unfold bind, readScope. rewrite Hs.
  unfold ownedBy at 1. rewrite Hs.
  destruct (match ownerNode s with
            | Some node => includesNode nodeCandidates (nodeName node)
            | None => false
            end); [reflexivity|].
  destruct (parentScope s) as [p|] eqn:Hp; [|reflexivity].
  destruct (older_parent _ _ _ Hs Hp) as [Hlt Hpin].
  rewrite IH by lia. reflexivity.
Qed.

End Walks.

(** *** What the scope tables keep *)

Definition wellFormed (h : list SymbolScope) : Prop := older h /\ linked h.

(** The heap [h'] has every object of [h], with the parent and the key that
    it had. *)
Definition grows (h h' : list SymbolScope) : Prop :=
  length h <= length h' /\
  forall r s, h !! r = Some s ->
    exists s', h' !! r = Some s' /\ parentScope s' = parentScope s /\ key s' = key s.

Lemma grows_refl h : grows h h.
Proof. split; [lia|]. intros r s Hs. exists s. auto. Qed.

Lemma grows_trans h1 h2 h3 : grows h1 h2 -> grows h2 h3 -> grows h1 h3.
Proof.
  intros [L1 G1] [L2 G2]. split; [lia|]. intros r s Hs.
  destruct (G1 r s Hs) as (s2 & H2 & P2 & K2).
  destruct (G2 r s2 H2) as (s3 & H3 & P3 & K3).
  exists s3. split; [exact H3|]. split; congruence.
Qed.

(** A computation that leaves the scopes well formed and only lets the heap
    grow. *)
Definition tidy {A} (m : M A) : Prop :=
  forall w, wellFormed (heap w) ->
    match m w with
    | Some (_, w') => wellFormed (heap w') /\ grows (heap w) (heap w')
    | None => True
    end.

Lemma tidy_ret {A} (a : A) : tidy (ret a).
Proof. intros w Hw. split; [exact Hw | apply grows_refl]. Qed.

Lemma tidy_fail {A} : tidy (@fail A).
Proof. intros w Hw. exact I. Qed.

Lemma tidy_bind {A B} (m : M A) (k : A -> M B) :
  tidy m -> (forall a, tidy (k a)) -> tidy (bind m k).
Proof.
  intros Hm Hk w Hw. unfold bind. specialize (Hm w Hw).
  destruct (m w) as [[a w1]|]; [|exact I]. destruct Hm as [Hw1 G1].
  specialize (Hk a w1 Hw1). destruct (k a w1) as [[b w2]|]; [|exact I].
  destruct Hk as [Hw2 G2]. split; [exact Hw2 | eapply grows_trans; eauto].
Qed.

Lemma tidy_readScope r : tidy (readScope r).
Proof.
  intros w Hw. unfold readScope. destruct (heap w !! r); [|exact I].
  split; [exact Hw | apply grows_refl].
Qed.

Lemma tidy_addError loc msg : tidy (addError loc msg).
Proof. intros w Hw. split; [exact Hw | apply grows_refl]. Qed.

Lemma tidy_forEach {A} (l : list A) (body : A -> M unit) :
  (forall x, tidy (body x)) -> tidy (forEach l body).
Proof.
  intros Hbody. induction l as [|x l IH]; [apply tidy_ret|].
  cbn [forEach]. apply tidy_bind; [apply Hbody | intros _; exact IH].
Qed.

(** An object is replaced by one with the same parent and key, and with
    child entries that were there or that are linked to it. *)
Lemma wellFormed_insert h r s s' :
  wellFormed h -> h !! r = Some s ->
  parentScope s' = parentScope s -> key s' = key s ->
  (forall k c, In (k, c) (childScopes s') ->
     In (k, c) (childScopes s) \/
     exists cs, h !! c = Some cs /\ parentScope cs = Some r /\ key cs = k) ->
  wellFormed (<[r := s']> h) /\ grows h (<[r := s']> h).
Proof.
  intros [Hold Hlink] Hs Hp Hk Hc.
  pose proof (lookup_lt_Some _ _ _ Hs) as Hlt.
  assert (Hat : forall x sx, <[r := s']> h !! x = Some sx ->
            exists sx0, h !! x = Some sx0 /\ parentScope sx = parentScope sx0 /\
                        key sx = key sx0 /\ (x <> r -> sx = sx0) /\ (x = r -> sx = s')).
  { intros x sx Hx. destruct (decide (x = r)) as [->|Hne].
    - rewrite list_lookup_insert_eq in Hx by lia. injection Hx as <-.
      exists s. repeat split; auto. done.
    - rewrite list_lookup_insert_ne in Hx by done. exists sx. repeat split; auto. done. }
  assert (Hto : forall x sx, h !! x = Some sx ->
            exists sx', <[r := s']> h !! x = Some sx' /\ parentScope sx' = parentScope sx /\
                        key sx' = key sx).
  { intros x sx Hx. destruct (decide (x = r)) as [->|Hne].
    - rewrite list_lookup_insert_eq by lia. exists s'.
      rewrite Hs in Hx. injection Hx as <-. auto.
    - rewrite list_lookup_insert_ne by done. exists sx. auto. }
  split; [split|].
  - intros x sx p Hx Hpx. destruct (Hat x sx Hx) as (sx0 & Hx0 & Hp0 & _).
    apply (Hold x sx0 p Hx0). congruence.
  - intros x sx k c Hx Hin. destruct (Hat x sx Hx) as (sx0 & Hx0 & _ & _ & Hne & Heq).
    assert (Hcs : exists cs, h !! c = Some cs /\ parentScope cs = Some x /\ key cs = k).
    { destruct (decide (x = r)) as [->|Hxr].
      - rewrite (Heq eq_refl) in Hin. destruct (Hc k c Hin) as [Hin0|Hnew]; [|exact Hnew].
        rewrite Hs in Hx0. injection Hx0 as <-. eapply Hlink; eauto.
      - rewrite (Hne Hxr) in Hin. eapply Hlink; eauto. }
    destruct Hcs as (cs & Hcs & Hcp & Hck).
    destruct (Hto c cs Hcs) as (cs' & Hcs' & Hcp' & Hck').
    exists cs'. split; [exact Hcs'|]. split; congruence.
  - split; [by rewrite length_insert|]. exact Hto.
Qed.

(** A new object is added: no children yet, and its parent, if it has one,
    is in the heap. *)
Lemma wellFormed_alloc h s :
  wellFormed h -> childScopes s = [] ->
  (forall p, parentScope s = Some p -> p < length h) ->
  wellFormed (h ++ [s]) /\ grows h (h ++ [s]).
Proof.
  intros [Hold Hlink] Hnil Hp.
  assert (Hat : forall x sx, (h ++ [s]) !! x = Some sx ->
            h !! x = Some sx \/ (x = length h /\ sx = s)).
  { intros x sx Hx. destruct (decide (x < length h)) as [Hlt|Hge].
    - rewrite lookup_app_l in Hx by lia. auto.
    - rewrite lookup_app_r in Hx by lia.
      destruct (x - length h) as [|i] eqn:E; simpl in Hx; [|by destruct i].
      injection Hx as <-. right. split; [lia | reflexivity]. }
  split; [split|].
  - intros x sx p Hx Hpx. destruct (Hat x sx Hx) as [Hx0|[-> ->]]; [eauto|]. auto.
  - intros x sx k c Hx Hin. destruct (Hat x sx Hx) as [Hx0|[-> ->]].
    + destruct (Hlink x sx k c Hx0 Hin) as (cs & Hcs & Hrest).
      exists cs. split; [|exact Hrest].
      rewrite lookup_app_l; [exact Hcs|]. by apply lookup_lt_Some in Hcs.
    + rewrite Hnil in Hin. destruct Hin.
  - split; [rewrite length_app; lia|]. intros r sr Hr. exists sr.
    split; [|auto]. rewrite lookup_app_l; [exact Hr|]. by apply lookup_lt_Some in Hr.
Qed.

Lemma tidy_setSymbol dest k sym : tidy (setSymbol dest k sym).
Proof.
  intros w Hw. unfold setSymbol, bind, readScope.
  destruct (heap w !! dest) as [d|] eqn:Hd; [|exact I].
  unfold writeScope. destruct (decide (dest < length (heap w))); [|exact I].
  cbn [heap setHeap].
  apply (wellFormed_insert _ _ d); auto.
Qed.

(** [createSymbolScopeAndInsert] under a scope of the heap. *)
Lemma createSymbolScopeAndInsert_tidy node parent identifier w :
  wellFormed (heap w) ->
  (forall p, parent = Some p -> p < length (heap w)) ->
  match createSymbolScopeAndInsert node parent identifier w with
  | Some (_, w') => wellFormed (heap w') /\ grows (heap w) (heap w')
  | None => True
  end.
Proof.
  intros Hw Hparent.
  unfold createSymbolScopeAndInsert, createSymbolScope, bind, alloc. cbn [heap setHeap].
  destruct (wellFormed_alloc (heap w) (mkScope node parent identifier [] []) Hw eq_refl Hparent)
    as [Hw1 G1].
  destruct parent as [p|]; [|split; assumption].
  specialize (Hparent p eq_refl).
  unfold readScope. cbn [heap setHeap].
  destruct ((heap w ++ [mkScope node (Some p) identifier [] []]) !! p) as [ps|] eqn:Hps;
    [|exact I].
  unfold writeScope. cbn [heap setHeap].
  destruct (decide (p < length (heap w ++ [mkScope node (Some p) identifier [] []])));
    [|exact I].
  cbn [ret heap setHeap].
  destruct (wellFormed_insert _ p ps
              (mkScope (ownerNode ps) (parentScope ps) (key ps)
                       (JsMap.set (childScopes ps) identifier (length (heap w)))
                       (symbolMap ps)) Hw1 Hps eq_refl eq_refl) as [Hw2 G2].
  { cbn [childScopes]. intros k c Hin. apply JsMap_In_set in Hin as [Hin|[= -> ->]]; [auto|].
    right. exists (mkScope node (Some p) identifier [] []). split; [|split; reflexivity].
    rewrite lookup_app_r by lia. by rewrite Nat.sub_diag. }
  split; [exact Hw2 | eapply grows_trans; eauto].
Qed.

Lemma tidy_findScopeShallowlyThenInsertByIdentifier node scope identifier :
  tidy (findScopeShallowlyThenInsertByIdentifier node scope identifier).
Proof.
  intros w Hw. unfold findScopeShallowlyThenInsertByIdentifier, bind, readScope.
  destruct (heap w !! scope) as [s|] eqn:Hs; [|exact I].
  destruct (JsMap.get (childScopes s) identifier) as [found|].
  - destruct node as [n|]; [|split; [exact Hw | apply grows_refl]].
    destruct (heap w !! found) as [f|] eqn:Hf; [|exact I].
    destruct (ownerNode f); [split; [exact Hw | apply grows_refl]|].
    unfold writeScope. destruct (decide (found < length (heap w))); [|exact I].
    cbn [ret heap setHeap]. apply (wellFormed_insert _ _ f); auto.
  - apply createSymbolScopeAndInsert_tidy; [exact Hw|].
    intros p [= <-]. by apply lookup_lt_Some in Hs.
Qed.

Lemma tidy_findScopeShallowlyOrInsert node scope identifierToken :
  tidy (findScopeShallowlyOrInsert node scope identifierToken).
Proof.
  unfold findScopeShallowlyOrInsert.
  apply tidy_bind; [apply tidy_findScopeShallowlyThenInsertByIdentifier|]. intros found.
  apply tidy_bind; [apply tidy_readScope|]. intros f.
  apply tidy_bind; [|intros _; apply tidy_ret].
  destruct (isDefined node && negb (sameNode node (ownerNode f)));
    [apply tidy_addError | apply tidy_ret].
Qed.

Lemma tidy_copySymbolsInScope getPathOfScope fuel : forall src dest opts,
  tidy (copySymbolsInScope getPathOfScope fuel src dest opts).
Proof.
  induction fuel as [|fuel IH]; intros src dest opts; [apply tidy_fail|].
  cbn [copySymbolsInScope].
  apply tidy_bind; [apply tidy_readScope|]. intros s1.
  apply tidy_bind.
  { apply tidy_forEach. intros [k symbol].
    destruct (canCopy opts symbol); [apply tidy_setSymbol | apply tidy_ret]. }
  intros _. apply tidy_bind; [apply tidy_readScope|]. intros s2.
  apply tidy_forEach. intros [k child].
  apply tidy_bind.
  { intros w Hw. split; [exact Hw | apply grows_refl]. }
  intros scopePath. destruct (skipChild opts scopePath); [apply tidy_ret|].
  apply tidy_bind; [apply tidy_readScope|]. intros c.
  apply tidy_bind; [apply tidy_findScopeShallowlyThenInsertByIdentifier|]. intros destChild.
  apply IH.
Qed.

Lemma tidy_pureScope getPathOfScope fuel this :
  tidy (pureScope getPathOfScope fuel this).
Proof.
  unfold pureScope. destruct (pureBuffer this); [apply tidy_ret|].
  intros w Hw. unfold bind at 1. unfold readScope at 1.
  destruct (heap w !! fullScope this) as [full|] eqn:Hfull; [|exact I].
  unfold bind at 1. unfold createSymbolScope, alloc.
  destruct (wellFormed_alloc (heap w)
              (mkScope (ownerNode full) (parentScope full) (key full) [] []) Hw eq_refl)
    as [Hw1 G1].
  { cbn [parentScope]. intros p Hp. destruct Hw as [Hold _].
    pose proof (Hold _ _ _ Hfull Hp). apply lookup_lt_Some in Hfull. lia. }
  match goal with
  | |- match ?m ?w1 with _ => _ end =>
      assert (H : tidy m)
        by (apply tidy_bind; [apply tidy_copySymbolsInScope | intros; apply tidy_ret]);
      specialize (H w1 Hw1); destruct (m w1) as [[a w2]|]; [|exact I]
  end.
  destruct H as [Hw2 G2]. split; [exact Hw2|].
  eapply grows_trans; [exact G1 | exact G2].
Qed.

(** *** Walking up *)

(** X7 (symbolScopes.ts, [collectParentScopes], [findGlobalScope]): where
    every parent is older than its child the walk up ends: the parents
    collected are pairwise different, the world is left alone, and the global
    scope is the last of the chain, a scope without parent. *)
Theorem findGlobalScope_ends_the_chain (w : World) (fuel : nat) (scope : Ref) :
  older (heap w) -> scope < length (heap w) -> scope < fuel ->
  exists ps g gs,
    collectParentScopes fuel scope w = Some (ps, w) /\
    NoDup (scope :: ps) /\
    findGlobalScope fuel scope w = Some (g, w) /\
    last (scope :: ps) = Some g /\
    heap w !! g = Some gs /\ parentScope gs = None.
Proof.
  intros Hold Hin Hfuel.
  destruct (findGlobalScope_last w Hold fuel scope Hin Hfuel) as (g & gs & E & Hlast & Hg & Hnone).
  exists (ancestors (heap w) fuel scope), g, gs.
  split; [by apply collectParentScopes_ancestors|].
  split; [by apply ancestors_NoDup|]. auto.
Qed.

(** X8 (symbolScopes.ts, [isScopeChildOrGrandchild]): the answer is whether
    the second scope is the first one or one of its collected parents; so a
    scope is a child or grandchild of itself. *)
Theorem isScopeChildOrGrandchild_is_in_the_chain (w : World) (fuel : nat) (scope : Ref) :
  older (heap w) -> scope < length (heap w) -> scope < fuel ->
  exists ps,
    collectParentScopes fuel scope w = Some (ps, w) /\
    forall parent,
      isScopeChildOrGrandchild fuel scope parent w =
        Some (bool_decide (parent ∈ scope :: ps), w).
Proof.
  intros Hold Hin Hfuel. exists (ancestors (heap w) fuel scope).
  split; [by apply collectParentScopes_ancestors|].
  intros parent. by apply isScopeChildOrGrandchild_elem.
Qed.

(** X9 (symbolScopes.ts, [findScopeWithParent]): the scope found is what
    [findScopeShallowly] finds in the nearest scope of the chain that has a
    child under the identifier: a child of an inner scope hides the children
    of the same name further out; nothing is found when no scope of the chain
    has one. *)
Theorem findScopeWithParent_takes_the_nearest (w : World) (fuel : nat) (scope : Ref) :
  older (heap w) -> scope < length (heap w) -> scope < fuel ->
  exists ps,
    collectParentScopes fuel scope w = Some (ps, w) /\
    forall identifier,
      findScopeWithParent fuel scope identifier w =
        Some (head (omap (shallowly w identifier) (scope :: ps)), w).
Proof.
  intros Hold Hin Hfuel. exists (ancestors (heap w) fuel scope).
  split; [by apply collectParentScopes_ancestors|].
  intros identifier. by apply findScopeWithParent_nearest.
Qed.

(** X10 (symbolScopes.ts, [findScopeWithParentByNodes]): the scope found is
    the nearest of the scope and its collected parents whose node is of one of
    the kinds asked for; scopes without node are passed over. *)
Theorem findScopeWithParentByNodes_takes_the_nearest (w : World) (fuel : nat) (scope : Ref) :
  older (heap w) -> scope < length (heap w) -> scope < fuel ->
  exists ps,
    collectParentScopes fuel scope w = Some (ps, w) /\
    forall nodeCandidates,
      findScopeWithParentByNodes fuel scope nodeCandidates w =
        Some (List.find (ownedBy w nodeCandidates) (scope :: ps), w).
Proof.
  intros Hold Hin Hfuel. exists (ancestors (heap w) fuel scope).
  split; [by apply collectParentScopes_ancestors|].
  intros nodeCandidates. by apply findScopeWithParentByNodes_nearest.
Qed.

(** *** The tables stay a tree *)

(** X11 (symbolScopes.ts): every operation of the module that creates or
    changes scopes leaves the scope objects a tree: parents stay older than
    their children, every child entry leads to an object that has the holder
    as parent and the entry's key as key, and no object is dropped or gets
    another parent or key. *)
Theorem scope_tables_stay_a_tree :
  wellFormed [] /\
  (forall node parent identifier w,
     wellFormed (heap w) -> (forall p, parent = Some p -> p < length (heap w)) ->
     match createSymbolScopeAndInsert node parent identifier w with
     | Some (_, w') => wellFormed (heap w') /\ grows (heap w) (heap w')
     | None => True
     end) /\
  (forall node scope identifierToken,
     tidy (findScopeShallowlyOrInsert node scope identifierToken)) /\
  (forall getPathOfScope fuel src dest opts,
     tidy (copySymbolsInScope getPathOfScope fuel src dest opts)) /\
  (forall getPathOfScope fuel this, tidy (pureScope getPathOfScope fuel this)).
Proof.
  split; [|split; [|split; [|split]]].
  - split; [intros r s p Hs | intros r s k c Hs]; by rewrite lookup_nil in Hs.
  - apply createSymbolScopeAndInsert_tidy.
  - apply tidy_findScopeShallowlyOrInsert.
  - apply tidy_copySymbolsInScope.
  - apply tidy_pureScope.
Qed.

(** *** Looking up what was inserted *)

(** The diagnostic of [findScopeShallowlyOrInsert]. *)
Definition alreadyDefined (identifierToken : ParsedToken) : Diagnostic :=
  mkDiag (location identifierToken)
         ("Symbol " +:+ text identifierToken +:+ "' is already defined.").

(** What [findScopeShallowlyOrInsert] reports for a scope found with the node
    [found]. *)
Definition reported (node found : option SymbolOwnerNode) (identifierToken : ParsedToken)
    : list Diagnostic :=
  if isDefined node && negb (sameNode node found) then [alreadyDefined identifierToken] else [].

Lemma sameNode_same o : sameNode o o = true.
Proof. destruct o as [n|]; simpl; [apply Nat.eqb_refl | reflexivity]. Qed.

Lemma findScopeShallowlyOrInsert_runs node scope identifierToken w :
  wellFormed (heap w) -> scope < length (heap w) ->
  exists found w' s' f,
    findScopeShallowlyOrInsert node scope identifierToken w = Some (found, w') /\
    heap w' !! scope = Some s' /\
    JsMap.get (childScopes s') (text identifierToken) = Some found /\
    heap w' !! found = Some f /\
    (isDefined node = true -> isDefined (ownerNode f) = true) /\
    diagnostics w' = diagnostics w ++ reported node (ownerNode f) identifierToken /\
    s_uniqueIdentifier w' = s_uniqueIdentifier w.
Proof.
  intros [Hold Hlink] Hin.
  destruct (lookup_lt_is_Some_2 _ _ Hin) as [s Hs].
  unfold findScopeShallowlyOrInsert, findScopeShallowlyThenInsertByIdentifier.
  unfold bind at 1. unfold bind at 1. unfold readScope at 1. rewrite Hs.
  destruct (JsMap.get (childScopes s) (text identifierToken)) as [found|] eqn:Hget.
  - destruct (Hlink _ _ _ _ Hs (JsMap_get_In _ _ _ Hget)) as (f & Hf & Hfp & Hfk).
    pose proof (lookup_lt_Some _ _ _ Hf) as Hflt.
    pose proof (Hold _ _ _ Hf Hfp) as Hne.
    destruct node as [n|].
    + unfold bind at 1. unfold readScope at 1. rewrite Hf.
      destruct (ownerNode f) as [m|] eqn:Hown.
      * cbn [ret]. unfold bind, readScope. rewrite Hf.
        exists found, (mkWorld (heap w)
                         (diagnostics w ++ reported (Some n) (Some m) identifierToken)
                         (s_uniqueIdentifier w)), s, f.
        rewrite Hown. unfold reported. cbn [isDefined andb].
        split; [|by repeat split].
        destruct (negb (sameNode (Some n) (Some m))); cbn [addError ret].
        -- reflexivity.
        -- rewrite app_nil_r. by destruct w.
      * unfold bind at 1. unfold writeScope.
        destruct (decide (found < length (heap w))) as [_|]; [|lia].
        cbn [ret]. unfold bind, readScope. cbn [heap setHeap].
        rewrite list_lookup_insert_eq by lia. cbn [ownerNode].
        rewrite sameNode_same. cbn [isDefined andb negb ret].
        eexists found, _, s, _. split; [reflexivity|]. cbn [heap diagnostics s_uniqueIdentifier setHeap].
        rewrite list_lookup_insert_ne by lia.
        rewrite list_lookup_insert_eq by lia.
        split; [exact Hs|]. split; [exact Hget|]. split; [reflexivity|].
        cbn [ownerNode]. unfold reported. rewrite sameNode_same. cbn.
        by rewrite app_nil_r.
    + cbn [ret]. unfold bind, readScope. rewrite Hf. cbn [isDefined andb ret].
      exists found, w, s, f. unfold reported. cbn [isDefined andb]. rewrite app_nil_r.
      by repeat split.
  - unfold createSymbolScopeAndInsert, createSymbolScope, alloc.
    unfold bind at 1. unfold bind at 1. unfold readScope at 1. cbn [heap setHeap].
    rewrite lookup_app_l by lia. rewrite Hs.
    unfold bind at 1. unfold writeScope. cbn [heap setHeap].
    destruct (decide (scope < length (heap w ++
                [mkScope node (Some scope) (text identifierToken) [] []]))) as [_|Hn];
      [|rewrite length_app in Hn; simpl in Hn; lia].
    cbn [ret]. unfold bind, readScope. cbn [heap setHeap].
    rewrite list_lookup_insert_ne by lia.
    rewrite lookup_app_r by lia. rewrite Nat.sub_diag. cbn [lookup list_lookup ownerNode].
    rewrite sameNode_same, andb_false_r. cbn [ret].
    eexists (length (heap w)), _, _, _. split; [reflexivity|].
    cbn [heap diagnostics s_uniqueIdentifier setHeap].
    rewrite list_lookup_insert_eq by (rewrite length_app; simpl; lia).
    rewrite list_lookup_insert_ne by lia.
    rewrite lookup_app_r by lia. rewrite Nat.sub_diag. cbn [lookup list_lookup].
    split; [reflexivity|]. cbn [childScopes].
    split; [by rewrite JsMap_get_set, String.eqb_refl|].
    split; [reflexivity|]. cbn [ownerNode]. unfold reported.
    rewrite sameNode_same, andb_false_r, app_nil_r. by repeat split.
Qed.

(** With the child there and owned where a node is supplied, the call
    changes no scope. *)
Lemma findScopeShallowlyOrInsert_again node scope identifierToken w s found f :
  heap w !! scope = Some s ->
  JsMap.get (childScopes s) (text identifierToken) = Some found ->
  heap w !! found = Some f ->
  (isDefined node = true -> isDefined (ownerNode f) = true) ->
  findScopeShallowlyOrInsert node scope identifierToken w =
    Some (found, mkWorld (heap w)
                         (diagnostics w ++ reported node (ownerNode f) identifierToken)
                         (s_uniqueIdentifier w)).
Proof.
  intros Hs Hget Hf Hown.
  unfold findScopeShallowlyOrInsert, findScopeShallowlyThenInsertByIdentifier.
  unfold bind at 1. unfold bind at 1. unfold readScope at 1. rewrite Hs, Hget.
  unfold reported.
  destruct node as [n|].
  - unfold bind at 1. unfold readScope at 1. rewrite Hf.
    destruct (ownerNode f) as [m|] eqn:Hm; [|by specialize (Hown eq_refl)].
    cbn [ret]. unfold bind, readScope. rewrite Hf, Hm. cbn [isDefined andb].
    destruct (negb (sameNode (Some n) (Some m))); cbn [addError ret]; [reflexivity|].
    rewrite app_nil_r. by destruct w.
  - cbn [ret]. unfold bind, readScope. rewrite Hf. cbn [isDefined andb ret].
    rewrite app_nil_r. by destruct w.
Qed.

(** X12 (symbolScopes.ts, [findScopeShallowlyOrInsert], [findScopeShallowly]):
    in a well-formed heap the call returns; the scope returned is then what
    [findScopeShallowly] finds under the identifier, it has the scope searched
    as parent and the identifier as key; and the same call again returns the
    same scope, changes no scope object and reports what the first call
    reported. *)
Theorem findScopeShallowlyOrInsert_then_found
    (node : option SymbolOwnerNode) (scope : Ref) (identifierToken : ParsedToken) (w : World) :
  wellFormed (heap w) -> scope < length (heap w) ->
  exists found w' f added,
    findScopeShallowlyOrInsert node scope identifierToken w = Some (found, w') /\
    findScopeShallowly scope (text identifierToken) w' = Some (Some found, w') /\
    heap w' !! found = Some f /\
    parentScope f = Some scope /\ key f = text identifierToken /\
    diagnostics w' = diagnostics w ++ added /\
    findScopeShallowlyOrInsert node scope identifierToken w' =
      Some (found, mkWorld (heap w') (diagnostics w' ++ added) (s_uniqueIdentifier w')).
Proof.
  intros Hw Hin.
  destruct (findScopeShallowlyOrInsert_runs node scope identifierToken w Hw Hin)
    as (found & w' & s' & f & E & Hs' & Hget & Hf & Hown & Hd & _).
  pose proof (tidy_findScopeShallowlyOrInsert node scope identifierToken w Hw) as Ht.
  rewrite E in Ht. destruct Ht as [[_ Hlink'] _].
  destruct (Hlink' _ _ _ _ Hs' (JsMap_get_In _ _ _ Hget)) as (f' & Hf' & Hp & Hk).
  rewrite Hf in Hf'. injection Hf' as <-.
  exists found, w', f, (reported node (ownerNode f) identifierToken).
  split; [exact E|]. split.
  { unfold findScopeShallowly, bind, readScope. rewrite Hs'. cbn [ret]. by rewrite Hget. }
  split; [exact Hf|]. split; [exact Hp|]. split; [exact Hk|]. split; [exact Hd|].
  by apply (findScopeShallowlyOrInsert_again node scope identifierToken w' s' found f).
Qed.

(** X13 (symbolScopes.ts, [findScopeShallowlyOrInsert] and the walks): the
    scope returned sits right under the scope searched: its collected
    parents are that scope followed by that scope's parents, it is a child or
    grandchild of it, and both have the same global scope. *)
Theorem findScopeShallowlyOrInsert_sits_under
    (node : option SymbolOwnerNode) (scope : Ref) (identifierToken : ParsedToken) (w : World)
    (fuel : nat) :
  wellFormed (heap w) -> scope < length (heap w) ->
  exists found w',
    findScopeShallowlyOrInsert node scope identifierToken w = Some (found, w') /\
    (found < S fuel ->
     exists ps g,
       collectParentScopes fuel scope w' = Some (ps, w') /\
       collectParentScopes (S fuel) found w' = Some (scope :: ps, w') /\
       isScopeChildOrGrandchild (S fuel) found scope w' = Some (true, w') /\
       findGlobalScope fuel scope w' = Some (g, w') /\
       findGlobalScope (S fuel) found w' = Some (g, w')).
Proof.
  intros Hw Hin.
  destruct (findScopeShallowlyOrInsert_runs node scope identifierToken w Hw Hin)
    as (found & w' & s' & f & E & Hs' & Hget & Hf & _).
  pose proof (tidy_findScopeShallowlyOrInsert node scope identifierToken w Hw) as Ht.
  rewrite E in Ht. destruct Ht as [[Hold' Hlink'] _].
  destruct (Hlink' _ _ _ _ Hs' (JsMap_get_In _ _ _ Hget)) as (f' & Hf' & Hp & Hk).
  rewrite Hf in Hf'. injection Hf' as <-.
  exists found, w'. split; [exact E|]. intros Hfuel.
  pose proof (Hold' _ _ _ Hf Hp) as Hlt.
  pose proof (lookup_lt_Some _ _ _ Hs') as Hin'.
  pose proof (lookup_lt_Some _ _ _ Hf) as Hfin.
  destruct (findGlobalScope_last w' Hold' fuel scope Hin' ltac:(lia))
    as (g & gs & Eg & _).
  exists (ancestors (heap w') fuel scope), g.
  split; [apply collectParentScopes_ancestors; [exact Hold' | exact Hin' | lia]|].
  split.
  { rewrite collectParentScopes_ancestors by (auto; lia).
    cbn [ancestors]. by rewrite Hf, Hp. }
  split.
  { rewrite isScopeChildOrGrandchild_elem by (auto; lia).
    f_equal. f_equal. apply bool_decide_eq_true.
    cbn [ancestors]. rewrite Hf, Hp. apply list_elem_of_further, list_elem_of_here. }
  split; [exact Eg|].
  cbn [findGlobalScope]. unfold bind, readScope. rewrite Hf, Hp. exact Eg.
Qed.

(** *** Copying symbols *)

(** The symbol tables of the objects of [w] up to [d] are those of [w']. *)
Definition sameSymbols (d : nat) (w w' : World) : Prop :=
  forall r x, r <= d -> heap w !! r = Some x ->
    exists x', heap w' !! r = Some x' /\ symbolMap x' = symbolMap x.

Lemma sameSymbols_refl d w : sameSymbols d w w.
Proof. intros r x _ Hx. eauto. Qed.

Lemma sameSymbols_trans d w1 w2 w3 :
  sameSymbols d w1 w2 -> sameSymbols d w2 w3 -> sameSymbols d w1 w3.
Proof.
  intros H1 H2 r x Hr Hx. destruct (H1 r x Hr Hx) as (x2 & Hx2 & E2).
  destruct (H2 r x2 Hr Hx2) as (x3 & Hx3 & E3). exists x3. split; [exact Hx3 | congruence].
Qed.

Lemma sameSymbols_le d d' w w' : d' <= d -> sameSymbols d w w' -> sameSymbols d' w w'.
Proof. intros Hle H r x Hr. apply H. lia. Qed.

(** [findScopeShallowlyThenInsertByIdentifier] under a scope of a well-formed
    heap: the scope returned is newer than the scope searched, and no symbol
    table changes. *)
Lemma findScopeShallowlyThenInsertByIdentifier_runs node scope identifier w :
  wellFormed (heap w) -> scope < length (heap w) ->
  exists found w',
    findScopeShallowlyThenInsertByIdentifier node scope identifier w = Some (found, w') /\
    scope < found < length (heap w') /\
    (exists f, heap w' !! found = Some f /\ parentScope f = Some scope) /\
    (forall d, sameSymbols d w w') /\
    diagnostics w' = diagnostics w /\ s_uniqueIdentifier w' = s_uniqueIdentifier w.
Proof.
  intros [Hold Hlink] Hin.
  destruct (lookup_lt_is_Some_2 _ _ Hin) as [s Hs].
  unfold findScopeShallowlyThenInsertByIdentifier.
  unfold bind at 1. unfold readScope at 1. rewrite Hs.
  destruct (JsMap.get (childScopes s) identifier) as [found|] eqn:Hget.
  - destruct (Hlink _ _ _ _ Hs (JsMap_get_In _ _ _ Hget)) as (f & Hf & Hfp & Hfk).
    pose proof (lookup_lt_Some _ _ _ Hf) as Hflt.
    pose proof (Hold _ _ _ Hf Hfp) as Hne.
    assert (Hsame : scope < found < length (heap w) /\
                    (exists f, heap w !! found = Some f /\ parentScope f = Some scope) /\
                    (forall d, sameSymbols d w w) /\
                    diagnostics w = diagnostics w /\
                    s_uniqueIdentifier w = s_uniqueIdentifier w).
    { split; [lia|]. split; [eauto|]. split; [intros; apply sameSymbols_refl | auto]. }
    destruct node as [n|]; [|exists found, w; split; [reflexivity | apply Hsame]].
    unfold bind at 1. unfold readScope at 1. rewrite Hf.
    destruct (ownerNode f) as [m|]; [exists found, w; split; [reflexivity | apply Hsame]|].
    unfold bind, writeScope. destruct (decide (found < length (heap w))) as [_|]; [|lia].
    eexists found, _. split; [reflexivity|]. cbn [heap diagnostics s_uniqueIdentifier setHeap].
    rewrite length_insert. split; [lia|]. split.
    { eexists. rewrite list_lookup_insert_eq by lia. split; [reflexivity | exact Hfp]. }
    split; [|auto].
    intros d r x _ Hx. cbn [heap setHeap]. destruct (decide (r = found)) as [->|Hrf].
    + rewrite list_lookup_insert_eq by lia. eexists. split; [reflexivity|].
      rewrite Hf in Hx. by injection Hx as <-.
    + rewrite list_lookup_insert_ne by done. eauto.
  - unfold createSymbolScopeAndInsert, createSymbolScope, alloc.
    unfold bind at 1. unfold bind at 1. unfold readScope at 1. cbn [heap setHeap].
    rewrite lookup_app_l by lia. rewrite Hs.
    unfold bind, writeScope. cbn [heap setHeap].
    destruct (decide (scope < length (heap w ++ [mkScope node (Some scope) identifier [] []])))
      as [_|Hn]; [|rewrite length_app in Hn; simpl in Hn; lia].
    eexists (length (heap w)), _. split; [reflexivity|].
    cbn [heap diagnostics s_uniqueIdentifier setHeap].
    rewrite length_insert, length_app. cbn [length]. split; [lia|]. split.
    { eexists. rewrite list_lookup_insert_ne by lia. rewrite lookup_app_r by lia.
      rewrite Nat.sub_diag. split; reflexivity. }
    split; [|auto].
    intros d r x _ Hx. cbn [heap setHeap]. pose proof (lookup_lt_Some _ _ _ Hx) as Hr.
    destruct (decide (r = scope)) as [->|Hrs].
    + rewrite list_lookup_insert_eq by (rewrite length_app; lia). eexists. split; [reflexivity|].
      rewrite Hs in Hx. by injection Hx as <-.
    + rewrite list_lookup_insert_ne by done. rewrite lookup_app_l by lia. eauto.
Qed.

(** The entries of [l] put one after the other into the table [m]. *)
Definition setAll (m : JsMap.t SymbolObject) (l : list (string * SymbolObject))
    : JsMap.t SymbolObject :=
  fold_left (fun m ks => JsMap.set m (fst ks) (snd ks)) l m.

(** A loop that keeps a property, where it returns. *)
Lemma forEach_holds {A} (Q : World -> Prop) (l : list A) (body : A -> M unit) :
  (forall x w, In x l -> Q w ->
     match body x w with Some (_, w') => Q w' | None => True end) ->
  forall w, Q w -> match forEach l body w with Some (_, w') => Q w' | None => True end.
Proof.
  induction l as [|x l IH]; intros Hbody w HQ; cbn [forEach].
  - exact HQ.
  - unfold bind. pose proof (Hbody x w (or_introl eq_refl) HQ) as H1.
    destruct (body x w) as [[[] w1]|]; [|exact I].
    apply IH; [|exact H1]. intros y w' Hy. apply Hbody. by right.
Qed.

(** The first loop of [copySymbolsInScope]. *)
Lemma copy_symbols_loop opts dest (l : list (string * SymbolObject)) : forall w d,
  wellFormed (heap w) -> heap w !! dest = Some d ->
  match forEach l (fun '(k, symbol) =>
          if canCopy opts symbol then setSymbol dest k symbol else ret tt) w with
  | Some (_, w') =>
      wellFormed (heap w') /\ grows (heap w) (heap w') /\
      (forall r x, r <> dest -> heap w !! r = Some x -> heap w' !! r = Some x) /\
      exists d', heap w' !! dest = Some d' /\
                 symbolMap d' =
                   setAll (symbolMap d) (List.filter (fun ks => canCopy opts (snd ks)) l)
  | None => True
  end.
Proof.
  induction l as [|[k sym] l IH]; intros w d Hw Hd; cbn [forEach].
  - split; [exact Hw|]. split; [apply grows_refl|]. split; [auto|]. exists d. auto.
  - unfold bind. cbn [List.filter snd].
    destruct (canCopy opts sym).
    + pose proof (tidy_setSymbol dest k sym w Hw) as Ht.
      unfold setSymbol, bind, readScope in *. rewrite Hd in *.
      unfold writeScope in *.
      destruct (decide (dest < length (heap w))) as [Hlt|]; [|exact I].
      destruct Ht as [Hw1 G1].
      match goal with |- match forEach _ _ ?w1 with _ => _ end =>
        assert (Hd1 : heap w1 !! dest =
                      Some (mkScope (ownerNode d) (parentScope d) (key d) (childScopes d)
                                    (JsMap.set (symbolMap d) k sym)))
          by (cbn [heap setHeap]; by rewrite list_lookup_insert_eq by lia);
        specialize (IH w1 _ Hw1 Hd1);
        destruct (forEach l _ w1) as [[[] w2]|]; [|exact I] end.
      destruct IH as (Hw2 & G2 & Hother & d' & Hd' & Hsym).
      split; [exact Hw2|]. split; [eapply grows_trans; eauto|]. split.
      * intros r x Hr Hx. apply Hother; [exact Hr|]. cbn [heap setHeap].
        by rewrite list_lookup_insert_ne by done.
      * exists d'. split; [exact Hd' | exact Hsym].
    + cbn [ret]. exact (IH w d Hw Hd).
Qed.

(** [copySymbolsInScope] leaves alone the symbol tables of the objects older
    than the destination, and fills the table of the destination from that
    of the source. *)
Lemma copySymbolsInScope_symbols getPathOfScope opts fuel : forall src dest w s d,
  wellFormed (heap w) -> heap w !! src = Some s -> heap w !! dest = Some d -> src <> dest ->
  match copySymbolsInScope getPathOfScope fuel src dest opts w with
  | Some (_, w') =>
      wellFormed (heap w') /\ grows (heap w) (heap w') /\
      (forall r x, r < dest -> heap w !! r = Some x ->
         exists x', heap w' !! r = Some x' /\ symbolMap x' = symbolMap x) /\
      exists d', heap w' !! dest = Some d' /\
                 symbolMap d' =
                   setAll (symbolMap d)
                          (List.filter (fun ks => canCopy opts (snd ks)) (symbolMap s))
  | None => True
  end.
Proof.
  induction fuel as [|fuel IH]; intros src dest w s d Hw Hs Hd Hne; [exact I|].
  cbn [copySymbolsInScope]. unfold bind at 1. unfold readScope at 1. rewrite Hs.
  unfold bind at 1.
  pose proof (copy_symbols_loop opts dest (symbolMap s) w d Hw Hd) as H1.
  destruct (forEach (symbolMap s) _ w) as [[[] w1]|]; [|exact I].
  destruct H1 as (Hw1 & G1 & Hother1 & d1 & Hd1 & Hsym1).
  unfold bind at 1. unfold readScope at 1. rewrite (Hother1 src s Hne Hs).
  set (Q := fun w' : World =>
              wellFormed (heap w') /\ grows (heap w1) (heap w') /\ sameSymbols dest w1 w').
  match goal with |- match forEach ?l ?body w1 with _ => _ end =>
    pose proof (forEach_holds Q l body) as H2 end.
  match type of H2 with ?A -> _ => assert (Hbody : A) end.
  { intros [k child] w' Hchild (Hw' & G' & S').
    unfold bind at 1.
    destruct (skipChild opts (getPathOfScope (heap w') child)).
    { exact (conj Hw' (conj G' S')). }
    unfold bind at 1. unfold readScope at 1.
    destruct (heap w' !! child) as [c|] eqn:Hc; [|exact I].
    assert (Hdest' : dest < length (heap w')).
    { destruct G' as [L' _]. apply lookup_lt_Some in Hd1. lia. }
    destruct (findScopeShallowlyThenInsertByIdentifier_runs (ownerNode c) dest k w' Hw' Hdest')
      as (destChild & w'' & E & Hrange & (dc & Hdc & Hdcp) & S'' & _).
    pose proof (tidy_findScopeShallowlyThenInsertByIdentifier (ownerNode c) dest k w' Hw') as Ht.
    unfold bind at 1. rewrite E in *. destruct Ht as [Hw'' G''].
    destruct (proj2 G'' child c Hc) as (c' & Hc' & Hcp' & _).
    assert (Hcd : child <> destChild).
    { intros ->. rewrite Hdc in Hc'. injection Hc' as <-.
      destruct Hw1 as [_ Hlink1].
      destruct (Hlink1 src s k destChild (Hother1 src s Hne Hs) Hchild) as (c1 & Hc1 & Hc1p & _).
      destruct (proj2 G' destChild c1 Hc1) as (c2 & Hc2 & Hc2p & _).
      rewrite Hc in Hc2. injection Hc2 as <-. congruence. }
    specialize (IH child destChild w'' c' dc Hw'' Hc' Hdc Hcd).
    destruct (copySymbolsInScope getPathOfScope fuel child destChild opts w'')
      as [[[] w3]|]; [|exact I].
    destruct IH as (Hw3 & G3 & S3 & _).
    unfold Q. split; [exact Hw3|]. split.
    { eapply grows_trans; [exact G'|]. eapply grows_trans; eauto. }
    eapply sameSymbols_trans; [exact S'|].
    eapply sameSymbols_trans; [apply S''|].
    intros r x Hr Hx. apply S3; [lia | exact Hx]. }
  assert (HQ : Q w1).
  { split; [exact Hw1|]. split; [apply grows_refl | apply sameSymbols_refl]. }
  specialize (H2 Hbody w1 HQ). clear Hbody.
  destruct (forEach (childScopes s) _ w1) as [[[] w2]|]; [|exact I].
  destruct H2 as (Hw2 & G2 & S2).
  split; [exact Hw2|]. split; [eapply grows_trans; eauto|]. split.
  - intros r x Hr Hx. apply (S2 r x); [lia|]. apply Hother1; [lia | exact Hx].
  - destruct (S2 dest d1 (Nat.le_refl _) Hd1) as (d2 & Hd2 & E2).
    exists d2. split; [exact Hd2 | congruence].
Qed.

Lemma JsMap_set_fresh {V} (m : JsMap.t V) k v :
  ~ In k (JsMap.keys m) -> JsMap.set m k v = m ++ [(k, v)].
Proof.
  induction m as [|[k0 v0] m IH]; intros Hk; [reflexivity|].
  cbn [JsMap.set]. cbn in Hk.
  destruct (String.eqb_spec k0 k) as [->|Hne]; [tauto|].
  rewrite IH by tauto. reflexivity.
Qed.

Lemma setAll_fresh (l : list (string * SymbolObject)) : forall m,
  NoDup (JsMap.keys (m ++ l)) -> setAll m l = m ++ l.
Proof.
  induction l as [|[k v] l IH]; intros m Hnd; [by rewrite app_nil_r|].
  unfold setAll. cbn [fold_left fst snd]. fold (setAll (JsMap.set m k v) l).
  unfold JsMap.keys in *. rewrite map_app in Hnd. cbn [map fst] in Hnd.
  assert (Hk : ~ In k (map fst m)).
  { apply NoDup_app in Hnd as (_ & Hdis & _). intros Hin.
    apply (Hdis k); [by apply list_elem_of_In | apply list_elem_of_here]. }
  rewrite (JsMap_set_fresh m k v Hk).
  rewrite IH; [by rewrite <- app_assoc|].
  rewrite <- app_assoc. cbn [app]. rewrite map_app. exact Hnd.
Qed.

Lemma filter_keys_NoDup {V} (f : string * V -> bool) (l : list (string * V)) :
  NoDup (JsMap.keys l) -> NoDup (JsMap.keys (List.filter f l)).
Proof.
  unfold JsMap.keys. induction l as [|[k v] l IH]; intros Hnd; [constructor|].
  cbn [map fst] in Hnd. apply NoDup_cons in Hnd as [Hk Hnd].
  cbn [List.filter]. destruct (f (k, v)); [|auto].
  cbn [map fst]. apply NoDup_cons. split; [|auto].
  intros Hin. apply Hk. apply list_elem_of_In in Hin. apply list_elem_of_In.
  apply in_map_iff in Hin as ([k' v'] & <- & Hin). apply filter_In in Hin as [Hin _].
  apply in_map_iff. by exists (k', v').
Qed.

Lemma canCopy_target_only filePath sym :
  canCopy (mkCopyOptions (Some filePath) None) sym =
    String.eqb (path (location (declaredPlace sym))) filePath.
Proof.
  unfold canCopy, optEqb. cbn [targetSrcPath excludeSrcPath isDefined andb].
  by destruct (String.eqb (path (location (declaredPlace sym))) filePath).
Qed.

(** *** The pure scope *)

(** The world in which the copy of [pureScope] starts: the buffer is there,
    empty. *)
Definition withBuffer (fs : SymbolScope) (w : World) : World :=
  mkWorld (heap w ++ [mkScope (ownerNode fs) (parentScope fs) (key fs) [] []])
          (diagnostics w) (s_uniqueIdentifier w).

(** The first read of the pure scope returns what the copy into the new
    buffer leaves. *)
Lemma pureScope_copies
    (getPathOfScope : list SymbolScope -> Ref -> option string)
    (fuel : nat) (filePath : string) (full : Ref) (w : World) :
  SymbolScopesSpec.scope_tree (heap w) (length (heap w)) fuel full ->
  exists fs w',
    heap w !! full = Some fs /\
    pureScope getPathOfScope fuel (newAnalyzedScope filePath full) w =
      Some ((length (heap w), mkAnalyzed filePath full (Some (length (heap w)))), w') /\
    SymbolScopesSpec.frame (length (heap w)) (withBuffer fs w) w'.
Proof.
  intros Htree.
  assert (Hfull : exists fs, heap w !! full = Some fs).
  { destruct fuel; simpl in Htree; [tauto|]. destruct Htree as (_ & fs & Hfs & _). eauto. }
  destruct Hfull as [fs Hfs].
  set (n0 := length (heap w)).
  assert (Hinv1 : SymbolScopesSpec.pure_inv filePath n0 (heap (withBuffer fs w))).
  { intros r sc Hr Hlook. unfold withBuffer in Hlook. cbn [heap] in *.
    rewrite lookup_app_r in Hlook by (fold n0; lia).
    destruct (r - length (heap w)) as [|i] eqn:E; simpl in Hlook; [|by destruct i].
    injection Hlook as <-. split; simpl; intros ? ? []. }
  destruct (SymbolScopesSpec.copy_ok filePath n0 getPathOfScope fuel full n0 (withBuffer fs w)
              Hinv1) as (w2 & E2 & _ & Hframe).
  { subst n0. unfold withBuffer. cbn [heap]. rewrite length_app. simpl. lia. }
  { refine (SymbolScopesSpec.scope_tree_frame _ (heap w) _ _ _ _ Htree).
    intros r Hr. unfold withBuffer. cbn [heap]. apply lookup_app_l. exact Hr. }
  exists fs, w2. split; [exact Hfs|]. split; [|exact Hframe].
  unfold pureScope, newAnalyzedScope. cbn [pureBuffer fullScope analyzedPath].
  unfold bind at 1. unfold readScope at 1. rewrite Hfs.
  unfold bind at 1. unfold createSymbolScope, alloc, setHeap.
  fold (withBuffer fs w). fold n0. unfold bind at 1.
  unfold SymbolScopesSpec.copyOptions in E2. rewrite E2. reflexivity.
Qed.

(** X14 (symbolScopes.ts, [AnalyzedScope.pureScope], [copySymbolsInScope]):
    the first read of the pure scope changes nothing that was there: the
    buffer is a new object, every scope object that existed is as it was (so
    the full scope keeps the symbols of other files and the buffer is not
    entered among the children of its parent), nothing is reported and the
    counter of anonymous identifiers stays. *)
Theorem pureScope_leaves_the_rest
    (getPathOfScope : list SymbolScope -> Ref -> option string)
    (fuel : nat) (filePath : string) (full : Ref) (w : World) :
  SymbolScopesSpec.scope_tree (heap w) (length (heap w)) fuel full ->
  exists a w',
    pureScope getPathOfScope fuel (newAnalyzedScope filePath full) w =
      Some ((length (heap w), a), w') /\
    length (heap w) < length (heap w') /\
    (forall r, r < length (heap w) -> heap w' !! r = heap w !! r) /\
    diagnostics w' = diagnostics w /\
    s_uniqueIdentifier w' = s_uniqueIdentifier w.
Proof.
  intros Htree.
  destruct (pureScope_copies getPathOfScope fuel filePath full w Htree)
    as (fs & w' & Hfs & E & Hlen & Hold & Hdiag & Huniq).
  exists (mkAnalyzed filePath full (Some (length (heap w)))), w'.
  split; [exact E|].
  unfold withBuffer in *. cbn [heap diagnostics s_uniqueIdentifier] in *.
  split; [|split; [|split]].
  - rewrite length_app in Hlen. cbn [length] in Hlen. lia.
  - intros r Hr. rewrite (Hold r Hr). by apply lookup_app_l.
  - exact Hdiag.
  - exact Huniq.
Qed.

(** X15 (symbolScopes.ts, [AnalyzedScope.pureScope], [copySymbolsInScope]):
    the table of the pure scope itself holds exactly the symbols of the full
    scope's table that are declared in the file, under their names and in
    their order; the pure scope has the parent and the key of the full
    scope. *)
Theorem pureScope_holds_the_symbols_of_the_file
    (getPathOfScope : list SymbolScope -> Ref -> option string)
    (fuel : nat) (filePath : string) (full : Ref) (w : World) (fs : SymbolScope) :
  wellFormed (heap w) ->
  SymbolScopesSpec.scope_tree (heap w) (length (heap w)) fuel full ->
  heap w !! full = Some fs ->
  NoDup (JsMap.keys (symbolMap fs)) ->
  exists buf a w' b,
    pureScope getPathOfScope fuel (newAnalyzedScope filePath full) w = Some ((buf, a), w') /\
    heap w' !! buf = Some b /\
    symbolMap b =
      List.filter (fun ks => String.eqb (path (location (declaredPlace (snd ks)))) filePath)
                  (symbolMap fs) /\
    parentScope b = parentScope fs /\ key b = key fs.
Proof.
  intros Hw Htree Hfs Hnd.
  destruct (pureScope_copies getPathOfScope fuel filePath full w Htree)
    as (fs0 & w' & _ & E & _).
  exists (length (heap w)), (mkAnalyzed filePath full (Some (length (heap w)))), w'.
  pose proof E as E0.
  unfold pureScope, newAnalyzedScope in E. cbn [pureBuffer fullScope analyzedPath] in E.
  unfold bind at 1 in E. unfold readScope at 1 in E. rewrite Hfs in E.
  unfold bind at 1 in E. unfold createSymbolScope, alloc in E.
  set (b0 := mkScope (ownerNode fs) (parentScope fs) (key fs) [] []) in *.
  set (w1 := setHeap (heap w ++ [b0]) w) in *.
  destruct (wellFormed_alloc (heap w) b0 Hw eq_refl) as [Hw1 G1].
  { subst b0. cbn [parentScope]. intros p Hp. destruct Hw as [Hold _].
    pose proof (Hold _ _ _ Hfs Hp). apply lookup_lt_Some in Hfs. lia. }
  pose proof (lookup_lt_Some _ _ _ Hfs) as Hfull.
  assert (Hfs1 : heap w1 !! full = Some fs).
  { subst w1. cbn [heap setHeap]. by rewrite lookup_app_l. }
  assert (Hb1 : heap w1 !! length (heap w) = Some b0).
  { subst w1. cbn [heap setHeap]. rewrite lookup_app_r by lia. by rewrite Nat.sub_diag. }
  pose proof (copySymbolsInScope_symbols getPathOfScope
                (mkCopyOptions (Some filePath) None) fuel full (length (heap w)) w1 fs b0
                Hw1 Hfs1 Hb1 ltac:(lia)) as Hcopy.
  unfold bind at 1 in E.
  destruct (copySymbolsInScope getPathOfScope fuel full (length (heap w))
              (mkCopyOptions (Some filePath) None) w1) as [[[] w2]|]; [|discriminate].
  cbn [ret] in E. injection E as <-.
  destruct Hcopy as (_ & G2 & _ & b & Hb & Hsym).
  destruct (proj2 G2 _ _ Hb1) as (b' & Hb' & Hp & Hk).
  rewrite Hb in Hb'. injection Hb' as <-.
  exists b. split; [exact E0|]. split; [exact Hb|]. split; [|split; [exact Hp | exact Hk]].
  rewrite Hsym. subst b0. cbn [symbolMap].
  rewrite setAll_fresh by (cbn [app]; by apply filter_keys_NoDup).
  cbn [app]. apply filter_ext. intros [k sym]. cbn [snd]. apply canCopy_target_only.
Qed.

(** *** The scopes of [a.as] *)

Lemma worldOfA_wellFormed : wellFormed (heap SymbolScopesSpec.worldOfA).
Proof.
  split.
  - intros r s p Hs Hp. destruct r as [|[|r]]; cbn in Hs.
    + injection Hs as <-. discriminate Hp.
    + injection Hs as <-. injection Hp as <-. lia.
    + first [discriminate Hs | by rewrite lookup_nil in Hs].
  - intros r s k c Hs Hin. destruct r as [|[|r]]; cbn in Hs.
    + injection Hs as <-. destruct Hin as [[= <- <-]|[]].
      exists SymbolScopesSpec.namespaceOfA. repeat split.
    + injection Hs as <-. destruct Hin.
    + first [discriminate Hs | by rewrite lookup_nil in Hs].
Defined.

Lemma worldOfA_tree :
  SymbolScopesSpec.scope_tree (heap SymbolScopesSpec.worldOfA)
                              (length (heap SymbolScopesSpec.worldOfA)) 2 0.
Proof.
  simpl. split; [lia|]. eexists. split; [reflexivity|].
  repeat constructor. simpl. eexists. split; [reflexivity | constructor].
Defined.

(** The walk up from the namespace [ns] of [a.as]. *)
Lemma findGlobalScope_ends_the_chain_ns :
  older (heap SymbolScopesSpec.worldOfA) /\
  exists ps g gs,
    collectParentScopes 2 1 SymbolScopesSpec.worldOfA = Some (ps, SymbolScopesSpec.worldOfA) /\
    NoDup (1 :: ps) /\
    findGlobalScope 2 1 SymbolScopesSpec.worldOfA = Some (g, SymbolScopesSpec.worldOfA) /\
    last (1 :: ps) = Some g /\
    heap SymbolScopesSpec.worldOfA !! g = Some gs /\ parentScope gs = None.
Proof.
  split; [exact (proj1 worldOfA_wellFormed)|].
  apply findGlobalScope_ends_the_chain;
    [exact (proj1 worldOfA_wellFormed) | simpl; lia | lia].
Defined.

Lemma isScopeChildOrGrandchild_is_in_the_chain_ns :
  older (heap SymbolScopesSpec.worldOfA) /\
  exists ps,
    collectParentScopes 2 1 SymbolScopesSpec.worldOfA = Some (ps, SymbolScopesSpec.worldOfA) /\
    forall parent,
      isScopeChildOrGrandchild 2 1 parent SymbolScopesSpec.worldOfA =
        Some (bool_decide (parent ∈ 1 :: ps), SymbolScopesSpec.worldOfA).
Proof.
  split; [exact (proj1 worldOfA_wellFormed)|].
  apply isScopeChildOrGrandchild_is_in_the_chain;
    [exact (proj1 worldOfA_wellFormed) | simpl; lia | lia].
Defined.

Lemma findScopeWithParent_takes_the_nearest_ns :
  older (heap SymbolScopesSpec.worldOfA) /\
  exists ps,
    collectParentScopes 2 1 SymbolScopesSpec.worldOfA = Some (ps, SymbolScopesSpec.worldOfA) /\
    forall identifier,
      findScopeWithParent 2 1 identifier SymbolScopesSpec.worldOfA =
        Some (head (omap (shallowly SymbolScopesSpec.worldOfA identifier) (1 :: ps)),
              SymbolScopesSpec.worldOfA).
Proof.
  split; [exact (proj1 worldOfA_wellFormed)|].
  apply findScopeWithParent_takes_the_nearest;
    [exact (proj1 worldOfA_wellFormed) | simpl; lia | lia].
Defined.

Lemma findScopeWithParentByNodes_takes_the_nearest_ns :
  older (heap SymbolScopesSpec.worldOfA) /\
  exists ps,
    collectParentScopes 2 1 SymbolScopesSpec.worldOfA = Some (ps, SymbolScopesSpec.worldOfA) /\
    forall nodeCandidates,
      findScopeWithParentByNodes 2 1 nodeCandidates SymbolScopesSpec.worldOfA =
        Some (List.find (ownedBy SymbolScopesSpec.worldOfA nodeCandidates) (1 :: ps),
              SymbolScopesSpec.worldOfA).
Proof.
  split; [exact (proj1 worldOfA_wellFormed)|].
  apply findScopeWithParentByNodes_takes_the_nearest;
    [exact (proj1 worldOfA_wellFormed) | simpl; lia | lia].
Defined.

Definition tokenAt (file name : string) : ParsedToken := mkToken name (mkLocation file 0 0 0 0).

(** A scope [inner] is asked for under the namespace [ns] of [a.as]: the
    heap stays a tree. *)
Lemma scope_tables_stay_a_tree_ns :
  wellFormed (heap SymbolScopesSpec.worldOfA) /\
  match findScopeShallowlyOrInsert None 1 (tokenAt "a.as" "inner") SymbolScopesSpec.worldOfA with
  | Some (_, w') =>
      wellFormed (heap w') /\ grows (heap SymbolScopesSpec.worldOfA) (heap w')
  | None => True
  end.
Proof.
  split; [exact worldOfA_wellFormed|].
  exact (proj1 (proj2 (proj2 scope_tables_stay_a_tree)) None 1 (tokenAt "a.as" "inner")
           SymbolScopesSpec.worldOfA worldOfA_wellFormed).
Defined.

Lemma findScopeShallowlyOrInsert_then_found_ns :
  wellFormed (heap SymbolScopesSpec.worldOfA) /\
  exists found w' f added,
    findScopeShallowlyOrInsert None 1 (tokenAt "a.as" "inner") SymbolScopesSpec.worldOfA =
      Some (found, w') /\
    findScopeShallowly 1 "inner" w' = Some (Some found, w') /\
    heap w' !! found = Some f /\
    parentScope f = Some 1 /\ key f = "inner" /\
    diagnostics w' = diagnostics SymbolScopesSpec.worldOfA ++ added /\
    findScopeShallowlyOrInsert None 1 (tokenAt "a.as" "inner") w' =
      Some (found, mkWorld (heap w') (diagnostics w' ++ added) (s_uniqueIdentifier w')).
Proof.
  split; [exact worldOfA_wellFormed|].
  apply (findScopeShallowlyOrInsert_then_found None 1 (tokenAt "a.as" "inner"));
    [exact worldOfA_wellFormed | simpl; lia].
Defined.

Lemma findScopeShallowlyOrInsert_sits_under_ns :
  wellFormed (heap SymbolScopesSpec.worldOfA) /\
  exists found w',
    findScopeShallowlyOrInsert None 1 (tokenAt "a.as" "inner") SymbolScopesSpec.worldOfA =
      Some (found, w') /\
    (found < 3 ->
     exists ps g,
       collectParentScopes 2 1 w' = Some (ps, w') /\
       collectParentScopes 3 found w' = Some (1 :: ps, w') /\
       isScopeChildOrGrandchild 3 found 1 w' = Some (true, w') /\
       findGlobalScope 2 1 w' = Some (g, w') /\
       findGlobalScope 3 found w' = Some (g, w')).
Proof.
  split; [exact worldOfA_wellFormed|].
  apply (findScopeShallowlyOrInsert_sits_under None 1 (tokenAt "a.as" "inner")
           SymbolScopesSpec.worldOfA 2);
    [exact worldOfA_wellFormed | simpl; lia].
Defined.

Lemma pureScope_leaves_the_rest_a :
  SymbolScopesSpec.scope_tree (heap SymbolScopesSpec.worldOfA)
                              (length (heap SymbolScopesSpec.worldOfA)) 2 0 /\
  exists a w',
    pureScope (fun _ _ => None) 2 (newAnalyzedScope "a.as" 0) SymbolScopesSpec.worldOfA =
      Some ((2, a), w') /\
    2 < length (heap w') /\
    (forall r, r < 2 -> heap w' !! r = heap SymbolScopesSpec.worldOfA !! r) /\
    diagnostics w' = [] /\ s_uniqueIdentifier w' = (-1)%Z.
Proof.
  split; [exact worldOfA_tree|].
  exact (pureScope_leaves_the_rest (fun _ _ => None) 2 "a.as" 0 SymbolScopesSpec.worldOfA
           worldOfA_tree).
Defined.

(** The pure scope of [a.as] has [x] and not [y], which is of [b.as]. *)
Lemma pureScope_holds_the_symbols_of_the_file_a :
  wellFormed (heap SymbolScopesSpec.worldOfA) /\
  NoDup (JsMap.keys (symbolMap SymbolScopesSpec.fullScopeOfA)) /\
  exists buf a w' b,
    pureScope (fun _ _ => None) 2 (newAnalyzedScope "a.as" 0) SymbolScopesSpec.worldOfA =
      Some ((buf, a), w') /\
    heap w' !! buf = Some b /\
    symbolMap b = [("x", SymbolScopesSpec.declaredIn "a.as" "x")] /\
    parentScope b = None /\ key b = "".
Proof.
  assert (Hnd : NoDup (JsMap.keys (symbolMap SymbolScopesSpec.fullScopeOfA))).
  { cbn. apply NoDup_cons. split; [|apply NoDup_singleton].
    rewrite list_elem_of_singleton. discriminate. }
  split; [exact worldOfA_wellFormed|]. split; [exact Hnd|].
  exact (pureScope_holds_the_symbols_of_the_file (fun _ _ => None) 2 "a.as" 0
           SymbolScopesSpec.worldOfA SymbolScopesSpec.fullScopeOfA
           worldOfA_wellFormed worldOfA_tree eq_refl Hnd).
Defined.

End ScopeChain.

Module ParserFacts.
Import Parser.

(** *** What parsing keeps of the world *)

(** Two tokens that differ at most in their highlight. *)
Definition sameToken (a b : TokenObject) : Prop :=
  kind a = kind b /\ text a = text b /\ location a = location b.

(** [s'] comes after [s]: the same tokens up to highlights, the cursor not
    before where it was, the diagnostics of [s] followed by new ones. *)
Definition extends (s s' : PState) : Prop :=
  Forall2 sameToken (tokens (reading s)) (tokens (reading s')) /\
  pos (reading s) <= pos (reading s') /\
  exists added, diagnostics s' = diagnostics s ++ added.

(** Whatever [m] returns, it returns in a world that comes after. *)
Definition steady {A} (m : P A) : Prop :=
  forall s, match m s with Done _ s' => extends s s' | _ => True end.

Lemma sameToken_refl t : sameToken t t.
Proof. repeat split. Qed.

Lemma sameToken_trans a b c : sameToken a b -> sameToken b c -> sameToken a c.
Proof. intros (K1 & T1 & L1) (K2 & T2 & L2). repeat split; congruence. Qed.

Lemma sameTokens_refl l : Forall2 sameToken l l.
Proof. induction l; constructor; auto using sameToken_refl. Qed.

Lemma sameTokens_trans l1 l2 l3 :
  Forall2 sameToken l1 l2 -> Forall2 sameToken l2 l3 -> Forall2 sameToken l1 l3.
Proof.
  intros H12. revert l3. induction H12 as [|a b l1 l2 Hab _ IH]; intros l3 H23.
  - inversion H23. constructor.
  - inversion H23 as [|b' c l2' l3' Hbc Hrest]; subst. constructor.
    + eapply sameToken_trans; eauto.
    + apply IH, Hrest.
Qed.

Lemma extends_refl s : extends s s.
Proof.
  split; [apply sameTokens_refl|]. split; [lia|]. exists []. by rewrite app_nil_r.
Qed.

Lemma extends_trans s1 s2 s3 : extends s1 s2 -> extends s2 s3 -> extends s1 s3.
Proof.
  intros (T1 & P1 & a1 & D1) (T2 & P2 & a2 & D2).
  split; [eapply sameTokens_trans; eauto|]. split; [lia|].
  exists (a1 ++ a2). by rewrite D2, D1, app_assoc.
Qed.

Lemma steady_ret {A} (a : A) : steady (ret a).
Proof. intros s. apply extends_refl. Qed.

Lemma steady_outOfFuel {A} : steady (@outOfFuel A).
Proof. intros s. exact I. Qed.

Lemma steady_bind {A B} (m : P A) (k : A -> P B) :
  steady m -> (forall a, steady (k a)) -> steady (bind m k).
Proof.
  intros Hm Hk s. unfold bind. specialize (Hm s).
  destruct (m s) as [a s'| |]; [|exact I|exact I].
  specialize (Hk a s'). destruct (k a s') as [b s''| |]; [|exact I|exact I].
  eapply extends_trans; eauto.
Qed.

Lemma steady_rNext : steady rNext.
Proof. intros s. unfold rNext. destruct (next (reading s)); [apply extends_refl | exact I]. Qed.

Lemma steady_rNextRef : steady rNextRef.
Proof.
  intros s. unfold rNextRef. destruct (next (reading s)); [apply extends_refl | exact I].
Qed.

Lemma steady_rIsEnd : steady rIsEnd.
Proof. intros s. apply extends_refl. Qed.

Lemma steady_rStep : steady rStep.
Proof.
  intros s. split; [apply sameTokens_refl|]. simpl. split; [lia|].
  exists []. by rewrite app_nil_r.
Qed.

Lemma steady_addError loc msg : steady (addError loc msg).
Proof. intros s. split; [apply sameTokens_refl|]. split; [simpl; lia|]. by eexists. Qed.

Lemma sameTokens_insert l i t t' :
  l !! i = Some t -> sameToken t t' -> Forall2 sameToken l (<[i := t']> l).
Proof.
  revert i. induction l as [|x l IH]; intros [|i] Hi Hs; simpl in *; try discriminate.
  - injection Hi as ->. constructor; [exact Hs | apply sameTokens_refl].
  - constructor; [apply sameToken_refl | eapply IH; eauto].
Qed.

Lemma next_lookup this t :
  next this = Some t -> tokens this !! Z.to_nat (nextIndex this) = Some t.
Proof. unfold next, arrayGet. destruct (_ <? 0)%Z; [discriminate | auto]. Qed.

Lemma steady_setHighlight tok modifier : steady (setHighlight tok modifier).
Proof.
  intros s. unfold setHighlight. cbv zeta.
  destruct (next (reading s)) as [t|] eqn:Hnext; [|exact I].
  split; [|split; [simpl; lia | exists []; by rewrite app_nil_r]].
  simpl. eapply sameTokens_insert; [apply next_lookup, Hnext|]. repeat split.
Qed.

Create HintDb parser_steady.
#[local] Hint Resolve steady_ret steady_outOfFuel steady_rNext steady_rNextRef steady_rIsEnd
  steady_rStep
  steady_addError steady_setHighlight : parser_steady.

Ltac steady_step :=
  match goal with
  | |- steady (bind _ _) => apply steady_bind; [|intros ?]
  | |- steady (if ?b then _ else _) => destruct b
  | |- steady (match ?x with _ => _ end) => destruct x
  | |- forall _, _ => intros ?
  | |- steady _ => solve [auto with parser_steady]
  end.

Ltac steady_auto := cbv zeta; repeat steady_step.

Lemma steady_confirm tok modifier : steady (confirm tok modifier).
Proof. unfold confirm. steady_auto. Qed.
#[local] Hint Resolve steady_confirm : parser_steady.

Lemma steady_expect word tok : steady (expect word tok).
Proof. unfold expect. steady_auto. Qed.
#[local] Hint Resolve steady_expect : parser_steady.

Lemma steady_parseDATATYPE : steady parseDATATYPE.
Proof. unfold parseDATATYPE. steady_auto. Qed.
#[local] Hint Resolve steady_parseDATATYPE : parser_steady.

Lemma steady_parseTYPE : steady parseTYPE.
Proof. unfold parseTYPE. steady_auto. Qed.
#[local] Hint Resolve steady_parseTYPE : parser_steady.

Lemma steady_parseEXPRVALUE : steady parseEXPRVALUE.
Proof. unfold parseEXPRVALUE. steady_auto. Qed.
#[local] Hint Resolve steady_parseEXPRVALUE : parser_steady.

Lemma steady_parseEXPRTERM2 : steady parseEXPRTERM2.
Proof. unfold parseEXPRTERM2. steady_auto. Qed.
#[local] Hint Resolve steady_parseEXPRTERM2 : parser_steady.

Lemma steady_parseEXPRTERM : steady parseEXPRTERM.
Proof. unfold parseEXPRTERM. steady_auto. Qed.
#[local] Hint Resolve steady_parseEXPRTERM : parser_steady.

Lemma steady_parseEXPROP : steady parseEXPROP.
Proof. unfold parseEXPROP. steady_auto. Qed.
#[local] Hint Resolve steady_parseEXPROP : parser_steady.

Lemma steady_parseASSIGNOP : steady parseASSIGNOP.
Proof. unfold parseASSIGNOP. steady_auto. Qed.
#[local] Hint Resolve steady_parseASSIGNOP : parser_steady.

Lemma steady_parseEXPR fuel : steady (parseEXPR fuel).
Proof. induction fuel as [|fuel IH]; cbn [parseEXPR]; steady_auto. Qed.
#[local] Hint Resolve steady_parseEXPR : parser_steady.

Lemma steady_parseCONDITION fuel : steady (parseCONDITION fuel).
Proof. unfold parseCONDITION. steady_auto. Qed.
#[local] Hint Resolve steady_parseCONDITION : parser_steady.

Lemma steady_parseASSIGN fuel : steady (parseASSIGN fuel).
Proof. induction fuel as [|fuel IH]; cbn [parseASSIGN]; steady_auto. Qed.
#[local] Hint Resolve steady_parseASSIGN : parser_steady.

Lemma steady_parseEXPRSTAT fuel : steady (parseEXPRSTAT fuel).
Proof. unfold parseEXPRSTAT. steady_auto. Qed.
#[local] Hint Resolve steady_parseEXPRSTAT : parser_steady.

Lemma steady_parseRETURN fuel : steady (parseRETURN fuel).
Proof. unfold parseRETURN. steady_auto. Qed.
#[local] Hint Resolve steady_parseRETURN : parser_steady.

Lemma steady_parseVAR fuel : steady (parseVAR fuel).
Proof. unfold parseVAR. steady_auto. Qed.
#[local] Hint Resolve steady_parseVAR : parser_steady.

Lemma steady_parseBREAK : steady parseBREAK.
Proof. unfold parseBREAK. steady_auto. Qed.
#[local] Hint Resolve steady_parseBREAK : parser_steady.

Lemma steady_parseCONTINUE : steady parseCONTINUE.
Proof. unfold parseCONTINUE. steady_auto. Qed.
#[local] Hint Resolve steady_parseCONTINUE : parser_steady.

Lemma steady_parsePARAMLIST_loop fuel : forall params, steady (parsePARAMLIST_loop fuel params).
Proof. induction fuel as [|fuel IH]; intros params; cbn [parsePARAMLIST_loop]; steady_auto. Qed.
#[local] Hint Resolve steady_parsePARAMLIST_loop : parser_steady.

Lemma steady_parsePARAMLIST fuel : steady (parsePARAMLIST fuel).
Proof. unfold parsePARAMLIST. steady_auto. Qed.
#[local] Hint Resolve steady_parsePARAMLIST : parser_steady.

Lemma steady_parseFOR_increment fuel :
  forall increment, steady (parseFOR_increment fuel increment).
Proof.
  induction fuel as [|fuel IH]; intros increment; cbn [parseFOR_increment]; steady_auto.
Qed.
#[local] Hint Resolve steady_parseFOR_increment : parser_steady.

Lemma steady_statements fuel :
  steady (parseSTATEMENT fuel) /\
  steady (parseSWITCH fuel) /\
  (forall cases, steady (parseSWITCH_loop fuel cases)) /\
  steady (parseFOR fuel) /\
  steady (parseWHILE fuel) /\
  steady (parseDOWHILE fuel) /\
  steady (parseIF fuel) /\
  steady (parseCASE fuel) /\
  (forall statements, steady (parseCASE_loop fuel statements)) /\
  steady (parseSTATBLOCK fuel) /\
  (forall statements, steady (parseSTATBLOCK_loop fuel statements)).
Proof.
  induction fuel as [|fuel IH].
  - repeat split; intros; apply steady_outOfFuel.
  - destruct IH as (Hst & Hsw & Hswl & Hfor & Hwh & Hdo & Hif & Hcase & Hcl & Hsb & Hsbl).
    repeat split; intros.
    + cbn [parseSTATEMENT]. steady_auto.
    + cbn [parseSWITCH]. steady_auto.
    + cbn [parseSWITCH_loop]. steady_auto.
    + cbn [parseFOR]. steady_auto.
    + cbn [parseWHILE]. steady_auto.
    + cbn [parseDOWHILE]. steady_auto.
    + cbn [parseIF]. steady_auto.
    + cbn [parseCASE]. steady_auto.
    + cbn [parseCASE_loop]. steady_auto.
    + cbn [parseSTATBLOCK]. steady_auto.
    + cbn [parseSTATBLOCK_loop]. steady_auto.
Qed.

Lemma steady_parseSTATEMENT fuel : steady (parseSTATEMENT fuel).
Proof. apply steady_statements. Qed.

Lemma steady_parseSTATBLOCK fuel : steady (parseSTATBLOCK fuel).
Proof. apply steady_statements. Qed.
#[local] Hint Resolve steady_parseSTATBLOCK : parser_steady.

Lemma steady_parseFUNC fuel : steady (parseFUNC fuel).
Proof. unfold parseFUNC. steady_auto. Qed.
#[local] Hint Resolve steady_parseFUNC : parser_steady.

Lemma steady_parseSCRIPT_loop fuel : forall funcs, steady (parseSCRIPT_loop fuel funcs).
Proof. induction fuel as [|fuel IH]; intros funcs; cbn [parseSCRIPT_loop]; steady_auto. Qed.
#[local] Hint Resolve steady_parseSCRIPT_loop : parser_steady.

Lemma steady_parseSCRIPT fuel : steady (parseSCRIPT fuel).
Proof. unfold parseSCRIPT. steady_auto. Qed.

(** *** Running a parse function on a known next token *)

Lemma bind_Done {A B} (m : P A) (k : A -> P B) s a s' :
  m s = Done a s' -> bind m k s = k a s'.
Proof. intros E. unfold bind. by rewrite E. Qed.

Lemma bind_OutOfFuel {A B} (m : P A) (k : A -> P B) s :
  m s = OutOfFuel -> bind m k s = OutOfFuel.
Proof. intros E. unfold bind. by rewrite E. Qed.

Lemma rNext_Done s t : next (reading s) = Some t -> rNext s = Done t s.
Proof. intros E. unfold rNext. by rewrite E. Qed.

Lemma rNextRef_Done s t :
  next (reading s) = Some t -> rNextRef s = Done (Z.to_nat (nextIndex (reading s))) s.
Proof. intros E. unfold rNextRef. by rewrite E. Qed.

(** The words that start a statement. *)
Definition statementWords : list string :=
  ["if"; "for"; "while"; "return"; "{"; "break"; "continue"; "do"; "switch"].

Section OtherWord.

Variables (s : PState) (t : TokenObject).
Hypothesis Hnext : next (reading s) = Some t.

Ltac led :=
  intros Hword; rewrite (bind_Done _ _ _ _ _ (rNext_Done _ _ Hnext)); by rewrite Hword.

Lemma parseIF_other fuel :
  String.eqb (text t) "if" = false -> parseIF (S fuel) s = Done Mismatch s.
Proof. cbn [parseIF]. led. Qed.

Lemma parseFOR_other fuel :
  String.eqb (text t) "for" = false -> parseFOR (S fuel) s = Done Mismatch s.
Proof. cbn [parseFOR]. led. Qed.

Lemma parseWHILE_other fuel :
  String.eqb (text t) "while" = false -> parseWHILE (S fuel) s = Done Mismatch s.
Proof. cbn [parseWHILE]. led. Qed.

Lemma parseRETURN_other fuel :
  String.eqb (text t) "return" = false -> parseRETURN fuel s = Done Mismatch s.
Proof. unfold parseRETURN. led. Qed.

Lemma parseSTATBLOCK_other fuel :
  String.eqb (text t) "{" = false -> parseSTATBLOCK (S fuel) s = Done None s.
Proof. cbn [parseSTATBLOCK]. led. Qed.

Lemma parseBREAK_other :
  String.eqb (text t) "break" = false -> parseBREAK s = Done None s.
Proof. unfold parseBREAK. led. Qed.

Lemma parseCONTINUE_other :
  String.eqb (text t) "continue" = false -> parseCONTINUE s = Done None s.
Proof. unfold parseCONTINUE. led. Qed.

Lemma parseDOWHILE_other fuel :
  String.eqb (text t) "do" = false -> parseDOWHILE (S fuel) s = Done Mismatch s.
Proof. cbn [parseDOWHILE]. led. Qed.

Lemma parseSWITCH_other fuel :
  String.eqb (text t) "switch" = false -> parseSWITCH (S fuel) s = Done Mismatch s.
Proof. cbn [parseSWITCH]. led. Qed.

Lemma parseSTATEMENT_other fuel :
  includes statementWords (text t) = false ->
  parseSTATEMENT (S (S fuel)) s = Done Mismatch s.
Proof.
  unfold includes, statementWords. cbn [existsb]. rewrite !orb_false_iff.
  intros (Hif & Hfor & Hwhile & Hreturn & Hblock & Hbreak & Hcontinue & Hdo & Hswitch & _).
  cbn [parseSTATEMENT].
  rewrite (bind_Done _ _ _ _ _ (parseIF_other fuel Hif)).
  rewrite (bind_Done _ _ _ _ _ (parseFOR_other fuel Hfor)).
  rewrite (bind_Done _ _ _ _ _ (parseWHILE_other fuel Hwhile)).
  rewrite (bind_Done _ _ _ _ _ (parseRETURN_other (S fuel) Hreturn)).
  rewrite (bind_Done _ _ _ _ _ (parseSTATBLOCK_other fuel Hblock)).
  rewrite (bind_Done _ _ _ _ _ (parseBREAK_other Hbreak)).
  rewrite (bind_Done _ _ _ _ _ (parseCONTINUE_other Hcontinue)).
  rewrite (bind_Done _ _ _ _ _ (parseDOWHILE_other fuel Hdo)).
  rewrite (bind_Done _ _ _ _ _ (parseSWITCH_other fuel Hswitch)).
  reflexivity.
Qed.

End OtherWord.

(** *** Pre- and postconditions *)

(** From a world in [Pre], whatever [m] returns satisfies [Post]. *)
Definition hoare {A} (Pre : PState -> Prop) (m : P A) (Post : A -> PState -> Prop) : Prop :=
  forall s, Pre s -> match m s with Done a s' => Post a s' | _ => True end.

Lemma hoare_bind {A B} Pre (Mid : A -> PState -> Prop) Post (m : P A) (k : A -> P B) :
  hoare Pre m Mid -> (forall a, hoare (Mid a) (k a) Post) -> hoare Pre (bind m k) Post.
Proof.
  intros Hm Hk s Hs. unfold bind. specialize (Hm s Hs).
  destruct (m s) as [a s'| |]; [|exact I|exact I]. apply (Hk a s' Hm).
Qed.

Lemma hoare_ret {A} (Pre : PState -> Prop) (Post : A -> PState -> Prop) a :
  (forall s, Pre s -> Post a s) -> hoare Pre (ret a) Post.
Proof. intros H s Hs. apply H, Hs. Qed.

Lemma hoare_any {A} Pre (m : P A) : hoare Pre m (fun _ _ => True).
Proof. intros s _. by destruct (m s). Qed.

Lemma hoare_post {A} Pre (m : P A) (Post Post' : A -> PState -> Prop) :
  hoare Pre m Post -> (forall a s, Post a s -> Post' a s) -> hoare Pre m Post'.
Proof. intros Hm Hi s Hs. specialize (Hm s Hs). destruct (m s); auto. Qed.

(** Sequencing when only the result of the last computation matters. *)
Lemma hoare_then {A B} Pre Post (m : P A) (k : A -> P B) :
  (forall a, hoare (fun _ => True) (k a) Post) -> hoare Pre (bind m k) Post.
Proof.
  intros Hk. apply (hoare_bind Pre (fun _ _ => True)); [apply hoare_any | exact Hk].
Qed.

Lemma hoare_rNext Pre :
  hoare Pre rNext (fun t s => Pre s /\ next (reading s) = Some t).
Proof.
  intros s Hs. unfold rNext. destruct (next (reading s)) eqn:E; [auto | exact I].
Qed.

(** *** [parseIF] and the word [else] *)

(** [parseSTATEMENT] on a token that starts no statement. *)
Lemma parseSTATEMENT_mismatch t fuel :
  includes statementWords (text t) = false ->
  hoare (fun s => next (reading s) = Some t) (parseSTATEMENT fuel)
        (fun r s' => r = Mismatch /\ next (reading s') = Some t).
Proof.
  intros Hword s Hnext.
  destruct fuel as [|[|fuel]].
  - exact I.
  - cbn [parseSTATEMENT]. unfold bind. cbn [parseIF]. exact I.
  - rewrite (parseSTATEMENT_other s t Hnext fuel Hword). auto.
Qed.

Lemma hoare_pre {A} (Pre Pre' : PState -> Prop) (m : P A) Post :
  hoare Pre' m Post -> (forall s, Pre s -> Pre' s) -> hoare Pre m Post.
Proof. intros Hm Hi s Hs. apply Hm, Hi, Hs. Qed.

(** What [parseIF] returns, if it returns a statement. *)
Definition withoutElse (r : TriedParse NodeSTATEMENT) : Prop :=
  match r with
  | Parsed st => exists condition ts, st = NodeIF condition ts None
  | _ => True
  end.

(** X1 (part_000, [parseIF]): an [if] statement never gets its [else]
    branch.  The word [else] is looked at but not stepped over, so the
    statement parsed for the branch starts at [else] itself, which starts no
    statement: every [NodeIF] that [parseIF] returns has no [fs]. *)
Theorem parseIF_never_attaches_else (fuel : nat) (s : PState) :
  match parseIF fuel s with
  | Done r _ => withoutElse r
  | _ => True
  end.
Proof.
  revert s. cut (hoare (fun _ => True) (parseIF fuel) (fun r _ => withoutElse r));
    [intros H s; exact (H s I)|].
  destruct fuel as [|fuel]; [intros s _; exact I|].
  cbn [parseIF].
  apply hoare_then. intros t.
  destruct (negb (text t =? "if")%string); [by apply hoare_ret|].
  do 3 (apply hoare_then; intros ?).
  match goal with |- hoare _ (match ?a with _ => _ end) _ => destruct a as [assign|] end.
  2: { do 2 (apply hoare_then; intros ?). by apply hoare_ret. }
  do 2 (apply hoare_then; intros ?).
  match goal with |- hoare _ (match ?a with _ => _ end) _ => destruct a as [| |ts] end;
    [by apply hoare_ret | by apply hoare_ret |].
  apply (hoare_bind _ _ _ _ _ (hoare_rNext _)). intros t'.
  destruct (text t' =? "else")%string eqn:Helse.
  - apply String.eqb_eq in Helse.
    apply (hoare_bind _ (fun r s' => r = Mismatch /\ next (reading s') = Some t')).
    + apply (hoare_pre _ _ _ _ (parseSTATEMENT_mismatch t' fuel ltac:(by rewrite Helse))).
      by intros s0 [_ H0].
    + intros r s0 [-> _].
      apply (hoare_then (fun _ => True)); [|exact I].
      intros ?. apply hoare_then. intros ?. apply hoare_ret. intros _ _.
      by exists assign, ts.
  - apply hoare_ret. intros _ _. by exists assign, ts.
Qed.

(** *** The words that start a statement *)

(** Every way out of a computation returns something that [Q] accepts. *)
Ltac leaves :=
  repeat first
    [ apply hoare_ret; intros; done
    | apply hoare_then; intros ?
    | match goal with
      | |- hoare _ (match ?x with _ => _ end) _ => destruct x
      | |- hoare _ (if ?b then _ else _) _ => destruct b
      end ].

(** The result is not a mismatch. *)
Definition taken (r : TriedParse NodeSTATEMENT) (_ : PState) : Prop := r <> Mismatch.

Section Led.

Variable t : TokenObject.

(** The token [t] is next. *)
Definition here (s : PState) : Prop := next (reading s) = Some t.

Lemma parseIF_led fuel : text t = "if" -> hoare here (parseIF fuel) taken.
Proof.
  intros Htext. destruct fuel; [intros s _; exact I|]. cbn [parseIF].
  apply (hoare_bind _ _ _ _ _ (hoare_rNext _)). intros t'.
  intros s [H0 H1]. rewrite H0 in H1. injection H1 as <-. rewrite Htext.
  change (negb ("if" =? "if")%string) with false. cbv iota.
  revert s H0. leaves.
Qed.

Lemma parseFOR_led fuel : text t = "for" -> hoare here (parseFOR fuel) taken.
Proof.
  intros Htext. destruct fuel; [intros s _; exact I|]. cbn [parseFOR].
  apply (hoare_bind _ _ _ _ _ (hoare_rNext _)). intros t'.
  intros s [H0 H1]. rewrite H0 in H1. injection H1 as <-. rewrite Htext.
  change (negb ("for" =? "for")%string) with false. cbv iota.
  revert s H0. leaves.
Qed.

Lemma parseWHILE_led fuel : text t = "while" -> hoare here (parseWHILE fuel) taken.
Proof.
  intros Htext. destruct fuel; [intros s _; exact I|]. cbn [parseWHILE].
  apply (hoare_bind _ _ _ _ _ (hoare_rNext _)). intros t'.
  intros s [H0 H1]. rewrite H0 in H1. injection H1 as <-. rewrite Htext.
  change (negb ("while" =? "while")%string) with false. cbv iota.
  revert s H0. leaves.
Qed.

Lemma parseRETURN_led fuel : text t = "return" -> hoare here (parseRETURN fuel) taken.
Proof.
  intros Htext. unfold parseRETURN.
  apply (hoare_bind _ _ _ _ _ (hoare_rNext _)). intros t'.
  intros s [H0 H1]. rewrite H0 in H1. injection H1 as <-. rewrite Htext.
  change (negb ("return" =? "return")%string) with false. cbv iota.
  revert s H0. leaves.
Qed.

Lemma parseSTATBLOCK_led fuel :
  text t = "{" -> hoare here (parseSTATBLOCK fuel) (fun r _ => r <> None).
Proof.
  intros Htext. destruct fuel; [intros s _; exact I|]. cbn [parseSTATBLOCK].
  apply (hoare_bind _ _ _ _ _ (hoare_rNext _)). intros t'.
  intros s [H0 H1]. rewrite H0 in H1. injection H1 as <-. rewrite Htext.
  change (negb ("{" =? "{")%string) with false. cbv iota.
  revert s H0. leaves.
Qed.

Lemma parseBREAK_led : text t = "break" -> hoare here parseBREAK (fun r _ => r <> None).
Proof.
  intros Htext. unfold parseBREAK.
  apply (hoare_bind _ _ _ _ _ (hoare_rNext _)). intros t'.
  intros s [H0 H1]. rewrite H0 in H1. injection H1 as <-. rewrite Htext.
  change (negb ("break" =? "break")%string) with false. cbv iota.
  revert s H0. leaves.
Qed.

Lemma parseCONTINUE_led :
  text t = "continue" -> hoare here parseCONTINUE (fun r _ => r <> None).
Proof.
  intros Htext. unfold parseCONTINUE.
  apply (hoare_bind _ _ _ _ _ (hoare_rNext _)). intros t'.
  intros s [H0 H1]. rewrite H0 in H1. injection H1 as <-. rewrite Htext.
  change (negb ("continue" =? "continue")%string) with false. cbv iota.
  revert s H0. leaves.
Qed.

Lemma parseDOWHILE_led fuel : text t = "do" -> hoare here (parseDOWHILE fuel) taken.
Proof.
  intros Htext. destruct fuel; [intros s _; exact I|]. cbn [parseDOWHILE].
  apply (hoare_bind _ _ _ _ _ (hoare_rNext _)). intros t'.
  intros s [H0 H1]. rewrite H0 in H1. injection H1 as <-. rewrite Htext.
  change (negb ("do" =? "do")%string) with false. cbv iota.
  revert s H0. leaves.
Qed.

Lemma parseSWITCH_led fuel : text t = "switch" -> hoare here (parseSWITCH fuel) taken.
Proof.
  intros Htext. destruct fuel; [intros s _; exact I|]. cbn [parseSWITCH].
  apply (hoare_bind _ _ _ _ _ (hoare_rNext _)). intros t'.
  intros s [H0 H1]. rewrite H0 in H1. injection H1 as <-. rewrite Htext.
  change (negb ("switch" =? "switch")%string) with false. cbv iota.
  revert s H0. leaves.
Qed.

End Led.

Lemma parseSTATEMENT_led t fuel s :
  next (reading s) = Some t ->
  includes statementWords (text t) = true ->
  match parseSTATEMENT (S (S fuel)) s with
  | Done r _ => r <> Mismatch
  | _ => True
  end.
Proof.
  intros Hnext. unfold includes, statementWords. cbn [existsb]. intros Hword.
  cbn [parseSTATEMENT].
  set (closes := fun (A : Type) (Q : A -> PState -> Prop) (k : A -> P (TriedParse NodeSTATEMENT)) =>
    forall r, hoare (Q r) (k r) (fun r' _ => r' <> Mismatch)).
  assert (Htried : forall k,
    (forall n, k (Parsed n) = ret (Parsed n)) -> k Pending = ret Pending ->
    closes _ (fun r _ => r <> Mismatch) k).
  { intros k Hparsed Hpending [| |n]; [by intros ? ?| |].
    - rewrite Hpending. by apply hoare_ret.
    - rewrite Hparsed. by apply hoare_ret. }
  destruct (text t =? "if")%string eqn:Hif.
  { apply String.eqb_eq in Hif.
    apply (hoare_bind _ _ _ _ _ (parseIF_led t (S fuel) Hif)); [|exact Hnext].
    by apply Htried. }
  rewrite (bind_Done _ _ _ _ _ (parseIF_other s t Hnext fuel Hif)).
  destruct (text t =? "for")%string eqn:Hfor.
  { apply String.eqb_eq in Hfor.
    apply (hoare_bind _ _ _ _ _ (parseFOR_led t (S fuel) Hfor)); [|exact Hnext].
    by apply Htried. }
  rewrite (bind_Done _ _ _ _ _ (parseFOR_other s t Hnext fuel Hfor)).
  destruct (text t =? "while")%string eqn:Hwhile.
  { apply String.eqb_eq in Hwhile.
    apply (hoare_bind _ _ _ _ _ (parseWHILE_led t (S fuel) Hwhile)); [|exact Hnext].
    by apply Htried. }
  rewrite (bind_Done _ _ _ _ _ (parseWHILE_other s t Hnext fuel Hwhile)).
  destruct (text t =? "return")%string eqn:Hreturn.
  { apply String.eqb_eq in Hreturn.
    apply (hoare_bind _ _ _ _ _ (parseRETURN_led t (S fuel) Hreturn)); [|exact Hnext].
    by apply Htried. }
  rewrite (bind_Done _ _ _ _ _ (parseRETURN_other s t Hnext (S fuel) Hreturn)).
  destruct (text t =? "{")%string eqn:Hblock.
  { apply String.eqb_eq in Hblock.
    apply (hoare_bind _ _ _ _ _ (parseSTATBLOCK_led t (S fuel) Hblock)); [|exact Hnext].
    intros [b|]; [by apply hoare_ret | by intros ? ?]. }
  rewrite (bind_Done _ _ _ _ _ (parseSTATBLOCK_other s t Hnext fuel Hblock)).
  destruct (text t =? "break")%string eqn:Hbreak.
  { apply String.eqb_eq in Hbreak.
    apply (hoare_bind _ _ _ _ _ (parseBREAK_led t Hbreak)); [|exact Hnext].
    intros [b|]; [by apply hoare_ret | by intros ? ?]. }
  rewrite (bind_Done _ _ _ _ _ (parseBREAK_other s t Hnext Hbreak)).
  destruct (text t =? "continue")%string eqn:Hcontinue.
  { apply String.eqb_eq in Hcontinue.
    apply (hoare_bind _ _ _ _ _ (parseCONTINUE_led t Hcontinue)); [|exact Hnext].
    intros [b|]; [by apply hoare_ret | by intros ? ?]. }
  rewrite (bind_Done _ _ _ _ _ (parseCONTINUE_other s t Hnext Hcontinue)).
  destruct (text t =? "do")%string eqn:Hdo.
  { apply String.eqb_eq in Hdo.
    apply (hoare_bind _ _ _ _ _ (parseDOWHILE_led t (S fuel) Hdo)); [|exact Hnext].
    by apply Htried. }
  rewrite (bind_Done _ _ _ _ _ (parseDOWHILE_other s t Hnext fuel Hdo)).
  destruct (text t =? "switch")%string eqn:Hswitch; [|done].
  apply String.eqb_eq in Hswitch.
  apply (hoare_bind _ _ _ _ _ (parseSWITCH_led t (S fuel) Hswitch)); [|exact Hnext].
  by apply Htried.
Qed.

(** X6 (part_000, [parseSTATEMENT]): a statement is tried exactly on the
    nine words [if for while return { break continue do switch].  On any other
    token the result is a mismatch and the world is untouched: no token is
    stepped over or highlighted and nothing is reported; on one of the nine
    the result is never a mismatch. *)
Theorem parseSTATEMENT_tries_nine_words (fuel : nat) (s : PState) (t : TokenObject) :
  next (reading s) = Some t ->
  match parseSTATEMENT (S (S fuel)) s with
  | Done r s' =>
      (r = Mismatch <-> includes statementWords (text t) = false) /\
      (r = Mismatch -> s' = s)
  | _ => True
  end.
Proof.
  intros Hnext. destruct (includes statementWords (text t)) eqn:Hword.
  - pose proof (parseSTATEMENT_led t fuel s Hnext Hword) as Hled.
    destruct (parseSTATEMENT (S (S fuel)) s) as [r s'| |]; [|exact I|exact I].
    split; [split|]; intros; done.
  - rewrite (parseSTATEMENT_other s t Hnext fuel Hword). done.
Qed.

(** *** [expect] *)

(** The message of a failed [expect]. *)
Definition expectMessage (word : string) (atEnd : bool) (t : TokenObject) : string :=
  if atEnd then "Unexpected end of file"
  else if negb (String.eqb (kind t) "reserved") then "Expected reserved word"
  else "Expected reserved word " +:+ word.

(** X2 (part_000, [ReadingState.expect]): [expect] returns true exactly when
    the cursor is not at the end and the next token is the reserved word
    asked for; then it sets the highlight of that token and moves the cursor
    by one, without a diagnostic.  Otherwise it leaves the cursor and the
    tokens as they are and adds one diagnostic at the location of the token
    that [next] gives. *)
Theorem expect_accepts_or_reports
    (word : string) (analyzeToken : HighlightToken) (s : PState) (t : TokenObject) :
  next (reading s) = Some t ->
  let atEnd := isEnd (reading s) in
  let ok := negb atEnd && String.eqb (kind t) "reserved" && String.eqb (text t) word in
  exists s',
    expect word analyzeToken s = Done ok s' /\
    if ok then
      tokens (reading s') =
        <[pos (reading s) :=
            mkToken (kind t) (text t) (location t)
                    (mkHighlight analyzeToken (hlModifier (highlight t)))]>
          (tokens (reading s)) /\
      pos (reading s') = pos (reading s) + 1 /\
      diagnostics s' = diagnostics s
    else
      reading s' = reading s /\
      diagnostics s' = diagnostics s ++ [(location t, expectMessage word atEnd t)].
Proof.
  intros Hnext. cbv zeta. unfold expect, expectMessage.
  rewrite (bind_Done rIsEnd _ s (isEnd (reading s)) s eq_refl).
  destruct (isEnd (reading s)) eqn:Hend.
  - rewrite (bind_Done _ _ _ _ _ (rNext_Done _ _ Hnext)). simpl. eexists. split; [reflexivity|]. split; reflexivity.
  - rewrite (bind_Done _ _ _ _ _ (rNext_Done _ _ Hnext)).
    destruct (String.eqb (kind t) "reserved") eqn:Hkind; cbn [negb andb].
    + rewrite (bind_Done _ _ _ _ _ (rNext_Done _ _ Hnext)).
      destruct (String.eqb (text t) word) eqn:Hword; cbn [negb].
      * unfold confirm, bind, setHighlight, rStep. cbv zeta. rewrite Hnext.
        eexists. split; [reflexivity|]. simpl.
        assert (Hidx : Z.to_nat (nextIndex (reading s)) = pos (reading s)).
        { unfold nextIndex. unfold isEnd in Hend. rewrite Hend. apply Nat2Z.id. }
        rewrite Hidx. repeat split.
      * rewrite (bind_Done _ _ _ _ _ (rNext_Done _ _ Hnext)). simpl.
        eexists. split; [reflexivity|]. split; reflexivity.
    + rewrite (bind_Done _ _ _ _ _ (rNext_Done _ _ Hnext)). simpl.
      eexists. split; [reflexivity|]. split; reflexivity.
Qed.

(** *** Types are never rejected *)

Lemma confirm_Done tok s t :
  next (reading s) = Some t ->
  exists s', confirm tok None s = Done tt s' /\
             pos (reading s') = pos (reading s) + 1 /\
             diagnostics s' = diagnostics s.
Proof.
  intros Hnext. unfold confirm, bind, setHighlight, rStep. cbv zeta. rewrite Hnext.
  eexists. split; [reflexivity|]. split; reflexivity.
Qed.

Lemma parseTYPE_Done s t :
  next (reading s) = Some t ->
  parseTYPE s =
    Done (Some (mkTYPE false None (mkDATATYPE (Z.to_nat (nextIndex (reading s)))) []
                       false false))
         (mkPState
            (mkReading
               (<[Z.to_nat (nextIndex (reading s)) :=
                    mkToken (kind t) (text t) (location t)
                      (mkHighlight
                         (if String.eqb (kind t) "identifier" then HlType else HlBuiltin)
                         (hlModifier (highlight t)))]> (tokens (reading s)))
               (pos (reading s) + 1))
            (diagnostics s)).
Proof.
  intros Hnext.
  pose proof (rNextRef_Done s t Hnext) as Href.
  assert (Hconfirm : forall tok,
             confirm tok None s =
             Done tt (mkPState
                        (mkReading
                           (<[Z.to_nat (nextIndex (reading s)) :=
                                mkToken (kind t) (text t) (location t)
                                        (mkHighlight tok (hlModifier (highlight t)))]>
                              (tokens (reading s)))
                           (pos (reading s) + 1))
                        (diagnostics s))).
  { intros tok. unfold confirm, bind, setHighlight, rStep. cbv zeta. by rewrite Hnext. }
  unfold parseTYPE, parseDATATYPE.
  rewrite (bind_Done (bind rNextRef _) _ s
             (Some (mkDATATYPE (Z.to_nat (nextIndex (reading s)))))
             (mkPState
                (mkReading
                   (<[Z.to_nat (nextIndex (reading s)) :=
                        mkToken (kind t) (text t) (location t)
                          (mkHighlight
                             (if String.eqb (kind t) "identifier" then HlType else HlBuiltin)
                             (hlModifier (highlight t)))]> (tokens (reading s)))
                   (pos (reading s) + 1))
                (diagnostics s))); [reflexivity|].
  rewrite (bind_Done _ _ _ _ _ Href), (bind_Done _ _ _ _ _ (rNext_Done _ _ Hnext)).
  destruct (String.eqb (kind t) "identifier");
    by rewrite (bind_Done _ _ _ _ _ (Hconfirm _)).
Qed.

Lemma hoare_steady {A} (m : P A) n :
  steady m ->
  hoare (fun s => n <= pos (reading s)) m (fun _ s' => n <= pos (reading s')).
Proof.
  intros Hm s Hs. specialize (Hm s). destruct (m s) as [a s'| |]; [|exact I|exact I].
  destruct Hm as (_ & Hp & _). lia.
Qed.

(** X3 (part_000, [parseDATATYPE], [parseTYPE], [parseFUNC]): a type is never
    rejected.  Whatever token is next, [parseTYPE] takes it as the data type:
    the node holds that token object, and the object is now highlighted, as a
    type if its kind is [identifier] and as a builtin otherwise, with the
    modifier it had; the cursor has moved by one and there is no new
    diagnostic.  So [parseFUNC] never returns null, and what it returns has
    taken at least two tokens. *)
Theorem parseTYPE_never_rejects :
  (forall s t,
      next (reading s) = Some t ->
      let i := Z.to_nat (nextIndex (reading s)) in
      tokens (reading s) !! i = Some t /\
      parseTYPE s =
        Done (Some (mkTYPE false None (mkDATATYPE i) [] false false))
             (mkPState
                (mkReading
                   (<[i := mkToken (kind t) (text t) (location t)
                             (mkHighlight
                                (if String.eqb (kind t) "identifier" then HlType
                                 else HlBuiltin)
                                (hlModifier (highlight t)))]> (tokens (reading s)))
                   (pos (reading s) + 1))
                (diagnostics s))) /\
  (forall fuel s,
      match parseFUNC fuel s with
      | Done r s' => is_Some r /\ pos (reading s) + 2 <= pos (reading s')
      | _ => True
      end).
Proof.
  split.
  { intros s t Hnext. cbv zeta. split; [by apply next_lookup | by apply parseTYPE_Done]. }
  intros fuel s.
  cut (hoare (fun s0 => s0 = s) (parseFUNC fuel)
             (fun r s' => is_Some r /\ pos (reading s) + 2 <= pos (reading s')));
    [intros H; exact (H s eq_refl)|].
  unfold parseFUNC.
  apply (hoare_bind _ (fun r s' => is_Some r /\ pos (reading s) + 1 <= pos (reading s'))).
  { intros s0 ->. destruct (next (reading s)) as [t|] eqn:Hnext.
    - rewrite (parseTYPE_Done s t Hnext). cbn [reading pos]. split; [eauto | lia].
    - unfold parseTYPE, parseDATATYPE, bind, rNextRef. by rewrite Hnext. }
  intros [ret_|]; [|by intros s0 [[? [=]] _]].
  apply (hoare_bind _ (fun _ s' => pos (reading s) + 1 <= pos (reading s'))).
  { intros s0 [_ H0]. unfold rNextRef. by destruct (next (reading s0)). }
  intros identifier.
  apply (hoare_bind _ (fun _ s' => pos (reading s) + 2 <= pos (reading s'))).
  { intros s0 H0. simpl. lia. }
  intros _.
  apply (hoare_bind _ _ _ _ _ (hoare_steady _ _ (steady_parsePARAMLIST fuel))).
  intros paramlist.
  apply (hoare_bind _ _ _ _ _ (hoare_steady _ _ (steady_parseSTATBLOCK fuel))).
  intros statblock. apply hoare_ret. intros s0 H0. split; [eauto | exact H0].
Qed.

(** *** The end of the stream *)

(** The cursor is at the last token [t] of the stream, or past the end. *)
Definition endedOn (t : TokenObject) (s : PState) : Prop :=
  length (tokens (reading s)) <= S (pos (reading s)) /\
  last (tokens (reading s)) = Some t.

Lemma endedOn_next t s : endedOn t s -> next (reading s) = Some t.
Proof.
  intros [Hend Hlast].
  assert (Hne : tokens (reading s) <> []) by (intros E; by rewrite E in Hlast).
  destruct (ParserSpec.next_in_range (reading s) Hne) as (t' & Hnext & Hin & Hout).
  rewrite Hnext. rewrite <- Hlast.
  destruct (Nat.le_gt_cases (length (tokens (reading s))) (pos (reading s))) as [Hle|Hlt].
  - symmetry. apply Hout, Hle.
  - rewrite <- (Hin Hlt). rewrite last_lookup. f_equal. lia.
Qed.

Lemma endedOn_step t s :
  endedOn t s -> endedOn t (mkPState (step (reading s)) (diagnostics s)).
Proof. intros [Hend Hlast]. split; [simpl; lia | exact Hlast]. Qed.

Lemma endedOn_addError t s loc msg :
  endedOn t s -> endedOn t (mkPState (reading s) (diagnostics s ++ [(loc, msg)])).
Proof. intros H. exact H. Qed.

(** An expression does not start with a reserved word that is no prefix
    operator: [parseASSIGN] returns null and leaves the world as it is. *)
Lemma parseASSIGN_reserved s t fuel :
  next (reading s) = Some t ->
  String.eqb (kind t) "reserved" = true ->
  includes ["-"; "+"; "!"; "++"; "--"; "~"; "@"] (text t) = false ->
  parseASSIGN (S (S fuel)) s = Done None s.
Proof.
  intros Hnext Hkind Hpre.
  assert (Hterm : parseEXPRTERM s = Done None s).
  { unfold parseEXPRTERM, parseEXPRTERM2. cbv zeta.
    rewrite (bind_Done _ _ s None s); [reflexivity|].
    rewrite (bind_Done _ _ _ _ _ (rNext_Done _ _ Hnext)). rewrite Hpre.
    rewrite (bind_Done _ _ s None s eq_refl).
    rewrite (bind_Done _ _ s None s); [reflexivity|].
    unfold parseEXPRVALUE.
    rewrite (bind_Done _ _ _ _ _ (rNextRef_Done _ _ Hnext)).
    rewrite (bind_Done _ _ _ _ _ (rNext_Done _ _ Hnext)).
    by rewrite Hkind. }
  cbn [parseASSIGN]. unfold parseCONDITION. cbn [parseEXPR].
  rewrite (bind_Done _ _ s None s); [reflexivity|].
  rewrite (bind_Done _ _ s None s); [reflexivity|].
  by rewrite (bind_Done _ _ _ _ _ Hterm).
Qed.

Section Truncated.

(** The stream has ended on the reserved word [return]. *)
Variable t : TokenObject.
Hypothesis Hkind : kind t = "reserved".
Hypothesis Htext : text t = "return".

Lemma parseRETURN_truncated s fuel :
  endedOn t s ->
  exists s', parseRETURN (S (S fuel)) s = Done Pending s' /\ endedOn t s'.
Proof.
  intros Hs. pose proof (endedOn_next t s Hs) as Hnext.
  unfold parseRETURN.
  rewrite (bind_Done _ _ _ _ _ (rNext_Done _ _ Hnext)). rewrite Htext.
  change (negb ("return" =? "return")%string) with false. cbv iota.
  rewrite (bind_Done rStep _ s tt _ eq_refl).
  set (s1 := mkPState (step (reading s)) (diagnostics s)).
  assert (Hs1 : endedOn t s1) by apply endedOn_step, Hs.
  pose proof (endedOn_next t s1 Hs1) as Hnext1.
  rewrite (bind_Done _ _ _ _ _
             (parseASSIGN_reserved s1 t fuel Hnext1 ltac:(by rewrite Hkind)
                                   ltac:(by rewrite Htext))).
  rewrite (bind_Done _ _ _ _ _ (rNext_Done _ _ Hnext1)).
  eexists. split; [reflexivity|]. apply endedOn_addError, Hs1.
Qed.

Lemma parseSTATEMENT_truncated s fuel :
  endedOn t s ->
  parseSTATEMENT fuel s = OutOfFuel \/
  exists s', parseSTATEMENT fuel s = Done Pending s' /\ endedOn t s'.
Proof.
  intros Hs. pose proof (endedOn_next t s Hs) as Hnext.
  destruct fuel as [|[|[|fuel]]].
  - by left.
  - left. cbn [parseSTATEMENT]. by apply bind_OutOfFuel.
  - left. cbn [parseSTATEMENT].
    rewrite (bind_Done _ _ _ _ _ (parseIF_other s t Hnext 0 ltac:(by rewrite Htext))).
    rewrite (bind_Done _ _ _ _ _ (parseFOR_other s t Hnext 0 ltac:(by rewrite Htext))).
    rewrite (bind_Done _ _ _ _ _ (parseWHILE_other s t Hnext 0 ltac:(by rewrite Htext))).
    apply bind_OutOfFuel. unfold parseRETURN.
    rewrite (bind_Done _ _ _ _ _ (rNext_Done _ _ Hnext)). rewrite Htext.
    change (negb ("return" =? "return")%string) with false. cbv iota.
    rewrite (bind_Done rStep _ s tt _ eq_refl). by apply bind_OutOfFuel.
  - right. cbn [parseSTATEMENT].
    rewrite (bind_Done _ _ _ _ _ (parseIF_other s t Hnext _ ltac:(by rewrite Htext))).
    rewrite (bind_Done _ _ _ _ _ (parseFOR_other s t Hnext _ ltac:(by rewrite Htext))).
    rewrite (bind_Done _ _ _ _ _ (parseWHILE_other s t Hnext _ ltac:(by rewrite Htext))).
    destruct (parseRETURN_truncated s fuel Hs) as (s' & E & Hs').
    rewrite (bind_Done _ _ _ _ _ E). eauto.
Qed.

(** X4 (part_000, [parseCASE]): the statement loop of [parseCASE] does not
    end when the stream ends on the reserved word [return] and the cursor
    has reached it.  [parseRETURN] steps, finds no expression and reports
    [pending]; from then on [next] keeps giving that last token and the loop
    goes on: whatever the fuel, the run exhausts it. *)
Theorem parseCASE_loop_never_ends (fuel : nat) :
  forall (statements : list NodeSTATEMENT) (s : PState),
    endedOn t s ->
    parseCASE_loop fuel statements s = OutOfFuel.
Proof.
  induction fuel as [|fuel IH]; intros statements s Hs; [reflexivity|].
  cbn [parseCASE_loop].
  destruct (parseSTATEMENT_truncated s fuel Hs) as [E|(s' & E & Hs')].
  - by apply bind_OutOfFuel.
  - rewrite (bind_Done _ _ _ _ _ E). apply IH, Hs'.
Qed.

End Truncated.

(** *** The whole parse *)

Lemma sameTokens_map l l' :
  Forall2 sameToken l l' ->
  map kind l' = map kind l /\ map text l' = map text l /\ map location l' = map location l.
Proof.
  induction 1 as [|a b l l' (K & T & L) _ (IK & IT & IL)]; [done|].
  simpl. by rewrite K, T, L, IK, IT, IL.
Qed.

(** X5 (part_000, every parse function): parsing only ever rewrites
    highlights, moves the cursor forward and appends diagnostics.  Each
    parse function returns in a world with the same tokens up to their
    highlight, the cursor not before where it was (there is no
    backtracking) and the earlier diagnostics still in front; so after
    [parseFromTokens] the token array has its kinds, texts and locations
    unchanged and the diagnostic sink has only grown. *)
Theorem parse_keeps_the_stream :
  (forall fuel,
      steady parseTYPE /\ steady (parseEXPR fuel) /\ steady (parseASSIGN fuel) /\
      steady (parseVAR fuel) /\ steady (parsePARAMLIST fuel) /\
      steady (parseSTATEMENT fuel) /\ steady (parseSTATBLOCK fuel) /\
      steady (parseFUNC fuel) /\ steady (parseSCRIPT fuel)) /\
  (forall fuel tokens diags,
      match parseFromTokens fuel tokens diags with
      | Done _ s' =>
          map kind (Parser.tokens (reading s')) = map kind tokens /\
          map text (Parser.tokens (reading s')) = map text tokens /\
          map location (Parser.tokens (reading s')) = map location tokens /\
          exists added, diagnostics s' = diags ++ added
      | _ => True
      end).
Proof.
  split.
  - intros fuel. repeat split; auto using steady_parseSTATEMENT, steady_parseSCRIPT
                                 with parser_steady.
  - intros fuel toks diags. unfold parseFromTokens.
    pose proof (steady_parseSCRIPT fuel (mkPState (mkReading toks 0) diags)) as H.
    destruct (parseSCRIPT fuel _) as [script s'| |]; [|exact I|exact I].
    destruct H as (Htok & _ & Hdiag). apply sameTokens_map in Htok.
    destruct Htok as (K & T & L). auto.
Qed.

(** *** Streams at hand *)

Definition word (k t : string) (column : nat) : TokenObject :=
  mkToken k t (mkLocation 0 column) (mkHighlight (HlOther 0) 0).
Definition reserved (t : string) (column : nat) : TokenObject := word "reserved" t column.
Definition name (t : string) (column : nat) : TokenObject := word "identifier" t column.

(** [int f ( ) { if ( a ) break ; else break ; }] *)
Definition withElse : list TokenObject :=
  [reserved "int" 0; name "f" 4; reserved "(" 5; reserved ")" 6; reserved "{" 8;
   reserved "if" 10; reserved "(" 13; name "a" 14; reserved ")" 15;
   reserved "break" 17; reserved ";" 22; reserved "else" 24;
   reserved "break" 29; reserved ";" 34; reserved "}" 36].

(** [parseIF] on the [if] of [withElse]: the statement comes without its
    [else] branch, and with a diagnostic at the [else]. *)
Lemma parseIF_never_attaches_else_withElse :
  exists condition ts s',
    parseIF 30 (mkPState (mkReading withElse 5) []) =
      Done (Parsed (NodeIF condition ts None)) s' /\
    diagnostics s' = [(mkLocation 0 24, "Expected statement")].
Proof.
  pose proof (parseIF_never_attaches_else 30 (mkPState (mkReading withElse 5) [])) as H.
  destruct (parseIF 30 (mkPState (mkReading withElse 5) [])) as [[| |st] s'| |] eqn:E;
    try (vm_compute in E; discriminate).
  destruct H as (condition & ts & ->). exists condition, ts, s'.
  split; [reflexivity|].
  apply (f_equal (fun o => match o with Done _ s => diagnostics s | _ => [] end)) in E.
  vm_compute in E. symmetry. exact E.
Defined.

(** [expect] of [)] at the [(] of [withElse], and of [(] there. *)
Lemma expect_accepts_or_reports_paren :
  next (mkReading withElse 2) = Some (reserved "(" 5) /\
  (exists s', expect ")" HlOperator (mkPState (mkReading withElse 2) []) = Done false s' /\
              reading s' = mkReading withElse 2 /\
              diagnostics s' = [(mkLocation 0 5, "Expected reserved word )")]) /\
  (exists s', expect "(" HlOperator (mkPState (mkReading withElse 2) []) = Done true s' /\
              pos (reading s') = 3 /\ diagnostics s' = []).
Proof.
  assert (Hnext : next (mkReading withElse 2) = Some (reserved "(" 5)) by reflexivity.
  split; [exact Hnext|]. split.
  - destruct (expect_accepts_or_reports ")" HlOperator (mkPState (mkReading withElse 2) [])
                _ Hnext) as (s' & E & Hr & Hd).
    exists s'. split; [exact E|]. split; [exact Hr | exact Hd].
  - destruct (expect_accepts_or_reports "(" HlOperator (mkPState (mkReading withElse 2) [])
                _ Hnext) as (s' & E & _ & Hp & Hd).
    exists s'. split; [exact E|]. split; [exact Hp | exact Hd].
Defined.

(** [parseTYPE] takes the word [else] of [withElse], the token at index 11,
    as a type, and highlights it as a builtin. *)
Lemma parseTYPE_never_rejects_else :
  next (mkReading withElse 11) = Some (reserved "else" 24) /\
  exists s',
    parseTYPE (mkPState (mkReading withElse 11) []) =
      Done (Some (mkTYPE false None (mkDATATYPE 11) [] false false)) s' /\
    pos (reading s') = 12 /\
    hlToken <$> (highlight <$> tokens (reading s') !! 11) = Some HlBuiltin.
Proof.
  assert (Hnext : next (mkReading withElse 11) = Some (reserved "else" 24)) by reflexivity.
  split; [exact Hnext|].
  destruct (proj1 parseTYPE_never_rejects (mkPState (mkReading withElse 11) []) _ Hnext)
    as [_ E].
  eexists. split; [exact E|]. split; reflexivity.
Defined.

(** [parseSTATEMENT] at the [else] of [withElse] returns a mismatch and
    leaves the world as it was. *)
Lemma parseSTATEMENT_tries_nine_words_else :
  next (mkReading withElse 11) = Some (reserved "else" 24) /\
  parseSTATEMENT 30 (mkPState (mkReading withElse 11) []) =
    Done Mismatch (mkPState (mkReading withElse 11) []).
Proof.
  assert (Hnext : next (mkReading withElse 11) = Some (reserved "else" 24)) by reflexivity.
  split; [exact Hnext|].
  pose proof (parseSTATEMENT_tries_nine_words 28 (mkPState (mkReading withElse 11) []) _ Hnext)
    as H.
  destruct (parseSTATEMENT 30 (mkPState (mkReading withElse 11) [])) as [r s'| |] eqn:E;
    try (vm_compute in E; discriminate).
  destruct H as [[_ H1] H2].
  assert (Hr : r = Mismatch) by (apply H1; reflexivity).
  rewrite (H2 Hr), Hr. reflexivity.
Defined.

(** [case 1 : return], a stream that ends in a [case] without its end. *)
Definition truncatedCase : list TokenObject :=
  [reserved "case" 0; word "number" "1" 5; reserved ":" 7; reserved "return" 9].

(** The statement loop of the [case], entered at the [return]. *)
Lemma parseCASE_loop_never_ends_truncated :
  endedOn (reserved "return" 9) (mkPState (mkReading truncatedCase 3) []) /\
  parseCASE_loop 1000 [] (mkPState (mkReading truncatedCase 3) []) = OutOfFuel.
Proof.
  assert (H : endedOn (reserved "return" 9) (mkPState (mkReading truncatedCase 3) [])).
  { split; [simpl; lia | reflexivity]. }
  split; [exact H|].
  exact (parseCASE_loop_never_ends (reserved "return" 9) eq_refl eq_refl 1000 [] _ H).
Defined.

(** The parse of [withElse] leaves the texts of the tokens as they were. *)
Lemma parse_keeps_the_stream_withElse :
  exists script s',
    parseFromTokens 30 withElse [] = Done script s' /\
    map text (tokens (reading s')) = map text withElse.
Proof.
  pose proof (proj2 parse_keeps_the_stream 30 withElse []) as H.
  destruct (parseFromTokens 30 withElse []) as [script s'| |] eqn:E;
    try (vm_compute in E; discriminate).
  exists script, s'. split; [reflexivity|]. apply H.
Defined.

End ParserFacts.

(** ** Signature help (signatureHelp.ts) *)

Module SignatureHelpFacts.
Import SignatureHelp.

Lemma append_assoc (a b c : string) : (a +:+ b) +:+ c = a +:+ (b +:+ c).
Proof.
  induction a as [|x a IH]; [reflexivity|].
  change (String x ((a +:+ b) +:+ c) = String x (a +:+ (b +:+ c))). by f_equal.
Qed.

Lemma append_empty (a : string) : a +:+ "" = a.
Proof.
  induction a as [|x a IH]; [reflexivity|].
  change (String x (a +:+ "") = String x a). by f_equal.
Qed.

(** The labels [ls] appended one by one, each after [", "]. *)
Fixpoint afterCommas (ls : list string) : string :=
  match ls with
  | [] => ""
  | l :: ls' => ", " +:+ l +:+ afterCommas ls'
  end.

Lemma concat_afterCommas l ls : String.concat ", " (l :: ls) = l +:+ afterCommas ls.
Proof.
  revert l. induction ls as [|l' ls IH]; intros l.
  - cbn. by rewrite append_empty.
  - change (String.concat ", " (l :: l' :: ls))
      with (l +:+ ", " +:+ String.concat ", " (l' :: ls)).
    rewrite IH. reflexivity.
Qed.

Section Help.

Variables ResolvedType TemplateTranslator Documentation : Type.
Variable stringifyResolvedType : option ResolvedType -> string.
Variable applyTemplateTranslator :
  option ResolvedType -> option TemplateTranslator -> option ResolvedType.
Variable getDocumentCommentOfSymbol : SymbolFunction ResolvedType -> Documentation.
Variable extendForward : TokenRange -> nat -> TokenRange.
Variable positionInRange : TokenRange -> TextPosition -> bool.
Variable lookupCallee : SymbolFunction ResolvedType -> option (SymbolHolder ResolvedType).

Section Signature.

Variable hint : ComplementFunctionCall ResolvedType TemplateTranslator.
Variable expectedCallee : SymbolFunction ResolvedType.
Variable caret : TextPosition.

(** The label of the parameter at index [i]. *)
Definition labelOf (i : nat) (paramIdentifier : NodeParam) : string :=
  let label :=
    stringifyResolvedType
      (applyTemplateTranslator (mjoin (parameterTypes _ expectedCallee !! i))
                               (calleeTemplateTranslator _ _ hint)) in
  match identifier paramIdentifier with
  | Some id => label +:+ " " +:+ text id
  | None => label
  end.

(** There is an argument at index [i], and it does not start after the
    caret. *)
Definition startsBy (i : nat) : bool :=
  match map assignRange (argList (callerArgumentsNode _ _ hint)) !! i with
  | Some range => negb (isLessThan caret (locStart (location (rangeStart range))))
  | None => false
  end.

(** The token after the argument at index [i] is a comma. *)
Definition commaAfter (i : nat) : bool :=
  match map assignRange (argList (callerArgumentsNode _ _ hint)) !! i with
  | Some range =>
      match next (rangeEnd range) with
      | Some n => String.eqb (text n) ","
      | None => false
      end
  | None => false
  end.

(** The index that the argument at [i] makes active. *)
Definition activeAt (i : nat) : nat := if commaAfter i then i + 1 else i.

Lemma signatureStep_eq i p activeIndex signatureLabel parameters :
  signatureStep _ _ stringifyResolvedType applyTemplateTranslator hint expectedCallee caret
                i p (activeIndex, signatureLabel, parameters) =
    (if startsBy i then activeAt i else activeIndex,
     (if 0 <? i then signatureLabel +:+ ", " else signatureLabel) +:+ labelOf i p,
     parameters ++ [mkParameter (labelOf i p)]).
Proof.
  unfold signatureStep, startsBy, activeAt, commaAfter, labelOf.
  destruct (map assignRange (argList (callerArgumentsNode _ _ hint)) !! i) as [range|];
    [|reflexivity].
  destruct (negb (isLessThan caret (locStart (location (rangeStart range))))); [|reflexivity].
  destruct (next (rangeEnd range)) as [n|]; reflexivity.
Qed.

(** The labels of the parameters [rest], the first of which has index [i]. *)
Fixpoint labelsFrom (i : nat) (rest : list NodeParam) : list string :=
  match rest with
  | [] => []
  | p :: rest' => labelOf i p :: labelsFrom (S i) rest'
  end.

Lemma labelsFrom_imap rest : forall i,
  labelsFrom i rest = imap (fun j p => labelOf (i + j) p) rest.
Proof.
  induction rest as [|p rest IH]; intros i; [reflexivity|].
  cbn [labelsFrom]. rewrite imap_cons, Nat.add_0_r, IH. f_equal.
  apply imap_ext. intros j x _. cbn. f_equal. lia.
Qed.

Lemma signatureLoop_eq (rest : list NodeParam) : forall i activeIndex signatureLabel parameters,
  signatureLoop _ _ stringifyResolvedType applyTemplateTranslator hint expectedCallee caret
                i rest (activeIndex, signatureLabel, parameters) =
    (match last (List.filter startsBy (seq i (length rest))) with
     | Some j => activeAt j
     | None => activeIndex
     end,
     signatureLabel +:+
       match i, labelsFrom i rest with
       | 0, l :: ls => l +:+ afterCommas ls
       | _, ls => afterCommas ls
       end,
     parameters ++ map mkParameter (labelsFrom i rest)).
Proof.
  induction rest as [|p rest IH]; intros i activeIndex signatureLabel parameters.
  - cbn. rewrite app_nil_r. destruct i; by rewrite append_empty.
  - cbn [signatureLoop]. rewrite signatureStep_eq, IH. clear IH.
    cbn [labelsFrom map]. f_equal; [f_equal|].
    + cbn [length seq List.filter].
      destruct (startsBy i).
      * rewrite last_cons.
        by destruct (last (List.filter startsBy (seq (S i) (length rest)))).
      * reflexivity.
    + destruct i as [|i]; cbn [Nat.ltb Nat.leb].
      * by rewrite !append_assoc.
      * cbn [afterCommas]. by rewrite !append_assoc.
    + by rewrite <- app_assoc.
Qed.

Lemma startsBy_args i :
  startsBy i = true -> i < length (argList (callerArgumentsNode _ _ hint)).
Proof.
  unfold startsBy. intros H.
  destruct (map assignRange (argList (callerArgumentsNode _ _ hint)) !! i) as [range|] eqn:E;
    [|discriminate].
  apply lookup_lt_Some in E. by rewrite length_map in E.
Qed.

(** X16 (signatureHelp.ts, [getFunctionSignature]): a signature has one
    parameter for each declared parameter, in order, labelled with the
    printed type and, where the parameter is named, a space and the name; the
    label of the signature is the name of the function followed by these
    labels in parentheses, separated by [", "].  None of this depends on the
    caret or on the arguments of the call. *)
Theorem getFunctionSignature_label :
  let sig := getFunctionSignature _ _ _ stringifyResolvedType applyTemplateTranslator
               getDocumentCommentOfSymbol hint expectedCallee caret in
  parameters _ sig =
    imap (fun i p => mkParameter (labelOf i p)) (paramList (linkedNode _ expectedCallee)) /\
  label _ sig =
    text (funcIdentifier (linkedNode _ expectedCallee)) +:+ "(" +:+
    String.concat ", " (map paramLabel (parameters _ sig)) +:+ ")" /\
  documentation _ sig = getDocumentCommentOfSymbol expectedCallee.
Proof.
  unfold getFunctionSignature. rewrite signatureLoop_eq.
  cbn [parameters label documentation app].
  assert (Hmap : map paramLabel (map mkParameter
                   (labelsFrom 0 (paramList (linkedNode _ expectedCallee)))) =
                 labelsFrom 0 (paramList (linkedNode _ expectedCallee))).
  { rewrite map_map. cbn [paramLabel]. apply map_id. }
  split; [|split; [|reflexivity]].
  - rewrite labelsFrom_imap. change (@map) with (@fmap list _). rewrite fmap_imap.
    reflexivity.
  - rewrite Hmap. rewrite !append_assoc. f_equal. f_equal.
    destruct (labelsFrom 0 (paramList (linkedNode _ expectedCallee))) as [|l ls];
      [reflexivity|].
    by rewrite concat_afterCommas.
Qed.

(** X17 (signatureHelp.ts, [getFunctionSignature]): the active parameter is
    decided by the last argument that has a parameter at its index and does
    not start after the caret: it is the index of that argument, or one more
    when a comma follows the argument; it is 0 when there is no such
    argument.  It is never more than the number of parameters nor than the
    number of arguments. *)
Theorem activeParameter_by_last_argument :
  let sig := getFunctionSignature _ _ _ stringifyResolvedType applyTemplateTranslator
               getDocumentCommentOfSymbol hint expectedCallee caret in
  let params := paramList (linkedNode _ expectedCallee) in
  activeParameter _ sig =
    match last (List.filter startsBy (seq 0 (length params))) with
    | Some j => if commaAfter j then j + 1 else j
    | None => 0
    end /\
  activeParameter _ sig <= length params /\
  activeParameter _ sig <= length (argList (callerArgumentsNode _ _ hint)).
Proof.
  unfold getFunctionSignature. rewrite signatureLoop_eq. cbn [activeParameter].
  split; [reflexivity|].
  destruct (last (List.filter startsBy (seq 0 (length (paramList (linkedNode _ expectedCallee))))))
    as [j|] eqn:Hlast; [|lia].
  apply last_Some in Hlast as [l' Hl'].
  assert (Hin : In j (List.filter startsBy
                        (seq 0 (length (paramList (linkedNode _ expectedCallee)))))).
  { rewrite Hl'. apply in_or_app. right. by left. }
  apply filter_In in Hin as [Hseq Hstarts].
  apply in_seq in Hseq. apply startsBy_args in Hstarts.
  unfold activeAt. destruct (commaAfter j); lia.
Qed.

End Signature.

(** The call of the hint is where the caret is. *)
Definition atCaret (hint : ComplementFunctionCall ResolvedType TemplateTranslator)
    (caret : TextPosition) : bool :=
  let range := nodeRange (callerArgumentsNode _ _ hint) in
  let shouldExtend := character caret <? character (locEnd (location (rangeEnd range))) in
  positionInRange (extendForward range (if shouldExtend then 1 else 0)) caret.

(** The loop passes over the hint: no call, a call elsewhere, or a call of
    something that is no function. *)
Definition passedOver (caret : TextPosition)
    (h : ComplementHint ResolvedType TemplateTranslator) : bool :=
  match h with
  | OtherHint _ _ => true
  | FunctionCall _ _ hint =>
      negb (atCaret hint caret) ||
      match lookupCallee (calleeFuncHolderFirst _ _ hint) with
      | Some (OtherSymbol _ _) => true
      | _ => false
      end
  end.

(** X18 (signatureHelp.ts, [provideSignatureHelp]): the first call at the
    caret decides, unless its callee is found and is no function, in which
    case the search goes on behind it.  Where the callee is a function the
    signatures are those of its overloads, one each and in order, and the
    hints after the call are not looked at; where the callee is undefined the
    request fails; and where every hint is passed over the list of signatures
    is empty. *)
Theorem provideSignatureHelp_first_call (caret : TextPosition)
    (before after : list (ComplementHint ResolvedType TemplateTranslator))
    (hint : ComplementFunctionCall ResolvedType TemplateTranslator) :
  Forall (fun h => passedOver caret h = true) before ->
  provideSignatureHelp _ _ _ stringifyResolvedType applyTemplateTranslator
    getDocumentCommentOfSymbol extendForward positionInRange lookupCallee before caret
    = Some [] /\
  (atCaret hint caret = true ->
   provideSignatureHelp _ _ _ stringifyResolvedType applyTemplateTranslator
     getDocumentCommentOfSymbol extendForward positionInRange lookupCallee
     (before ++ FunctionCall _ _ hint :: after) caret =
   match lookupCallee (calleeFuncHolderFirst _ _ hint) with
   | Some (FunctionHolder _ overloadList) =>
       Some (map (fun callee =>
                    getFunctionSignature _ _ _ stringifyResolvedType applyTemplateTranslator
                      getDocumentCommentOfSymbol hint callee caret) overloadList)
   | Some (OtherSymbol _ _) =>
       provideSignatureHelp _ _ _ stringifyResolvedType applyTemplateTranslator
         getDocumentCommentOfSymbol extendForward positionInRange lookupCallee after caret
   | None => None
   end).
Proof.
  unfold provideSignatureHelp. intros Hbefore.
  induction before as [|h before IH].
  - split; [reflexivity|]. intros Hat. cbn [app provideLoop].
    unfold atCaret in Hat. rewrite Hat.
    destruct (lookupCallee (calleeFuncHolderFirst _ _ hint)) as [[l|n]|]; reflexivity.
  - apply Forall_cons in Hbefore as [Hh Hbefore]. specialize (IH Hbefore).
    assert (Hstep : forall rest,
              provideLoop _ _ _ stringifyResolvedType applyTemplateTranslator
                getDocumentCommentOfSymbol extendForward positionInRange lookupCallee
                (h :: rest) caret =
              provideLoop _ _ _ stringifyResolvedType applyTemplateTranslator
                getDocumentCommentOfSymbol extendForward positionInRange lookupCallee
                rest caret).
    { intros rest. destruct h as [hint0|]; [|reflexivity].
      cbn [provideLoop]. unfold passedOver, atCaret in Hh.
      destruct (positionInRange _ caret); [|reflexivity].
      cbn [negb orb] in Hh.
      destruct (lookupCallee (calleeFuncHolderFirst _ _ hint0)) as [[l|n]|];
        [discriminate | reflexivity | discriminate]. }
    split.
    + rewrite Hstep. apply IH.
    + intros Hat. cbn [app]. rewrite Hstep. by apply IH.
Qed.

End Help.


(** The call [f(a, b)] with a hint of another kind before it. *)
Lemma provideSignatureHelp_first_call_f :
  Forall (fun h => passedOver string unit SignatureHelpSpec.extendBy SignatureHelpSpec.inBounds
                     SignatureHelpSpec.lookupF (SignatureHelpSpec.at_ 3) h = true)
         [OtherHint string unit] /\
  atCaret string unit SignatureHelpSpec.extendBy SignatureHelpSpec.inBounds
          SignatureHelpSpec.callHint (SignatureHelpSpec.at_ 3) = true /\
  provideSignatureHelp string unit unit SignatureHelpSpec.printType
    SignatureHelpSpec.noTranslation SignatureHelpSpec.noDocumentation
    SignatureHelpSpec.extendBy SignatureHelpSpec.inBounds SignatureHelpSpec.lookupF
    [OtherHint string unit; FunctionCall string unit SignatureHelpSpec.callHint;
     FunctionCall string unit SignatureHelpSpec.callHint]
    (SignatureHelpSpec.at_ 3) =
  Some (map (fun callee =>
               getFunctionSignature string unit unit SignatureHelpSpec.printType
                 SignatureHelpSpec.noTranslation SignatureHelpSpec.noDocumentation
                 SignatureHelpSpec.callHint callee (SignatureHelpSpec.at_ 3))
            [SignatureHelpSpec.overload2; SignatureHelpSpec.overload1]).
Proof.
  split; [repeat constructor|]. split; [reflexivity|].
  refine (proj2 (provideSignatureHelp_first_call string unit unit SignatureHelpSpec.printType
           SignatureHelpSpec.noTranslation SignatureHelpSpec.noDocumentation
           SignatureHelpSpec.extendBy SignatureHelpSpec.inBounds SignatureHelpSpec.lookupF
           (SignatureHelpSpec.at_ 3) [OtherHint string unit]
           [FunctionCall string unit SignatureHelpSpec.callHint]
           SignatureHelpSpec.callHint _) _).
  - repeat constructor.
  - reflexivity.
Defined.

End SignatureHelpFacts.

(** ** The analysis scheduler: re-analysis and flushing *)

Module ResolverFacts.
Import Workspace.

Section Files.

Variable readFileContent : string -> option string.
Variable getParentDirectoryList : string -> list string.
Variable resolveUri : string -> string -> string.
Variable readdirSync : string -> list Dirent.
Variable implicitMutualInclusion : bool.
Variable inspectFile : string -> string -> AnalysisResolver -> AnalysisResolver.

Local Notation findPredefinedIn :=
  (Workspace.findPredefinedIn readFileContent resolveUri readdirSync inspectFile).
Local Notation findPredefinedUri :=
  (Workspace.findPredefinedUri readFileContent getParentDirectoryList resolveUri readdirSync
                               inspectFile).
Local Notation resolveIncludePaths :=
  (Workspace.resolveIncludePaths resolveUri implicitMutualInclusion).
Local Notation collectIncludes :=
  (Workspace.collectIncludes readFileContent resolveUri inspectFile).
Local Notation analyzeFile :=
  (Workspace.analyzeFile readFileContent getParentDirectoryList resolveUri readdirSync
                         implicitMutualInclusion inspectFile).
Local Notation dependedFilesOf :=
  (Workspace.dependedFilesOf readFileContent getParentDirectoryList resolveUri readdirSync
                             implicitMutualInclusion inspectFile).
Local Notation reanalyzeFilesWithDependency :=
  (Workspace.reanalyzeFilesWithDependency readFileContent getParentDirectoryList resolveUri
                                          readdirSync implicitMutualInclusion inspectFile).
Local Notation popAndAnalyze :=
  (Workspace.popAndAnalyze readFileContent getParentDirectoryList resolveUri readdirSync
                           implicitMutualInclusion inspectFile).
Local Notation handleAnalyze :=
  (Workspace.handleAnalyze readFileContent getParentDirectoryList resolveUri readdirSync
                           implicitMutualInclusion inspectFile).
Local Notation fire :=
  (Workspace.fire readFileContent getParentDirectoryList resolveUri readdirSync
                  implicitMutualInclusion inspectFile).

(** *** A workspace at rest *)

(** What the loop of [findPredefinedUri] returns when it inspects nothing:
    in each directory before the one it returns for, there is no resolved
    record of an [as.predefined], the target is not that file and the file
    cannot be read; [None] when it inspects. *)
Fixpoint settledIn (dirs : list string) (targetUri : string) (this : AnalysisResolver)
    : option (option string) :=
  match dirs with
  | [] => Some None
  | dir :: dirs =>
      let predefinedUri := dir +:+ "/" +:+ predefinedFileName in
      if match JsMap.get (recordList this) predefinedUri with Some _ => true | None => false end
         && existsb (String.eqb predefinedUri) (_resolvedPredefinedFilepaths this)
      then Some (Some predefinedUri)
      else if negb (String.eqb targetUri predefinedUri)
              && match readFileContent predefinedUri with None => true | Some _ => false end
      then settledIn dirs targetUri this
      else None
  end.

Definition settled (targetUri : string) (this : AnalysisResolver) : option (option string) :=
  settledIn (getParentDirectoryList targetUri) targetUri this.

(** The include paths of a record for which nothing is inspected. *)
Definition includesOf (r : PartialInspectRecord) (this : AnalysisResolver) : list string :=
  match settled (uri r) this with
  | Some predefinedUri => resolveIncludePaths r predefinedUri this
  | None => []
  end.

(** A record is at rest: [findPredefinedUri] inspects nothing for it, and
    its include paths all lead to records, so that its analysis inspects no
    file. *)
Definition atRest (this : AnalysisResolver) (r : PartialInspectRecord) : bool :=
  match settled (uri r) this with
  | Some predefinedUri =>
      forallb (fun path =>
                 match JsMap.get (recordList this) (resolveUri (uri r) path) with
                 | Some _ => true
                 | None => false
                 end) (resolveIncludePaths r predefinedUri this)
  | None => false
  end.

(** The records that the queue holds. *)
Definition queuedRecords (q : AnalysisQueue) : list PartialInspectRecord :=
  map record (directQueue q ++ indirectQueue q ++ lazyIndirectQueue q).

(** Every record of the map and of the queue is at rest. *)
Definition workspaceAtRest (this : AnalysisResolver) : Prop :=
  Forall (fun r => atRest this r = true) (JsMap.values (recordList this)) /\
  Forall (fun r => atRest this r = true) (queuedRecords (_analysisQueue this)).

(** Two resolvers with the same records and the same resolved files. *)
Definition sameFiles (this this' : AnalysisResolver) : Prop :=
  recordList this' = recordList this /\
  _resolvedPredefinedFilepaths this' = _resolvedPredefinedFilepaths this.

Lemma settledIn_sameFiles dirs targetUri this this' :
  sameFiles this this' -> settledIn dirs targetUri this' = settledIn dirs targetUri this.
Proof.
  intros [Hr Hp]. induction dirs as [|dir dirs IH]; [reflexivity|].
  cbn [settledIn]. by rewrite Hr, Hp, IH.
Qed.

Lemma resolveIncludePaths_sameFiles r p this this' :
  sameFiles this this' -> resolveIncludePaths r p this' = resolveIncludePaths r p this.
Proof. intros [Hr _]. unfold Workspace.resolveIncludePaths. by rewrite Hr. Qed.

Lemma includesOf_sameFiles r this this' :
  sameFiles this this' -> includesOf r this' = includesOf r this.
Proof.
  intros H. unfold includesOf, settled. rewrite (settledIn_sameFiles _ _ _ _ H).
  destruct (settledIn _ _ _); [|reflexivity]. by apply resolveIncludePaths_sameFiles.
Qed.

Lemma atRest_sameFiles r this this' :
  sameFiles this this' -> atRest this' r = atRest this r.
Proof.
  intros H. unfold atRest, settled. rewrite (settledIn_sameFiles _ _ _ _ H).
  destruct (settledIn _ _ _) as [p|]; [|reflexivity].
  rewrite (resolveIncludePaths_sameFiles _ _ _ _ H). destruct H as [-> _]. reflexivity.
Qed.

Lemma findPredefinedIn_settled dirs targetUri this p :
  settledIn dirs targetUri this = Some p -> findPredefinedIn dirs targetUri this = (p, this).
Proof.
  induction dirs as [|dir dirs IH]; cbn [settledIn Workspace.findPredefinedIn]; cbv zeta.
  - by intros [= <-].
  - destruct (_ && _); [by intros [= <-]|].
    destruct (negb (String.eqb targetUri (dir +:+ "/" +:+ predefinedFileName)));
      cbn [andb]; [|discriminate].
    destruct (readFileContent (dir +:+ "/" +:+ predefinedFileName)); [discriminate|].
    exact IH.
Qed.

Lemma findPredefinedUri_settled targetUri this p :
  settled targetUri this = Some p -> findPredefinedUri targetUri this = (p, this).
Proof. apply findPredefinedIn_settled. Qed.

Lemma collectIncludes_found r paths : forall included this,
  forallb (fun path =>
             match JsMap.get (recordList this) (resolveUri (uri r) path) with
             | Some _ => true
             | None => false
             end) paths = true ->
  collectIncludes r paths included this =
    Some (included ++ map (resolveUri (uri r)) paths, this).
Proof.
  induction paths as [|path paths IH]; intros included this Hfound.
  - cbn. by rewrite app_nil_r.
  - cbn [forallb] in Hfound. apply andb_true_iff in Hfound as [Hpath Hpaths].
    cbn [Workspace.collectIncludes]. cbv zeta.
    destruct (JsMap.get (recordList this) (resolveUri (uri r) path)); [|discriminate].
    rewrite (IH _ _ Hpaths). cbn [map]. by rewrite <- app_assoc.
Qed.

(** The entry that the analysis of a record at rest hands to the callback:
    its URI and the URIs of the files that it includes. *)
Definition analysis (this : AnalysisResolver) (r : PartialInspectRecord)
    : string * list string :=
  (uri r, map (resolveUri (uri r)) (includesOf r this)).

Lemma analyzeFile_atRest r this :
  atRest this r = true ->
  analyzeFile r this = Some (setPublished (published this ++ [analysis this r]) this).
Proof.
  unfold atRest, analysis, includesOf, Workspace.analyzeFile.
  destruct (settled (uri r) this) as [p|] eqn:Hp; [|discriminate].
  intros Hfound. rewrite (findPredefinedUri_settled _ _ _ Hp).
  unfold Workspace.collectIncludeScope. by rewrite (collectIncludes_found _ _ _ _ Hfound).
Qed.

(** *** Re-analysis *)

(** Whether a record includes the file of a URI. *)
Definition dependsOn (this : AnalysisResolver) (targetUri : string)
    (r : PartialInspectRecord) : bool :=
  existsb (fun relativePath => String.eqb (resolveUri (uri r) relativePath) targetUri)
          (includesOf r this).

(** The records that depend on [targetUri], in the order of the record
    list. *)
Definition dependedFiles (this : AnalysisResolver) (targetUri : string)
    : list PartialInspectRecord :=
  filter (fun r => dependsOn this targetUri r = true) (JsMap.values (recordList this)).

(** The queue elements that re-analysis makes of records. *)
Definition indirectly (rs : list PartialInspectRecord) : list QueueElement :=
  map (fun r => mkElement r None) rs.

Definition opened (rs : list PartialInspectRecord) : list PartialInspectRecord :=
  filter (fun r => isOpen r = true) rs.
Definition closed (rs : list PartialInspectRecord) : list PartialInspectRecord :=
  filter (fun r => isOpen r = false) rs.

(** The resolver with records queued for re-analysis. *)
Definition requeued (rs : list PartialInspectRecord) (this : AnalysisResolver)
    : AnalysisResolver :=
  setQueue (mkQueue (directQueue (_analysisQueue this))
                    (indirectQueue (_analysisQueue this) ++ indirectly (opened rs))
                    (lazyIndirectQueue (_analysisQueue this) ++ indirectly (closed rs)))
           this.

Lemma push_each (l : list PartialInspectRecord) : forall this,
  fold_left
    (fun this dependedFile =>
       setQueue
         (if isOpen dependedFile
          then pushIndirect (mkElement dependedFile None) (_analysisQueue this)
          else pushLazyIndirect (mkElement dependedFile None) (_analysisQueue this))
         this)
    l this = requeued l this.
Proof.
  induction l as [|r l IH]; intros this.
  - unfold requeued. cbn. rewrite !app_nil_r. by destruct this as [t [d i z] ps rs nf pb].
  - cbn [fold_left]. rewrite IH. unfold requeued, setQueue.
    cbn [_analyzerTask _analysisQueue recordList _resolvedPredefinedFilepaths notFound
         published].
    unfold opened, closed. rewrite !filter_cons.
    destruct (isOpen r) eqn:Hopen.
    + rewrite decide_True by done. rewrite decide_False by done.
      unfold pushIndirect, indirectly.
      cbn [directQueue indirectQueue lazyIndirectQueue map].
      by rewrite <- app_assoc.
    + rewrite decide_False by done. rewrite decide_True by done.
      unfold pushLazyIndirect, indirectly.
      cbn [directQueue indirectQueue lazyIndirectQueue map].
      by rewrite <- app_assoc.
Qed.

Lemma dependedFilesOf_settled targetUri this : forall records,
  Forall (fun r => settled (uri r) this <> None) records ->
  dependedFilesOf targetUri records this =
    (filter (fun r => dependsOn this targetUri r = true) records, this).
Proof.
  induction records as [|r records IH]; intros Hs; [reflexivity|].
  apply Forall_cons in Hs as [Hr Hs].
  cbn [Workspace.dependedFilesOf]. rewrite filter_cons.
  unfold dependsOn, includesOf.
  destruct (settled (uri r) this) as [p|] eqn:Hp; [|done].
  rewrite (findPredefinedUri_settled _ _ _ Hp). rewrite (IH Hs).
  destruct (existsb _ _); [by rewrite decide_True | by rewrite decide_False].
Qed.

Lemma atRest_settled this r : atRest this r = true -> settled (uri r) this <> None.
Proof. unfold atRest. by destruct (settled (uri r) this). Qed.

Lemma reanalyze_pushes (targetUri : string) (this : AnalysisResolver) :
  Forall (fun r => atRest this r = true) (JsMap.values (recordList this)) ->
  reanalyzeFilesWithDependency targetUri this = requeued (dependedFiles this targetUri) this.
Proof.
  intros Hrest. unfold Workspace.reanalyzeFilesWithDependency.
  rewrite (dependedFilesOf_settled targetUri this).
  - apply push_each.
  - eapply Forall_impl; [exact Hrest|]. intros r. apply atRest_settled.
Qed.

(** X19 ([AnalysisResolver.reanalyzeFilesWithDependency]): when no record of
    the map makes [findPredefinedUri] inspect a file, the records that
    include the file are queued in the order of the record list, the open
    ones at the end of the indirect tier and the others at the end of the
    lazy-indirect tier, all without the mark that would make their own
    dependents be analyzed again; the direct tier, the task, the records and
    everything else stay. *)
Theorem reanalyzeFilesWithDependency_queues (targetUri : string) (this : AnalysisResolver) :
  Forall (fun r => settled (uri r) this <> None) (JsMap.values (recordList this)) ->
  let dependedFiles :=
    filter (fun r =>
              existsb (fun relativePath =>
                         String.eqb (resolveUri (uri r) relativePath) targetUri)
                      (includesOf r this) = true)
           (JsMap.values (recordList this)) in
  reanalyzeFilesWithDependency targetUri this =
    mkResolver (_analyzerTask this)
      (mkQueue (directQueue (_analysisQueue this))
               (indirectQueue (_analysisQueue this) ++ indirectly (opened dependedFiles))
               (lazyIndirectQueue (_analysisQueue this) ++ indirectly (closed dependedFiles)))
      (_resolvedPredefinedFilepaths this) (recordList this) (notFound this) (published this).
Proof.
  intros Hsettled. cbv zeta. unfold Workspace.reanalyzeFilesWithDependency.
  rewrite (dependedFilesOf_settled targetUri this _ Hsettled). rewrite push_each. reflexivity.
Qed.

(** *** An analysis at rest *)

Lemma analysis_sameFiles r this this' :
  sameFiles this this' -> analysis this' r = analysis this r.
Proof. intros H. unfold analysis. by rewrite (includesOf_sameFiles _ _ _ H). Qed.

Lemma dependedFiles_sameFiles targetUri this this' :
  sameFiles this this' -> dependedFiles this' targetUri = dependedFiles this targetUri.
Proof.
  intros H. unfold dependedFiles. destruct H as [Hr Hp]. rewrite Hr.
  apply list_filter_iff. intros r. unfold dependsOn.
  by rewrite (includesOf_sameFiles r this this' (conj Hr Hp)).
Qed.

(** The records that the analysis of an element queues. *)
Definition caused (this : AnalysisResolver) (e : QueueElement) : list PartialInspectRecord :=
  match shouldReanalyze e with
  | Some true => dependedFiles this (uri (record e))
  | _ => []
  end.

Lemma caused_sameFiles e this this' :
  sameFiles this this' -> caused this' e = caused this e.
Proof.
  intros H. unfold caused. destruct (shouldReanalyze e) as [[|]|]; try reflexivity.
  by apply dependedFiles_sameFiles.
Qed.

(** The resolver once the element [e] has been popped, which left the queue
    [q], and analyzed. *)
Definition analyzed (e : QueueElement) (q : AnalysisQueue) (this : AnalysisResolver)
    : AnalysisResolver :=
  mkResolver (_analyzerTask this)
    (mkQueue (directQueue q)
             (indirectQueue q ++ indirectly (opened (caused this e)))
             (lazyIndirectQueue q ++ indirectly (closed (caused this e))))
    (_resolvedPredefinedFilepaths this) (recordList this) (notFound this)
    (published this ++ [analysis this (record e)]).

Lemma frontPop_first q e q' :
  frontPop q = (Some e, q') ->
  directQueue q ++ indirectQueue q ++ lazyIndirectQueue q =
    e :: directQueue q' ++ indirectQueue q' ++ lazyIndirectQueue q'.
Proof.
  destruct q as [[|d0 d] [|i0 i] [|z0 z]]; cbn; intros [= <- <-]; reflexivity.
Qed.

Lemma popAndAnalyze_atRest this e q :
  workspaceAtRest this ->
  frontPop (_analysisQueue this) = (Some e, q) ->
  popAndAnalyze this = Some (analyzed e q this).
Proof.
  intros [Hrecords Hqueue] Hpop. unfold Workspace.popAndAnalyze. rewrite Hpop.
  assert (Hsame : sameFiles this (setQueue q this)) by (split; reflexivity).
  assert (He : atRest (setQueue q this) (record e) = true).
  { rewrite (atRest_sameFiles _ _ _ Hsame). rewrite Forall_forall in Hqueue. apply Hqueue.
    unfold queuedRecords. rewrite (frontPop_first _ _ _ Hpop). cbn [map]. apply elem_of_cons.
    by left. }
  rewrite (analyzeFile_atRest _ _ He). rewrite (analysis_sameFiles _ _ _ Hsame).
  set (this1 := setPublished _ (setQueue q this)).
  assert (Hsame1 : sameFiles this this1) by (split; reflexivity).
  unfold analyzed, caused.
  destruct (shouldReanalyze e) as [[|]|].
  - rewrite reanalyze_pushes.
    + rewrite (dependedFiles_sameFiles _ _ _ Hsame1). reflexivity.
    + eapply Forall_impl; [exact Hrecords|]. intros r Hr. cbn beta.
      by rewrite (atRest_sameFiles _ _ _ Hsame1).
  - unfold this1, opened, closed, indirectly, setPublished, setQueue. cbn.
    rewrite !app_nil_r. by destruct q.
  - unfold this1, opened, closed, indirectly, setPublished, setQueue. cbn.
    rewrite !app_nil_r. by destruct q.
Qed.

Lemma indirectly_records rs : map record (indirectly rs) = rs.
Proof. unfold indirectly. rewrite map_map. cbn. apply map_id. Qed.

Lemma caused_records this e r : r ∈ caused this e -> r ∈ JsMap.values (recordList this).
Proof.
  unfold caused. destruct (shouldReanalyze e) as [[|]|]; [|by intros ?%elem_of_nil..].
  unfold dependedFiles. by intros [_ ?]%list_elem_of_filter.
Qed.

(** Records at rest stay at rest when the files stay and the queue is given
    no record that is not in the map. *)
Lemma atRest_carries this this' :
  sameFiles this this' ->
  (forall r, r ∈ queuedRecords (_analysisQueue this') ->
             r ∈ queuedRecords (_analysisQueue this) \/ r ∈ JsMap.values (recordList this)) ->
  workspaceAtRest this -> workspaceAtRest this'.
Proof.
  intros Hsame Hq [Hrecords Hqueue]. rewrite Forall_forall in Hrecords, Hqueue.
  split; apply Forall_forall; intros r Hr; rewrite (atRest_sameFiles _ _ _ Hsame).
  - apply Hrecords. destruct Hsame as [<- _]. exact Hr.
  - destruct (Hq r Hr); auto.
Qed.

Lemma analyzed_queued this e q r :
  frontPop (_analysisQueue this) = (Some e, q) ->
  r ∈ queuedRecords (_analysisQueue (analyzed e q this)) ->
  r ∈ queuedRecords (_analysisQueue this) \/ r ∈ JsMap.values (recordList this).
Proof.
  intros Hpop. unfold queuedRecords at 1 2. rewrite (frontPop_first _ _ _ Hpop).
  unfold analyzed. cbn [_analysisQueue directQueue indirectQueue lazyIndirectQueue].
  rewrite !map_app, !indirectly_records. cbn [map]. rewrite !map_app.
  rewrite elem_of_cons, !elem_of_app.
  intros [H|[[H|H]|[H|H]]]; auto.
  - right. apply list_elem_of_filter in H as [_ H]. by apply caused_records in H.
  - right. apply list_elem_of_filter in H as [_ H]. by apply caused_records in H.
Qed.

Lemma analyzed_atRest this e q :
  workspaceAtRest this ->
  frontPop (_analysisQueue this) = (Some e, q) ->
  workspaceAtRest (analyzed e q this).
Proof.
  intros Hrest Hpop. apply (atRest_carries this); [by split| |exact Hrest].
  intros r. by apply analyzed_queued.
Qed.

(** *** Coming to rest *)

(** What an element can still cause: its own analysis, and for a requested
    element one analysis of each record at most. *)
Definition weight (records : nat) (e : QueueElement) : nat :=
  match shouldReanalyze e with
  | Some true => S records
  | _ => 1
  end.

Definition load (this : AnalysisResolver) : nat :=
  sum_list_with (weight (length (recordList this)))
    (directQueue (_analysisQueue this) ++ indirectQueue (_analysisQueue this) ++
     lazyIndirectQueue (_analysisQueue this)).

Lemma load_indirectly n rs : sum_list_with (weight n) (indirectly rs) = length rs.
Proof.
  induction rs as [|r rs IH]; [reflexivity|].
  change (weight n (mkElement r None) + sum_list_with (weight n) (indirectly rs) =
          S (length rs)).
  rewrite IH. reflexivity.
Qed.

Lemma opened_closed_length l : length (opened l) + length (closed l) = length l.
Proof.
  unfold opened, closed. induction l as [|r l IH]; [reflexivity|].
  rewrite !filter_cons. destruct (isOpen r).
  - rewrite decide_True by done. rewrite decide_False by done. cbn. lia.
  - rewrite decide_False by done. rewrite decide_True by done. cbn. lia.
Qed.

Lemma caused_length this e :
  length (opened (caused this e)) + length (closed (caused this e)) + 1 <=
  weight (length (recordList this)) e.
Proof.
  rewrite opened_closed_length. unfold caused, weight.
  destruct (shouldReanalyze e) as [[|]|]; cbn [length]; try lia.
  unfold dependedFiles.
  pose proof (length_filter (fun r => dependsOn this (uri (record e)) r = true)
                            (JsMap.values (recordList this))) as Hle.
  unfold JsMap.values in Hle at 2. rewrite length_map in Hle. lia.
Qed.

(** A step of analysis takes off more than it puts on. *)
Lemma analyzed_load this e q :
  frontPop (_analysisQueue this) = (Some e, q) -> load (analyzed e q this) < load this.
Proof.
  intros Hpop. unfold load. rewrite (frontPop_first _ _ _ Hpop).
  unfold analyzed. cbn [_analysisQueue recordList directQueue indirectQueue lazyIndirectQueue].
  cbn [sum_list_with]. rewrite !sum_list_with_app, !load_indirectly.
  pose proof (caused_length this e). lia.
Qed.

Definition emptyQueue (q : AnalysisQueue) : Prop :=
  directQueue q = [] /\ indirectQueue q = [] /\ lazyIndirectQueue q = [].

Lemma emptyQueue_dec q : {emptyQueue q} + {~ emptyQueue q}.
Proof.
  destruct q as [[|] [|] [|]]; first [left; by repeat split | right; intros (? & ? & ?); done].
Qed.

Lemma frontPop_empty q : emptyQueue q <-> frontPop q = (None, q).
Proof.
  destruct q as [[|] [|] [|]]; cbn; split; intros H; try done;
    destruct H as (? & ? & ?); done.
Qed.

Lemma frontPop_some q : ~ emptyQueue q -> exists e q', frontPop q = (Some e, q').
Proof.
  destruct q as [[|d0 d] [|i0 i] [|z0 z]]; cbn; intros H; eauto.
  exfalso. apply H. by repeat split.
Qed.

(** The wait time of the first tier that has an element. *)
Definition waitTimeOf (q : AnalysisQueue) : option nat :=
  match directQueue q, indirectQueue q, lazyIndirectQueue q with
  | _ :: _, _, _ => Some Resolver.veryShortWaitTime
  | [], _ :: _, _ => Some Resolver.shortWaitTime
  | [], [], _ :: _ => Some Resolver.mediumWaitTime
  | [], [], [] => None
  end.

Lemma waitTimeOf_empty q : waitTimeOf q = None <-> emptyQueue q.
Proof.
  destruct q as [[|] [|] [|]]; cbn; split; intros H; try done;
    destruct H as (? & ? & ?); done.
Qed.

Lemma rescheduleAnalyze_sets this :
  rescheduleAnalyze this =
    mkResolver
      (match waitTimeOf (_analysisQueue this) with
       | Some waitTime => Resolver.mkTask (Some (Resolver.CallHandleAnalyze, waitTime))
       | None => _analyzerTask this
       end)
      (_analysisQueue this) (_resolvedPredefinedFilepaths this) (recordList this)
      (notFound this) (published this).
Proof.
  destruct this as [t [[|d0 d] [|i0 i] [|z0 z]] ps rs nf pb]; reflexivity.
Qed.

(** The timer expires [n] times in a row; [None] when an error is thrown. *)
Fixpoint fires (n : nat) (this : AnalysisResolver) : option AnalysisResolver :=
  match n with
  | 0 => Some this
  | S n' =>
      match fire this with
      | Some this => fires n' this
      | None => None
      end
  end.

Lemma analyzed_setTask t e q this :
  analyzed e q (setTask t this) = setTask t (analyzed e q this).
Proof.
  assert (Hsame : sameFiles this (setTask t this)) by (split; reflexivity).
  unfold analyzed. by rewrite (caused_sameFiles _ _ _ Hsame), (analysis_sameFiles _ _ _ Hsame).
Qed.

Lemma setTask_atRest t this : workspaceAtRest this -> workspaceAtRest (setTask t this).
Proof. apply atRest_carries; [by split|]. intros r Hr. by left. Qed.

Lemma fire_pending this :
  workspaceAtRest this ->
  Resolver.pending (_analyzerTask this) <> None ->
  exists after,
    fire this = Some after /\
    sameFiles this after /\ notFound after = notFound this /\
    workspaceAtRest after /\
    (emptyQueue (_analysisQueue after) <-> Resolver.pending (_analyzerTask after) = None) /\
    (emptyQueue (_analysisQueue this) ->
       emptyQueue (_analysisQueue after) /\ published after = published this) /\
    (~ emptyQueue (_analysisQueue this) ->
       load after < load this /\
       exists r,
         published after = published this ++ [analysis this r] /\
         forall r', r' ∈ queuedRecords (_analysisQueue this) ->
                    r' = r \/ r' ∈ queuedRecords (_analysisQueue after)).
Proof.
  intros Hrest Hpending. unfold Workspace.fire.
  destruct (Resolver.pending (_analyzerTask this)) as [[[] wait]|]; [|done].
  unfold Workspace.handleAnalyze.
  set (cleared := setTask (Resolver.mkTask None) this).
  assert (Hcleared : workspaceAtRest cleared) by by apply setTask_atRest.
  destruct (emptyQueue_dec (_analysisQueue this)) as [Hempty|Hmore].
  - pose proof Hempty as Hpop. apply frontPop_empty in Hpop.
    unfold Workspace.popAndAnalyze. change (_analysisQueue cleared) with (_analysisQueue this).
    rewrite Hpop. rewrite rescheduleAnalyze_sets.
    change (_analysisQueue cleared) with (_analysisQueue this).
    pose proof Hempty as Hwait. apply waitTimeOf_empty in Hwait. rewrite Hwait.
    eexists. split; [reflexivity|]. cbn.
    split; [by split|]. split; [reflexivity|]. split; [exact Hcleared|].
    split; [by split|]. split; [done|]. intros H. by destruct H.
  - destruct (frontPop_some _ Hmore) as (e & q & Hpop).
    rewrite (popAndAnalyze_atRest cleared e q Hcleared Hpop).
    unfold cleared. rewrite analyzed_setTask, rescheduleAnalyze_sets.
    eexists. split; [reflexivity|].
    cbn [_analysisQueue _analyzerTask recordList _resolvedPredefinedFilepaths notFound
         published setTask].
    split; [by split|]. split; [reflexivity|]. split; [|split; [|split]].
    + apply (atRest_carries this); [by split| |exact Hrest].
      intros r. apply (analyzed_queued this e q r Hpop).
    + rewrite <- waitTimeOf_empty. cbn [Resolver.pending].
      destruct (waitTimeOf _); cbn [Resolver.pending]; split; intros; done.
    + intros H. by destruct Hmore.
    + intros _. split.
      * exact (analyzed_load this e q Hpop).
      * exists (record e). split; [reflexivity|].
        intros r'. unfold queuedRecords. rewrite (frontPop_first _ _ _ Hpop).
        cbn [directQueue indirectQueue lazyIndirectQueue map].
        rewrite elem_of_cons. intros [->|H]; [by left|right].
        unfold analyzed. cbn [_analysisQueue directQueue indirectQueue lazyIndirectQueue].
        rewrite !map_app in *. rewrite !elem_of_app in *. tauto.
Qed.

(** X20 ([AnalysisResolver.handleAnalyze], [popAndAnalyze], [analyzeFile],
    [reanalyzeFilesWithDependency], [rescheduleAnalyze]): the analysis comes
    to rest.  In a workspace at rest (the analysis of no record of the map or
    of the queue inspects a file) with the task pending, after at most as many
    expirations of the timer as one more than the load of the queue, no error
    having been thrown, all three tiers are empty and no task is pending;
    every record that was queued has been analyzed and its diagnostics
    published, with the scopes of the files that it includes, one analysis
    for an expiration at most; the records, the resolved predefined files
    and the errors stay.  The dependents of a
    requested file are analyzed without their own dependents being queued, so
    files that include each other do not keep the analysis going. *)
Theorem analysis_comes_to_rest (this : AnalysisResolver) :
  workspaceAtRest this ->
  Resolver.pending (_analyzerTask this) <> None ->
  exists n this' records,
    n <= S (load this) /\
    fires n this = Some this' /\
    emptyQueue (_analysisQueue this') /\
    Resolver.pending (_analyzerTask this') = None /\
    recordList this' = recordList this /\
    _resolvedPredefinedFilepaths this' = _resolvedPredefinedFilepaths this /\
    notFound this' = notFound this /\
    published this' = published this ++ map (analysis this) records /\
    length records <= n /\
    queuedRecords (_analysisQueue this) ⊆ records.
Proof.
  remember (load this) as k eqn:Hk.
  assert (Hle : load this <= k) by lia. clear Hk. revert this Hle.
  induction k as [k IH] using lt_wf_ind. intros this Hle Hrest Hpending.
  destruct (fire_pending this Hrest Hpending)
    as (after & Hfire & Hsame & Hnf & Hrest' & Hdone & Hstay & Hless).
  destruct (emptyQueue_dec (_analysisQueue after)) as [Hempty|Hmore].
  - destruct (emptyQueue_dec (_analysisQueue this)) as [Hempty0|Hmore0].
    + exists 1, after, []. cbn [fires]. rewrite Hfire.
      destruct (Hstay Hempty0) as [_ Hpub]. destruct Hsame as [Hr Hp].
      split; [lia|]. split; [reflexivity|]. split; [exact Hempty|].
      split; [by apply Hdone|]. split; [exact Hr|]. split; [exact Hp|]. split; [exact Hnf|].
      split; [by rewrite Hpub, app_nil_r|]. split; [cbn; lia|].
      destruct Hempty0 as (Hd & Hi & Hz). unfold queuedRecords. rewrite Hd, Hi, Hz.
      intros r Hin. exact Hin.
    + destruct (Hless Hmore0) as (_ & r & Hpub & Hq).
      exists 1, after, [r]. cbn [fires]. rewrite Hfire. destruct Hsame as [Hr Hp].
      split; [lia|]. split; [reflexivity|]. split; [exact Hempty|].
      split; [by apply Hdone|]. split; [exact Hr|]. split; [exact Hp|]. split; [exact Hnf|].
      split; [exact Hpub|]. split; [cbn; lia|].
      intros r' Hin. destruct (Hq r' Hin) as [->|Hafter]; [by apply list_elem_of_singleton|].
      destruct Hempty as (Hd & Hi & Hz). unfold queuedRecords in Hafter.
      rewrite Hd, Hi, Hz in Hafter. by apply elem_of_nil in Hafter.
  - assert (Hne : ~ emptyQueue (_analysisQueue this)).
    { intros H. apply Hmore. by apply Hstay. }
    destruct (Hless Hne) as (Hlt & r & Hpub & Hq).
    assert (Hp' : Resolver.pending (_analyzerTask after) <> None).
    { intros H. by apply Hmore, Hdone. }
    destruct (IH (load after) ltac:(lia) after ltac:(lia) Hrest' Hp')
      as (n & this' & records & Hn & Hfires & He & Hp & Hr & Hps & Hnf' & Hpub' & Hlen &
        Hall).
    exists (S n), this', (r :: records). cbn [fires]. rewrite Hfire.
    destruct Hsame as [Hr0 Hp0].
    split; [lia|]. split; [exact Hfires|]. split; [exact He|]. split; [exact Hp|].
    split; [congruence|]. split; [congruence|]. split; [congruence|].
    split; [|split; [cbn; lia|]].
    + rewrite Hpub', Hpub. cbn [map]. rewrite <- app_assoc. cbn [app]. do 2 f_equal.
      apply map_ext. intros r'. by apply analysis_sameFiles.
    + intros r' Hin. apply elem_of_cons. destruct (Hq r' Hin) as [->|Hafter]; [by left|].
      right. by apply Hall.
Qed.

(** *** Flushing *)

Variable isInQueue : string -> AnalysisQueue -> bool.
Variable frontPushDirect : QueueElement -> AnalysisQueue -> AnalysisQueue.

Local Notation flushDirect :=
  (Workspace.flushDirect readFileContent getParentDirectoryList resolveUri readdirSync
                         implicitMutualInclusion inspectFile).
Local Notation flushReanalysis :=
  (Workspace.flushReanalysis readFileContent getParentDirectoryList resolveUri readdirSync
                             implicitMutualInclusion inspectFile).
Local Notation flush :=
  (Workspace.flush readFileContent getParentDirectoryList resolveUri readdirSync
                   implicitMutualInclusion inspectFile isInQueue frontPushDirect).

(** The indirect and the lazy-indirect tier once the direct tier has been
    analyzed. *)
Definition indirectAfter (this : AnalysisResolver) : list QueueElement :=
  indirectQueue (_analysisQueue this) ++
  indirectly (opened (concat (map (caused this) (directQueue (_analysisQueue this))))).
Definition lazyIndirectAfter (this : AnalysisResolver) : list QueueElement :=
  lazyIndirectQueue (_analysisQueue this) ++
  indirectly (closed (concat (map (caused this) (directQueue (_analysisQueue this))))).

Lemma caused_each this es r :
  r ∈ concat (map (caused this) es) -> r ∈ JsMap.values (recordList this).
Proof.
  induction es as [|e es IH]; cbn [map concat].
  - by intros ?%elem_of_nil.
  - rewrite elem_of_app. intros [Hin|Hin]; [by apply caused_records in Hin | by apply IH].
Qed.

Lemma indirectly_app a b : indirectly (a ++ b) = indirectly a ++ indirectly b.
Proof. apply map_app. Qed.

Lemma flushDirect_runs (direct : list QueueElement) : forall this fuel,
  workspaceAtRest this ->
  directQueue (_analysisQueue this) = direct -> length direct < fuel ->
  flushDirect fuel this =
    Some (mkResolver (_analyzerTask this)
            (mkQueue [] (indirectAfter this) (lazyIndirectAfter this))
            (_resolvedPredefinedFilepaths this) (recordList this) (notFound this)
            (published this ++ map (analysis this) (map record direct))).
Proof.
  induction direct as [|e d IH]; intros this fuel Hrest Hd Hfuel;
    (destruct fuel as [|fuel]; [cbn in Hfuel; lia|]);
    cbn [Workspace.flushDirect]; unfold hasDirect; rewrite Hd;
    cbn [length Nat.ltb Nat.leb].
  - unfold indirectAfter, lazyIndirectAfter. rewrite Hd. cbn [map concat].
    unfold opened, closed, indirectly. cbn. rewrite !app_nil_r.
    destruct this as [t [d0 i z] ps rs nf pb]. cbn in Hd. by subst d0.
  - assert (Hpop : frontPop (_analysisQueue this) =
                   (Some e, mkQueue d (indirectQueue (_analysisQueue this))
                                    (lazyIndirectQueue (_analysisQueue this)))).
    { unfold frontPop. by rewrite Hd. }
    rewrite (popAndAnalyze_atRest this e _ Hrest Hpop).
    assert (Hsame : sameFiles this (analyzed e (mkQueue d (indirectQueue (_analysisQueue this))
                                    (lazyIndirectQueue (_analysisQueue this))) this))
      by (split; reflexivity).
    rewrite (IH (analyzed e (mkQueue d (indirectQueue (_analysisQueue this))
                                       (lazyIndirectQueue (_analysisQueue this))) this)
                fuel (analyzed_atRest this e _ Hrest Hpop) eq_refl
                ltac:(cbn in Hfuel; lia)).
    unfold indirectAfter, lazyIndirectAfter. rewrite Hd.
    cbn [analyzed _analysisQueue _analyzerTask recordList _resolvedPredefinedFilepaths
         notFound published directQueue indirectQueue lazyIndirectQueue map concat].
    unfold opened, closed.
    rewrite !filter_app, !indirectly_app, <- !app_assoc. cbn [app].
    rewrite (map_ext (caused (analyzed e _ this)) (caused this))
      by (intros e'; by apply caused_sameFiles).
    rewrite (map_ext (analysis (analyzed e _ this)) (analysis this))
      by (intros r; by apply analysis_sameFiles).
    reflexivity.
Qed.

Lemma flushReanalysis_runs (indirect : list QueueElement) : forall this fuel,
  workspaceAtRest this ->
  directQueue (_analysisQueue this) = [] ->
  indirectQueue (_analysisQueue this) = indirect ->
  Forall (fun e => shouldReanalyze e <> Some true) indirect ->
  length indirect < fuel ->
  flushReanalysis fuel this =
    Some (mkResolver (_analyzerTask this)
            (mkQueue []
               (match lazyIndirectQueue (_analysisQueue this) with
                | [] => indirect
                | _ :: _ => []
                end)
               (lazyIndirectQueue (_analysisQueue this)))
            (_resolvedPredefinedFilepaths this) (recordList this) (notFound this)
            (published this ++
             match lazyIndirectQueue (_analysisQueue this) with
             | [] => []
             | _ :: _ => map (analysis this) (map record indirect)
             end)).
Proof.
  induction indirect as [|e i IH]; intros this fuel Hrest Hd Hi Hok Hfuel;
    (destruct fuel as [|fuel]; [cbn in Hfuel; lia|]);
    cbn [Workspace.flushReanalysis]; unfold hasIndirect, hasLazyIndirect; rewrite Hi;
    cbn [length Nat.ltb Nat.leb andb].
  - destruct this as [t [d0 i0 z] ps rs nf pb]. cbn in Hd, Hi. subst d0 i0.
    destruct z; cbn; by rewrite app_nil_r.
  - destruct (lazyIndirectQueue (_analysisQueue this)) as [|e' z] eqn:Hz.
    + cbn [length Nat.ltb Nat.leb]. rewrite app_nil_r.
      destruct this as [t [d0 i0 z0] ps rs nf pb]. cbn in Hd, Hi, Hz. by subst d0 i0 z0.
    + cbn [length Nat.ltb Nat.leb].
      assert (Hpop : frontPop (_analysisQueue this) = (Some e, mkQueue [] i (e' :: z))).
      { unfold frontPop. by rewrite Hd, Hi, Hz. }
      rewrite (popAndAnalyze_atRest this e _ Hrest Hpop).
      apply Forall_cons in Hok as [He Hok].
      assert (Hnone : caused this e = []).
      { unfold caused. by destruct (shouldReanalyze e) as [[|]|]. }
      assert (Hsame : sameFiles this (analyzed e (mkQueue [] i (e' :: z)) this))
        by (split; reflexivity).
      rewrite (IH (analyzed e (mkQueue [] i (e' :: z)) this) fuel
                  (analyzed_atRest this e _ Hrest Hpop)); cycle 1.
      * reflexivity.
      * unfold analyzed. cbn [_analysisQueue indirectQueue]. rewrite Hnone.
        unfold opened, indirectly. cbn. by rewrite app_nil_r.
      * exact Hok.
      * cbn in Hfuel. lia.
      * rewrite (map_ext (analysis (analyzed e (mkQueue [] i (e' :: z)) this))
                         (analysis this))
          by (intros r; by apply (analysis_sameFiles r this _ Hsame)).
        unfold analyzed.
        cbn [_analysisQueue _analyzerTask recordList _resolvedPredefinedFilepaths
             notFound published directQueue indirectQueue lazyIndirectQueue].
        rewrite Hnone. unfold opened, closed, indirectly. cbn [filter list_filter map app].
        rewrite <- !app_assoc, !app_nil_r. reflexivity.
Qed.

(** X21 ([AnalysisResolver.flush] without a URI, with [popAndAnalyze] and
    [analyzeFile]): in a workspace at rest, the direct tier is analyzed to the
    end, the diagnostics of each of its files published in turn and the
    dependents of its requested files joining the other two tiers.  After
    that the second loop runs only while both other tiers have elements: it
    analyzes the indirect tier if the lazy-indirect tier has an element and
    nothing otherwise, and no file of the lazy-indirect tier is ever analyzed
    by it. *)
Theorem flush_without_uri (fuel : nat) (this : AnalysisResolver) :
  workspaceAtRest this ->
  Forall (fun e => shouldReanalyze e <> Some true) (indirectQueue (_analysisQueue this)) ->
  length (directQueue (_analysisQueue this)) < fuel ->
  length (indirectAfter this) < fuel ->
  flush fuel None this =
    Some (mkResolver (_analyzerTask this)
            (mkQueue []
               (match lazyIndirectAfter this with
                | [] => indirectAfter this
                | _ :: _ => []
                end)
               (lazyIndirectAfter this))
            (_resolvedPredefinedFilepaths this) (recordList this) (notFound this)
            (published this ++
             map (analysis this) (map record (directQueue (_analysisQueue this))) ++
             match lazyIndirectAfter this with
             | [] => []
             | _ :: _ => map (analysis this) (map record (indirectAfter this))
             end)).
Proof.
  intros Hrest Hok Hdirect Hindirect. unfold Workspace.flush.
  rewrite (flushDirect_runs _ this fuel Hrest eq_refl Hdirect).
  set (flushed := mkResolver _ _ _ _ _ _).
  assert (Hsame : sameFiles this flushed) by (split; reflexivity).
  rewrite (flushReanalysis_runs (indirectAfter this) flushed).
  - cbn [flushed _analysisQueue _analyzerTask recordList _resolvedPredefinedFilepaths
         notFound published directQueue indirectQueue lazyIndirectQueue].
    rewrite <- app_assoc.
    rewrite (map_ext (analysis flushed) (analysis this))
      by (intros r; by apply (analysis_sameFiles r this _ Hsame)).
    reflexivity.
  - apply (atRest_carries this); [exact Hsame| |exact Hrest].
    intros r. unfold queuedRecords at 1.
    cbn [flushed _analysisQueue directQueue indirectQueue lazyIndirectQueue app].
    unfold indirectAfter, lazyIndirectAfter, queuedRecords.
    rewrite !map_app, !indirectly_records, !elem_of_app.
    assert (Hcaused : forall r, r ∈ concat (map (caused this)
                                   (directQueue (_analysisQueue this))) ->
                                r ∈ JsMap.values (recordList this)).
    { intros r'. apply caused_each. }
    intros [[H|H]|[H|H]]; auto.
    + right. apply list_elem_of_filter in H as [_ H]. by apply Hcaused.
    + right. apply list_elem_of_filter in H as [_ H]. by apply Hcaused.
  - reflexivity.
  - reflexivity.
  - cbn [_analysisQueue indirectQueue]. unfold indirectAfter.
    apply Forall_app. split; [exact Hok|].
    unfold indirectly. apply Forall_forall. intros e He.
    apply list_elem_of_fmap in He as (r & -> & _). done.
  - exact Hindirect.
Qed.

End Files.

(** *** A workspace of three files in one directory

    [as.predefined], which is resolved, the open file [a.as], and the closed
    file [b.as], which includes [a.as]; no file outside of the records can be
    read. *)

Definition unreadable (uri : string) : option string := None.
Definition rootOnly (uri : string) : list string := ["file://"].
Definition inRoot (base relativeOrAbsolute : string) : string :=
  if String.prefix "file://" relativeOrAbsolute then relativeOrAbsolute
  else "file:///" +:+ relativeOrAbsolute.
Definition noEntries (dirUri : string) : list Dirent := [].
Definition uninspected (uri content : string) (this : AnalysisResolver) : AnalysisResolver :=
  this.

Definition predefined : PartialInspectRecord := mkRecord "file:///as.predefined" false [].
Definition scriptA : PartialInspectRecord := mkRecord "file:///a.as" true [].
Definition scriptB : PartialInspectRecord := mkRecord "file:///b.as" false ["a.as"].

Definition resting : AnalysisResolver :=
  mkResolver (Resolver.mkTask None) (mkQueue [] [] []) ["file:///as.predefined"]
             [("file:///as.predefined", predefined); ("file:///a.as", scriptA);
              ("file:///b.as", scriptB)]
             [] [].

(** Of the three records, [b.as] depends on [a.as]: it is closed and goes to
    the lazy-indirect tier. *)
Lemma reanalyzeFilesWithDependency_queues_b :
  Forall (fun r => settled unreadable rootOnly (uri r) resting <> None)
         (JsMap.values (recordList resting)) /\
  Workspace.reanalyzeFilesWithDependency unreadable rootOnly inRoot noEntries false
      uninspected "file:///a.as" resting =
    mkResolver (Resolver.mkTask None) (mkQueue [] [] [mkElement scriptB None])
               ["file:///as.predefined"] (recordList resting) [] [].
Proof.
  assert (Hsettled : Forall (fun r => settled unreadable rootOnly (uri r) resting <> None)
                            (JsMap.values (recordList resting)))
    by (repeat constructor; discriminate).
  split; [exact Hsettled|].
  rewrite (reanalyzeFilesWithDependency_queues unreadable rootOnly inRoot noEntries false
             uninspected "file:///a.as" resting Hsettled).
  reflexivity.
Defined.

Lemma resting_request :
  workspaceAtRest unreadable rootOnly inRoot false (request scriptA resting).
Proof. split; repeat constructor. Qed.

(** After a request for [a.as] the analysis comes to rest. *)
Lemma analysis_comes_to_rest_request :
  workspaceAtRest unreadable rootOnly inRoot false (request scriptA resting) /\
  Resolver.pending (_analyzerTask (request scriptA resting)) <> None /\
  exists n this' records,
    n <= S (load (request scriptA resting)) /\
    fires unreadable rootOnly inRoot noEntries false uninspected n
          (request scriptA resting) = Some this' /\
    emptyQueue (_analysisQueue this') /\
    Resolver.pending (_analyzerTask this') = None /\
    recordList this' = recordList (request scriptA resting) /\
    _resolvedPredefinedFilepaths this' =
      _resolvedPredefinedFilepaths (request scriptA resting) /\
    notFound this' = notFound (request scriptA resting) /\
    published this' =
      published (request scriptA resting) ++
      map (analysis unreadable rootOnly inRoot false (request scriptA resting)) records /\
    length records <= n /\
    queuedRecords (_analysisQueue (request scriptA resting)) ⊆ records.
Proof.
  split; [exact resting_request|]. split; [discriminate|].
  apply (analysis_comes_to_rest unreadable rootOnly inRoot noEntries false uninspected
           (request scriptA resting) resting_request).
  discriminate.
Defined.

(** [flush()] after the request: [a.as] is analyzed with the scope of
    [as.predefined], [b.as] is queued in the lazy-indirect tier and stays
    there. *)
Lemma flush_without_uri_request :
  workspaceAtRest unreadable rootOnly inRoot false (request scriptA resting) /\
  Forall (fun e => shouldReanalyze e <> Some true)
         (indirectQueue (_analysisQueue (request scriptA resting))) /\
  Workspace.flush unreadable rootOnly inRoot noEntries false uninspected
        (fun _ _ => false) (fun _ q => q) 3 None (request scriptA resting) =
    Some (mkResolver (Resolver.mkTask (Some (Resolver.CallHandleAnalyze, 10)))
                     (mkQueue [] [] [mkElement scriptB None])
                     ["file:///as.predefined"] (recordList resting) []
                     [("file:///a.as", ["file:///as.predefined"])]).
Proof.
  assert (Hok : Forall (fun e => shouldReanalyze e <> Some true)
                  (indirectQueue (_analysisQueue (request scriptA resting))))
    by constructor.
  split; [exact resting_request|]. split; [exact Hok|].
  refine (flush_without_uri unreadable rootOnly inRoot noEntries false uninspected
            (fun _ _ => false) (fun _ q => q) 3 (request scriptA resting)
            resting_request Hok _ _); vm_compute; lia.
Defined.

End ResolverFacts.

(** ** The hoist phase: what it keeps *)

Module HoistFacts.
Import Hoist JsMapFacts.

(** *** The store only grows *)

(** Every name declared in a scope stays declared there, with the symbols it
    had, in their order. *)
Definition tablesGrow (s s' : Store) : Prop :=
  forall p k h, JsMap.get (symbolTableOf p s) k = Some h ->
    exists h', JsMap.get (symbolTableOf p s') k = Some h' /\
               toList h `prefix_of` toList h'.

Definition storeExtends (s s' : Store) : Prop :=
  diagnostics s `prefix_of` diagnostics s' /\
  references s `prefix_of` references s' /\
  scopeRegions s `prefix_of` scopeRegions s' /\
  length (symbols s) <= length (symbols s') /\
  (forall p, is_Some (scopes s !! p) -> is_Some (scopes s' !! p)) /\
  tablesGrow s s'.

Lemma tablesGrow_refl s : tablesGrow s s.
Proof. intros p k h Hh. exists h. split; [exact Hh | reflexivity]. Qed.

Lemma storeExtends_refl s : storeExtends s s.
Proof. repeat split; try reflexivity; auto using tablesGrow_refl. Qed.

Lemma storeExtends_trans s1 s2 s3 :
  storeExtends s1 s2 -> storeExtends s2 s3 -> storeExtends s1 s3.
Proof.
  intros (D1 & R1 & G1 & L1 & S1 & T1) (D2 & R2 & G2 & L2 & S2 & T2).
  repeat split.
  - by etrans.
  - by etrans.
  - by etrans.
  - lia.
  - auto.
  - intros p k h Hh. destruct (T1 p k h Hh) as (h2 & Hh2 & P2).
    destruct (T2 p k h2 Hh2) as (h3 & Hh3 & P3). exists h3. split; [exact Hh3 | by etrans].
Qed.

(** The store changed outside its scope tree. *)
Lemma storeExtends_fields s s' :
  scopes s' = scopes s ->
  diagnostics s `prefix_of` diagnostics s' ->
  references s `prefix_of` references s' ->
  scopeRegions s `prefix_of` scopeRegions s' ->
  length (symbols s) <= length (symbols s') ->
  storeExtends s s'.
Proof.
  intros Hs D R G L. repeat split; auto.
  - intros p. by rewrite Hs.
  - intros p k h Hh. exists h. split; [|reflexivity].
    unfold symbolTableOf, scopeAt in *. by rewrite Hs.
Qed.

(** The scope at [this] got another table, in which every name kept its
    symbols. *)
Lemma storeExtends_table this s node table nodes :
  (forall k h, JsMap.get (symbolTableOf this s) k = Some h ->
     exists h', JsMap.get table k = Some h' /\ toList h `prefix_of` toList h') ->
  storeExtends s (setScopes (<[this := mkScopeData node table nodes]> (scopes s)) s).
Proof.
  intros Htable. repeat split; try reflexivity.
  - intros p Hp. cbn [scopes setScopes]. destruct (decide (this = p)) as [->|Hne].
    + rewrite lookup_insert_eq. eauto.
    + by rewrite lookup_insert_ne.
  - intros p k h Hh. unfold symbolTableOf, scopeAt in *. cbn [scopes setScopes].
    destruct (decide (this = p)) as [->|Hne].
    + rewrite lookup_insert_eq. cbn [default symbolTable]. by apply Htable.
    + rewrite lookup_insert_ne by done. exists h. split; [exact Hh | reflexivity].
Qed.

(** A computation on the store that only adds to it. *)
Definition growing {A} (m : State Store A) : Prop :=
  forall s, storeExtends s (snd (m s)).

Lemma growing_ret {A} (a : A) : growing (ret (St := Store) a).
Proof. intros s. apply storeExtends_refl. Qed.

Lemma growing_get : growing (get (St := Store)).
Proof. intros s. apply storeExtends_refl. Qed.

Lemma growing_bind {A B} (m : State Store A) (k : A -> State Store B) :
  growing m -> (forall a, growing (k a)) -> growing (bind m k).
Proof.
  intros Hm Hk s. unfold bind. specialize (Hm s). destruct (m s) as [a s1].
  eapply storeExtends_trans; [exact Hm | apply Hk].
Qed.

Lemma growing_forEach {A} (l : list A) (body : A -> State Store unit) :
  (forall x, growing (body x)) -> growing (forEach l body).
Proof.
  intros Hbody. induction l as [|x l IH]; [apply growing_ret|].
  change (forEach (x :: l) body) with (bind (body x) (fun _ => forEach l body)).
  apply growing_bind; [apply Hbody | intros _; exact IH].
Qed.

Lemma growing_mapM {A B} (f : A -> State Store B) (l : list A) :
  (forall x, growing (f x)) -> growing (mapM f l).
Proof.
  intros Hf. induction l as [|x l IH]; [apply growing_ret|].
  cbn [mapM]. apply growing_bind; [apply Hf | intros y].
  apply growing_bind; [exact IH | intros ys; apply growing_ret].
Qed.

Lemma growing_error loc msg : growing (error loc msg).
Proof.
  intros s. apply storeExtends_fields; try reflexivity. by apply prefix_app_r.
Qed.

Lemma growing_create o : growing (create o).
Proof.
  intros s. apply storeExtends_fields; try reflexivity.
  cbn. rewrite length_app. lia.
Qed.

Lemma growing_assign r f : growing (assign r f).
Proof.
  intros s. apply storeExtends_fields; try reflexivity.
  cbn. by rewrite length_alter.
Qed.

Lemma growing_pushReference r : growing (pushReference r).
Proof.
  intros s. apply storeExtends_fields; try reflexivity. by apply prefix_app_r.
Qed.

Lemma growing_pushScopeRegionInfo scope nodeRange :
  growing (pushScopeRegionInfo scope nodeRange).
Proof.
  intros s. apply storeExtends_fields; try reflexivity. by apply prefix_app_r.
Qed.

Lemma growing_createAnonymousIdentifier : growing createAnonymousIdentifier.
Proof. intros s. by apply storeExtends_fields. Qed.

Lemma growing_insertScope this identifier node : growing (insertScope this identifier node).
Proof.
  intros s. unfold insertScope.
  destruct (scopes s !! (this ++ [identifier])) as [found|] eqn:Hfound.
  - destruct node as [n|]; [|apply storeExtends_refl].
    destruct (linkedNode found); [apply storeExtends_refl|].
    cbn [snd]. apply storeExtends_table. intros k h Hh.
    unfold symbolTableOf, scopeAt in Hh. rewrite Hfound in Hh. eauto.
  - cbn [snd]. apply storeExtends_table. intros k h Hh.
    unfold symbolTableOf, scopeAt in Hh. rewrite Hfound in Hh. discriminate.
Qed.

Lemma growing_insertScopeAndCheck this identifierToken node :
  growing (insertScopeAndCheck this identifierToken node).
Proof.
  unfold insertScopeAndCheck.
  apply growing_bind; [apply growing_insertScope | intros found].
  apply growing_bind; [apply growing_get | intros s].
  apply growing_bind; [|intros _; apply growing_ret].
  destruct node as [n|]; [|apply growing_ret].
  destruct (linkedNode (scopeAt found s)) as [m|]; [|apply growing_ret].
  destruct (linkedEqb n m); [apply growing_ret | apply growing_error].
Qed.

Lemma growing_pushNamespaceNode this nodeId token :
  growing (pushNamespaceNode this nodeId token).
Proof.
  intros s. cbn. apply storeExtends_table. eauto.
Qed.

Lemma growing_insertSymbol this symbol : growing (insertSymbol this symbol).
Proof.
  intros s. unfold insertSymbol.
  destruct (symbolAt symbol s) as [o|]; [|apply storeExtends_refl]. cbv zeta.
  destruct (JsMap.get (symbolTableOf this s) (text (identifierToken o)))
    as [[r|f rest]|] eqn:Hget; [apply storeExtends_refl| |].
  - destruct (isFunction o); [|apply storeExtends_refl].
    cbn. apply storeExtends_table. intros k h Hh.
    rewrite JsMap_get_set. destruct (String.eqb_spec (text (identifierToken o)) k) as [<-|_].
    + rewrite Hget in Hh. injection Hh as <-. eexists. split; [reflexivity|].
      cbn [toList]. exists [symbol]. reflexivity.
    + eauto.
  - cbn. apply storeExtends_table. intros k h Hh.
    rewrite JsMap_get_set. destruct (String.eqb_spec (text (identifierToken o)) k) as [<-|_].
    + rewrite Hget in Hh. discriminate.
    + eauto.
Qed.

Lemma growing_insertSymbolAndCheck this symbol : growing (insertSymbolAndCheck this symbol).
Proof.
  unfold insertSymbolAndCheck.
  apply growing_bind; [apply growing_insertSymbol | intros [existing|]]; [|apply growing_ret].
  apply growing_bind; [apply growing_get | intros s].
  apply growing_bind; [|intros _; apply growing_ret].
  destruct (symbolAt symbol s); [apply growing_error | apply growing_ret].
Qed.

Create HintDb hoist_growing.
#[local] Hint Resolve growing_ret growing_get growing_error growing_create growing_assign
  growing_pushReference growing_pushScopeRegionInfo growing_createAnonymousIdentifier
  growing_insertScope growing_insertScopeAndCheck growing_pushNamespaceNode
  growing_insertSymbol growing_insertSymbolAndCheck : hoist_growing.

(** Goes through a computation on the store; what is left are the calls of
    the functions that it is made of. *)
Ltac grow :=
  repeat first
    [ apply growing_ret
    | apply growing_bind; [|intros ?]
    | apply growing_forEach; intros ?
    | apply growing_mapM; intros ?
    | match goal with
      | |- growing (match ?x with _ => _ end) => destruct x
      | |- growing (if ?b then _ else _) => destruct b
      | |- growing (let (_, _) := ?x in _) => destruct x
      end
    | solve [eauto with hoist_growing] ].

Section Hoisting.

Variable analyzeType :
  Store -> list string -> NodeType ->
  option ResolvedType * list Diagnostic * list ReferenceEntry.
Variable tryGetBuiltinType : TokenObject -> option (option LinkedNode).
Variable analyzeFunc : list string -> NodeFunc -> Store -> Store.
Variable analyzeVarInitializer :
  list string -> option ResolvedType -> TokenObject -> NodeInitializer -> Store -> Store.
Variable analyzeStatBlock : list string -> NodeStatBlock -> Store -> Store.

Lemma growing_callAnalyzeType scope type : growing (callAnalyzeType analyzeType scope type).
Proof.
  intros s. unfold callAnalyzeType.
  destruct (analyzeType s scope type) as [[resolved ds] rs]. cbn [snd].
  apply storeExtends_fields; try reflexivity; by apply prefix_app_r.
Qed.

Lemma growing_hoistEnum parentScope nodeEnum : growing (hoistEnum parentScope nodeEnum).
Proof. unfold hoistEnum, hoistEnumMembers, assignMembersScopePath. cbv zeta. grow. Qed.

Lemma growing_hoistClassTemplateTypes scope types :
  growing (hoistClassTemplateTypes scope types).
Proof. unfold hoistClassTemplateTypes. grow. Qed.

Lemma growing_hoistBaseList scope bases : growing (hoistBaseList scope bases).
Proof. unfold hoistBaseList, hoistBase. grow. Qed.

Lemma growing_copyBaseMembers scope bases : growing (copyBaseMembers scope bases).
Proof. unfold copyBaseMembers, copyBaseMember. grow. Qed.

Lemma growing_hoistClassBase scope symbol : growing (hoistClassBase scope symbol).
Proof.
  unfold hoistClassBase. cbv zeta.
  apply growing_bind; [apply growing_get | intros s].
  destruct (symbolAt symbol s) as [[t| |]|]; try apply growing_ret.
  destruct (baseList t) as [bases|]; [|apply growing_ret].
  apply growing_bind; [apply growing_copyBaseMembers | intros _].
  grow.
Qed.

Lemma growing_hoistTypeDef parentScope typeDef :
  growing (hoistTypeDef tryGetBuiltinType parentScope typeDef).
Proof. unfold hoistTypeDef. grow. Qed.

Lemma growing_hoistParamList scope paramList :
  growing (hoistParamList analyzeType scope paramList).
Proof.
  unfold hoistParamList. apply growing_mapM. intros param.
  apply growing_bind; [apply growing_callAnalyzeType | intros type]. grow.
Qed.

Lemma growing_insertVariables scope varType nodeVar isInstanceMember :
  growing (insertVariables scope varType nodeVar isInstanceMember).
Proof. unfold insertVariables. grow. Qed.

Lemma growing_hoistIntfMethod parentScope intfMethod :
  growing (hoistIntfMethod analyzeType parentScope intfMethod).
Proof.
  unfold hoistIntfMethod.
  apply growing_bind; [apply growing_callAnalyzeType | intros returnType]. grow.
Qed.

Lemma growing_namespaceScopes namespaceNodeId namespaceList : forall scopeIterator,
  growing (namespaceScopes scopeIterator namespaceNodeId namespaceList).
Proof.
  induction namespaceList as [|namespaceToken rest IH]; intros scopeIterator;
    [apply growing_ret|].
  cbn [namespaceScopes].
  apply growing_bind; [apply growing_insertScopeAndCheck | intros scope].
  apply growing_bind; [apply growing_pushNamespaceNode | intros _; apply IH].
Qed.

#[local] Hint Resolve growing_callAnalyzeType growing_hoistEnum growing_hoistClassTemplateTypes
  growing_hoistBaseList growing_copyBaseMembers growing_hoistClassBase growing_hoistTypeDef
  growing_hoistParamList growing_insertVariables growing_hoistIntfMethod
  growing_namespaceScopes : hoist_growing.

(** *** The closures of the hoist queue *)

(** A closure that hoists: it runs no analysis, and what it still hoists
    sends its analyses to the analyze queue. *)
Definition hoistStep (t : Task) : Prop :=
  match t with
  | ClassMembersTask _ _ _ analyzeQueue _ => analyzeQueue = TheAnalyzeQueue
  | InterfaceMembersTask _ _ _ analyzeQueue _ => analyzeQueue = TheAnalyzeQueue
  | ClassBaseTask _ _ | ParamListTask _ _ _
  | FuncDefReturnTask _ _ _ | FuncDefParamsTask _ _ _ => True
  | AnalyzeFuncTask _ _ | AnalyzeVarTask _ _ _ | AnalyzeStatBlockTask _ _ => False
  end.

(** A computation that only adds to the store and adds only hoisting closures
    to the hoist queue. *)
Definition orderly {A} (m : H A) : Prop :=
  forall w,
    storeExtends (store w) (store (snd (m w))) /\
    exists l, hoistQueue (snd (m w)) = hoistQueue w ++ l /\ Forall hoistStep l.

Lemma orderly_ret {A} (a : A) : orderly (ret (St := World) a).
Proof.
  intros w. split; [apply storeExtends_refl|]. exists []. by rewrite app_nil_r.
Qed.

Lemma orderly_bind {A B} (m : H A) (k : A -> H B) :
  orderly m -> (forall a, orderly (k a)) -> orderly (bind m k).
Proof.
  intros Hm Hk w. unfold bind. specialize (Hm w). destruct (m w) as [a w1].
  cbn [snd] in Hm. destruct Hm as (S1 & l1 & Q1 & F1).
  destruct (Hk a w1) as (S2 & l2 & Q2 & F2).
  split; [eapply storeExtends_trans; eauto|].
  exists (l1 ++ l2). rewrite Q2, Q1, <- app_assoc. split; [reflexivity|].
  by apply Forall_app.
Qed.

Lemma orderly_liftS {A} (m : State Store A) : growing m -> orderly (liftS m).
Proof.
  intros Hm w. unfold liftS. specialize (Hm (store w)).
  destruct (m (store w)) as [a s']. cbn [snd store hoistQueue] in *.
  split; [exact Hm|]. exists []. by rewrite app_nil_r.
Qed.

Lemma orderly_forEach {A} (l : list A) (body : A -> H unit) :
  (forall x, orderly (body x)) -> orderly (forEach l body).
Proof.
  intros Hbody. induction l as [|x l IH]; [apply orderly_ret|].
  change (forEach (x :: l) body) with (bind (body x) (fun _ => forEach l body)).
  apply orderly_bind; [apply Hbody | intros _; exact IH].
Qed.

Lemma orderly_push_analysis t : orderly (push TheAnalyzeQueue t).
Proof.
  intros w. cbn. split; [apply storeExtends_refl|]. exists []. by rewrite app_nil_r.
Qed.

Lemma orderly_push_step q t : hoistStep t -> orderly (push q t).
Proof.
  intros Ht w. destruct q; cbn.
  - split; [apply storeExtends_refl|]. exists []. by rewrite app_nil_r.
  - split; [apply storeExtends_refl|]. exists [t]. split; [reflexivity|]. by constructor.
Qed.

(** Goes through a hoist function that sends its analyses to the analyze
    queue. *)
Ltac put_in_order :=
  repeat first
    [ apply orderly_ret
    | apply orderly_bind; [|intros ?]
    | apply orderly_liftS; solve [grow]
    | apply orderly_push_analysis
    | apply orderly_push_step; solve [exact I | reflexivity]
    | match goal with
      | |- orderly (match ?x with _ => _ end) => destruct x
      | |- orderly (if ?b then _ else _) => destruct b
      end ].

Lemma orderly_hoistFunc parentScope nodeFunc hq isInstanceMember :
  orderly (hoistFunc analyzeType parentScope nodeFunc TheAnalyzeQueue hq isInstanceMember).
Proof. unfold hoistFunc, assignTemplateTypes, assignReturnType. cbv zeta. put_in_order. Qed.

Lemma orderly_hoistVar scope nodeVar isInstanceMember :
  orderly (hoistVar analyzeType scope nodeVar TheAnalyzeQueue isInstanceMember).
Proof. unfold hoistVar. put_in_order. Qed.

Lemma orderly_hoistFuncDef parentScope funcDef hq :
  orderly (hoistFuncDef parentScope funcDef TheAnalyzeQueue hq).
Proof. unfold hoistFuncDef. put_in_order. Qed.

Lemma orderly_hoistVirtualProp parentScope virtualProp hq isInstanceMember :
  orderly (hoistVirtualProp analyzeType parentScope virtualProp TheAnalyzeQueue hq
                         isInstanceMember).
Proof. unfold hoistVirtualProp. cbv zeta. put_in_order. Qed.

Lemma orderly_hoistClassMembers scope nodeClass hq :
  orderly (hoistClassMembers analyzeType scope nodeClass TheAnalyzeQueue hq).
Proof.
  unfold hoistClassMembers. apply orderly_forEach. intros [n|n|n|n].
  - apply orderly_hoistVirtualProp.
  - apply orderly_hoistFunc.
  - apply orderly_hoistVar.
  - apply orderly_hoistFuncDef.
Qed.

Lemma orderly_hoistInterfaceMembers scope nodeInterface hq :
  orderly (hoistInterfaceMembers analyzeType scope nodeInterface TheAnalyzeQueue hq).
Proof.
  unfold hoistInterfaceMembers. apply orderly_forEach. intros [n|n].
  - apply orderly_hoistVirtualProp.
  - apply orderly_liftS. apply growing_hoistIntfMethod.
Qed.

Lemma orderly_hoistClass parentScope nodeClass hq :
  orderly (hoistClass parentScope nodeClass TheAnalyzeQueue hq).
Proof.
  unfold hoistClass, assignMembersScopePath, assignTemplateTypes, assignBaseList.
  cbv zeta. put_in_order.
Qed.

Lemma orderly_hoistInterface parentScope nodeInterface hq :
  orderly (hoistInterface parentScope nodeInterface TheAnalyzeQueue hq).
Proof.
  unfold hoistInterface, assignMembersScopePath, assignBaseList. cbv zeta. put_in_order.
Qed.

Lemma orderly_hoistStatement :
  forall statement parentScope hq,
    orderly (hoistStatement analyzeType tryGetBuiltinType parentScope statement
                         TheAnalyzeQueue hq).
Proof.
  fix IH 1.
  intros [n|n|n|n|n|n|n|n|n|nodeId namespaceList script nodeRange|] parentScope hq;
    simpl hoistStatement.
  - apply orderly_liftS, growing_hoistEnum.
  - apply orderly_liftS, growing_hoistTypeDef.
  - apply orderly_hoistClass.
  - apply orderly_hoistClass.
  - apply orderly_hoistInterface.
  - apply orderly_hoistFuncDef.
  - apply orderly_hoistVirtualProp.
  - apply orderly_hoistVar.
  - apply orderly_hoistFunc.
  - destruct (length namespaceList =? 0); [apply orderly_ret|].
    apply orderly_bind; [apply orderly_liftS, growing_namespaceScopes | intros scopeIterator].
    apply orderly_bind; [| intros ?; apply orderly_liftS, growing_pushScopeRegionInfo].
    induction script as [|statement script IHscript]; [apply orderly_ret|].
    apply orderly_bind; [apply IH | intros _; exact IHscript].
  - apply orderly_ret.
Qed.

Lemma orderly_hoistScript parentScope ast hq :
  orderly (hoistScript analyzeType tryGetBuiltinType parentScope ast TheAnalyzeQueue hq).
Proof.
  unfold hoistScript. apply orderly_forEach. intros statement. apply orderly_hoistStatement.
Qed.

Lemma orderly_runTask t :
  hoistStep t ->
  orderly (runTask analyzeType analyzeFunc analyzeVarInitializer analyzeStatBlock t).
Proof.
  destruct t as [scope nodeClass symbol aq hq|scope symbol|scope nodeInterface bases aq hq
                |symbol functionScope paramList|symbol parentScope funcDef
                |symbol parentScope funcDef| | |]; cbn [hoistStep runTask]; intros Ht;
    try contradiction.
  - subst aq. apply orderly_bind; [apply orderly_hoistClassMembers | intros _].
    by apply orderly_push_step.
  - apply orderly_liftS, growing_hoistClassBase.
  - subst aq. apply orderly_bind; [apply orderly_hoistInterfaceMembers | intros _].
    destruct bases; [apply orderly_liftS, growing_copyBaseMembers | apply orderly_ret].
  - unfold assignParameterTypes. put_in_order.
  - unfold assignReturnType. put_in_order.
  - unfold assignParameterTypes. put_in_order.
Qed.

Lemma drain_hoistQueue_tidy : forall fuel w w',
  Forall hoistStep (hoistQueue w) ->
  drain analyzeType analyzeFunc analyzeVarInitializer analyzeStatBlock fuel TheHoistQueue w
    = Some w' ->
  storeExtends (store w) (store w') /\
  exists l, executed w' = executed w ++ l /\ Forall (fun e => hoistStep (snd e)) l.
Proof.
  induction fuel as [|fuel IH]; intros w w' Hq Hd.
  - cbn [drain queueOf] in Hd. destruct (hoistQueue w); [|discriminate].
    injection Hd as <-. split; [apply storeExtends_refl|]. exists []. by rewrite app_nil_r.
  - cbn [drain queueOf] in Hd. destruct (hoistQueue w) as [|next rest] eqn:E.
    + injection Hd as <-. split; [apply storeExtends_refl|]. exists []. by rewrite app_nil_r.
    + apply Forall_cons in Hq as [Hnext Hrest].
      cbn [setQueue store analyzeQueue hoistQueue executed] in Hd.
      set (w1 := mkWorld (store w) (analyzeQueue w) rest (executed w ++ [(TheHoistQueue, next)]))
        in Hd.
      destruct (orderly_runTask next Hnext w1) as (S1 & l1 & Q1 & F1).
      pose proof (HoistOrder.runTask_pushes analyzeType analyzeFunc analyzeVarInitializer
                    analyzeStatBlock next w1) as [E1 _].
      destruct (IH _ w' ltac:(rewrite Q1; by apply Forall_app) Hd) as (S2 & l2 & E2 & F2).
      split; [eapply storeExtends_trans; [exact S1 | exact S2]|].
      exists ((TheHoistQueue, next) :: l2).
      rewrite E2, E1. cbn [w1 executed]. rewrite <- app_assoc. split; [reflexivity|].
      by constructor.
Qed.

(** X22 ([hoistAfterParsed] and the hoist functions): hoisting only adds.
    With fuel for the closures that the walk has queued, [hoistAfterParsed]
    returns, and in the store it leaves every diagnostic, reference and scope
    region that was there is still there, in place; no symbol object and no
    scope is gone; and every name declared in a scope is still declared
    there with the symbols it had.  The closures it has run all hoist: no
    analysis of a function body, variable initializer or statement block has
    run. *)
Theorem hoistAfterParsed_only_adds
    (ast : NodeScript) (globalScope : list string) (s : Store) (fuel : nat) :
  pendingWeight (HoistOrder.walked analyzeType tryGetBuiltinType ast globalScope s) <= fuel ->
  exists w,
    hoistAfterParsed analyzeType tryGetBuiltinType analyzeFunc analyzeVarInitializer
                     analyzeStatBlock fuel ast globalScope s = Some w /\
    storeExtends s (store w) /\
    Forall (fun e => hoistStep (snd e)) (executed w).
Proof.
  intros Hfuel.
  destruct (HoistOrder.drain_ends analyzeType analyzeFunc analyzeVarInitializer
              analyzeStatBlock TheHoistQueue fuel _ Hfuel) as (w & l & Hd & _).
  exists w. split; [exact Hd|].
  unfold HoistOrder.walked in Hd.
  destruct (orderly_hoistScript globalScope ast TheHoistQueue (mkWorld s [] [] []))
    as (S0 & l0 & Q0 & F0).
  cbn [store hoistQueue app] in S0, Q0.
  destruct (drain_hoistQueue_tidy fuel _ w ltac:(by rewrite Q0) Hd) as (S1 & l1 & E1 & F1).
  split; [eapply storeExtends_trans; eauto|].
  rewrite E1, HoistOrder.hoistScript_silent. exact F1.
Qed.

End Hoisting.

(** The program [void g() {}  namespace N { class A { } }] is hoisted. *)
Lemma hoistAfterParsed_only_adds_namespaced :
  pendingWeight (HoistOrder.walked HoistOrder.unresolved (fun _ => None)
                   HoistOrder.namespaced [] HoistOrder.emptyGlobal) <= 4 /\
  exists w,
    hoistAfterParsed HoistOrder.unresolved (fun _ => None) (fun _ _ s => s)
      (fun _ _ _ _ s => s) (fun _ _ s => s) 4 HoistOrder.namespaced []
      HoistOrder.emptyGlobal = Some w /\
    storeExtends HoistOrder.emptyGlobal (store w) /\
    Forall (fun e => hoistStep (snd e)) (executed w).
Proof.
  assert (Hfuel : pendingWeight (HoistOrder.walked HoistOrder.unresolved (fun _ => None)
                                   HoistOrder.namespaced [] HoistOrder.emptyGlobal) <= 4)
    by (vm_compute; lia).
  split; [exact Hfuel|].
  exact (hoistAfterParsed_only_adds HoistOrder.unresolved (fun _ => None) (fun _ _ s => s)
           (fun _ _ _ _ s => s) (fun _ _ s => s) HoistOrder.namespaced []
           HoistOrder.emptyGlobal 4 Hfuel).
Defined.

(** *** Base lists *)

(** What [hoistBaseList] leaves for a base and its entry of the list: a
    reference from the identifier for a resolved base, ... *)
Definition baseReference (entry : TokenObject * option ResolvedType) : option ReferenceEntry :=
  match snd entry with
  | Some resolved => Some (mkReference (typeOrFunc resolved) (fst entry))
  | None => None
  end.

(** ... and the place of a diagnostic for a base that is not resolved. *)
Definition baseComplaint (entry : TokenObject * option ResolvedType) : option TokenLocation :=
  match snd entry with
  | Some _ => None
  | None => Some (location (fst entry))
  end.

(** The store [s] with the diagnostics [ds] and the references [rs] added. *)
Definition withReports (s : Store) (ds : list Diagnostic) (rs : list ReferenceEntry) : Store :=
  setReferences (references s ++ rs) (setDiagnostics (diagnostics s ++ ds) s).

Lemma reported_nil s : withReports s [] [] = s.
Proof. unfold withReports. cbn. rewrite !app_nil_r. by destruct s. Qed.

Lemma reported_reported s ds rs ds' rs' :
  withReports (withReports s ds rs) ds' rs' = withReports s (ds ++ ds') (rs ++ rs').
Proof. unfold withReports. cbn. by rewrite !app_assoc. Qed.

Lemma hoistBase_reports scope baseIdentifier s :
  exists entry ds,
    hoistBase scope baseIdentifier s =
      (entry, withReports s ds (option_list (baseReference (baseIdentifier, entry)))) /\
    map diagLocation ds = option_list (baseComplaint (baseIdentifier, entry)).
Proof.
  unfold hoistBase, bind, get.
  assert (Hfail : forall msg,
    exists entry ds,
      (error (location baseIdentifier) msg;; ret None) s =
        (entry, withReports s ds (option_list (baseReference (baseIdentifier, entry)))) /\
      map diagLocation ds = option_list (baseComplaint (baseIdentifier, entry))).
  { intros msg. exists None, [mkDiag (location baseIdentifier) msg]. split; [|reflexivity].
    unfold withReports. cbn. rewrite app_nil_r. by destruct s. }
  destruct (findSymbolWithParent scope (text baseIdentifier) s) as [[[r|f rest] found]|];
    [|apply Hfail|apply Hfail].
  destruct (symbolAt r s) as [[t|v|f]|]; [|apply Hfail|apply Hfail|apply Hfail].
  exists (Some (newResolvedType r)), []. split; [|reflexivity].
  unfold withReports. cbn. rewrite app_nil_r. by destruct s.
Qed.

Lemma hoistBases_report scope (bases : list TokenObject) : forall s,
  exists l ds,
    mapM (hoistBase scope) bases s =
      (l, withReports s ds (omap baseReference (zip bases l))) /\
    length l = length bases /\
    map diagLocation ds = omap baseComplaint (zip bases l).
Proof.
  induction bases as [|b bases IH]; intros s.
  - exists [], []. cbn. by rewrite reported_nil.
  - destruct (hoistBase_reports scope b s) as (entry & ds1 & E1 & D1).
    destruct (IH (withReports s ds1 (option_list (baseReference (b, entry)))))
      as (l & ds2 & E2 & L2 & D2).
    exists (entry :: l), (ds1 ++ ds2).
    cbn [mapM]. unfold bind at 1. rewrite E1. unfold bind at 1. rewrite E2.
    cbn [ret zip zip_with length]. rewrite reported_reported.
    split; [|split; [by rewrite L2|]].
    + f_equal. f_equal. cbn [omap list_omap]. destruct (baseReference (b, entry)); reflexivity.
    + rewrite map_app, D1, D2. cbn [omap list_omap].
      destruct (baseComplaint (b, entry)); reflexivity.
Qed.

(** X23 ([hoistBaseList], the loop of it): without bases the result is
    undefined and nothing changes.  Otherwise the list has one entry for each
    base, in order; a base that resolves to a type leaves a reference from
    its identifier to that type, any other base leaves an undefined entry
    and one diagnostic at its identifier; scopes and symbols stay as they
    are. *)
Theorem hoistBaseList_one_entry_each (scope : list string) (bases : list TokenObject)
    (s : Store) :
  match hoistBaseList scope bases s with
  | (None, s') => bases = [] /\ s' = s
  | (Some l, s') =>
      bases <> [] /\ length l = length bases /\
      exists ds,
        s' = withReports s ds (omap baseReference (zip bases l)) /\
        map diagLocation ds = omap baseComplaint (zip bases l)
  end.
Proof.
  unfold hoistBaseList. destruct bases as [|b bases]; [by cbn|].
  cbn [length Nat.eqb]. unfold bind.
  destruct (hoistBases_report scope (b :: bases) s) as (l & ds & E & L & D).
  rewrite E. cbn [ret]. split; [done|]. split; [exact L|]. exists ds. auto.
Qed.

(** *** Names that are taken *)

(** The store with a symbol object that was created and not entered in a
    table, and with the diagnostic for it. *)
Definition rejected (o : SymbolObject) (d : Diagnostic) (s : Store) : Store :=
  setDiagnostics (diagnostics s ++ [d]) (setSymbols (symbols s ++ [o]) s).

Lemma insertSymbolAndCheck_taken this o s holder :
  JsMap.get (symbolTableOf this s) (text (identifierToken o)) = Some holder ->
  isFunction o = false ->
  exists d,
    insertSymbolAndCheck this (length (symbols s)) (setSymbols (symbols s ++ [o]) s) =
      (false, rejected o d s).
Proof.
  intros Hget Hfun.
  exists (mkDiag (location (identifierToken o))
                 (duplicateSymbolMessage (text (identifierToken o)))).
  unfold insertSymbolAndCheck, bind at 1, insertSymbol, symbolAt.
  cbn [symbols setSymbols]. rewrite lookup_app_r by lia. rewrite Nat.sub_diag.
  cbn [lookup list_lookup]. cbv zeta.
  change (symbolTableOf this (setSymbols (symbols s ++ [o]) s)) with (symbolTableOf this s).
  rewrite Hget, Hfun.
  assert (Hback :
    (let* s0 := get in
     (match symbolAt (length (symbols s)) s0 with
      | Some o0 =>
          error (location (identifierToken o0))
                (duplicateSymbolMessage (text (identifierToken o0)))
      | None => ret tt
      end);; ret false) (setSymbols (symbols s ++ [o]) s) =
    (false, rejected o (mkDiag (location (identifierToken o))
                          (duplicateSymbolMessage (text (identifierToken o))))
                     s)).
  { unfold bind, get, symbolAt. cbn [symbols setSymbols].
    rewrite lookup_app_r by lia. rewrite Nat.sub_diag. reflexivity. }
  destruct holder as [r|f rest]; exact Hback.
Qed.

Section Taken.

Variable parentScope : list string.
Variable s : Store.

(** X24 ([hoistClass], [hoistInterface], [hoistEnum]): a class, an
    interface or an enum whose name is taken in the scope is dropped: its
    symbol object is created but entered in no table, one diagnostic is
    added, no scope is made for it, and nothing is queued, so its members
    are never hoisted. *)
Theorem type_of_a_taken_name_is_dropped :
  (forall nodeClass aq hq analyzeQueue hoistQueue executed holder,
     JsMap.get (symbolTableOf parentScope s) (text (classIdentifier nodeClass)) = Some holder ->
     exists d,
       hoistClass parentScope nodeClass aq hq (mkWorld s analyzeQueue hoistQueue executed) =
         (tt, mkWorld
                (rejected (SymType (mkSymbolType (classIdentifier nodeClass) parentScope
                                     (Some (mkLinked NameClass (classNodeId nodeClass)))
                                     None false None None)) d s)
                analyzeQueue hoistQueue executed)) /\
  (forall nodeInterface aq hq analyzeQueue hoistQueue executed holder,
     JsMap.get (symbolTableOf parentScope s) (text (interfaceIdentifier nodeInterface))
       = Some holder ->
     exists d,
       hoistInterface parentScope nodeInterface aq hq
                      (mkWorld s analyzeQueue hoistQueue executed) =
         (tt, mkWorld
                (rejected (SymType (mkSymbolType (interfaceIdentifier nodeInterface)
                                     parentScope
                                     (Some (mkLinked NameInterface
                                              (interfaceNodeId nodeInterface)))
                                     None false None None)) d s)
                analyzeQueue hoistQueue executed)) /\
  (forall nodeEnum holder,
     JsMap.get (symbolTableOf parentScope s) (text (enumIdentifier nodeEnum)) = Some holder ->
     exists d,
       hoistEnum parentScope nodeEnum s =
         (tt, rejected (SymType (mkSymbolType (enumIdentifier nodeEnum) parentScope
                                  (Some (mkLinked NameEnum (enumNodeId nodeEnum)))
                                  None false None None)) d s)).
Proof.
  split; [|split].
  - intros nodeClass aq hq aQ hQ ex holder Hget.
    destruct (insertSymbolAndCheck_taken parentScope
                (SymType (mkSymbolType (classIdentifier nodeClass) parentScope
                            (Some (mkLinked NameClass (classNodeId nodeClass)))
                            None false None None)) s holder Hget eq_refl) as [d E].
    exists d.
    unfold hoistClass. cbv zeta. unfold bind at 1. unfold liftS at 1. cbn [store create].
    unfold bind at 1. unfold liftS at 1. cbn [store]. rewrite E. reflexivity.
  - intros nodeInterface aq hq aQ hQ ex holder Hget.
    destruct (insertSymbolAndCheck_taken parentScope
                (SymType (mkSymbolType (interfaceIdentifier nodeInterface) parentScope
                            (Some (mkLinked NameInterface (interfaceNodeId nodeInterface)))
                            None false None None)) s holder Hget eq_refl) as [d E].
    exists d.
    unfold hoistInterface. cbv zeta. unfold bind at 1. unfold liftS at 1. cbn [store create].
    unfold bind at 1. unfold liftS at 1. cbn [store]. rewrite E. reflexivity.
  - intros nodeEnum holder Hget.
    destruct (insertSymbolAndCheck_taken parentScope
                (SymType (mkSymbolType (enumIdentifier nodeEnum) parentScope
                            (Some (mkLinked NameEnum (enumNodeId nodeEnum)))
                            None false None None)) s holder Hget eq_refl) as [d E].
    exists d.
    unfold hoistEnum. cbv zeta. unfold bind at 1. cbn [create].
    unfold bind at 1. rewrite E. reflexivity.
Qed.

End Taken.

(** The class [A] is declared where a variable [A] is. *)
Definition takenGlobal : Store :=
  mkStore {[ [] := mkScopeData None [("A", HolderSingle 0)] [] ]}
          [SymVariable (mkSymbolVariable (HoistOrder.token "A") [] None false None)]
          [] [] [] 0 true.

Lemma type_of_a_taken_name_is_dropped_A :
  JsMap.get (symbolTableOf [] takenGlobal) (text (classIdentifier HoistOrder.classA))
    = Some (HolderSingle 0) /\
  exists d,
    hoistClass [] HoistOrder.classA TheAnalyzeQueue TheHoistQueue
               (mkWorld takenGlobal [] [] []) =
      (tt, mkWorld
             (rejected (SymType (mkSymbolType (HoistOrder.token "A") []
                                  (Some (mkLinked NameClass 5)) None false None None))
                       d takenGlobal)
             [] [] []).
Proof.
  assert (Hget : JsMap.get (symbolTableOf [] takenGlobal)
                   (text (classIdentifier HoistOrder.classA)) = Some (HolderSingle 0))
    by (vm_compute; reflexivity).
  split; [exact Hget|].
  exact (proj1 (type_of_a_taken_name_is_dropped [] takenGlobal) HoistOrder.classA
           TheAnalyzeQueue TheHoistQueue [] [] [] (HolderSingle 0) Hget).
Defined.

(** *** Namespaces *)

(** The scope with the namespace node entered. *)
Definition entered (sc : ScopeData) (namespaceNodeId : nat) (token : TokenObject) : ScopeData :=
  mkScopeData (linkedNode sc) (symbolTable sc) (namespaceNodes sc ++ [(namespaceNodeId, token)]).

(** The path of the scope of the first [S i] names of a namespace. *)
Definition nested (p : list string) (namespaceList : list TokenObject) (i : nat)
    : list string :=
  p ++ map text (take (S i) namespaceList).

Lemma namespace_step this namespaceNodeId token s :
  (let* scopeIterator := insertScopeAndCheck this token None in
   pushNamespaceNode scopeIterator namespaceNodeId token;; ret scopeIterator) s =
  (this ++ [text token],
   setScopes (<[this ++ [text token] :=
                  entered (scopeAt (this ++ [text token]) s) namespaceNodeId token]>
                (scopes s)) s).
Proof.
  unfold insertScopeAndCheck, insertScope, pushNamespaceNode, updateScope, modify, bind, get,
    ret, scopeAt, entered.
  destruct (scopes s !! (this ++ [text token])) as [found|] eqn:Hfound.
  - cbn [scopes setScopes default]. rewrite Hfound. reflexivity.
  - cbn [scopes setScopes default]. rewrite lookup_insert_eq. cbn [default].
    rewrite insert_insert_eq. reflexivity.
Qed.

Lemma nested_cons p token rest i :
  nested p (token :: rest) (S i) = nested (p ++ [text token]) rest i.
Proof. unfold nested. cbn [take map]. by rewrite <- app_assoc. Qed.

Lemma nested_longer p l i : length p < length (nested p l i) \/ l = [].
Proof.
  destruct l as [|t l]; [by right|]. left.
  unfold nested. rewrite length_app. cbn. lia.
Qed.

(** X25 ([hoistNamespace], the loop over the names): for [namespace A::B]
    in a scope the loop ends in the scope [A::B] below it; each of the scopes
    [A] and [A::B] exists afterwards with the table and the node it had, or
    empty if it is new, and with the namespace node entered under its own
    name; no other scope changes, and nothing else of the store does: in
    particular nothing is reported. *)
Theorem namespaceScopes_enters_each (namespaceNodeId : nat)
    (namespaceList : list TokenObject) :
  forall (p : list string) (s : Store),
    match namespaceScopes p namespaceNodeId namespaceList s with
    | (scopeIterator, s') =>
        scopeIterator = p ++ map text namespaceList /\
        s' = setScopes (scopes s') s /\
        (forall i token, namespaceList !! i = Some token ->
           scopes s' !! nested p namespaceList i =
             Some (entered (scopeAt (nested p namespaceList i) s) namespaceNodeId token)) /\
        (forall q, (forall i, i < length namespaceList -> q <> nested p namespaceList i) ->
           scopes s' !! q = scopes s !! q)
    end.
Proof.
  induction namespaceList as [|token rest IH]; intros p s.
  - cbn [namespaceScopes ret map]. rewrite app_nil_r.
    split; [reflexivity|]. split; [by destruct s|]. split; [|reflexivity].
    intros i t Hi. by rewrite lookup_nil in Hi.
  - cbn [namespaceScopes].
    assert (Hsplit : forall k : list string -> State Store (list string),
              (let* scopeIterator := insertScopeAndCheck p token None in
               pushNamespaceNode scopeIterator namespaceNodeId token;; k scopeIterator) s =
              k (p ++ [text token])
                (snd ((let* scopeIterator := insertScopeAndCheck p token None in
                       pushNamespaceNode scopeIterator namespaceNodeId token;;
                       ret scopeIterator) s))).
    { intros k. unfold bind. destruct (insertScopeAndCheck p token None s) as [q s1] eqn:E.
      assert (Hq : q = p ++ [text token]).
      { unfold insertScopeAndCheck, insertScope, bind, get, ret in E.
        destruct (scopes s !! (p ++ [text token])); by injection E as <- _. }
      subst q. by destruct (pushNamespaceNode (p ++ [text token]) namespaceNodeId token s1). }
    rewrite (Hsplit (fun scopeIterator => namespaceScopes scopeIterator namespaceNodeId rest)).
    rewrite namespace_step. cbn [snd].
    set (child := p ++ [text token]).
    set (s1 := setScopes (<[child := entered (scopeAt child s) namespaceNodeId token]>
                            (scopes s)) s).
    specialize (IH child s1).
    destruct (namespaceScopes child namespaceNodeId rest s1) as [scopeIterator s'].
    destruct IH as (Hpath & Hrest & Hnew & Hold).
    assert (Hchild : forall i, child <> nested child rest i \/ rest = []).
    { intros i. destruct (nested_longer child rest i) as [Hlt|Hnil]; [left|by right].
      intros Heq. rewrite <- Heq in Hlt. lia. }
    assert (Hat : scopes s' !! child =
                  Some (entered (scopeAt child s) namespaceNodeId token)).
    { rewrite Hold.
      - subst s1. cbn [scopes setScopes]. by rewrite lookup_insert_eq.
      - intros i Hi. destruct (Hchild i) as [Hne|Hnil]; [exact Hne|].
        subst rest. cbn in Hi. lia. }
    split; [|split; [|split]].
    + rewrite Hpath. subst child. cbn [map]. by rewrite <- app_assoc.
    + rewrite Hrest. subst s1. reflexivity.
    + intros [|i] t Hi.
      * cbn in Hi. injection Hi as <-. exact Hat.
      * cbn [lookup list_lookup] in Hi. rewrite nested_cons. fold child.
        rewrite (Hnew i t Hi). f_equal. f_equal.
        unfold scopeAt. subst s1. cbn [scopes setScopes].
        rewrite lookup_insert_ne; [reflexivity|].
        destruct (Hchild i) as [Hne|Hnil]; [exact Hne|].
        subst rest. first [discriminate Hi | by rewrite lookup_nil in Hi].
    + intros q Hq. rewrite Hold.
      * subst s1. cbn [scopes setScopes]. rewrite lookup_insert_ne; [reflexivity|].
        intros <-. apply (Hq 0); [cbn; lia|]. unfold nested. reflexivity.
      * intros i Hi. unfold child. rewrite <- nested_cons. apply Hq. cbn. lia.
Qed.

(** [namespace N::M] at the top of a file. *)
Lemma namespaceScopes_enters_each_NM :
  [HoistOrder.token "N"; HoistOrder.token "M"] !! 1 = Some (HoistOrder.token "M") /\
  exists s',
    namespaceScopes [] 4 [HoistOrder.token "N"; HoistOrder.token "M"] HoistOrder.emptyGlobal =
      (["N"; "M"], s') /\
    scopes s' !! ["N"; "M"] = Some (entered emptyScope 4 (HoistOrder.token "M")).
Proof.
  split; [reflexivity|].
  pose proof (namespaceScopes_enters_each 4 [HoistOrder.token "N"; HoistOrder.token "M"] []
                HoistOrder.emptyGlobal) as H.
  destruct (namespaceScopes [] 4 [HoistOrder.token "N"; HoistOrder.token "M"]
                            HoistOrder.emptyGlobal) as [r s'].
  destruct H as (Hr & _ & Hnew & _).
  exists s'. split; [by rewrite Hr|].
  assert (Hs : scopeAt (nested [] [HoistOrder.token "N"; HoistOrder.token "M"] 1)
                       HoistOrder.emptyGlobal = emptyScope) by (vm_compute; reflexivity).
  pose proof (Hnew 1 _ eq_refl) as H1. rewrite Hs in H1. exact H1.
Defined.

(** *** Parameter types *)

Lemma mapM_length {St A B} (f : A -> State St B) (l : list A) : forall s,
  length (fst (mapM f l s)) = length l.
Proof.
  induction l as [|x l IH]; intros s; [reflexivity|].
  cbn [mapM]. unfold bind. destruct (f x s) as [y s1].
  specialize (IH s1). destruct (mapM f l s1) as [ys s2]. cbn in *. by rewrite IH.
Qed.

(** What [mapM] returns at a place is what the function returns for the
    element at that place, in the state as the elements before it have left
    it. *)
Lemma mapM_lookup {St A B} (f : A -> State St B) (l : list A) : forall s i x,
  l !! i = Some x ->
  fst (mapM f l s) !! i = Some (fst (f x (snd (mapM f (take i l) s)))).
Proof.
  induction l as [|y l IH]; intros s i x Hi; [by rewrite lookup_nil in Hi|].
  cbn [mapM]. unfold bind. destruct i as [|i].
  - injection Hi as ->. cbn [take mapM ret snd]. destruct (f x s) as [b s1].
    by destruct (mapM f l s1).
  - cbn [take mapM]. unfold bind. cbn in Hi.
    destruct (f y s) as [b s1]. specialize (IH s1 i x Hi).
    destruct (mapM f l s1) as [ys s2]. cbn [fst] in *.
    destruct (mapM f (take i l) s1) as [zs s3]. exact IH.
Qed.

(** A computation on the store that leaves the symbol objects as they are and
    only creates new ones. *)
Definition creating {A} (m : State Store A) : Prop :=
  forall s, symbols s `prefix_of` symbols (snd (m s)).

Lemma creating_ret {A} (a : A) : creating (ret (St := Store) a).
Proof. intros s. reflexivity. Qed.

Lemma creating_bind {A B} (m : State Store A) (k : A -> State Store B) :
  creating m -> (forall a, creating (k a)) -> creating (bind m k).
Proof.
  intros Hm Hk s. unfold bind. specialize (Hm s). destruct (m s) as [a s1].
  etrans; [exact Hm | apply Hk].
Qed.

Lemma creating_mapM {A B} (f : A -> State Store B) (l : list A) :
  (forall x, creating (f x)) -> creating (mapM f l).
Proof.
  intros Hf. induction l as [|x l IH]; [apply creating_ret|].
  cbn [mapM]. apply creating_bind; [apply Hf | intros y].
  apply creating_bind; [exact IH | intros ys; apply creating_ret].
Qed.

Lemma creating_create o : creating (create o).
Proof. intros s. cbn. by apply prefix_app_r. Qed.

Lemma creating_insertSymbolAndCheck this symbol : creating (insertSymbolAndCheck this symbol).
Proof.
  intros s. unfold insertSymbolAndCheck, bind, insertSymbol.
  destruct (symbolAt symbol s) as [o|] eqn:Ho; [|reflexivity]. cbv zeta.
  destruct (JsMap.get (symbolTableOf this s) (text (identifierToken o))) as [[r|f rest]|];
    cbn; try reflexivity.
  - unfold symbolAt in *. rewrite Ho. reflexivity.
  - destruct (isFunction o); cbn; [reflexivity|].
    unfold symbolAt in *. rewrite Ho. reflexivity.
Qed.

Section Parameters.

Variable analyzeType :
  Store -> list string -> NodeType ->
  option ResolvedType * list Diagnostic * list ReferenceEntry.
Variable analyzeFunc : list string -> NodeFunc -> Store -> Store.
Variable analyzeVarInitializer :
  list string -> option ResolvedType -> TokenObject -> NodeInitializer -> Store -> Store.
Variable analyzeStatBlock : list string -> NodeStatBlock -> Store -> Store.

Lemma creating_callAnalyzeType scope type : creating (callAnalyzeType analyzeType scope type).
Proof.
  intros s. unfold callAnalyzeType. by destruct (analyzeType s scope type) as [[resolved ds] rs].
Qed.

Lemma creating_hoistParamList scope paramList :
  creating (hoistParamList analyzeType scope paramList).
Proof.
  unfold hoistParamList. apply creating_mapM. intros param.
  apply creating_bind; [apply creating_callAnalyzeType | intros type].
  destruct (paramIdentifier param); [|apply creating_ret].
  apply creating_bind; [apply creating_create | intros symbol].
  apply creating_bind; [apply creating_insertSymbolAndCheck | intros ?; apply creating_ret].
Qed.

(** The function symbol with other parameter types. *)
Definition withParameterTypes (f : SymbolFunction) (types : list (option ResolvedType))
    : SymbolFunction :=
  mkSymbolFunction (funcIdentifierToken f) (funcScopePath f) (returnType f) types
                   (funcLinkedNode f) (functionScopePath f) (funcIsInstanceMember f)
                   (funcAccessRestriction f) (funcTemplateTypes f).

Lemma assignParameterTypes_at symbol types s f :
  symbolAt symbol s = Some (SymFunction f) ->
  symbolAt symbol (snd (assignParameterTypes symbol types s)) =
    Some (SymFunction (withParameterTypes f types)).
Proof.
  unfold symbolAt, assignParameterTypes, assign, modify. cbn [snd symbols setSymbols].
  intros Hf. rewrite list_lookup_alter_eq, Hf. reflexivity.
Qed.

(** The type that [hoistParamList] pushes for a parameter is the one that
    [analyzeType] gives for its type node. *)
Lemma hoistParam_type scope param s :
  fst ((let* type := callAnalyzeType analyzeType scope (paramType param) in
        match paramIdentifier param with
        | None => ret type
        | Some identifier =>
            let* symbol := create (SymVariable
              (mkSymbolVariable identifier scope type false None)) in
            let* _ := insertSymbolAndCheck scope symbol in
            ret type
        end) s) =
  fst (fst (analyzeType s scope (paramType param))).
Proof.
  unfold bind, callAnalyzeType. destruct (analyzeType s scope (paramType param)) as [[type ds] rs].
  destruct (paramIdentifier param) as [identifier|]; [|reflexivity].
  cbn [create]. by destruct (insertSymbolAndCheck _ _ _).
Qed.

Lemma callAnalyzeType_type scope type s :
  fst (callAnalyzeType analyzeType scope type s) = fst (fst (analyzeType s scope type)).
Proof. unfold callAnalyzeType. by destruct (analyzeType s scope type) as [[resolved ds] rs]. Qed.

(** X26 (the closures that [hoistFunc] and [hoistFuncDef] push on the hoist
    queue): when the closure runs, the function symbol gets exactly one
    parameter type for each declared parameter, in order, named or not, and
    whether or not the type resolves: the type at the place of a parameter is
    what [analyzeType] gives for the type node of that parameter, in the
    store as the parameters before it have left it.  Everything else of the
    symbol stays, and neither queue changes. *)
Theorem parameter_types_one_for_each (symbol : nat) (scope : list string)
    (f : SymbolFunction) (w : World) :
  symbolAt symbol (store w) = Some (SymFunction f) ->
  (forall paramList,
     let w' := snd (runTask analyzeType analyzeFunc analyzeVarInitializer analyzeStatBlock
                            (ParamListTask symbol scope paramList) w) in
     exists types,
       length types = length paramList /\
       (forall i param,
          paramList !! i = Some param ->
          types !! i =
            Some (fst (fst (analyzeType
                              (snd (hoistParamList analyzeType scope (take i paramList)
                                                   (store w)))
                              scope (paramType param))))) /\
       symbolAt symbol (store w') = Some (SymFunction (withParameterTypes f types)) /\
       analyzeQueue w' = analyzeQueue w /\ hoistQueue w' = hoistQueue w) /\
  (forall funcDef,
     let w' := snd (runTask analyzeType analyzeFunc analyzeVarInitializer analyzeStatBlock
                            (FuncDefParamsTask symbol scope funcDef) w) in
     exists types,
       length types = length (funcDefParamList funcDef) /\
       (forall i param,
          funcDefParamList funcDef !! i = Some param ->
          types !! i =
            Some (fst (fst (analyzeType
                              (snd (mapM (fun param =>
                                            callAnalyzeType analyzeType scope (paramType param))
                                         (take i (funcDefParamList funcDef)) (store w)))
                              scope (paramType param))))) /\
       symbolAt symbol (store w') = Some (SymFunction (withParameterTypes f types)) /\
       analyzeQueue w' = analyzeQueue w /\ hoistQueue w' = hoistQueue w).
Proof.
  intros Hf. split.
  - intros paramList. cbn [runTask]. unfold bind, liftS.
    pose proof (mapM_length (fun param =>
                  let* type := callAnalyzeType analyzeType scope (paramType param) in
                  match paramIdentifier param with
                  | Some identifier =>
                      let* symbol := create (SymVariable
                        (mkSymbolVariable identifier scope type false None)) in
                      let* _ := insertSymbolAndCheck scope symbol in ret type
                  | None => ret type
                  end) paramList (store w)) as Hlen.
    pose proof (mapM_lookup (fun param =>
                  let* type := callAnalyzeType analyzeType scope (paramType param) in
                  match paramIdentifier param with
                  | Some identifier =>
                      let* symbol := create (SymVariable
                        (mkSymbolVariable identifier scope type false None)) in
                      let* _ := insertSymbolAndCheck scope symbol in ret type
                  | None => ret type
                  end) paramList (store w)) as Hat_i.
    pose proof (creating_hoistParamList scope paramList (store w)) as Hpre.
    unfold hoistParamList in *.
    destruct (mapM _ paramList (store w)) as [types s1]. cbn [fst snd] in *.
    cbn [store analyzeQueue hoistQueue].
    pose proof (assignParameterTypes_at symbol types s1 f) as Hat.
    destruct (assignParameterTypes symbol types s1) as [[] s2]. cbn [snd] in *.
    exists types. split; [exact Hlen|]. split; [|split; [|by split]].
    + intros i param Hi. rewrite (Hat_i i param Hi). f_equal. apply hoistParam_type.
    + apply Hat. unfold symbolAt in *. destruct Hpre as [k ->].
      by apply lookup_app_l_Some.
  - intros funcDef. cbn [runTask]. unfold bind, liftS.
    pose proof (mapM_length (fun param => callAnalyzeType analyzeType scope (paramType param))
                            (funcDefParamList funcDef) (store w)) as Hlen.
    pose proof (mapM_lookup (fun param => callAnalyzeType analyzeType scope (paramType param))
                            (funcDefParamList funcDef) (store w)) as Hat_i.
    pose proof (creating_mapM (fun param => callAnalyzeType analyzeType scope (paramType param))
                  (funcDefParamList funcDef)
                  (fun param => creating_callAnalyzeType scope (paramType param)) (store w))
      as Hpre.
    destruct (mapM _ (funcDefParamList funcDef) (store w)) as [types s1]. cbn [fst snd] in *.
    cbn [store analyzeQueue hoistQueue].
    pose proof (assignParameterTypes_at symbol types s1 f) as Hat.
    destruct (assignParameterTypes symbol types s1) as [[] s2]. cbn [snd] in *.
    exists types. split; [exact Hlen|]. split; [|split; [|by split]].
    + intros i param Hi. rewrite (Hat_i i param Hi). f_equal. apply callAnalyzeType_type.
    + apply Hat. unfold symbolAt in *. destruct Hpre as [k ->].
      by apply lookup_app_l_Some.
Qed.

End Parameters.

(** The closure for [g(int a, int)] in a store that holds the primitive
    types and, as symbol 2, the symbol of [g]; type names are resolved in the
    scopes. *)
Definition symbolG : SymbolFunction :=
  mkSymbolFunction (HoistSpec.tok "g") [] None [] (mkLinked NameFunc 1)
                   (Some ["g"; "~1"]) false None None.
Definition storeG : Store :=
  setSymbols (symbols HoistSpec.primitives ++ [SymFunction symbolG]) HoistSpec.primitives.
Definition paramsG : NodeParamList :=
  [mkParam (mkNodeType 6 (HoistSpec.tok "int")) (Some (HoistSpec.tok "a"));
   mkParam (mkNodeType 7 (HoistSpec.tok "int")) None].

Lemma parameter_types_one_for_each_g :
  symbolAt 2 (store (mkWorld storeG [] [] [])) = Some (SymFunction symbolG) /\
  exists types,
    length types = 2 /\
    types !! 0 = Some (Some (newResolvedType 0)) /\
    types !! 1 = Some (Some (newResolvedType 0)) /\
    symbolAt 2 (store (snd (runTask HoistSpec.resolveByName (fun _ _ s => s)
                              (fun _ _ _ _ s => s) (fun _ _ s => s)
                              (ParamListTask 2 ["g"; "~1"] paramsG)
                              (mkWorld storeG [] [] []))))
      = Some (SymFunction (withParameterTypes symbolG types)).
Proof.
  assert (Hf : symbolAt 2 (store (mkWorld storeG [] [] [])) = Some (SymFunction symbolG))
    by reflexivity.
  split; [exact Hf|].
  destruct (proj1 (parameter_types_one_for_each HoistSpec.resolveByName (fun _ _ s => s)
                     (fun _ _ _ _ s => s) (fun _ _ s => s) 2 ["g"; "~1"] symbolG
                     (mkWorld storeG [] [] []) Hf) paramsG) as (types & Hlen & Hi & Hat & _).
  exists types. split; [exact Hlen|].
  split; [rewrite (Hi 0 _ eq_refl); vm_compute; reflexivity|].
  split; [rewrite (Hi 1 _ eq_refl); vm_compute; reflexivity | exact Hat].
Defined.

End HoistFacts.
